(** * Graph algorithms of the tutorial repository, embedded and verified

    The Python sources under [code/] are embedded shallowly:

    - a Python [dict] is an insertion-ordered association list with unique
      keys ([dict_get], [dict_set], [dict_del]); iteration follows the list;
    - a Python [set] is a [gset]; where the code iterates over a set, the
      order is the one [elements] happens to give, and no statement below
      depends on it;
    - [collections.deque] used as a FIFO queue is a list, oldest entry first;
    - a list used as a LIFO stack is a list whose head is the top;
    - a [heapq] priority queue is the list of its entries, and [heappop]
      takes out the least entry in the order of Python tuples;
    - [while] loops and recursive functions take fuel, and every top-level
      function passes a bound computed from its input; running out of fuel
      is a separate outcome [OutOfFuel], which the theorems exclude;
    - an uncaught [KeyError] is the outcome [Raise KeyError];
    - [print] calls are dropped: they do not touch the state.

    Node identifiers are an arbitrary type with decidable equality and a
    countable encoding (Python: hashable keys); edge weights are integers. *)

From stdpp Require Import gmap list sorting.

Set Default Proof Using "Type*".

(** * Part I: the Python runtime *)

(** ** Outcomes of a call *)

Inductive exn : Set := KeyError | ValueError | IndexError.

Inductive result (A : Type) : Type :=
  | Return (a : A)
  | Raise (e : exn)
  | OutOfFuel.
Arguments Return {A} a.
Arguments Raise {A} e.
Arguments OutOfFuel {A}.

Global Instance result_ret : MRet result := λ A a, Return a.
Global Instance result_bind : MBind result := λ A B f m,
  match m with
  | Return a => f a
  | Raise e => Raise e
  | OutOfFuel => OutOfFuel
  end.

(** [for x in l: s = body(x, s)], where the body may raise. *)
Fixpoint for_each {A S : Type} (l : list A) (body : A → S → result S) (s : S)
    : result S :=
  match l with
  | [] => Return s
  | x :: l' => s' ← body x s; for_each l' body s'
  end.

(** [while True: ...]: the body either goes on with a new state ([inl]) or
    leaves the loop with a value ([inr]). *)
Fixpoint while_loop {S R : Type} (fuel : nat) (body : S → result (S + R)) (s : S)
    : result R :=
  match fuel with
  | 0 => OutOfFuel
  | S fuel' =>
      match body s with
      | Return (inl s') => while_loop fuel' body s'
      | Return (inr r) => Return r
      | Raise e => Raise e
      | OutOfFuel => OutOfFuel
      end
  end.

(** ** Lists *)

Section pylist.
Context {A : Type} `{EqDecision A}.

(** [l.remove(x)]: drops the first occurrence, [ValueError] when absent. *)
Fixpoint list_remove (x : A) (l : list A) : result (list A) :=
  match l with
  | [] => Raise ValueError
  | y :: l' => if decide (x = y) then Return l'
               else l'' ← list_remove x l'; Return (y :: l'')
  end.

(** [x in l] *)
Definition list_mem (x : A) (l : list A) : bool := bool_decide (x ∈ l).

(** Number of occurrences, for the specifications. *)
Definition count_occ_of (x : A) (l : list A) : nat :=
  length (filter (λ y, y = x) l).
End pylist.

(** ** Dictionaries *)

Section dict.
Context {K V : Type} `{EqDecision K}.
Implicit Types (d : list (K * V)) (k : K) (v : V).

(** [d.get(k)] *)
Fixpoint dict_get d k : option V :=
  match d with
  | [] => None
  | (k', v) :: d' => if decide (k = k') then Some v else dict_get d' k
  end.

(** [k in d] *)
Definition dict_mem d k : bool := bool_decide (is_Some (dict_get d k)).

(** [d[k]] *)
Definition dict_lookup d k : result V :=
  match dict_get d k with
  | Some v => Return v
  | None => Raise KeyError
  end.

(** [d[k] = v]: an existing key keeps its place, a new one goes last. *)
Fixpoint dict_set d k v : list (K * V) :=
  match d with
  | [] => [(k, v)]
  | (k', v') :: d' =>
      if decide (k = k') then (k, v) :: d' else (k', v') :: dict_set d' k v
  end.

(** [del d[k]], for a key that is present. *)
Fixpoint dict_del d k : list (K * V) :=
  match d with
  | [] => []
  | (k', v') :: d' =>
      if decide (k = k') then dict_del d' k else (k', v') :: dict_del d' k
  end.

(** [list(d)], [d.keys()] *)
Definition dict_keys d : list K := d.*1.

(** [d.values()] *)
Definition dict_values d : list V := d.*2.

(** The invariant of a dictionary: no key twice. *)
Definition dict_wf d : Prop := NoDup (dict_keys d).
End dict.

(** [graph.get(node, [])] *)
Definition graph_get {K A : Type} `{EqDecision K}
    (graph : list (K * list A)) (node : K) : list A :=
  default [] (dict_get graph node).

(** Every key and every neighbour of an adjacency dictionary; the sizes of
    this set and of the dictionary bound the loops below. *)
Definition graph_nodes {K : Type} `{Countable K}
    (graph : list (K * list K)) : gset K :=
  list_to_set (dict_keys graph) ∪ ⋃ (list_to_set <$> dict_values graph).

Fixpoint graph_size {K A : Type} (graph : list (K * list A)) : nat :=
  match graph with
  | [] => 0
  | (_, neighbors) :: graph => length neighbors + graph_size graph
  end.

(** ** [collections.defaultdict(int)] *)

Section defaultdict.
Context {K : Type} `{EqDecision K}.
Implicit Types (d : list (K * Z)) (k : K).

(** [d[k]] read on a [defaultdict(int)]: a missing key counts as [0]. *)
Definition defaultdict_get d k : Z := default 0%Z (dict_get d k).

(** [d[k] += n] *)
Definition defaultdict_add d k (n : Z) : list (K * Z) :=
  dict_set d k (defaultdict_get d k + n)%Z.
End defaultdict.

(** [sorted(l)]: a stable merge sort that compares with [<] alone. *)
Definition sorted {A} (ltb : A → A → bool) (l : list A) : list A :=
  merge_sort (λ x y, ¬ ltb y x) l.

(** * Part II: the sources *)

(** ** code/1_basics/graph_class.py *)

Module graph_class.
Section graph_class.
Context `{Countable node}.

Record Graph : Type := mkGraph {
  adjacency_list : list (node * list node);
  directed : bool
}.

(** What [get_degree] returns: the integer [0] for an unknown node, a
    dictionary with the keys "in", "out" and "total" for a directed graph,
    an integer for an undirected one. *)
Inductive degree : Type :=
  | DegInt (n : nat)
  | DegDict (in_degree out_degree total : nat).

Definition init (directed : bool) : Graph := mkGraph [] directed.

Definition add_node (self : Graph) (n : node) : Graph * bool :=
  if dict_mem (adjacency_list self) n then (self, false)
  else (mkGraph (dict_set (adjacency_list self) n []) (directed self), true).

Definition add_edge (self : Graph) (from_node to_node : node)
    : result (Graph * bool) :=
  let self := (add_node self from_node).1 in
  let self := (add_node self to_node).1 in
  out ← dict_lookup (adjacency_list self) from_node;
  if list_mem to_node out then Return (self, false)
  else
    let adj := dict_set (adjacency_list self) from_node (out ++ [to_node]) in
    if directed self then Return (mkGraph adj (directed self), true)
    else
      back ← dict_lookup adj to_node;
      Return (mkGraph (dict_set adj to_node (back ++ [from_node]))
                      (directed self), true).

Definition has_edge (self : Graph) (from_node to_node : node) : bool :=
  dict_mem (adjacency_list self) from_node
  && list_mem to_node (graph_get (adjacency_list self) from_node).

Definition remove_edge (self : Graph) (from_node to_node : node)
    : result (Graph * bool) :=
  if has_edge self from_node to_node then
    out ← dict_lookup (adjacency_list self) from_node;
    out' ← list_remove to_node out;
    let self := mkGraph (dict_set (adjacency_list self) from_node out')
                        (directed self) in
    if negb (directed self) && has_edge self to_node from_node then
      back ← dict_lookup (adjacency_list self) to_node;
      back' ← list_remove from_node back;
      Return (mkGraph (dict_set (adjacency_list self) to_node back')
                      (directed self), true)
    else Return (self, true)
  else Return (self, false).

(** The loop of [remove_node] over the remaining keys. *)
Definition purge (n : node) (other_node : node)
    (adj : list (node * list node)) : result (list (node * list node)) :=
  neighbors ← dict_lookup adj other_node;
  if list_mem n neighbors then
    neighbors' ← list_remove n neighbors;
    Return (dict_set adj other_node neighbors')
  else Return adj.

Definition remove_node (self : Graph) (n : node) : result (Graph * bool) :=
  if negb (dict_mem (adjacency_list self) n) then Return (self, false)
  else
    let adj := dict_del (adjacency_list self) n in
    adj' ← for_each (dict_keys adj) (purge n) adj;
    Return (mkGraph adj' (directed self), true).

Definition get_neighbors (self : Graph) (n : node) : list node :=
  graph_get (adjacency_list self) n.

(** The set that [get_nodes] turns into a list. *)
Definition node_set (self : Graph) : gset node :=
  foldl (λ nodes neighbors, nodes ∪ list_to_set neighbors)
        (list_to_set (dict_keys (adjacency_list self)))
        (dict_values (adjacency_list self)).

Definition get_nodes (self : Graph) : list node := elements (node_set self).

Definition get_edges (self : Graph) : list (node * node) :=
  foldl (λ edges '(from_node, neighbors),
           foldl (λ edges to_node, edges ++ [(from_node, to_node)])
                 edges neighbors)
        [] (adjacency_list self).

Definition get_degree (self : Graph) (n : node) : degree :=
  if negb (list_mem n (get_nodes self)) then DegInt 0
  else
    let out_degree := length (graph_get (adjacency_list self) n) in
    let in_degree :=
      foldl (λ in_degree '(other_node, neighbors),
               if list_mem n neighbors then S in_degree else in_degree)
            0 (adjacency_list self) in
    if directed self
    then DegDict in_degree out_degree (in_degree + out_degree)
    else DegInt out_degree.

(** [find_path]: breadth-first search carrying the path to each node. *)
Definition find_path_visit (end_ : node) (path : list node) (neighbor : node)
    (st : gset node * list (node * list node) + list node)
    : gset node * list (node * list node) + list node :=
  match st with
  | inr found => inr found
  | inl (visited, queue) =>
      if decide (neighbor = end_) then inr (path ++ [neighbor])
      else if decide (neighbor ∈ visited) then inl (visited, queue)
      else inl ({[neighbor]} ∪ visited, queue ++ [(neighbor, path ++ [neighbor])])
  end.

Definition find_path_body (self : Graph) (end_ : node)
    (st : gset node * list (node * list node))
    : result (gset node * list (node * list node) + option (list node)) :=
  let '(visited, queue) := st in
  match queue with
  | [] => Return (inr None)
  | (n, path) :: queue =>
      match foldl (λ st neighbor, find_path_visit end_ path neighbor st)
                  (inl (visited, queue)) (get_neighbors self n) with
      | inr found => Return (inr (Some found))
      | inl st' => Return (inl st')
      end
  end.

Definition find_path (self : Graph) (start end_ : node)
    : result (option (list node)) :=
  if decide (start = end_) then Return (Some [start])
  else
    while_loop (2 + size (graph_nodes (adjacency_list self)))
               (find_path_body self end_) ({[start]}, [(start, [start])]).

(** [_dfs], the helper of [is_connected]; the set is shared by the calls. *)
Fixpoint _dfs (fuel : nat) (self : Graph) (n : node) (visited : gset node)
    : result (gset node) :=
  match fuel with
  | 0 => OutOfFuel
  | S fuel' =>
      for_each (get_neighbors self n)
        (λ neighbor visited,
           if decide (neighbor ∈ visited) then Return visited
           else _dfs fuel' self neighbor visited)
        ({[n]} ∪ visited)
  end.

Definition is_connected (self : Graph) : result bool :=
  let nodes := get_nodes self in
  match nodes with
  | [] => Return true
  | first :: _ =>
      visited ← _dfs (2 + size (graph_nodes (adjacency_list self))) self first ∅;
      Return (bool_decide (size visited = length nodes))
  end.

(** [dfs(start_node, visited)]: the set goes in and comes out with the
    list of the nodes that the call has added. *)
Fixpoint dfs_from (fuel : nat) (self : Graph) (start_node : node)
    (visited : gset node) : result (gset node * list node) :=
  match fuel with
  | 0 => OutOfFuel
  | S fuel' =>
      if decide (start_node ∈ visited) then Return (visited, [])
      else
        for_each (get_neighbors self start_node)
          (λ neighbor '(visited, result),
             '(visited, found) ← dfs_from fuel' self neighbor visited;
             Return (visited, result ++ found))
          ({[start_node]} ∪ visited, [start_node])
  end.

(** The call with [visited=None]. *)
Definition dfs (self : Graph) (start_node : node) : result (list node) :=
  '(_, result) ←
    dfs_from (2 + size (graph_nodes (adjacency_list self))) self start_node ∅;
  Return result.

Definition bfs_visit (neighbor : node)
    (st : gset node * list node) : gset node * list node :=
  let '(visited, queue) := st in
  if decide (neighbor ∈ visited) then (visited, queue)
  else ({[neighbor]} ∪ visited, queue ++ [neighbor]).

Definition bfs_body (self : Graph) (st : gset node * list node * list node)
    : result (gset node * list node * list node + list node) :=
  let '(visited, queue, result) := st in
  match queue with
  | [] => Return (inr result)
  | n :: queue =>
      let result := result ++ [n] in
      let '(visited, queue) :=
        foldl (λ st neighbor, bfs_visit neighbor st)
              (visited, queue) (get_neighbors self n) in
      Return (inl (visited, queue, result))
  end.

Definition bfs (self : Graph) (start_node : node) : result (list node) :=
  while_loop (2 + size (graph_nodes (adjacency_list self)))
             (bfs_body self) ({[start_node]}, [start_node], []).
End graph_class.
End graph_class.

(** ** code/2_traversal/bfs.py *)

Module bfs.
Section bfs.
Context `{Countable node}.
Implicit Types (graph : list (node * list node)) (visited : gset node).

(** The body of [for neighbor in graph.get(node, [])] in [simple_bfs]. *)
Definition simple_bfs_visit (neighbor : node)
    (st : gset node * list node) : gset node * list node :=
  let '(visited, queue) := st in
  if decide (neighbor ∈ visited) then (visited, queue)
  else ({[neighbor]} ∪ visited, queue ++ [neighbor]).

Definition simple_bfs_body graph (st : gset node * list node * list node)
    : result (gset node * list node * list node + list node) :=
  let '(visited, queue, order) := st in
  match queue with
  | [] => Return (inr order)
  | n :: queue =>
      let order := order ++ [n] in
      let '(visited, queue) :=
        foldl (λ st neighbor, simple_bfs_visit neighbor st)
              (visited, queue) (graph_get graph n) in
      Return (inl (visited, queue, order))
  end.

Definition simple_bfs graph (start : node) : result (list node) :=
  while_loop (2 + size (graph_nodes graph))
             (simple_bfs_body graph) ({[start]}, [start], []).

(** [bfs_shortest_path]: the queue holds each node with the path to it; the
    [return] inside the [for] loop is the [inr] of the fold. *)
Definition bfs_shortest_path_visit (target : node) (path : list node)
    (neighbor : node)
    (st : gset node * list (node * list node) + list node)
    : gset node * list (node * list node) + list node :=
  match st with
  | inr found => inr found
  | inl (visited, queue) =>
      if decide (neighbor = target) then inr (path ++ [neighbor])
      else if decide (neighbor ∈ visited) then inl (visited, queue)
      else inl ({[neighbor]} ∪ visited, queue ++ [(neighbor, path ++ [neighbor])])
  end.

Definition bfs_shortest_path_body graph (target : node)
    (st : gset node * list (node * list node))
    : result (gset node * list (node * list node) + option (list node)) :=
  let '(visited, queue) := st in
  match queue with
  | [] => Return (inr None)
  | (n, path) :: queue =>
      match foldl (λ st neighbor, bfs_shortest_path_visit target path neighbor st)
                  (inl (visited, queue)) (graph_get graph n) with
      | inr found => Return (inr (Some found))
      | inl st' => Return (inl st')
      end
  end.

Definition bfs_shortest_path graph (start target : node)
    : result (option (list node)) :=
  if decide (start = target) then Return (Some [start])
  else
    while_loop (2 + size (graph_nodes graph))
               (bfs_shortest_path_body graph target)
               ({[start]}, [(start, [start])]).

(** [bfs_all_shortest_paths]: the dictionary of distances is the visited
    set as well. *)
Definition bfs_all_shortest_paths_visit (current_distance : Z) (neighbor : node)
    (st : list (node * Z) * list node) : list (node * Z) * list node :=
  let '(distances, queue) := st in
  if dict_mem distances neighbor then (distances, queue)
  else (dict_set distances neighbor (current_distance + 1)%Z, queue ++ [neighbor]).

Definition bfs_all_shortest_paths_body graph
    (st : list (node * Z) * list node)
    : result (list (node * Z) * list node + list (node * Z)) :=
  let '(distances, queue) := st in
  match queue with
  | [] => Return (inr distances)
  | n :: queue =>
      current_distance ← dict_lookup distances n;
      Return (inl (foldl (λ st neighbor,
                            bfs_all_shortest_paths_visit current_distance neighbor st)
                         (distances, queue) (graph_get graph n)))
  end.

Definition bfs_all_shortest_paths graph (start : node) : result (list (node * Z)) :=
  while_loop (2 + size (graph_nodes graph))
             (bfs_all_shortest_paths_body graph) ([(start, 0%Z)], [start]).
End bfs.
End bfs.

(** ** code/2_traversal/dfs_recursive.py *)

Module dfs_recursive.
Section dfs_recursive.
Context `{Countable node}.
Implicit Types (graph : list (node * list node)) (visited : gset node).

(** [simple_dfs_recursive(graph, node, visited)]; the set is shared by all
    the calls, so each call takes it and hands it back. *)
Fixpoint simple_dfs_recursive_from (fuel : nat) graph (n : node) visited
    : result (gset node) :=
  match fuel with
  | 0 => OutOfFuel
  | S fuel' =>
      for_each (graph_get graph n)
        (λ neighbor visited,
           if decide (neighbor ∈ visited) then Return visited
           else simple_dfs_recursive_from fuel' graph neighbor visited)
        ({[n]} ∪ visited)
  end.

(** The call with [visited=None]. *)
Definition simple_dfs_recursive graph (n : node) : result (gset node) :=
  simple_dfs_recursive_from (2 + size (graph_nodes graph)) graph n ∅.

(** [dfs_with_path(graph, node, visited, path)]; the set and the list are
    shared by the calls. *)
Fixpoint dfs_with_path_from (fuel : nat) graph (n : node)
    (st : gset node * list node) : result (gset node * list node) :=
  match fuel with
  | 0 => OutOfFuel
  | S fuel' =>
      let '(visited, path) := st in
      for_each (graph_get graph n)
        (λ neighbor st,
           if decide (neighbor ∈ st.1) then Return st
           else dfs_with_path_from fuel' graph neighbor st)
        ({[n]} ∪ visited, path ++ [n])
  end.

(** The call with [visited=None]. *)
Definition dfs_with_path graph (n : node) : result (gset node * list node) :=
  dfs_with_path_from (2 + size (graph_nodes graph)) graph n (∅, []).

(** [dfs_find_path(graph, start, target, path)] *)
Fixpoint dfs_find_path_from (fuel : nat) graph (start target : node)
    (path : list node) : result (option (list node)) :=
  match fuel with
  | 0 => OutOfFuel
  | S fuel' =>
      let path := path ++ [start] in
      if decide (start = target) then Return (Some path)
      else
        for_each (graph_get graph start)
          (λ neighbor found,
             match found with
             | Some new_path => Return (Some new_path)
             | None =>
                 if negb (list_mem neighbor path) then
                   new_path ← dfs_find_path_from fuel' graph neighbor target path;
                   Return (match new_path with
                           | Some (n :: path) => Some (n :: path)
                           | _ => None
                           end)
                 else Return None
             end)
          None
  end.

(** The call with [path=None]. *)
Definition dfs_find_path graph (start target : node)
    : result (option (list node)) :=
  dfs_find_path_from (2 + size (graph_nodes graph)) graph start target [].
End dfs_recursive.
End dfs_recursive.

(** ** code/2_traversal/dfs_iterative.py *)

Module dfs_iterative.
Section dfs_iterative.
Context `{Countable node}.
Implicit Types (graph : list (node * list node)) (visited : gset node).

Definition simple_dfs_iterative_body graph
    (st : gset node * list node * list node)
    : result (gset node * list node * list node + list node) :=
  let '(visited, stack, order) := st in
  match stack with
  | [] => Return (inr order)
  | n :: stack =>
      if decide (n ∈ visited) then Return (inl (visited, stack, order))
      else
        let visited := {[n]} ∪ visited in
        let order := order ++ [n] in
        let stack :=
          foldl (λ stack neighbor,
                   if decide (neighbor ∈ visited) then stack
                   else neighbor :: stack)
                stack (reverse (graph_get graph n)) in
        Return (inl (visited, stack, order))
  end.

Definition simple_dfs_iterative graph (start : node) : result (list node) :=
  while_loop (2 + graph_size graph)
             (simple_dfs_iterative_body graph) (∅, [start], []).
End dfs_iterative.
End dfs_iterative.

(** ** code/3_algorithms/path_finding.py *)

Module path_finding.
Section path_finding.
Context `{Countable node}.
Implicit Types (graph : list (node * list node)) (visited : gset node).

Definition bfs_find_shortest_path_visit (target : node) (path : list node)
    (neighbor : node)
    (st : gset node * list (node * list node) + list node)
    : gset node * list (node * list node) + list node :=
  match st with
  | inr found => inr found
  | inl (visited, queue) =>
      if decide (neighbor = target) then inr (path ++ [neighbor])
      else if decide (neighbor ∈ visited) then inl (visited, queue)
      else inl ({[neighbor]} ∪ visited, queue ++ [(neighbor, path ++ [neighbor])])
  end.

Definition bfs_find_shortest_path_body graph (target : node)
    (st : gset node * list (node * list node))
    : result (gset node * list (node * list node) + option (list node)) :=
  let '(visited, queue) := st in
  match queue with
  | [] => Return (inr None)
  | (current_node, path) :: queue =>
      match foldl (λ st neighbor,
                     bfs_find_shortest_path_visit target path neighbor st)
                  (inl (visited, queue)) (graph_get graph current_node) with
      | inr found => Return (inr (Some found))
      | inl st' => Return (inl st')
      end
  end.

Definition bfs_find_shortest_path graph (start target : node)
    : result (option (list node)) :=
  if decide (start = target) then Return (Some [start])
  else
    while_loop (2 + size (graph_nodes graph))
               (bfs_find_shortest_path_body graph target)
               ({[start]}, [(start, [start])]).

(** [if new_path:] on a value that is a list or [None]. *)
Definition found_path (new_path : option (list node)) : option (list node) :=
  match new_path with
  | Some (n :: path) => Some (n :: path)
  | _ => None
  end.

(** [dfs_find_any_path(graph, start, target, path)]; the [return] inside
    the [for] loop is the [Some] that the rest of the loop hands on. *)
Fixpoint dfs_find_any_path_from (fuel : nat) graph (start target : node)
    (path : list node) : result (option (list node)) :=
  match fuel with
  | 0 => OutOfFuel
  | S fuel' =>
      let path := path ++ [start] in
      if decide (start = target) then Return (Some path)
      else
        for_each (graph_get graph start)
          (λ neighbor found,
             match found with
             | Some new_path => Return (Some new_path)
             | None =>
                 if negb (list_mem neighbor path) then
                   new_path ← dfs_find_any_path_from fuel' graph neighbor target path;
                   Return (found_path new_path)
                 else Return None
             end)
          None
  end.

(** The call with [path=None]. *)
Definition dfs_find_any_path graph (start target : node)
    : result (option (list node)) :=
  dfs_find_any_path_from (2 + size (graph_nodes graph)) graph start target [].

(** [dfs_find_all_paths(graph, start, target, path, all_paths)]; the list
    [all_paths] is shared by the calls. *)
Fixpoint dfs_find_all_paths_from (fuel : nat) graph (start target : node)
    (path : list node) (all_paths : list (list node))
    : result (list (list node)) :=
  match fuel with
  | 0 => OutOfFuel
  | S fuel' =>
      let path := path ++ [start] in
      if decide (start = target) then Return (all_paths ++ [path])
      else
        for_each (graph_get graph start)
          (λ neighbor all_paths,
             if negb (list_mem neighbor path) then
               dfs_find_all_paths_from fuel' graph neighbor target path all_paths
             else Return all_paths)
          all_paths
  end.

(** The call with [path=None]. *)
Definition dfs_find_all_paths graph (start target : node)
    : result (list (list node)) :=
  dfs_find_all_paths_from (2 + size (graph_nodes graph)) graph start target [] [].
End path_finding.
End path_finding.

(** ** code/5_advanced/dijkstra.py *)

Module dijkstra.
Section dijkstra.
Context `{Countable node}.

(** The order of node identifiers in Python, which breaks ties between
    heap entries of equal distance. *)
Variable node_ltb : node → node → bool.

Implicit Types (graph : list (node * list (node * Z))) (visited : gset node).

(** A distance: an integer or [float("inf")]. *)
Inductive distance : Type := Finite (d : Z) | Infinity.

Global Instance distance_eq_dec : EqDecision distance.
Proof. solve_decision. Defined.

(** [new_distance < distances[neighbor]] *)
Definition distance_ltb (new_distance : Z) (old : distance) : bool :=
  match old with
  | Finite d => bool_decide (new_distance < d)%Z
  | Infinity => true
  end.

(** Comparison of the tuples [(distance, node)]. *)
Definition entry_ltb (a b : Z * node) : bool :=
  bool_decide (a.1 < b.1)%Z || (bool_decide (a.1 = b.1) && node_ltb a.2 b.2).

Fixpoint least (e : Z * node) (l : list (Z * node)) : Z * node :=
  match l with
  | [] => e
  | e' :: l => least (if entry_ltb e' e then e' else e) l
  end.

Fixpoint take_out (e : Z * node) (l : list (Z * node)) : list (Z * node) :=
  match l with
  | [] => []
  | e' :: l => if decide (e = e') then l else e' :: take_out e l
  end.

(** [heapq.heappop]: the least entry and the remaining heap. *)
Definition heappop (priority_queue : list (Z * node))
    : option ((Z * node) * list (Z * node)) :=
  match priority_queue with
  | [] => None
  | e :: l => let m := least e l in Some (m, take_out m priority_queue)
  end.

Definition heappush (priority_queue : list (Z * node)) (e : Z * node)
    : list (Z * node) := e :: priority_queue.

(** The body of [for neighbor, weight in graph.get(current_node, [])], the
    same in both functions. *)
Definition relax visited (current_node : node) (current_distance : Z)
    (edge : node * Z)
    (st : list (node * distance) * list (node * node) * list (Z * node))
    : result (list (node * distance) * list (node * node) * list (Z * node)) :=
  let '(distances, previous, priority_queue) := st in
  let '(neighbor, weight) := edge in
  if decide (neighbor ∈ visited) then Return st
  else
    let new_distance := (current_distance + weight)%Z in
    old ← dict_lookup distances neighbor;
    if distance_ltb new_distance old then
      Return (dict_set distances neighbor (Finite new_distance),
              dict_set previous neighbor current_node,
              heappush priority_queue (new_distance, neighbor))
    else Return st.

(** [{node: float("inf") for node in graph}] with [distances[start] = 0] *)
Definition initial_distances graph (start : node) : list (node * distance) :=
  dict_set ((λ n, (n, Infinity)) <$> dict_keys graph) start (Finite 0).

Definition dijkstra_algorithm_body graph
    (st : list (node * distance) * list (node * node) * list (Z * node)
          * gset node)
    : result (list (node * distance) * list (node * node) * list (Z * node)
              * gset node
              + list (node * distance) * list (node * node)) :=
  let '(distances, previous, priority_queue, visited) := st in
  match heappop priority_queue with
  | None => Return (inr (distances, previous))
  | Some ((current_distance, current_node), priority_queue) =>
      if decide (current_node ∈ visited)
      then Return (inl (distances, previous, priority_queue, visited))
      else
        let visited := {[current_node]} ∪ visited in
        st' ← for_each (graph_get graph current_node)
                 (relax visited current_node current_distance)
                 (distances, previous, priority_queue);
        Return (inl (st', visited))
  end.

Definition dijkstra_algorithm graph (start : node)
    : result (list (node * distance) * list (node * node)) :=
  while_loop (3 + graph_size graph) (dijkstra_algorithm_body graph)
             (initial_distances graph start, [], [(0%Z, start)], ∅).

(** [reconstruct_path]: follow [previous] from the target. *)
Definition reconstruct_path_body (previous : list (node * node))
    (st : list node * option node)
    : result (list node * option node + list node) :=
  let '(path, current) := st in
  match current with
  | None => Return (inr path)
  | Some c => Return (inl (path ++ [c], dict_get previous c))
  end.

Definition reconstruct_path (previous : list (node * node))
    (start target : node) : result (option (list node)) :=
  if negb (dict_mem previous target) && negb (bool_decide (target = start))
  then Return None
  else
    path ← while_loop (2 + length previous) (reconstruct_path_body previous)
                      ([], Some target);
    let path := reverse path in
    match path with
    | [] => Raise IndexError
    | first :: _ =>
        if decide (first = start) then Return (Some path) else Return None
    end.

Definition dijkstra_single_target_body graph (start target : node)
    (st : list (node * distance) * list (node * node) * list (Z * node)
          * gset node)
    : result (list (node * distance) * list (node * node) * list (Z * node)
              * gset node
              + distance * option (list node)) :=
  let '(distances, previous, priority_queue, visited) := st in
  match heappop priority_queue with
  | None => Return (inr (Infinity, None))
  | Some ((current_distance, current_node), priority_queue) =>
      if decide (current_node ∈ visited)
      then Return (inl (distances, previous, priority_queue, visited))
      else
        let visited := {[current_node]} ∪ visited in
        if decide (current_node = target) then
          path ← reconstruct_path previous start target;
          d ← dict_lookup distances target;
          Return (inr (d, path))
        else
          st' ← for_each (graph_get graph current_node)
                   (relax visited current_node current_distance)
                   (distances, previous, priority_queue);
          Return (inl (st', visited))
  end.

Definition dijkstra_single_target graph (start target : node)
    : result (distance * option (list node)) :=
  while_loop (3 + graph_size graph)
             (dijkstra_single_target_body graph start target)
             (initial_distances graph start, [], [(0%Z, start)], ∅).
End dijkstra.
End dijkstra.

(** ** code/5_advanced/topological_sort.py *)

Module topological_sort.
Section topological_sort.
Context `{Countable node}.
Implicit Types (graph : list (node * list node)) (in_degree : list (node * Z)).
Implicit Types (queue result : list node).

(** The body of [for neighbor in graph[current]]: one dependency less, and
    the neighbour joins the queue when none is left. *)
Definition release (s : list node * list (node * Z)) (neighbor : node)
    : list node * list (node * Z) :=
  let '(queue, in_degree) := s in
  let in_degree := defaultdict_add in_degree neighbor (-1) in
  if decide (defaultdict_get in_degree neighbor = 0%Z)
  then (queue ++ [neighbor], in_degree)
  else (queue, in_degree).

Definition topological_sort_simple_body graph
    (s : list node * list node * list (node * Z))
    : result (list node * list node * list (node * Z) + list node) :=
  let '(queue, result, in_degree) := s in
  match queue with
  | [] => Return (inr result)
  | current :: queue =>
      let result := result ++ [current] in
      neighbors ← dict_lookup graph current;
      let '(queue, in_degree) := foldl release (queue, in_degree) neighbors in
      Return (inl (queue, result, in_degree))
  end.

(** Returns [Some result] for the list, [None] for Python's [None]. *)
Definition topological_sort_simple graph : result (option (list node)) :=
  let in_degree :=
    foldl (λ in_degree node, dict_set in_degree node 0%Z) [] (dict_keys graph) in
  in_degree ← for_each (dict_keys graph) (λ node in_degree,
    neighbors ← dict_lookup graph node;
    Return (foldl (λ in_degree neighbor, defaultdict_add in_degree neighbor 1)
                  in_degree neighbors)) in_degree;
  let queue := (filter (λ item, item.2 = 0%Z) in_degree).*1 in
  result ← while_loop (1 + size (graph_nodes graph))
             (topological_sort_simple_body graph) (queue, [], in_degree);
  if decide (length result = length graph) then Return (Some result)
  else Return None.

(** [dfs] of [simple_dfs_topological_sort]; [visited] and [result] are
    shared by all the calls. *)
Fixpoint dfs (fuel : nat) graph (n : node) (st : gset node * list node)
    : result (gset node * list node) :=
  match fuel with
  | 0 => OutOfFuel
  | S fuel' =>
      let '(visited, result) := st in
      '(visited, result) ←
        for_each (graph_get graph n)
          (λ neighbor st,
             if decide (neighbor ∈ st.1) then Return st
             else dfs fuel' graph neighbor st)
          ({[n]} ∪ visited, result);
      Return (visited, result ++ [n])
  end.

Definition simple_dfs_topological_sort graph : result (list node) :=
  '(visited, result) ←
    for_each (dict_keys graph)
      (λ node st,
         if decide (node ∈ st.1) then Return st
         else dfs (2 + size (graph_nodes graph)) graph node st)
      (∅, []);
  Return (reverse result).
End topological_sort.
End topological_sort.

(** ** code/3_algorithms/cycle_detection.py *)

Module cycle_detection.
Section cycle_detection.
Context `{Countable node}.
Implicit Types (graph : list (node * list node)) (in_degree : list (node * Z)).

Definition detect_cycle_using_topology_body graph
    (s : list node * nat * list (node * Z))
    : result (list node * nat * list (node * Z) + nat) :=
  let '(queue, processed, in_degree) := s in
  match queue with
  | [] => Return (inr processed)
  | node :: queue =>
      let processed := processed + 1 in
      let '(queue, in_degree) :=
        foldl topological_sort.release (queue, in_degree) (graph_get graph node) in
      Return (inl (queue, processed, in_degree))
  end.

Definition detect_cycle_using_topology graph : result bool :=
  let in_degree :=
    foldl (λ in_degree node, dict_set in_degree node 0%Z) [] (dict_keys graph) in
  let in_degree :=
    foldl (λ in_degree node,
             foldl (λ in_degree neighbor, defaultdict_add in_degree neighbor 1)
                   in_degree (graph_get graph node))
          in_degree (dict_keys graph) in
  let queue :=
    filter (λ node, defaultdict_get in_degree node = 0%Z) (dict_keys in_degree) in
  processed ← while_loop (1 + size (graph_nodes graph))
                (detect_cycle_using_topology_body graph) (queue, 0, in_degree);
  let total_nodes := length graph in
  let has_cycle := negb (bool_decide (processed = total_nodes)) in
  Return has_cycle.

(** [WHITE, GRAY, BLACK = 0, 1, 2] *)
Definition WHITE : Z := 0.
Definition GRAY : Z := 1.
Definition BLACK : Z := 2.

(** [dfs_has_cycle] of [detect_cycle_directed_dfs]; [colors] is shared by
    all the calls.  A [return True] inside the loop ends it: the flag is
    handed on by the rest of the neighbours. *)
Fixpoint dfs_has_cycle (fuel : nat) graph (n : node) (colors : list (node * Z))
    : result (list (node * Z) * bool) :=
  match fuel with
  | 0 => OutOfFuel
  | S fuel' =>
      let colors := dict_set colors n GRAY in
      '(colors, found) ←
        for_each (graph_get graph n)
          (λ neighbor '(colors, found),
             if found : bool then Return (colors, true)
             else
               color ← dict_lookup colors neighbor;
               if decide (color = GRAY) then Return (colors, true)
               else if decide (color = WHITE)
               then dfs_has_cycle fuel' graph neighbor colors
               else Return (colors, false))
          (colors, false);
      if found : bool then Return (colors, true)
      else Return (dict_set colors n BLACK, false)
  end.

Definition detect_cycle_directed_dfs graph : result bool :=
  let colors :=
    foldl (λ colors node, dict_set colors node WHITE) [] (dict_keys graph) in
  '(colors, found) ←
    for_each (dict_keys graph)
      (λ node '(colors, found),
         if found : bool then Return (colors, true)
         else
           color ← dict_lookup colors node;
           if decide (color = WHITE)
           then dfs_has_cycle (2 + size (graph_nodes graph)) graph node colors
           else Return (colors, false))
      (colors, false);
  Return found.
End cycle_detection.
End cycle_detection.

(** ** code/3_algorithms/connected_components.py *)

Module connected_components.
Section connected_components.
Context `{Countable node}.

(** The class [UnionFind] local to [union_find_components]. *)
Record UnionFind : Type := mkUnionFind {
  parent : list (node * node);
  rank : list (node * Z);
  components : Z
}.

(** [UnionFind(nodes)] for a set of nodes. *)
Definition init (nodes : gset node) : UnionFind :=
  mkUnionFind ((λ n, (n, n)) <$> elements nodes)
              ((λ n, (n, 0%Z)) <$> elements nodes)
              (Z.of_nat (size nodes)).

(** [find], with the path compression on the way back. *)
Fixpoint find_from (fuel : nat) (self : UnionFind) (n : node)
    : result (UnionFind * node) :=
  match fuel with
  | 0 => OutOfFuel
  | S fuel =>
      p ← dict_lookup (parent self) n;
      self ← (if decide (p ≠ n) then
                p ← dict_lookup (parent self) n;
                '(self, root) ← find_from fuel self p;
                Return (mkUnionFind (dict_set (parent self) n root)
                                    (rank self) (components self))
              else Return self);
      root ← dict_lookup (parent self) n;
      Return (self, root)
  end.

Definition find (self : UnionFind) (n : node) : result (UnionFind * node) :=
  find_from (1 + length (parent self)) self n.

Definition union (self : UnionFind) (node1 node2 : node)
    : result (UnionFind * bool) :=
  '(self, root1) ← find self node1;
  '(self, root2) ← find self node2;
  if decide (root1 ≠ root2) then
    rank1 ← dict_lookup (rank self) root1;
    rank2 ← dict_lookup (rank self) root2;
    let self :=
      if (rank1 <? rank2)%Z then
        mkUnionFind (dict_set (parent self) root1 root2)
                    (rank self) (components self)
      else if (rank1 >? rank2)%Z then
        mkUnionFind (dict_set (parent self) root2 root1)
                    (rank self) (components self)
      else
        mkUnionFind (dict_set (parent self) root2 root1)
                    (dict_set (rank self) root1 (rank1 + 1)%Z)
                    (components self) in
    Return (mkUnionFind (parent self) (rank self) (components self - 1)%Z, true)
  else Return (self, false).

(** The order of the nodes, for [sorted]. *)
Variable node_ltb : node → node → bool.
Implicit Types (graph : list (node * list node)) (visited : gset node).

(** [dfs_component] of [find_connected_components_dfs]; [visited] and
    [current_component] are shared by all the calls. *)
Fixpoint dfs_component (fuel : nat) graph (n : node)
    (st : gset node * list node) : result (gset node * list node) :=
  match fuel with
  | 0 => OutOfFuel
  | S fuel' =>
      let '(visited, current_component) := st in
      for_each (graph_get graph n)
        (λ neighbor st,
           if decide (neighbor ∈ st.1) then Return st
           else dfs_component fuel' graph neighbor st)
        ({[n]} ∪ visited, current_component ++ [n])
  end.

Definition find_connected_components_dfs graph : result (list (list node)) :=
  '(visited, components) ←
    for_each (dict_keys graph)
      (λ n '(visited, components),
         if decide (n ∈ visited) then Return (visited, components)
         else
           '(visited, current_component) ←
             dfs_component (2 + size (graph_nodes graph)) graph n (visited, []);
           Return (visited, components ++ [sorted node_ltb current_component]))
      (∅, []);
  Return components.

(** The body of [for neighbor in graph.get(node, [])] in [bfs_component]. *)
Definition bfs_component_visit (neighbor : node)
    (st : gset node * list node) : gset node * list node :=
  let '(visited, queue) := st in
  if decide (neighbor ∈ visited) then (visited, queue)
  else ({[neighbor]} ∪ visited, queue ++ [neighbor]).

Definition bfs_component_body graph (st : gset node * list node * list node)
    : result (gset node * list node * list node + gset node * list node) :=
  let '(visited, queue, component) := st in
  match queue with
  | [] => Return (inr (visited, sorted node_ltb component))
  | n :: queue =>
      let component := component ++ [n] in
      let '(visited, queue) :=
        foldl (λ st neighbor, bfs_component_visit neighbor st)
              (visited, queue) (graph_get graph n) in
      Return (inl (visited, queue, component))
  end.

(** [bfs_component(start_node)]; the set [visited] of the enclosing
    function goes in and comes out. *)
Definition bfs_component graph (start_node : node) visited
    : result (gset node * list node) :=
  while_loop (2 + size (graph_nodes graph)) (bfs_component_body graph)
             ({[start_node]} ∪ visited, [start_node], []).

Definition find_connected_components_bfs graph : result (list (list node)) :=
  '(visited, components) ←
    for_each (dict_keys graph)
      (λ n '(visited, components),
         if decide (n ∈ visited) then Return (visited, components)
         else
           '(visited, component) ← bfs_component graph n visited;
           Return (visited, components ++ [component]))
      (∅, []);
  Return components.

(** The grouping of the nodes by their root. *)
Definition group_by_root (n : node)
    (st : UnionFind * list (node * list node))
    : result (UnionFind * list (node * list node)) :=
  let '(uf, component_map) := st in
  '(uf, root) ← find uf n;
  let component_map :=
    if dict_mem component_map root then component_map
    else dict_set component_map root [] in
  component ← dict_lookup component_map root;
  Return (uf, dict_set component_map root (component ++ [n])).

Definition union_find_components graph : result (list (list node)) :=
  let all_nodes := graph_nodes graph in
  let uf := init all_nodes in
  uf ← for_each graph
    (λ '(n, neighbors) uf,
       for_each neighbors
         (λ neighbor uf, '(uf, _) ← union uf n neighbor; Return uf) uf) uf;
  '(uf, component_map) ←
    for_each (elements all_nodes) group_by_root (uf, []);
  Return (sorted node_ltb <$> dict_values component_map).
End connected_components.
End connected_components.

(** * Part III: specifications *)

(** ** Graphs built through the public interface of the class *)

Section built.
Context `{Countable node}.
Import graph_class.

Inductive built : Graph (node:=node) → Prop :=
  | built_init d : built (init d)
  | built_add_node g n : built g → built (add_node g n).1
  | built_add_edge g u v g' b :
      built g → add_edge g u v = Return (g', b) → built g'
  | built_remove_edge g u v g' b :
      built g → remove_edge g u v = Return (g', b) → built g'
  | built_remove_node g n g' b :
      built g → remove_node g n = Return (g', b) → built g'.

(** What the mutators maintain: keys are unique, every neighbour is a key,
    a neighbour other than the node itself is listed once, the lists of a
    directed graph have no repetition at all, and those of an undirected
    graph are symmetric. *)
Record graph_inv (g : Graph (node:=node)) : Prop := {
  inv_wf : dict_wf (adjacency_list g);
  inv_closed : ∀ u v,
    v ∈ graph_get (adjacency_list g) u → v ∈ dict_keys (adjacency_list g);
  inv_once : ∀ u v,
    u ≠ v → count_occ_of v (graph_get (adjacency_list g) u) ≤ 1;
  inv_directed : directed g = true →
    ∀ u v, count_occ_of v (graph_get (adjacency_list g) u) ≤ 1;
  inv_sym : directed g = false → ∀ u v,
    v ∈ graph_get (adjacency_list g) u → u ∈ graph_get (adjacency_list g) v
}.
End built.

(** ** Edges, reachability and walks *)

Section graph_spec.
Context `{Countable node}.
Implicit Types (graph : list (node * list node)) (u v s t : node).

(** [v] is listed among the neighbours of [u]. *)
Definition edge graph u v : Prop := v ∈ graph_get graph u.

(** [t] can be reached from [s] along edges (in zero or more steps). *)
Definition reachable graph s t : Prop := rtc (edge graph) s t.

(** [path] is a walk of the graph: a non-empty list of nodes, each linked
    to the next by an edge. *)
Fixpoint is_walk graph (path : list node) : Prop :=
  match path with
  | [] => False
  | [u] => True
  | u :: (v :: _) as rest => edge graph u v ∧ is_walk graph rest
  end.

(** [path] is a walk from [s] to [t]. *)
Definition walk_from_to graph s t (path : list node) : Prop :=
  is_walk graph path ∧ head path = Some s ∧ last path = Some t.
End graph_spec.

(** [k] is the least number of edges of a walk from [s] to [t]. *)
Definition edge_distance `{Countable node} (graph : list (node * list node))
    (s t : node) (k : nat) : Prop :=
  nsteps (edge graph) k s t ∧ ∀ k', nsteps (edge graph) k' s t → k ≤ k'.


(** ** Weighted graphs *)

Section weighted_spec.
Context `{Countable node}.
Implicit Types (graph : list (node * list (node * Z))) (s t x y : node).

(** The graph without its weights. *)
Definition unweighted graph : list (node * list node) :=
  (λ entry, (entry.1, entry.2.*1)) <$> graph.

(** [wwalk graph s t c]: some walk from [s] to [t] has total weight [c]. *)
Inductive wwalk graph (s : node) : node → Z → Prop :=
  | wwalk_nil : wwalk graph s s 0
  | wwalk_snoc x y c w :
      wwalk graph s x c → (y, w) ∈ graph_get graph x →
      wwalk graph s y (c + w).

(** [d] is the least weight of a walk from [s] to [t]. *)
Definition shortest_distance graph s t (d : Z) : Prop :=
  wwalk graph s t d ∧ ∀ c, wwalk graph s t c → (d ≤ c)%Z.

Definition nonnegative_weights graph : Prop :=
  ∀ x y w, (y, w) ∈ graph_get graph x → (0 ≤ w)%Z.

Definition unit_weights graph : Prop :=
  ∀ x y w, (y, w) ∈ graph_get graph x → w = 1%Z.

(** Every neighbour is a key of the adjacency dictionary. *)
Definition neighbours_are_keys {A} (graph : list (node * list A))
    (nb : A → node) : Prop :=
  ∀ x a, a ∈ graph_get graph x → nb a ∈ dict_keys graph.
End weighted_spec.

(** ** Cycles and topological orders *)

Section order_spec.
Context `{Countable node}.
Implicit Types (graph : list (node * list node)) (order : list node).

(** No node reaches itself along one or more edges. *)
Definition acyclic graph : Prop := ∀ v, ¬ tc (edge graph) v v.

(** Every edge goes forward in [order]. *)
Definition topological_order graph order : Prop :=
  ∀ i j u v, order !! i = Some u → order !! j = Some v →
    edge graph u v → i < j.
End order_spec.

(** ** Disjoint sets *)

Section union_find_spec.
Context `{Countable node}.
Import connected_components.
Implicit Types (parent : list (node * node)) (x y r : node).

(** [root_path parent x path r]: following the parent pointers from [x]
    leads through the nodes of [path] to [r], which is its own parent. *)
Inductive root_path parent : node → list node → node → Prop :=
  | root_path_root x : dict_get parent x = Some x → root_path parent x [] x
  | root_path_step x p path r :
      dict_get parent x = Some p → p ≠ x → root_path parent p path r →
      root_path parent x (x :: path) r.

Definition root_of parent x r : Prop := ∃ path, root_path parent x path r.

(** [x] and [y] are in the same set. *)
Definition same_set (self : UnionFind (node:=node)) x y : Prop :=
  ∃ r, root_of (parent self) x r ∧ root_of (parent self) y r.

(** The nodes that are their own parent, one for each set. *)
Definition roots parent : list node :=
  filter (λ x, dict_get parent x = Some x) (dict_keys parent).

(** What the class maintains: the keys are unique, the ranks have the keys
    of the parents, the parent pointers lead from every node to a root, and
    [components] counts the roots. *)
Record uf_inv (self : UnionFind (node:=node)) : Prop := {
  uf_wf : dict_wf (parent self);
  uf_rank_keys : ∀ x, x ∈ dict_keys (rank self) ↔ x ∈ dict_keys (parent self);
  uf_rooted : ∀ x, x ∈ dict_keys (parent self) → ∃ r, root_of (parent self) x r;
  uf_components : components self = Z.of_nat (length (roots (parent self)))
}.

End union_find_spec.

(** ** Connected components *)

Section components_spec.
Context `{Countable node}.
Implicit Types (graph : list (node * list node)) (x y u v : node).

(** [x] and [y] are linked by edges taken in either direction. *)
Definition connected graph x y : Prop := rtc (sc (edge graph)) x y.

(** Every edge is listed in both directions. *)
Definition symmetric_graph graph : Prop := ∀ u v, edge graph u v → edge graph v u.

(** [components] lists the connected components of the graph: each list
    is not empty and holds, once each, the nodes connected to any one of its
    nodes, every node of the graph is in a list, and no two lists share a
    node. *)
Record components_of graph (components : list (list node)) : Prop := {
  components_nodes : ∀ c x, c ∈ components → x ∈ c → x ∈ graph_nodes graph;
  components_class : ∀ c x y,
    c ∈ components → x ∈ c → (y ∈ c ↔ connected graph x y);
  components_NoDup : ∀ c, c ∈ components → NoDup c;
  components_nonempty : ∀ c, c ∈ components → c ≠ [];
  components_cover : ∀ x, x ∈ graph_nodes graph → ∃ c, c ∈ components ∧ x ∈ c;
  components_apart : ∀ i j c c' x,
    components !! i = Some c → components !! j = Some c' →
    x ∈ c → x ∈ c' → i = j
}.

(** The components as a set of sets. *)
Definition component_sets (components : list (list node)) : gset (gset node) :=
  list_to_set (list_to_set <$> components).
End components_spec.

(** ** Simple paths *)

Section simple_path_spec.
Context `{Countable node}.
Implicit Types (graph : list (node * list node)) (s t : node).

(** [path] is a walk from [s] to [t] that visits no node twice. *)
Definition simple_path graph s t (path : list node) : Prop :=
  walk_from_to graph s t path ∧ NoDup path.
End simple_path_spec.

(** ** Weighted paths *)

Section weighted_path_spec.
Context `{Countable node}.
Implicit Types (graph : list (node * list (node * Z))).

(** [wpath graph path c]: the nodes of [path] are linked by edges of total
    weight [c]. *)
Inductive wpath graph : list node → Z → Prop :=
  | wpath_one x : wpath graph [x] 0
  | wpath_cons x y path w c :
      (y, w) ∈ graph_get graph x → wpath graph (y :: path) c →
      wpath graph (x :: y :: path) (w + c).
End weighted_path_spec.

(** * Part IV: proofs *)

(** ** The runtime *)

Section runtime_facts.
Context {A : Type} `{EqDecision A}.
Implicit Types (x y : A) (l : list A).

Lemma list_mem_true x l : list_mem x l = true ↔ x ∈ l.
Proof. unfold list_mem. by rewrite bool_decide_eq_true. Qed.

Lemma list_mem_false x l : list_mem x l = false ↔ x ∉ l.
Proof. unfold list_mem. by rewrite bool_decide_eq_false. Qed.

Lemma count_occ_of_nil x : count_occ_of x [] = 0.
Proof. done. Qed.

Lemma count_occ_of_cons x y l :
  count_occ_of x (y :: l) = (if decide (y = x) then 1 else 0) + count_occ_of x l.
Proof. unfold count_occ_of. rewrite filter_cons. by case_decide. Qed.

Lemma count_occ_of_app x l1 l2 :
  count_occ_of x (l1 ++ l2) = count_occ_of x l1 + count_occ_of x l2.
Proof. unfold count_occ_of. by rewrite filter_app, length_app. Qed.

Lemma count_occ_of_0 x l : count_occ_of x l = 0 ↔ x ∉ l.
Proof.
  induction l as [|y l IH]; [split; [intros; apply not_elem_of_nil|done]|].
  rewrite count_occ_of_cons, not_elem_of_cons.
  case_decide; subst; split; intros; try lia; naive_solver.
Qed.

Lemma count_occ_of_NoDup l : NoDup l ↔ ∀ x, count_occ_of x l ≤ 1.
Proof.
  induction l as [|y l IH]; [split; [intros _ x; cbn; lia|constructor]|].
  rewrite NoDup_cons, IH. split.
  - intros [Hy Hl] x. rewrite count_occ_of_cons. case_decide; subst.
    + apply count_occ_of_0 in Hy. lia.
    + apply Hl.
  - intros Hc. split.
    + specialize (Hc y). rewrite count_occ_of_cons, decide_True in Hc by done.
      apply count_occ_of_0. lia.
    + intros x. specialize (Hc x). rewrite count_occ_of_cons in Hc. lia.
Qed.

Lemma list_remove_Return x l : x ∈ l → ∃ l', list_remove x l = Return l'.
Proof.
  induction l as [|y l IH]; [by rewrite elem_of_nil|]. intros Hx. simpl.
  case_decide; [by eexists|].
  destruct IH as [l' ->]; [set_solver|]. by eexists.
Qed.

Lemma list_remove_count x l l' z :
  list_remove x l = Return l' →
  count_occ_of z l = (if decide (x = z) then 1 else 0) + count_occ_of z l'.
Proof.
  revert l'. induction l as [|y l IH]; intros l'; [done|]. simpl.
  destruct (decide (x = y)) as [Hxy|Hxy].
  - intros [= ->]. subst y. rewrite count_occ_of_cons.
    repeat case_decide; congruence.
  - destruct (list_remove x l) as [l''| |] eqn:Hrm; [|done..].
    intros [= <-]. rewrite !count_occ_of_cons, (IH l'') by done.
    repeat case_decide; subst; try done; lia.
Qed.

Lemma list_remove_elem_of x l l' z :
  list_remove x l = Return l' → z ∈ l' → z ∈ l.
Proof.
  intros Hrm Hz. apply (list_remove_count _ _ _ z) in Hrm.
  apply dec_stable. intros Hn%count_occ_of_0.
  assert (count_occ_of z l' ≠ 0) by (rewrite count_occ_of_0; auto). lia.
Qed.

Lemma list_remove_elem_of_ne x l l' z :
  list_remove x l = Return l' → z ≠ x → z ∈ l → z ∈ l'.
Proof.
  intros Hrm Hne Hz. apply (list_remove_count _ _ _ z) in Hrm.
  rewrite decide_False in Hrm by done.
  destruct (decide (z ∈ l')) as [|Hn]; [done|].
  apply count_occ_of_0 in Hn. exfalso.
  assert (count_occ_of z l ≠ 0) by (rewrite count_occ_of_0; auto).
  lia.
Qed.
End runtime_facts.

Section dict_facts.
Context {K V : Type} `{EqDecision K}.
Implicit Types (d : list (K * V)) (k : K) (v : V).

Lemma dict_get_None d k : dict_get d k = None ↔ k ∉ dict_keys d.
Proof.
  unfold dict_keys. induction d as [|[k' v'] d IH]; simpl.
  - split; [intros; apply not_elem_of_nil|done].
  - rewrite not_elem_of_cons. case_decide; naive_solver.
Qed.

Lemma dict_get_is_Some d k : is_Some (dict_get d k) ↔ k ∈ dict_keys d.
Proof.
  rewrite <-not_eq_None_Some, dict_get_None.
  split; [apply dec_stable|auto].
Qed.

Lemma dict_mem_true d k : dict_mem d k = true ↔ k ∈ dict_keys d.
Proof. unfold dict_mem. by rewrite bool_decide_eq_true, dict_get_is_Some. Qed.

Lemma dict_mem_false d k : dict_mem d k = false ↔ k ∉ dict_keys d.
Proof. unfold dict_mem. by rewrite bool_decide_eq_false, dict_get_is_Some. Qed.

Lemma dict_get_elem_of d k v : dict_get d k = Some v → (k, v) ∈ d.
Proof.
  induction d as [|[k' v'] d IH]; simpl; [done|].
  case_decide; [intros [= ->]; subst; left | right; auto].
Qed.

Lemma dict_elem_of_get d k v : dict_wf d → (k, v) ∈ d → dict_get d k = Some v.
Proof.
  unfold dict_wf, dict_keys. induction d as [|[k' v'] d IH]; simpl.
  - by rewrite elem_of_nil.
  - rewrite NoDup_cons, elem_of_cons. intros [Hk' Hd] [[= -> ->]|Hin].
    + by rewrite decide_True.
    + rewrite decide_False; [auto|]. intros ->. apply Hk'.
      apply list_elem_of_fmap. by exists (k', v).
Qed.

Lemma dict_lookup_Return d k v : dict_lookup d k = Return v ↔ dict_get d k = Some v.
Proof. unfold dict_lookup. destruct (dict_get d k); naive_solver. Qed.

Lemma dict_get_set d k v k' :
  dict_get (dict_set d k v) k' = if decide (k = k') then Some v else dict_get d k'.
Proof.
  induction d as [|[k0 v0] d IH]; simpl.
  - repeat case_decide; congruence.
  - repeat (case_decide; simpl); try congruence.
Qed.

Lemma dict_get_set_eq d k v : dict_get (dict_set d k v) k = Some v.
Proof. by rewrite dict_get_set, decide_True. Qed.

Lemma dict_get_set_ne d k v k' :
  k ≠ k' → dict_get (dict_set d k v) k' = dict_get d k'.
Proof. intros. by rewrite dict_get_set, decide_False. Qed.

Lemma dict_keys_set_in d k v : k ∈ dict_keys d → dict_keys (dict_set d k v) = dict_keys d.
Proof.
  unfold dict_keys. induction d as [|[k0 v0] d IH]; simpl.
  - by rewrite elem_of_nil.
  - rewrite elem_of_cons. intros Hk. case_decide; simpl; [by subst|].
    f_equal. apply IH. naive_solver.
Qed.

Lemma dict_keys_set_notin d k v :
  k ∉ dict_keys d → dict_keys (dict_set d k v) = dict_keys d ++ [k].
Proof.
  unfold dict_keys. induction d as [|[k0 v0] d IH]; simpl; [done|].
  rewrite not_elem_of_cons. intros [? ?]. rewrite decide_False by done.
  simpl. f_equal. auto.
Qed.

Lemma dict_elem_of_keys_set d k v k' :
  k' ∈ dict_keys (dict_set d k v) ↔ k' = k ∨ k' ∈ dict_keys d.
Proof.
  rewrite <-!dict_get_is_Some, dict_get_set. case_decide; subst.
  - split; [auto|by eexists].
  - naive_solver.
Qed.

Lemma dict_wf_set d k v : dict_wf d → dict_wf (dict_set d k v).
Proof.
  unfold dict_wf. intros Hd. destruct (decide (k ∈ dict_keys d)).
  - by rewrite dict_keys_set_in.
  - rewrite dict_keys_set_notin by done. apply NoDup_app.
    split_and!; [done| |apply NoDup_singleton].
    intros x ? ->%list_elem_of_singleton. done.
Qed.

Lemma dict_set_notin d k v : k ∉ dict_keys d → dict_set d k v = d ++ [(k, v)].
Proof.
  unfold dict_keys. induction d as [|[k' v'] d IH]; [done|].
  rewrite fmap_cons, not_elem_of_cons. intros [? ?]. simpl.
  rewrite decide_False by done. by rewrite IH.
Qed.

Lemma dict_get_del d k k' :
  dict_get (dict_del d k) k' = if decide (k = k') then None else dict_get d k'.
Proof.
  induction d as [|[k0 v0] d IH]; simpl; [by case_decide|].
  repeat (case_decide; simpl); congruence.
Qed.

Lemma dict_keys_del d k : dict_keys (dict_del d k) = filter (λ k', k' ≠ k) (dict_keys d).
Proof.
  unfold dict_keys. induction d as [|[k0 v0] d IH]; [done|].
  cbn [dict_del]. rewrite fmap_cons, filter_cons. cbn [fst].
  destruct (decide (k = k0)); subst.
  - by rewrite decide_False by naive_solver.
  - rewrite decide_True by done. by rewrite fmap_cons, IH.
Qed.

Lemma dict_wf_del d k : dict_wf d → dict_wf (dict_del d k).
Proof. unfold dict_wf. rewrite dict_keys_del. apply NoDup_filter. Qed.

Lemma dict_elem_of_del d k k' v' : (k', v') ∈ dict_del d k ↔ k' ≠ k ∧ (k', v') ∈ d.
Proof.
  induction d as [|[k0 v0] d IH]; simpl.
  - rewrite elem_of_nil. naive_solver.
  - case_decide; subst; rewrite ?elem_of_cons, IH; naive_solver.
Qed.

Lemma dict_wf_elem_of_set d k v k' v' :
  dict_wf d →
  (k', v') ∈ dict_set d k v ↔ (k' = k ∧ v' = v) ∨ (k' ≠ k ∧ (k', v') ∈ d).
Proof.
  intros Hwf. split.
  - intros Hin. apply dict_elem_of_get in Hin; [|by apply dict_wf_set].
    rewrite dict_get_set in Hin. case_decide; subst.
    + naive_solver.
    + right. split; [done|]. by apply dict_get_elem_of.
  - intros [[-> ->]|[Hne Hin]]; apply dict_get_elem_of.
    + apply dict_get_set_eq.
    + rewrite dict_get_set_ne by done. by apply dict_elem_of_get.
Qed.
End dict_facts.

(** ** The [Graph] class *)

Section graph_class_facts.
Context `{Countable node}.
Import graph_class.
Implicit Types (g : Graph (node:=node)) (adj : list (node * list node)).
Implicit Types (n u v x z : node).

(** Occurrences of [z] in the adjacency list of [x]. *)
Definition cnt adj x z : nat := count_occ_of z (graph_get adj x).

Lemma cnt_pos adj x z : cnt adj x z ≠ 0 ↔ z ∈ graph_get adj x.
Proof.
  unfold cnt. rewrite count_occ_of_0. split; [apply dec_stable|auto].
Qed.

Lemma graph_get_set adj x (l : list node) y :
  graph_get (dict_set adj x l) y = if decide (x = y) then l else graph_get adj y.
Proof. unfold graph_get. rewrite dict_get_set. by case_decide. Qed.

Lemma graph_get_del adj x y :
  graph_get (dict_del adj x) y = if decide (x = y) then [] else graph_get adj y.
Proof. unfold graph_get. rewrite dict_get_del. by case_decide. Qed.

Lemma graph_get_notin adj x : x ∉ dict_keys adj → graph_get adj x = [].
Proof. intros Hx%dict_get_None. unfold graph_get. by rewrite Hx. Qed.

Lemma graph_get_elem_of adj x (l : list node) :
  dict_wf adj → (x, l) ∈ adj → graph_get adj x = l.
Proof. intros ? Hin%dict_elem_of_get; [|done]. unfold graph_get. by rewrite Hin. Qed.

Lemma graph_get_lookup adj x :
  x ∈ dict_keys adj → dict_lookup adj x = Return (graph_get adj x).
Proof.
  intros [l Hl]%dict_get_is_Some. unfold dict_lookup, graph_get. by rewrite Hl.
Qed.

Lemma cnt_notin adj x z : x ∉ dict_keys adj → cnt adj x z = 0.
Proof. intros. unfold cnt. by rewrite graph_get_notin. Qed.

Lemma cnt_key adj x z : cnt adj x z ≠ 0 → x ∈ dict_keys adj.
Proof.
  intros Hc. apply dec_stable. intros Hx. by rewrite cnt_notin in Hc.
Qed.

(** *** [add_node] *)

Lemma add_node_directed g n : directed (add_node g n).1 = directed g.
Proof. unfold add_node. by destruct (dict_mem _ _). Qed.

Lemma add_node_keys g n k :
  k ∈ dict_keys (adjacency_list (add_node g n).1)
  ↔ k = n ∨ k ∈ dict_keys (adjacency_list g).
Proof.
  unfold add_node. destruct (dict_mem _ _) eqn:Hm; simpl.
  - apply dict_mem_true in Hm. naive_solver.
  - apply dict_elem_of_keys_set.
Qed.

Lemma add_node_get g n x :
  graph_get (adjacency_list (add_node g n).1) x = graph_get (adjacency_list g) x.
Proof.
  unfold add_node. destruct (dict_mem _ _) eqn:Hm; simpl; [done|].
  rewrite graph_get_set. case_decide; [subst|done].
  apply dict_mem_false in Hm. by rewrite graph_get_notin.
Qed.

Lemma add_node_wf g n :
  dict_wf (adjacency_list g) → dict_wf (adjacency_list (add_node g n).1).
Proof.
  unfold add_node. destruct (dict_mem _ _); simpl; [done|]. apply dict_wf_set.
Qed.

(** *** [add_edge] *)

Lemma has_edge_true g u v :
  has_edge g u v = true ↔ v ∈ graph_get (adjacency_list g) u.
Proof.
  unfold has_edge. rewrite andb_true_iff, dict_mem_true, list_mem_true.
  split; [naive_solver|]. intros Hv. split; [|done].
  apply (cnt_key _ _ v). by apply cnt_pos.
Qed.

Lemma has_edge_false g u v :
  has_edge g u v = false ↔ v ∉ graph_get (adjacency_list g) u.
Proof. rewrite <-has_edge_true. by destruct (has_edge g u v). Qed.

(** The graph after a call of [add_edge] that inserts. *)
Definition with_edge g u v x : list node :=
  (if decide (x = u) then graph_get (adjacency_list g) u ++ [v]
   else graph_get (adjacency_list g) x)
  ++ (if negb (directed g) && bool_decide (x = v) then [u] else []).

Lemma add_edge_spec g u v :
  ∃ g', add_edge g u v = Return (g', negb (has_edge g u v))
    ∧ directed g' = directed g
    ∧ (∀ k, k ∈ dict_keys (adjacency_list g')
            ↔ k = u ∨ k = v ∨ k ∈ dict_keys (adjacency_list g))
    ∧ (dict_wf (adjacency_list g) → dict_wf (adjacency_list g'))
    ∧ (dict_keys (adjacency_list g') =
         dict_keys (adjacency_list (add_node (add_node g u).1 v).1))
    ∧ (has_edge g u v = true → v ∈ dict_keys (adjacency_list g) → g' = g)
    ∧ ∀ x, graph_get (adjacency_list g') x =
             if has_edge g u v then graph_get (adjacency_list g) x
             else with_edge g u v x.
Proof.
  unfold add_edge.
  set (g1 := (add_node g u).1). set (g2 := (add_node g1 v).1).
  assert (Hk : ∀ k, k ∈ dict_keys (adjacency_list g2)
                    ↔ k = u ∨ k = v ∨ k ∈ dict_keys (adjacency_list g)).
  { intros k. unfold g2, g1. rewrite !add_node_keys. naive_solver. }
  assert (Hget : ∀ x, graph_get (adjacency_list g2) x
                      = graph_get (adjacency_list g) x).
  { intros x. unfold g2, g1. by rewrite !add_node_get. }
  assert (Hd : directed g2 = directed g).
  { unfold g2, g1. by rewrite !add_node_directed. }
  assert (Hwf : dict_wf (adjacency_list g) → dict_wf (adjacency_list g2)).
  { intros. by do 2 apply add_node_wf. }
  rewrite graph_get_lookup by (apply Hk; auto). simpl. rewrite Hget.
  destruct (has_edge g u v) eqn:He.
  - apply has_edge_true in He as He'.
    assert (Hu : u ∈ dict_keys (adjacency_list g)).
    { apply (cnt_key _ _ v). by apply cnt_pos. }
    apply list_mem_true in He' as ->.
    exists g2. split_and!; auto.
    intros _ Hv. unfold g2, g1, add_node.
    apply dict_mem_true in Hu as ->. simpl.
    apply dict_mem_true in Hv as ->. done.
  - apply has_edge_false in He as He'. apply list_mem_false in He' as ->.
    rewrite Hd. destruct (directed g) eqn:Hdir; simpl.
    + eexists. split; [done|]. simpl. split_and!; [done| | |..].
      * intros k. rewrite dict_elem_of_keys_set, Hk. naive_solver.
      * intros. by apply dict_wf_set, Hwf.
      * apply dict_keys_set_in, Hk. auto.
      * done.
      * intros x. rewrite graph_get_set, Hget. unfold with_edge.
        rewrite Hdir. simpl. rewrite app_nil_r.
        repeat case_decide; by subst.
    + rewrite graph_get_lookup by (apply dict_elem_of_keys_set, or_intror, Hk; auto).
      simpl. eexists. split; [done|]. simpl. split_and!; [done| | |..].
      * intros k. rewrite !dict_elem_of_keys_set, Hk. naive_solver.
      * intros. by apply dict_wf_set, dict_wf_set, Hwf.
      * rewrite !dict_keys_set_in; [done|apply Hk; auto|].
        apply dict_elem_of_keys_set, or_intror, Hk; auto.
      * done.
      * intros x. rewrite !graph_get_set, !Hget. unfold with_edge.
        rewrite Hdir. simpl.
        repeat (case_decide || case_bool_decide); subst; try done.
        all: by rewrite ?app_nil_r.
Qed.
(** *** Removing one entry of an adjacency list *)

Lemma remove_entry_spec adj x z :
  z ∈ graph_get adj x →
  ∃ l', list_remove z (graph_get adj x) = Return l'
    ∧ dict_lookup adj x = Return (graph_get adj x)
    ∧ dict_keys (dict_set adj x l') = dict_keys adj
    ∧ ∀ x' z', cnt adj x' z'
        = cnt (dict_set adj x l') x' z' + (if decide (x' = x ∧ z' = z) then 1 else 0).
Proof.
  intros Hz. destruct (list_remove_Return _ _ Hz) as [l' Hl'].
  assert (Hx : x ∈ dict_keys adj) by (apply (cnt_key _ _ z); by apply cnt_pos).
  exists l'. split_and!; [done|by apply graph_get_lookup|by apply dict_keys_set_in|].
  intros x' z'. unfold cnt. rewrite graph_get_set.
  pose proof (list_remove_count _ _ _ z' Hl').
  repeat case_decide; destruct_and?; simplify_eq;
    first [lia | exfalso; naive_solver].
Qed.

Local Ltac cnt_absurd :=
  match goal with
  | H : ¬ _ |- _ => exfalso; apply H; repeat split; first [done | lia]
  end.

Local Ltac cnt_solve :=
  repeat case_decide; destruct_and?; simplify_eq;
  first [lia | congruence | cnt_absurd | by auto].

(** *** The invariant, in terms of occurrence counts *)

Lemma graph_inv_cnt g :
  graph_inv g ↔
    dict_wf (adjacency_list g)
    ∧ (∀ u v, cnt (adjacency_list g) u v ≠ 0 → v ∈ dict_keys (adjacency_list g))
    ∧ (∀ u v, u ≠ v → cnt (adjacency_list g) u v ≤ 1)
    ∧ (directed g = true → ∀ u v, cnt (adjacency_list g) u v ≤ 1)
    ∧ (directed g = false → ∀ u v,
         cnt (adjacency_list g) u v ≠ 0 → cnt (adjacency_list g) v u ≠ 0).
Proof.
  split.
  - intros [? Hc ? ? Hs]. split_and!; [done| |done|done|].
    + intros u v ?%cnt_pos. eauto.
    + intros Hd u v ?%cnt_pos. apply cnt_pos. eauto.
  - intros (? & Hc & ? & ? & Hs). split; [done| |done|done|].
    + intros u v ?%cnt_pos. eauto.
    + intros Hd u v ?%cnt_pos. apply cnt_pos. eauto.
Qed.

Lemma init_inv d : graph_inv (init (node:=node) d).
Proof.
  apply graph_inv_cnt. simpl. split_and!; try done.
  - apply NoDup_nil_2.
  - intros u v _. unfold cnt, graph_get. simpl. by rewrite count_occ_of_nil; lia.
  - intros _ u v. unfold cnt, graph_get. simpl. by rewrite count_occ_of_nil; lia.
Qed.

Lemma add_node_inv g n : graph_inv g → graph_inv (add_node g n).1.
Proof.
  rewrite !graph_inv_cnt. intros (Hwf & Hc & Ho & Hd & Hs).
  unfold cnt in *. rewrite add_node_directed.
  setoid_rewrite add_node_get. setoid_rewrite add_node_keys.
  split_and!; eauto using add_node_wf.
Qed.

Lemma add_edge_inv g u v g' b :
  graph_inv g → add_edge g u v = Return (g', b) → graph_inv g'.
Proof.
  rewrite !graph_inv_cnt. intros (Hwf & Hc & Ho & Hd & Hs) Hadd.
  destruct (add_edge_spec g u v) as (g'' & Heq & Hdir & Hk & Hwf' & _ & _ & Hget).
  rewrite Hadd in Heq. injection Heq as <- ->. rewrite Hdir.
  assert (Hcnt : ∀ x z, cnt (adjacency_list g') x z =
    if has_edge g u v then cnt (adjacency_list g) x z
    else cnt (adjacency_list g) x z
         + (if decide (x = u ∧ z = v) then 1 else 0)
         + (if decide (directed g = false ∧ x = v ∧ z = u) then 1 else 0)).
  { intros x z. unfold cnt. rewrite Hget. destruct (has_edge g u v); [done|].
    unfold with_edge. rewrite count_occ_of_app.
    destruct (directed g); simpl.
    - rewrite count_occ_of_nil. case_decide; subst.
      + rewrite count_occ_of_app, count_occ_of_cons, count_occ_of_nil. cnt_solve.
      + cnt_solve.
    - case_bool_decide; subst.
      + rewrite count_occ_of_cons, count_occ_of_nil. case_decide; subst.
        * rewrite count_occ_of_app, count_occ_of_cons, count_occ_of_nil. cnt_solve.
        * cnt_solve.
      + rewrite count_occ_of_nil. case_decide; subst.
        * rewrite count_occ_of_app, count_occ_of_cons, count_occ_of_nil. cnt_solve.
        * cnt_solve. }
  destruct (has_edge g u v) eqn:He.
  { split_and!; auto.
    - intros x z. rewrite Hcnt, Hk. eauto.
    - intros x z. rewrite Hcnt. auto.
    - intros ? x z. rewrite Hcnt. auto.
    - intros ? x z. rewrite !Hcnt. auto. }
  apply has_edge_false in He.
  assert (Huv : cnt (adjacency_list g) u v = 0) by (by apply count_occ_of_0).
  split_and!; auto.
  - intros x z. rewrite Hcnt, Hk. intros Hxz.
    destruct (decide (cnt (adjacency_list g) x z = 0)) as [Hz|Hz];
      [|by right; right; eauto].
    rewrite Hz in Hxz. cnt_solve.
  - intros x z Hxz. rewrite Hcnt. specialize (Ho x z Hxz).
    destruct (directed g) eqn:Hdg.
    + specialize (Hd eq_refl x z). cnt_solve.
    + pose proof (Hs eq_refl v u). cnt_solve.
  - intros Hdg x z. rewrite Hcnt. specialize (Hd Hdg x z). cnt_solve.
  - intros Hdg x z. rewrite !Hcnt. pose proof (Hs Hdg x z). cnt_solve.
Qed.

Lemma remove_edge_spec g u v :
  ∃ g', remove_edge g u v = Return (g', has_edge g u v)
    ∧ directed g' = directed g
    ∧ dict_keys (adjacency_list g') = dict_keys (adjacency_list g)
    ∧ ∀ x z, cnt (adjacency_list g) x z =
        cnt (adjacency_list g') x z
        + (if decide (has_edge g u v = true ∧ x = u ∧ z = v) then 1 else 0)
        + (if decide (has_edge g u v = true ∧ directed g = false
                      ∧ (if decide (u = v) then 1 else 0)
                            < cnt (adjacency_list g) v u
                      ∧ x = v ∧ z = u)
           then 1 else 0).
Proof.
  unfold remove_edge. destruct (has_edge g u v) eqn:He.
  2: { exists g. split_and!; try done. intros x z. cnt_solve. }
  apply has_edge_true in He.
  destruct (remove_entry_spec _ _ _ He) as (l1 & Hrm1 & Hlk1 & Hk1 & Hc1).
  rewrite Hlk1. simpl. rewrite Hrm1. simpl.
  destruct (directed g) eqn:Hd; simpl.
  { eexists. split; [done|]. simpl. split_and!; [done|done|].
    intros x z. rewrite (Hc1 x z). cnt_solve. }
  match goal with |- context [has_edge ?g1 v u] => destruct (has_edge g1 v u) eqn:He1 end.
  - apply has_edge_true in He1. simpl in He1.
    destruct (remove_entry_spec _ _ _ He1) as (l2 & Hrm2 & Hlk2 & Hk2 & Hc2).
    rewrite Hlk2. simpl. rewrite Hrm2. simpl. eexists. split; [done|]. simpl. split_and!; [done|congruence|].
    intros x z. rewrite (Hc1 x z), (Hc2 x z).
    apply cnt_pos in He1. pose proof (Hc1 v u). cnt_solve.
  - apply has_edge_false in He1. simpl in He1.
    eexists. split; [done|]. simpl. split_and!; [done|done|].
    intros x z. rewrite (Hc1 x z).
    assert (cnt (dict_set (adjacency_list g) u l1) v u = 0).
    { apply dec_stable. by rewrite cnt_pos. }
    pose proof (Hc1 v u). cnt_solve.
Qed.

Lemma remove_edge_inv g u v g' b :
  graph_inv g → remove_edge g u v = Return (g', b) → graph_inv g'.
Proof.
  rewrite !graph_inv_cnt. intros (Hwf & Hc & Ho & Hd & Hs) Hrm.
  destruct (remove_edge_spec g u v) as (g'' & Heq & Hdir & Hk & Hcnt).
  rewrite Hrm in Heq. injection Heq as <- ->. rewrite Hdir, Hk.
  split_and!.
  - unfold dict_wf. by rewrite Hk.
  - intros x z Hxz. apply (Hc x z). specialize (Hcnt x z). lia.
  - intros x z Hxz. specialize (Ho x z Hxz). specialize (Hcnt x z). lia.
  - intros Hdg x z. specialize (Hd Hdg x z). specialize (Hcnt x z). lia.
  - intros Hdg x z Hxz.
    pose proof (Hcnt x z) as E1. pose proof (Hcnt z x) as E2.
    assert (Hzx : cnt (adjacency_list g) z x ≠ 0) by (apply (Hs Hdg x z); lia).
    destruct (decide (z = u ∧ x = v)) as [[-> ->]|N1].
    { destruct (decide (u = v)) as [->|Hne]; [done|].
      pose proof (Ho v u (not_eq_sym Hne)). cnt_solve. }
    destruct (decide (z = v ∧ x = u)) as [[-> ->]|N2].
    { destruct (decide (u = v)) as [->|Hne]; [done|].
      pose proof (Ho u v Hne). cnt_solve. }
    clear E1. cnt_solve.
Qed.
(** *** [remove_node] *)

Lemma purge_spec n x adj :
  x ∈ dict_keys adj →
  ∃ adj', purge n x adj = Return adj'
    ∧ dict_keys adj' = dict_keys adj
    ∧ ∀ x' z, cnt adj x' z =
        cnt adj' x' z
        + (if decide (x' = x ∧ z = n ∧ cnt adj x n ≠ 0) then 1 else 0).
Proof.
  intros Hx. unfold purge. rewrite graph_get_lookup by done. simpl.
  destruct (list_mem n (graph_get adj x)) eqn:Hm.
  - apply list_mem_true in Hm.
    destruct (remove_entry_spec _ _ _ Hm) as (l' & Hrm & _ & Hk & Hc).
    rewrite Hrm. simpl. eexists. split_and!; [done|done|].
    intros x' z. rewrite (Hc x' z). apply cnt_pos in Hm. cnt_solve.
  - apply list_mem_false in Hm. exists adj. split_and!; [done|done|].
    intros x' z. assert (cnt adj x n = 0) by by apply count_occ_of_0.
    cnt_solve.
Qed.

Lemma purge_loop_spec n ks adj :
  NoDup ks → (∀ k, k ∈ ks → k ∈ dict_keys adj) →
  ∃ adj', for_each ks (purge n) adj = Return adj'
    ∧ dict_keys adj' = dict_keys adj
    ∧ ∀ x z, cnt adj x z =
        cnt adj' x z
        + (if decide (x ∈ ks ∧ z = n ∧ cnt adj x n ≠ 0) then 1 else 0).
Proof.
  revert adj. induction ks as [|k ks IH]; intros adj Hnd Hks.
  - exists adj. split_and!; [done|done|]. intros x z.
    rewrite decide_False; [lia|]. intros [?%elem_of_nil _]. done.
  - apply NoDup_cons in Hnd as [Hk Hnd]. simpl.
    destruct (purge_spec n k adj) as (adj1 & -> & Hk1 & Hc1); [apply Hks; left|].
    simpl. destruct (IH adj1 Hnd) as (adj' & -> & Hk' & Hc').
    { intros k' ?. rewrite Hk1. apply Hks. by right. }
    exists adj'. split_and!; [done|congruence|].
    intros x z. rewrite (Hc1 x z), (Hc' x z).
    destruct (decide (x = k)) as [->|Hxk].
    + rewrite (decide_False (P := k ∈ ks ∧ _)) by naive_solver.
      destruct (decide (z = n ∧ cnt adj k n ≠ 0)) as [[-> Hn]|Hn].
      * rewrite !decide_True; [lia|split_and!; [left|done|done]|done].
      * rewrite !decide_False by naive_solver. lia.
    + pose proof (Hc1 x n) as E. rewrite decide_False in E by naive_solver.
      rewrite (decide_False (P := x = k ∧ _)) by naive_solver.
      destruct (decide (x ∈ ks ∧ z = n ∧ cnt adj1 x n ≠ 0)) as [(?&?&?)|Hn].
      * rewrite decide_True; [lia|]. split_and!; [by right|done|lia].
      * rewrite decide_False; [lia|]. intros (Hin & ? & ?). apply Hn.
        split_and!; [|done|lia]. by apply elem_of_cons in Hin as [?|?].
Qed.

Lemma remove_node_spec g n :
  dict_wf (adjacency_list g) →
  ∃ g', remove_node g n = Return (g', dict_mem (adjacency_list g) n)
    ∧ directed g' = directed g
    ∧ (dict_mem (adjacency_list g) n = false → g' = g)
    ∧ (dict_mem (adjacency_list g) n = true →
       dict_keys (adjacency_list g')
         = filter (λ k, k ≠ n) (dict_keys (adjacency_list g))
       ∧ ∀ x z, (if decide (x = n) then 0 else cnt (adjacency_list g) x z) =
           cnt (adjacency_list g') x z
           + (if decide (x ≠ n ∧ z = n ∧ cnt (adjacency_list g) x n ≠ 0)
              then 1 else 0)).
Proof.
  intros Hwf. unfold remove_node.
  destruct (dict_mem (adjacency_list g) n) eqn:Hm; simpl.
  2: { exists g. split_and!; done. }
  destruct (purge_loop_spec n (dict_keys (dict_del (adjacency_list g) n))
              (dict_del (adjacency_list g) n)) as (adj' & -> & Hk & Hc).
  { by apply dict_wf_del. }
  { done. }
  simpl. eexists. split; [done|]. simpl. split_and!; [done|done|].
  intros _. split; [by rewrite Hk, dict_keys_del|].
  assert (Hdel : ∀ x z, cnt (dict_del (adjacency_list g) n) x z
                        = if decide (x = n) then 0 else cnt (adjacency_list g) x z).
  { intros x z. unfold cnt. rewrite graph_get_del.
    repeat case_decide; by subst. }
  intros x z. rewrite <-Hdel, (Hc x z), !Hdel.
  destruct (decide (x ∈ dict_keys (dict_del (adjacency_list g) n))) as [Hx|Hx].
  - pose proof Hx as Hx'.
    rewrite dict_keys_del, list_elem_of_filter in Hx'. cnt_solve.
  - pose proof (cnt_notin _ _ n Hx) as Hn. rewrite Hdel in Hn. cnt_solve.
Qed.

Lemma remove_node_inv g n g' b :
  graph_inv g → remove_node g n = Return (g', b) → graph_inv g'.
Proof.
  intros Hinv Hrm. pose proof Hinv as (Hwf & Hc & Ho & Hd & Hs)%graph_inv_cnt.
  destruct (remove_node_spec g n Hwf) as (g'' & Heq & Hdir & Hnot & Hin).
  rewrite Hrm in Heq. injection Heq as <- ->.
  destruct (dict_mem (adjacency_list g) n) eqn:Hm; [|by rewrite Hnot].
  destruct (Hin eq_refl) as [Hk Hcnt]. apply graph_inv_cnt. rewrite Hdir, Hk.
  assert (Hgone : ∀ x, cnt (adjacency_list g') x n = 0).
  { intros x. pose proof (Hcnt x n).
    destruct (decide (x = n)) as [->|Hne]; [cnt_solve|].
    pose proof (Ho x n Hne).
    destruct (decide (cnt (adjacency_list g) x n = 0)); cnt_solve. }
  split_and!.
  - unfold dict_wf. rewrite Hk. by apply NoDup_filter.
  - intros x z Hxz. apply list_elem_of_filter.
    pose proof (Hcnt x z). pose proof (Hgone x). split.
    + intros ->. done.
    + apply (Hc x z). cnt_solve.
  - intros x z Hxz. specialize (Ho x z Hxz). specialize (Hcnt x z). cnt_solve.
  - intros Hdg x z. specialize (Hd Hdg x z). specialize (Hcnt x z). cnt_solve.
  - intros Hdg x z Hxz.
    pose proof (Hcnt x z). pose proof (Hcnt z x).
    pose proof (Hgone x). pose proof (Hgone z).
    pose proof (Hs Hdg x z). cnt_solve.
Qed.

Lemma built_inv g : built g → graph_inv g.
Proof.
  induction 1 as [d|g n _ IH|g u v g' b _ IH Hop|g u v g' b _ IH Hop
                  |g n g' b _ IH Hop].
  - apply init_inv.
  - by apply add_node_inv.
  - by apply (add_edge_inv g u v g' b).
  - by apply (remove_edge_inv g u v g' b).
  - by apply (remove_node_inv g n g' b).
Qed.

(** *** [get_nodes] and [get_edges] *)

Lemma elem_of_node_set g x :
  x ∈ node_set g ↔
    x ∈ dict_keys (adjacency_list g)
    ∨ ∃ k l, (k, l) ∈ adjacency_list g ∧ x ∈ l.
Proof.
  unfold node_set, dict_values.
  assert (Hfold : ∀ (ls : list (list node)) (acc : gset node),
    x ∈ foldl (λ nodes neighbors, nodes ∪ list_to_set neighbors) acc ls
    ↔ x ∈ acc ∨ ∃ l, l ∈ ls ∧ x ∈ l).
  { induction ls as [|l ls IH]; intros acc; simpl.
    - split; [auto|]. intros [?|(l & ?%elem_of_nil & _)]; done.
    - rewrite IH, elem_of_union, elem_of_list_to_set.
      setoid_rewrite elem_of_cons. naive_solver. }
  rewrite Hfold, elem_of_list_to_set. apply or_iff_compat_l.
  setoid_rewrite list_elem_of_fmap. split.
  - intros (l & ([k l'] & -> & Hin) & Hx). eauto.
  - intros (k & l & Hin & Hx). exists l. split; [|done]. by exists (k, l).
Qed.

Lemma elem_of_get_nodes g x : x ∈ get_nodes g ↔ x ∈ node_set g.
Proof. unfold get_nodes. apply elem_of_elements. Qed.

Lemma get_edges_eq g :
  get_edges g = adjacency_list g ≫= (λ '(u, l), pair u <$> l).
Proof.
  unfold get_edges.
  assert (Hin : ∀ u (l : list node) acc,
    foldl (λ edges to_node, edges ++ [(u, to_node)]) acc l
    = acc ++ (pair u <$> l)).
  { intros u l. induction l as [|v l IH]; intros acc; simpl.
    - by rewrite app_nil_r.
    - rewrite IH. by rewrite <-app_assoc. }
  assert (Hout : ∀ adj acc,
    foldl (λ edges '(from_node, neighbors),
       foldl (λ edges to_node, edges ++ [(from_node, to_node)]) edges neighbors)
      acc adj
    = acc ++ (adj ≫= (λ '(u, l), pair u <$> l))).
  { induction adj as [|[u l] adj IH]; intros acc; simpl.
    - by rewrite app_nil_r.
    - rewrite IH, Hin. by rewrite <-app_assoc. }
  by rewrite Hout.
Qed.

Lemma elem_of_get_edges g u v :
  (u, v) ∈ get_edges g ↔ ∃ l, (u, l) ∈ adjacency_list g ∧ v ∈ l.
Proof.
  rewrite get_edges_eq, list_elem_of_bind. split.
  - intros ([u' l] & Hin & Hadj). apply list_elem_of_fmap in Hin as (v' & [= -> ->] & Hv).
    eauto.
  - intros (l & Hadj & Hv). exists (u, l). split; [|done].
    apply list_elem_of_fmap. eauto.
Qed.
Lemma get_edges_wf g u v :
  dict_wf (adjacency_list g) →
  (u, v) ∈ get_edges g ↔ v ∈ graph_get (adjacency_list g) u.
Proof.
  intros Hwf. rewrite elem_of_get_edges. split.
  - intros (l & Hl & Hv). by rewrite (graph_get_elem_of _ _ l).
  - intros Hv. exists (graph_get (adjacency_list g) u). split; [|done].
    apply dict_get_elem_of. unfold graph_get in *.
    destruct (dict_get (adjacency_list g) u); [done|].
    by apply elem_of_nil in Hv.
Qed.

Lemma get_nodes_keys g x :
  graph_inv g → x ∈ get_nodes g ↔ x ∈ dict_keys (adjacency_list g).
Proof.
  intros [Hwf Hc _ _ _]. rewrite elem_of_get_nodes, elem_of_node_set.
  split; [|auto]. intros [?|(k & l & Hl & Hx)]; [done|].
  apply (Hc k). by rewrite (graph_get_elem_of _ _ l).
Qed.

(** The incoming edges counted by [get_degree]. *)
Lemma in_degree_fold n adj acc :
  (∀ u l, (u, l) ∈ adj → count_occ_of n l ≤ 1) →
  foldl (λ in_degree '(other_node, neighbors),
           if list_mem n neighbors then S in_degree else in_degree) acc adj
  = acc + length (filter (λ e, e.2 = n) (adj ≫= (λ '(u, l), pair u <$> l))).
Proof.
  revert acc. induction adj as [|[u l] adj IH]; intros acc Hone.
  - simpl. lia.
  - rewrite bind_cons. cbn [foldl].
    rewrite IH by (intros; eapply Hone; by right).
    rewrite filter_app, length_app.
    assert (Hl : length (filter (λ e : node * node, e.2 = n) (pair u <$> l))
                 = count_occ_of n l).
    { unfold count_occ_of. clear. induction l as [|v l IHl]; [done|].
      rewrite fmap_cons, !filter_cons. simpl.
      case_decide; simpl; by rewrite IHl. }
    rewrite Hl. pose proof (Hone u l ltac:(left)) as Hle.
    destruct (list_mem n l) eqn:Hm.
    + apply list_mem_true in Hm.
      assert (count_occ_of n l ≠ 0) by (rewrite count_occ_of_0; auto). lia.
    + apply list_mem_false, count_occ_of_0 in Hm. lia.
Qed.
End graph_class_facts.

Section graph_class_theorems.
Context `{Countable node}.
Import graph_class.
Implicit Types (g : Graph (node:=node)) (n u v x : node).

(** C8. In a graph built through the public mutators, [remove_node] of a
    node that is present returns [True]; afterwards the node is not among
    [get_nodes()], and no edge of [get_edges()] starts or ends at it. *)
Theorem remove_node_leaves_no_reference g n :
  built g → n ∈ get_nodes g →
  ∃ g', remove_node g n = Return (g', true)
    ∧ n ∉ get_nodes g'
    ∧ ∀ u v, (u, v) ∈ get_edges g' → u ≠ n ∧ v ≠ n.
Proof.
  intros Hb Hn. pose proof (built_inv g Hb) as Hinv.
  apply get_nodes_keys in Hn; [|done]. apply dict_mem_true in Hn.
  destruct (remove_node_spec g n (inv_wf _ Hinv)) as (g' & Hrm & _ & _ & Hin).
  rewrite Hn in Hrm. exists g'. split; [done|].
  assert (Hinv' : graph_inv g') by eauto using remove_node_inv.
  destruct (Hin Hn) as [Hk _].
  assert (Hkey : n ∉ dict_keys (adjacency_list g')).
  { rewrite Hk, list_elem_of_filter. naive_solver. }
  split.
  - by rewrite get_nodes_keys.
  - intros u v Huv. apply get_edges_wf in Huv; [|apply Hinv'].
    split; intros ->.
    + apply Hkey, (cnt_key _ _ v). by apply cnt_pos.
    + by apply Hkey, (inv_closed _ Hinv' u).
Qed.

(** C9. Inserting what is there already is reported, not raised:
    [add_node] of a key of the adjacency dictionary returns [False] and
    changes nothing, and it returns [True] when it inserts the node with an
    empty list; [add_edge] of an edge that is present returns [False] and
    leaves the neighbours of every node as they were (the graph itself when
    the target is a key); [add_edge] of a new edge returns [True], makes
    both endpoints keys and appends the target to the list of the source
    (and, in an undirected graph, the source to the list of the target). *)
Theorem duplicate_insertion_is_reported g n u v :
  (dict_mem (adjacency_list g) n = true → add_node g n = (g, false))
  ∧ (dict_mem (adjacency_list g) n = false →
       add_node g n
       = (mkGraph (adjacency_list g ++ [(n, [])]) (directed g), true))
  ∧ (has_edge g u v = true →
       ∃ g', add_edge g u v = Return (g', false)
         ∧ (∀ x, get_neighbors g' x = get_neighbors g x)
         ∧ (dict_mem (adjacency_list g) v = true → g' = g))
  ∧ (has_edge g u v = false →
       ∃ g', add_edge g u v = Return (g', true)
         ∧ dict_mem (adjacency_list g') u = true
         ∧ dict_mem (adjacency_list g') v = true
         ∧ ∀ x, get_neighbors g' x =
             (if decide (x = u) then get_neighbors g u ++ [v]
              else get_neighbors g x)
             ++ (if negb (directed g) && bool_decide (x = v) then [u] else [])).
Proof.
  split_and!.
  - intros Hm. unfold add_node. by rewrite Hm.
  - intros Hm. unfold add_node. rewrite Hm.
    apply dict_mem_false in Hm. by rewrite dict_set_notin.
  - intros He.
    destruct (add_edge_spec g u v) as (g' & Hadd & _ & _ & _ & _ & Hsame & Hget).
    rewrite He in Hadd, Hget. exists g'. split_and!; [done|done|].
    intros Hv%dict_mem_true. auto.
  - intros He.
    destruct (add_edge_spec g u v) as (g' & Hadd & _ & Hk & _ & _ & _ & Hget).
    rewrite He in Hadd, Hget. exists g'.
    split_and!; [done|apply dict_mem_true, Hk; auto..|done].
Qed.

(** C10, as the code has it. For a graph built through the public
    mutators: the degree of a node that is not in the graph is the integer
    [0]; for a node of a directed graph it is the dictionary whose "out" is
    the length of the adjacency list of the node, whose "in" is the number
    of edges of [get_edges()] that point to the node and whose "total" is
    their sum; for a node of an undirected graph it is the length of its
    adjacency list. *)
Theorem get_degree_of_built_graph g n :
  built g →
  (n ∉ get_nodes g → get_degree g n = DegInt 0)
  ∧ (n ∈ get_nodes g → directed g = true →
       get_degree g n =
         DegDict (length (filter (λ e, e.2 = n) (get_edges g)))
                 (length (get_neighbors g n))
                 (length (filter (λ e, e.2 = n) (get_edges g))
                  + length (get_neighbors g n)))
  ∧ (n ∈ get_nodes g → directed g = false →
       get_degree g n = DegInt (length (get_neighbors g n))).
Proof.
  intros Hb. pose proof (built_inv g Hb) as Hinv. unfold get_degree.
  split_and!.
  - intros Hn%list_mem_false. by rewrite Hn.
  - intros Hn%list_mem_true Hd. rewrite Hn, Hd. simpl.
    rewrite in_degree_fold, get_edges_eq; [done|].
    intros k l Hl. rewrite <-(graph_get_elem_of _ _ _ (inv_wf _ Hinv) Hl).
    by apply (inv_directed _ Hinv).
  - intros Hn%list_mem_true Hd. by rewrite Hn, Hd.
Qed.
End graph_class_theorems.

(** Instances on small graphs *)

Section graph_class_examples.
Import graph_class.

(** The directed graph [1 -> 2, 3 -> 1, 2 -> 3]. *)
Definition triangle : Graph (node:=nat) :=
  mkGraph [(1, [2]); (2, [3]); (3, [1])] true.

Lemma triangle_built : built triangle.
Proof.
  apply (built_add_edge (mkGraph [(1, [2]); (2, [3]); (3, [])] true) 3 1 _ true);
    [|reflexivity].
  apply (built_add_edge (mkGraph [(1, [2]); (2, [])] true) 2 3 _ true);
    [|reflexivity].
  apply (built_add_edge (init true) 1 2 _ true); [|reflexivity].
  apply built_init.
Qed.

Lemma remove_node_leaves_no_reference_witness :
  built triangle ∧ 1 ∈ get_nodes triangle
  ∧ ∃ g', remove_node triangle 1 = Return (g', true)
      ∧ 1 ∉ get_nodes g'
      ∧ ∀ u v, (u, v) ∈ get_edges g' → u ≠ 1 ∧ v ≠ 1.
Proof.
  assert (Hn : 1 ∈ get_nodes triangle) by (vm_compute; set_solver).
  split; [apply triangle_built|]. split; [exact Hn|].
  exact (remove_node_leaves_no_reference triangle 1 triangle_built Hn).
Defined.
Lemma duplicate_insertion_is_reported_witness :
  (dict_mem (adjacency_list triangle) 1 = true
   ∧ add_node triangle 1 = (triangle, false))
  ∧ (dict_mem (adjacency_list triangle) 7 = false
     ∧ add_node triangle 7
       = (mkGraph (adjacency_list triangle ++ [(7, [])]) true, true))
  ∧ (has_edge triangle 1 2 = true
     ∧ ∃ g', add_edge triangle 1 2 = Return (g', false)
         ∧ (∀ x, get_neighbors g' x = get_neighbors triangle x)
         ∧ (dict_mem (adjacency_list triangle) 2 = true → g' = triangle))
  ∧ (has_edge triangle 1 3 = false
     ∧ ∃ g', add_edge triangle 1 3 = Return (g', true)
         ∧ dict_mem (adjacency_list g') 1 = true
         ∧ dict_mem (adjacency_list g') 3 = true
         ∧ ∀ x, get_neighbors g' x =
             (if decide (x = 1) then get_neighbors triangle 1 ++ [3]
              else get_neighbors triangle x)
             ++ (if negb (directed triangle) && bool_decide (x = 3)
                 then [1] else [])).
Proof.
  destruct (duplicate_insertion_is_reported triangle 1 1 2) as (H1 & _ & H3 & _).
  destruct (duplicate_insertion_is_reported triangle 7 1 3) as (_ & H2 & _ & H4).
  split_and!; [reflexivity|apply H1; reflexivity|reflexivity|apply H2; reflexivity
              |reflexivity|apply H3; reflexivity|reflexivity|apply H4; reflexivity].
Defined.

Lemma get_degree_of_built_graph_witness :
  built triangle
  ∧ (4 ∉ get_nodes triangle ∧ get_degree triangle 4 = DegInt 0)
  ∧ (1 ∈ get_nodes triangle ∧ directed triangle = true
     ∧ get_degree triangle 1 = DegDict 1 1 2).
Proof.
  destruct (get_degree_of_built_graph triangle 4 triangle_built) as (H4 & _ & _).
  destruct (get_degree_of_built_graph triangle 1 triangle_built) as (_ & H1 & _).
  assert (Hin : 1 ∈ get_nodes triangle) by (vm_compute; set_solver).
  assert (Hout : 4 ∉ get_nodes triangle) by (vm_compute; set_solver).
  split_and!; [apply triangle_built|exact Hout|exact (H4 Hout)
              |exact Hin|reflexivity|exact (H1 Hin eq_refl)].
Defined.

(** C10 as stated fails for a node that is not in the graph: the degree
    of node [5] in the empty directed graph is the integer [0], not a
    dictionary. *)
Lemma get_degree_absent_node_counterexample :
  directed (init (node:=nat) true) = true
  ∧ get_degree (init true) 5 = DegInt 0
  ∧ ∀ i o t, get_degree (init true) 5 ≠ DegDict i o t.
Proof. split_and!; [reflexivity|reflexivity|discriminate]. Qed.
End graph_class_examples.

(** ** Loops *)

Lemma bind_Return {A B} (a : A) (f : A → result B) : Return a ≫= f = f a.
Proof. done. Qed.

Lemma for_each_cons {A S} (x : A) l (body : A → S → result S) s :
  for_each (x :: l) body s = body x s ≫= for_each l body.
Proof. done. Qed.

Section loop_facts.
Context {S R : Type}.

(** A [while] loop with an invariant and a variant: when the fuel exceeds
    the variant, the loop returns a value that satisfies the postcondition. *)
Lemma while_loop_rule (Inv : S → Prop) (Post : R → Prop) (m : S → nat)
    (body : S → result (S + R)) fuel s :
  (∀ s, Inv s →
     match body s with
     | Return (inl s') => Inv s' ∧ m s' < m s
     | Return (inr r) => Post r
     | _ => False
     end) →
  Inv s → m s < fuel →
  ∃ r, while_loop fuel body s = Return r ∧ Post r.
Proof.
  intros Hbody. revert s. induction fuel as [|fuel IH]; intros s Hs Hm; [lia|].
  simpl. specialize (Hbody s Hs).
  destruct (body s) as [[s'|r]| |]; [|by eauto|done..].
  destruct Hbody as [Hs' Hm']. apply IH; [done|lia].
Qed.
End loop_facts.

(** ** Reachability *)

Section reach_facts.
Context `{Countable node}.
Implicit Types (graph : list (node * list node)) (visited : gset node).
Implicit Types (u v x y s t : node).

Lemma elem_of_graph_nodes graph x :
  x ∈ graph_nodes graph ↔
    x ∈ dict_keys graph ∨ ∃ k l, (k, l) ∈ graph ∧ x ∈ l.
Proof.
  unfold graph_nodes, dict_values.
  rewrite elem_of_union, elem_of_list_to_set, elem_of_union_list.
  apply or_iff_compat_l. split.
  - intros (X & HX & Hx). apply list_elem_of_fmap in HX as (l & -> & Hl).
    apply list_elem_of_fmap in Hl as ([k l'] & -> & Hkl).
    apply elem_of_list_to_set in Hx. eauto.
  - intros (k & l & Hkl & Hx). exists (list_to_set l). split.
    + apply list_elem_of_fmap. exists l. split; [done|].
      apply list_elem_of_fmap. by exists (k, l).
    + by apply elem_of_list_to_set.
Qed.

Lemma edge_graph_nodes graph u v : edge graph u v → v ∈ graph_nodes graph.
Proof.
  unfold edge, graph_get. intros Hv. apply elem_of_graph_nodes. right.
  destruct (dict_get graph u) as [l|] eqn:Hl; [|by apply elem_of_nil in Hv].
  exists u, l. split; [by apply dict_get_elem_of|done].
Qed.

Lemma edge_key graph u v : edge graph u v → u ∈ dict_keys graph.
Proof.
  unfold edge, graph_get. intros Hv. apply dict_get_is_Some.
  destruct (dict_get graph u); [by eexists|by apply elem_of_nil in Hv].
Qed.

Lemma reachable_closed graph (X : node → Prop) s t :
  X s → (∀ x y, X x → edge graph x y → X y) → reachable graph s t → X t.
Proof. intros Hs Hcl Hr. induction Hr; eauto. Qed.

Lemma reachable_step graph s x y :
  reachable graph s x → edge graph x y → reachable graph s y.
Proof. intros. by eapply rtc_r. Qed.

Lemma size_difference_insert (U X : gset node) x :
  x ∈ U → x ∉ X → size (U ∖ X) = S (size (U ∖ ({[x]} ∪ X))).
Proof.
  intros HU HX.
  assert (U ∖ X = {[x]} ∪ U ∖ ({[x]} ∪ X)) as ->.
  { apply set_eq. intros y. destruct (decide (y = x)); set_solver. }
  rewrite size_union by set_solver. by rewrite size_singleton.
Qed.
End reach_facts.

(** ** A variant for the loops that push each edge at most once *)

Section unvisited_size.
Context `{Countable node} {A : Type}.
Implicit Types (graph : list (node * list A)) (visited : gset node).

(** Total length of the adjacency lists of the keys not visited yet. *)
Fixpoint unvisited_size graph visited : nat :=
  match graph with
  | [] => 0
  | (k, l) :: graph =>
      (if decide (k ∈ visited) then 0 else length l) + unvisited_size graph visited
  end.

Lemma unvisited_size_empty graph : unvisited_size graph ∅ = graph_size graph.
Proof.
  induction graph as [|[k l] graph IH]; [done|]. simpl. rewrite IH.
  by rewrite decide_False by set_solver.
Qed.

Lemma unvisited_size_mono graph visited n :
  unvisited_size graph ({[n]} ∪ visited) ≤ unvisited_size graph visited.
Proof.
  induction graph as [|[k l] graph IH]; [done|]. simpl.
  repeat case_decide; first [lia|exfalso; set_solver].
Qed.

Lemma unvisited_size_insert graph visited n :
  n ∉ visited →
  unvisited_size graph ({[n]} ∪ visited) + length (graph_get graph n)
    ≤ unvisited_size graph visited.
Proof.
  intros Hn. unfold graph_get.
  induction graph as [|[k l] graph IH]; [simpl; lia|].
  cbn [dict_get unvisited_size]. destruct (decide (n = k)) as [->|Hne].
  - rewrite decide_True by set_solver. rewrite decide_False by done.
    pose proof (unvisited_size_mono graph visited k). simpl. lia.
  - repeat case_decide; first [lia|exfalso; set_solver].
Qed.
End unvisited_size.

(** ** Breadth-first traversal *)

Section simple_bfs_facts.
Context `{Countable node}.
Import bfs.
Implicit Types (graph : list (node * list node)) (visited : gset node).
Implicit Types (queue order : list node) (x y s t : node).

Lemma simple_bfs_visit_fold (U : gset node) l visited queue :
  (∀ x, x ∈ l → x ∈ U) →
  ∃ visited' queue',
    foldl (λ st neighbor, simple_bfs_visit neighbor st) (visited, queue) l
      = (visited', queue')
    ∧ (∀ x, x ∈ visited' ↔ x ∈ visited ∨ x ∈ l)
    ∧ (∀ x, x ∈ queue' ↔ x ∈ queue ∨ (x ∈ l ∧ x ∉ visited))
    ∧ length queue' + size (U ∖ visited') = length queue + size (U ∖ visited).
Proof.
  revert visited queue. induction l as [|n l IH]; intros visited queue HU.
  - exists visited, queue. split_and!; [done|set_solver..|done].
  - cbn [foldl]. unfold simple_bfs_visit at 2.
    destruct (decide (n ∈ visited)) as [Hn|Hn].
    + destruct (IH visited queue) as (v' & q' & -> & Hv & Hq & Hm); [set_solver|].
      exists v', q'. split_and!; [done| | |done].
      * intros x. rewrite Hv. set_solver.
      * intros x. rewrite Hq. set_solver.
    + destruct (IH ({[n]} ∪ visited) (queue ++ [n]))
        as (v' & q' & -> & Hv & Hq & Hm); [set_solver|].
      exists v', q'. split_and!; [done| | |].
      * intros x. rewrite Hv. set_solver.
      * intros x. rewrite Hq, elem_of_app, list_elem_of_singleton.
        rewrite elem_of_cons. destruct (decide (x = n)); set_solver.
      * rewrite Hm, length_app. simpl.
        rewrite (size_difference_insert U visited n); [lia|set_solver|done].
Qed.

(** The invariant of the loop of [simple_bfs]. *)
Definition simple_bfs_inv graph s (st : gset node * list node * list node) : Prop :=
  let '(visited, queue, order) := st in
  s ∈ visited
  ∧ (∀ x, x ∈ visited → reachable graph s x)
  ∧ (∀ x, x ∈ visited ↔ x ∈ queue ∨ x ∈ order)
  ∧ (∀ x y, x ∈ order → edge graph x y → y ∈ visited).

Lemma simple_bfs_spec graph s :
  ∃ order, simple_bfs graph s = Return order
    ∧ ∀ x, x ∈ order ↔ reachable graph s x.
Proof.
  set (U := {[s]} ∪ graph_nodes graph).
  destruct (while_loop_rule (simple_bfs_inv graph s)
    (λ order, ∀ x, x ∈ order ↔ reachable graph s x)
    (λ '(visited, queue, _), length queue + size (U ∖ visited))
    (simple_bfs_body graph) (2 + size (graph_nodes graph))
    ({[s]}, [s], [])) as (order & Hrun & Hpost).
  - intros [[visited queue] order] (Hs & Hreach & Hvis & Hcl).
    destruct queue as [|n queue]; simpl.
    + intros x. split.
      * intros Hx. apply Hreach, Hvis. by right.
      * intros Hx. apply Hvis in Hs as [?%elem_of_nil|Hs]; [done|].
        apply (reachable_closed graph (λ x, x ∈ order) s x); [done| |done].
        intros a b Ha Hab. specialize (Hcl a b Ha Hab).
        apply Hvis in Hcl as [?%elem_of_nil|?]; done.
    + destruct (simple_bfs_visit_fold U (graph_get graph n) visited queue)
        as (v' & q' & -> & Hv & Hq & Hm).
      { intros x Hx. apply elem_of_union_r. by eapply edge_graph_nodes. }
      split; [|lia]. split_and!.
      * apply Hv. auto.
      * intros x [Hx|Hx]%Hv; [auto|].
        eapply reachable_step; [|exact Hx]. apply Hreach, Hvis. left. left.
      * intros x. rewrite Hv, Hq, Hvis, elem_of_app, list_elem_of_singleton.
        rewrite elem_of_cons.
        destruct (decide (x ∈ visited)) as [Hx|Hx]; [|set_solver].
        apply Hvis in Hx. set_solver.
      * intros x y [Hx|Hx]%elem_of_app Hxy.
        -- apply Hv. left. eauto.
        -- apply list_elem_of_singleton in Hx as ->. apply Hv. by right.
  - split_and!; [set_solver| |set_solver|set_solver].
    intros x ->%elem_of_singleton. apply rtc_refl.
  - simpl. assert (size (U ∖ {[s]}) ≤ size (graph_nodes graph)); [|lia].
    apply subseteq_size. set_solver.
  - eauto.
Qed.
End simple_bfs_facts.

(** ** Depth-first traversal with an explicit stack *)

Section simple_dfs_iterative_facts.
Context `{Countable node}.
Import dfs_iterative.
Implicit Types (graph : list (node * list node)) (visited : gset node).
Implicit Types (stack order : list node) (x y s t : node).

Lemma push_unvisited_fold visited l stack :
  let stack' := foldl (λ stack neighbor,
                         if decide (neighbor ∈ visited) then stack
                         else neighbor :: stack) stack l in
  length stack' ≤ length stack + length l
  ∧ ∀ x, x ∈ stack' ↔ x ∈ stack ∨ (x ∈ l ∧ x ∉ visited).
Proof.
  revert stack. induction l as [|n l IH]; intros stack; cbn [foldl].
  - split; [lia|]. set_solver.
  - destruct (decide (n ∈ visited)) as [Hn|Hn].
    + destruct (IH stack) as [Hlen Hin]. split; [simpl; lia|].
      intros x. rewrite Hin. set_solver.
    + destruct (IH (n :: stack)) as [Hlen Hin]. split; [simpl in *; lia|].
      intros x. rewrite Hin. set_solver.
Qed.

Definition simple_dfs_iterative_inv graph s
    (st : gset node * list node * list node) : Prop :=
  let '(visited, stack, order) := st in
  (∀ x, x ∈ order ↔ x ∈ visited)
  ∧ (∀ x, x ∈ visited ∨ x ∈ stack → reachable graph s x)
  ∧ (∀ x y, x ∈ visited → edge graph x y → y ∈ visited ∨ y ∈ stack)
  ∧ (s ∈ visited ∨ s ∈ stack).

Lemma simple_dfs_iterative_spec graph s :
  ∃ order, simple_dfs_iterative graph s = Return order
    ∧ ∀ x, x ∈ order ↔ reachable graph s x.
Proof.
  destruct (while_loop_rule (simple_dfs_iterative_inv graph s)
    (λ order, ∀ x, x ∈ order ↔ reachable graph s x)
    (λ '(visited, stack, _), length stack + unvisited_size graph visited)
    (simple_dfs_iterative_body graph) (2 + graph_size graph)
    (∅, [s], [])) as (order & Hrun & Hpost).
  - intros [[visited stack] order] (Hord & Hreach & Hcl & Hs).
    destruct stack as [|n stack]; simpl.
    + intros x. rewrite Hord. split; [by auto|]. intros Hx.
      destruct Hs as [Hs|?%elem_of_nil]; [|done].
      apply (reachable_closed graph (λ x, x ∈ visited) s x); [done| |done].
      intros a b Ha Hab. by destruct (Hcl a b Ha Hab) as [?|?%elem_of_nil].
    + destruct (decide (n ∈ visited)) as [Hn|Hn].
      { split; [|lia]. split_and!; [done| | |].
        - intros x [?|?]; apply Hreach; [by left|by right; right].
        - intros x y Hx Hxy.
          destruct (Hcl x y Hx Hxy) as [?|[->|?]%elem_of_cons]; auto.
        - destruct Hs as [?|[->|?]%elem_of_cons]; auto. }
      pose proof (push_unvisited_fold ({[n]} ∪ visited)
                    (reverse (graph_get graph n)) stack) as [Hlen Hin].
      rewrite length_reverse in Hlen. setoid_rewrite elem_of_reverse in Hin.
      pose proof (unvisited_size_insert graph visited n Hn).
      split; [|simpl; lia]. split_and!.
      * intros x. rewrite elem_of_app, list_elem_of_singleton, Hord. set_solver.
      * intros x [[->%elem_of_singleton|Hx]%elem_of_union|Hx].
        -- apply Hreach. right. left.
        -- apply Hreach. by left.
        -- apply Hin in Hx as [Hx|[Hx _]].
           ++ apply Hreach. right. by right.
           ++ eapply reachable_step; [|exact Hx]. apply Hreach. right. left.
      * intros x y [->%elem_of_singleton|Hx]%elem_of_union Hxy.
        -- destruct (decide (y ∈ {[n]} ∪ visited)); [by left|].
           right. apply Hin. by right.
        -- destruct (Hcl x y Hx Hxy) as [?|[->|?]%elem_of_cons].
           ++ left. set_solver.
           ++ left. set_solver.
           ++ right. apply Hin. by left.
      * destruct Hs as [?|[->|?]%elem_of_cons].
        -- left. set_solver.
        -- left. set_solver.
        -- right. apply Hin. by left.
  - split_and!.
    + intros x. split; [by intros ?%elem_of_nil|set_solver].
    + intros x [?| ->%list_elem_of_singleton]; [set_solver|apply rtc_refl].
    + set_solver.
    + right. left.
  - simpl. rewrite unvisited_size_empty. lia.
  - eauto.
Qed.
End simple_dfs_iterative_facts.

(** ** Recursive depth-first traversal *)

Section simple_dfs_recursive_facts.
Context `{Countable node}.
Import dfs_recursive.
Implicit Types (graph : list (node * list node)) (visited : gset node).
Implicit Types (x y s t n : node).

(** What one call adds to the shared set. *)
Definition dfs_call_post graph n visited visited' : Prop :=
  visited ⊆ visited' ∧ n ∈ visited'
  ∧ (∀ x, x ∈ visited' → x ∈ visited ∨ reachable graph n x)
  ∧ (∀ x y, x ∈ visited' → x ∉ visited → edge graph x y → y ∈ visited').

Lemma simple_dfs_recursive_from_spec graph (U : gset node) fuel :
  (∀ x y, edge graph x y → y ∈ U) →
  ∀ n visited,
    n ∈ U → n ∉ visited → size (U ∖ visited) ≤ fuel →
    ∃ visited', simple_dfs_recursive_from fuel graph n visited = Return visited'
      ∧ dfs_call_post graph n visited visited'.
Proof.
  intros HU. induction fuel as [|fuel IH]; intros n visited Hn Hnv Hsize.
  { assert (size (U ∖ visited) ≠ 0); [|lia].
    apply size_non_empty_iff. set_solver. }
  cbn [simple_dfs_recursive_from].
  set (body := λ neighbor visited,
         if decide (neighbor ∈ visited) then Return visited
         else simple_dfs_recursive_from fuel graph neighbor visited).
  assert (Hloop : ∀ l v1,
    {[n]} ∪ visited ⊆ v1 → (∀ x, x ∈ l → edge graph n x) →
    ∃ v2, for_each l body v1 = Return v2
      ∧ v1 ⊆ v2 ∧ (∀ x, x ∈ l → x ∈ v2)
      ∧ (∀ x, x ∈ v2 → x ∈ v1 ∨ reachable graph n x)
      ∧ (∀ x y, x ∈ v2 → x ∉ v1 → edge graph x y → y ∈ v2)).
  { induction l as [|nb l IHl]; intros v1 Hv1 Hl.
    { exists v1. split_and!; [done|done|set_solver|auto|done]. }
    rewrite for_each_cons. destruct (decide (nb ∈ v1)) as [Hnb|Hnb].
    - assert (body nb v1 = Return v1) as -> by (unfold body; by rewrite decide_True).
      rewrite bind_Return.
      destruct (IHl v1) as (v2 & -> & Hsub & Hin & Hre & Hcl);
        [done|set_solver|].
      exists v2. split_and!; [done|done| |done|done].
      intros x [->|?]%elem_of_cons; auto.
    - assert (body nb v1 = simple_dfs_recursive_from fuel graph nb v1) as ->
        by (unfold body; by rewrite decide_False).
      destruct (IH nb v1) as (v1' & -> & Hsub1 & Hnb1 & Hre1 & Hcl1).
      { eapply HU, Hl. left. }
      { done. }
      { rewrite (size_difference_insert U visited n) in Hsize by done.
        assert (size (U ∖ v1) ≤ size (U ∖ ({[n]} ∪ visited))); [|lia].
        apply subseteq_size. set_solver. }
      rewrite bind_Return.
      destruct (IHl v1') as (v2 & -> & Hsub & Hin & Hre & Hcl);
        [set_solver|set_solver|].
      exists v2. split_and!; [done|set_solver| | |].
      + intros x [->|?]%elem_of_cons; auto.
      + intros x [Hx|?]%Hre; [|by right].
        apply Hre1 in Hx as [?|Hx]; [by left|]. right.
        eapply rtc_l; [|exact Hx]. apply Hl. left.
      + intros x y Hx Hxv1 Hxy. destruct (decide (x ∈ v1')); eauto. }
  destruct (Hloop (graph_get graph n) ({[n]} ∪ visited))
    as (v2 & -> & Hsub & Hin & Hre & Hcl); [done|done|].
  exists v2. split; [done|]. split_and!; [set_solver|set_solver| |].
  - intros x [[->%elem_of_singleton|?]%elem_of_union|?]%Hre; auto.
    right. apply rtc_refl.
  - intros x y Hx Hxv Hxy. destruct (decide (x = n)) as [->|Hne]; [by apply Hin|].
    eapply Hcl; [done| |done]. set_solver.
Qed.

Lemma simple_dfs_recursive_spec graph s :
  ∃ visited, simple_dfs_recursive graph s = Return visited
    ∧ ∀ x, x ∈ visited ↔ reachable graph s x.
Proof.
  destruct (simple_dfs_recursive_from_spec graph ({[s]} ∪ graph_nodes graph)
              (2 + size (graph_nodes graph))) with (n := s) (visited := ∅ : gset node)
    as (visited & Hrun & _ & Hs & Hre & Hcl).
  - intros x y Hxy. apply elem_of_union_r. by eapply edge_graph_nodes.
  - set_solver.
  - set_solver.
  - rewrite difference_empty_L.
    rewrite size_union_alt, size_singleton.
    assert (size (graph_nodes graph ∖ {[s]}) ≤ size (graph_nodes graph)); [|lia].
    apply subseteq_size. set_solver.
  - exists visited. split; [done|]. intros x. split.
    + intros [?%elem_of_empty|?]%Hre; done.
    + apply (reachable_closed graph (λ x, x ∈ visited)); [done|].
      intros a b Ha Hab. eapply Hcl; [done|set_solver|done].
Qed.
End simple_dfs_recursive_facts.

Section traversal_theorems.
Context `{Countable node}.
Implicit Types (graph : list (node * list node)).

(** C3. Recursive depth-first search, depth-first search with an explicit
    stack and breadth-first search all return, and the set returned by the
    first and the elements of the orders returned by the other two are the
    same: exactly the nodes reachable from the start. *)
Theorem traversals_visit_the_reachable_nodes graph (start : node) :
  ∃ (visited : gset node) (dfs_order bfs_order : list node),
    dfs_recursive.simple_dfs_recursive graph start = Return visited
    ∧ dfs_iterative.simple_dfs_iterative graph start = Return dfs_order
    ∧ bfs.simple_bfs graph start = Return bfs_order
    ∧ ∀ x, (x ∈ visited ↔ reachable graph start x)
           ∧ (x ∈ dfs_order ↔ reachable graph start x)
           ∧ (x ∈ bfs_order ↔ reachable graph start x).
Proof.
  destruct (simple_dfs_recursive_spec graph start) as (visited & Hrec & Hv).
  destruct (simple_dfs_iterative_spec graph start) as (dfs_order & Hit & Hd).
  destruct (simple_bfs_spec graph start) as (bfs_order & Hbfs & Hb).
  exists visited, dfs_order, bfs_order. split_and!; try done.
Qed.
End traversal_theorems.

(** ** Walks *)

Section walk_facts.
Context `{Countable node}.
Implicit Types (graph : list (node * list node)) (path : list node).
Implicit Types (x y s t n : node).

Lemma walk_nsteps graph s t path :
  walk_from_to graph s t path →
  ∃ k, length path = S k ∧ nsteps (edge graph) k s t.
Proof.
  intros (Hw & Hh & Hl). revert s Hw Hh Hl.
  induction path as [|u [|v rest] IH]; intros s Hw Hh Hl; [done| |].
  - simpl in Hh, Hl. simplify_eq. exists 0. split; [done|constructor].
  - destruct Hw as [Huv Hw]. simpl in Hh. simplify_eq.
    destruct (IH v Hw eq_refl) as (k & Hk & Hsteps).
    { by rewrite last_cons_cons in Hl. }
    exists (S k). split; [simpl in *; lia|]. by econstructor.
Qed.

Lemma walk_snoc graph s n y path :
  walk_from_to graph s n path → edge graph n y →
  walk_from_to graph s y (path ++ [y]).
Proof.
  intros (Hw & Hh & Hl) Hny. split_and!.
  - clear Hh. revert Hw Hl.
    induction path as [|u [|v rest] IH]; intros Hw Hl; [done| |].
    + simpl in Hl. simplify_eq. by split.
    + destruct Hw as [Huv Hw]. rewrite last_cons_cons in Hl.
      split; [done|]. by apply IH.
  - by destruct path.
  - by rewrite last_snoc.
Qed.

Lemma walk_singleton graph s : walk_from_to graph s s [s].
Proof. by split_and!. Qed.

Lemma walk_reachable graph s t path :
  walk_from_to graph s t path → reachable graph s t.
Proof. intros (k & _ & Hk)%walk_nsteps. by eapply rtc_nsteps_2. Qed.

Lemma nsteps_walk graph s t k :
  nsteps (edge graph) k s t →
  ∃ path, walk_from_to graph s t path ∧ length path = S k.
Proof.
  revert t. induction k as [|k IH]; intros t Hk.
  - inv Hk. exists [t]. split; [apply walk_singleton|done].
  - apply nsteps_inv_r in Hk as (y & Hy & Hyt).
    destruct (IH y Hy) as (path & Hp & Hlen). exists (path ++ [t]).
    split; [by eapply walk_snoc|]. rewrite length_app. simpl. lia.
Qed.
End walk_facts.

(** ** Breadth-first search for a shortest path *)

Section bfs_shortest_path_facts.
Context `{Countable node}.
Import bfs.
Implicit Types (graph : list (node * list node)) (visited : gset node).
Implicit Types (queue : list (node * list node)) (path : list node).
Implicit Types (x y s t n : node).

Lemma bfs_shortest_path_visit_found target path l found :
  foldl (λ st neighbor, bfs_shortest_path_visit target path neighbor st)
        (inr found) l = inr found.
Proof. induction l as [|y l IH]; [done|]. simpl. apply IH. Qed.

Lemma bfs_shortest_path_visit_fold (U : gset node) target path l visited queue :
  (∀ x, x ∈ l → x ∈ U) →
  match foldl (λ st neighbor, bfs_shortest_path_visit target path neighbor st)
              (inl (visited, queue)) l with
  | inr found => target ∈ l ∧ found = path ++ [target]
  | inl (visited', queue') =>
      target ∉ l
      ∧ (∀ x, x ∈ visited' ↔ x ∈ visited ∨ x ∈ l)
      ∧ (∃ new, queue' = queue ++ new
           ∧ (∀ e, e ∈ new → e.1 ∈ l ∧ e.1 ∉ visited ∧ e.2 = path ++ [e.1])
           ∧ (∀ x, x ∈ l → x ∉ visited → x ∈ new.*1))
      ∧ length queue' + size (U ∖ visited') = length queue + size (U ∖ visited)
  end.
Proof.
  revert visited queue. induction l as [|y l IH]; intros visited queue HU.
  - simpl. split_and!; [set_solver|set_solver| |done].
    exists []. rewrite app_nil_r. split_and!; [done|set_solver|set_solver].
  - cbn [foldl]. unfold bfs_shortest_path_visit at 2.
    destruct (decide (y = target)) as [->|Hyt].
    { rewrite bfs_shortest_path_visit_found. split; [left|done]. }
    destruct (decide (y ∈ visited)) as [Hy|Hy].
    + specialize (IH visited queue ltac:(set_solver)).
      destruct (foldl _ _ l) as [[v' q']|found].
      * destruct IH as (Ht & Hv & (new & -> & Hnew & Hall) & Hm).
        split_and!; [set_solver|set_solver| |done].
        exists new. split_and!; [done|set_solver|].
        intros x [->|Hx]%elem_of_cons Hxv; [done|auto].
      * destruct IH as [Ht ->]. split; [by right|done].
    + specialize (IH ({[y]} ∪ visited) (queue ++ [(y, path ++ [y])])
                     ltac:(set_solver)).
      destruct (foldl _ _ l) as [[v' q']|found].
      * destruct IH as (Ht & Hv & (new & -> & Hnew & Hall) & Hm).
        split_and!; [set_solver|set_solver| |].
        -- exists ((y, path ++ [y]) :: new). split_and!.
           ++ by rewrite <-app_assoc.
           ++ intros e [->|He]%elem_of_cons; [set_solver|].
              destruct (Hnew e He) as (? & ? & ?). set_solver.
           ++ intros x [->|Hx]%elem_of_cons Hxv; [rewrite fmap_cons; left|].
              rewrite fmap_cons. destruct (decide (x = y)) as [->|?]; [left|].
              right. apply Hall; set_solver.
        -- rewrite Hm, length_app. simpl.
           rewrite (size_difference_insert U visited y); [lia|set_solver|done].
      * destruct IH as [Ht ->]. split; [by right|done].
Qed.
(** The invariant of the loop: the queue holds the nodes at [d] edges from
    the start ([q1]) followed by nodes at [d + 1] edges ([q2]); every node
    within [d] edges has been visited; the nodes of [q2] are not within [d]
    edges; the neighbours of every node that has left the queue have been
    visited; the target has not. *)
Definition bfs_shortest_path_inv graph s target
    (st : gset node * list (node * list node)) : Prop :=
  let '(visited, queue) := st in
  ∃ d q1 q2,
    queue = q1 ++ q2
    ∧ (∀ e, e ∈ q1 → length e.2 = S d)
    ∧ (∀ e, e ∈ q2 → length e.2 = S (S d))
    ∧ (∀ e, e ∈ queue → walk_from_to graph s e.1 e.2 ∧ e.1 ∈ visited)
    ∧ (∀ x k, nsteps (edge graph) k s x → k ≤ d → x ∈ visited)
    ∧ (∀ e, e ∈ q2 → ∀ k, nsteps (edge graph) k s e.1 → d < k)
    ∧ (∀ y x, y ∈ visited → y ∉ queue.*1 → edge graph y x → x ∈ visited)
    ∧ target ∉ visited
    ∧ (q1 = [] → q2 = []).

Definition bfs_shortest_path_post graph s target (r : option (list node)) : Prop :=
  match r with
  | Some path =>
      walk_from_to graph s target path
      ∧ ∀ k, nsteps (edge graph) k s target → length path ≤ S k
  | None => ¬ reachable graph s target
  end.

Lemma bfs_shortest_path_step graph (U : gset node) s target st :
  (∀ x y, edge graph x y → y ∈ U) →
  bfs_shortest_path_inv graph s target st →
  match bfs_shortest_path_body graph target st with
  | Return (inl st') =>
      bfs_shortest_path_inv graph s target st'
      ∧ length st'.2 + size (U ∖ st'.1) < length st.2 + size (U ∖ st.1)
  | Return (inr r) => bfs_shortest_path_post graph s target r
  | _ => False
  end.
Proof.
  intros HU. destruct st as [visited queue].
  intros (d & q1 & q2 & Hq & Hl1 & Hl2 & Hent & Hnear & Hfar & Hdone & Htgt & Hnorm).
  unfold bfs_shortest_path_body. destruct queue as [|[n p] rest].
  { (* the queue is empty: the visited set is closed under edges *)
    simpl. intros Hreach. apply Htgt.
    apply (reachable_closed graph (λ x, x ∈ visited) s target); [| |done].
    - apply (Hnear s 0); [constructor|lia].
    - intros x y Hx Hxy. eapply Hdone; [done| |done]. apply not_elem_of_nil. }
  destruct q1 as [|e1 q1'].
  { rewrite (Hnorm eq_refl) in Hq. done. }
  injection Hq as <- ->.
  destruct (Hent (n, p)) as [Hwalk Hnv]; [left|]. simpl in Hwalk, Hnv.
  pose proof (Hl1 (n, p) ltac:(left)) as Hlen. simpl in Hlen.
  pose proof (bfs_shortest_path_visit_fold U target p (graph_get graph n)
                visited (q1' ++ q2)) as Hfold.
  destruct (foldl _ _ (graph_get graph n)) as [[visited' queue']|found].
  2: { (* the target is a neighbour of [n] *)
    destruct Hfold as [Ht ->]; [by eauto|]. simpl. split.
    - by eapply walk_snoc.
    - intros k Hk. rewrite length_app. simpl.
      destruct (decide (k ≤ d)); [|lia]. destruct Htgt. by eapply Hnear. }
  destruct Hfold as (Ht & Hv & (new & -> & Hnew & Hall) & Hm); [by eauto|].
  simpl. split; [|lia].
  assert (Hent' : ∀ e, e ∈ (q1' ++ q2) ++ new →
                       walk_from_to graph s e.1 e.2 ∧ e.1 ∈ visited').
  { intros e [He|He]%elem_of_app.
    - destruct (Hent e) as [? ?]; [by right|]. split; [done|]. apply Hv. by left.
    - destruct (Hnew e He) as (Hin & _ & ->). split.
      + by eapply walk_snoc.
      + apply Hv. by right. }
  assert (Hdone' : ∀ y x, y ∈ visited' → y ∉ ((q1' ++ q2) ++ new).*1 →
                          edge graph y x → x ∈ visited').
  { intros y x Hy Hyq Hyx. rewrite fmap_app, not_elem_of_app in Hyq.
    destruct Hyq as [Hyq Hynew].
    destruct (decide (y = n)) as [->|Hyn]; [apply Hv; by right|].
    apply Hv. left. apply Hv in Hy as [Hy|Hy].
    - eapply Hdone; [done| |done]. rewrite fmap_cons. simpl.
      by apply not_elem_of_cons.
    - destruct (decide (y ∈ visited)) as [Hyv|Hyv].
      + eapply Hdone; [done| |done]. rewrite fmap_cons. simpl.
        by apply not_elem_of_cons.
      + destruct Hynew. by apply Hall. }
  assert (Htgt' : target ∉ visited').
  { intros [?|?]%Hv; done. }
  assert (Hnewlen : ∀ e, e ∈ new → length e.2 = S (S d)).
  { intros e (_ & _ & ->)%Hnew. rewrite length_app. simpl. lia. }
  assert (Hnewfar : ∀ e, e ∈ new → ∀ k, nsteps (edge graph) k s e.1 → d < k).
  { intros e (_ & Hev & _)%Hnew k Hk. destruct (decide (k ≤ d)); [|lia].
    destruct Hev. by eapply Hnear. }
  destruct q1' as [|e1 q1''].
  - (* the last node at [d] edges has left the queue *)
    exists (S d), (q2 ++ new), []. rewrite app_nil_r.
    split_and!; [done| |set_solver|done| |set_solver|done|done|done].
    + intros e [?|?]%elem_of_app; auto.
    + intros x k Hk Hkd. destruct (decide (k ≤ d)) as [?|?].
      { apply Hv. left. by eapply Hnear. }
      assert (k = S d) as -> by lia.
      apply nsteps_inv_r in Hk as (y & Hy & Hyx).
      destruct (decide (y = n)) as [->|Hyn]; [apply Hv; by right|].
      apply Hv. left. eapply (Hdone y); [by eapply Hnear| |done].
      rewrite fmap_cons. simpl. apply not_elem_of_cons. split; [done|].
      intros (e & -> & He)%list_elem_of_fmap.
      specialize (Hfar e He d Hy). lia.
  - exists d, (e1 :: q1''), (q2 ++ new).
    split_and!; [by rewrite <-app_assoc| | | | | | | |done].
    + intros e He. apply Hl1. by right.
    + intros e [?|?]%elem_of_app; auto.
    + exact Hent'.
    + intros x k Hk Hkd. apply Hv. left. by eapply Hnear.
    + intros e [?|?]%elem_of_app; [by apply Hfar|by apply Hnewfar].
    + exact Hdone'.
    + done.
Qed.

Lemma bfs_shortest_path_spec graph s target :
  s ≠ target →
  ∃ r, bfs_shortest_path graph s target = Return r
    ∧ bfs_shortest_path_post graph s target r.
Proof.
  intros Hne. unfold bfs_shortest_path. rewrite decide_False by done.
  set (U := {[s]} ∪ graph_nodes graph).
  apply (while_loop_rule (bfs_shortest_path_inv graph s target)
           (bfs_shortest_path_post graph s target)
           (λ st, length st.2 + size (U ∖ st.1))).
  - intros st Hst.
    pose proof (bfs_shortest_path_step graph U s target st) as Hstep.
    destruct (bfs_shortest_path_body graph target st) as [[st'|r]| |];
      apply Hstep; try done.
    all: intros x y Hxy; apply elem_of_union_r; by eapply edge_graph_nodes.
  - exists 0, [(s, [s])], []. split_and!; try done.
    + intros e ->%list_elem_of_singleton. done.
    + set_solver.
    + intros e ->%list_elem_of_singleton. simpl.
      split; [apply walk_singleton|set_solver].
    + intros x k Hk Hk0. assert (k = 0) as -> by lia. inv Hk. set_solver.
    + set_solver.
    + intros y x ->%elem_of_singleton Hy. destruct Hy. left.
    + set_solver.
  - simpl. assert (size (U ∖ {[s]}) ≤ size (graph_nodes graph)); [|lia].
    apply subseteq_size. set_solver.
Qed.
End bfs_shortest_path_facts.

Section shortest_path_theorems.
Context `{Countable node}.
Implicit Types (graph : list (node * list node)).

Lemma bfs_find_shortest_path_eq graph (start target : node) :
  path_finding.bfs_find_shortest_path graph start target
  = bfs.bfs_shortest_path graph start target.
Proof. reflexivity. Qed.

Lemma find_path_eq graph d (start target : node) :
  graph_class.find_path (graph_class.mkGraph graph d) start target
  = bfs.bfs_shortest_path graph start target.
Proof. reflexivity. Qed.

(** C2. The three breadth-first path finders ([bfs_shortest_path],
    [bfs_find_shortest_path] and [Graph.find_path]) compute the same result;
    for equal start and target it is the one-node path; when the target can
    be reached it is a walk from the start to the target with the least
    possible number of nodes, hence of edges; when it cannot, it is [None],
    and nothing is raised. *)
Theorem bfs_path_finders_return_a_shortest_path graph (start target : node) :
  (path_finding.bfs_find_shortest_path graph start target
     = bfs.bfs_shortest_path graph start target
   ∧ ∀ d, graph_class.find_path (graph_class.mkGraph graph d) start target
          = bfs.bfs_shortest_path graph start target)
  ∧ (start = target →
       bfs.bfs_shortest_path graph start target = Return (Some [start]))
  ∧ (reachable graph start target →
       ∃ path, bfs.bfs_shortest_path graph start target = Return (Some path)
         ∧ walk_from_to graph start target path
         ∧ ∀ path', walk_from_to graph start target path' →
                    length path ≤ length path')
  ∧ (¬ reachable graph start target →
       bfs.bfs_shortest_path graph start target = Return None).
Proof.
  split; [split; [apply bfs_find_shortest_path_eq|intros; apply find_path_eq]|].
  destruct (decide (start = target)) as [->|Hne].
  - assert (Hrun : bfs.bfs_shortest_path graph target target
                   = Return (Some [target])).
    { unfold bfs.bfs_shortest_path. by rewrite decide_True. }
    split_and!; [done| |].
    + intros _. exists [target]. split_and!; [done|apply walk_singleton|].
      intros path' (k & -> & _)%walk_nsteps. simpl. lia.
    + intros []. apply rtc_refl.
  - destruct (bfs_shortest_path_spec graph start target Hne) as ([path|] & Hrun & Hpost);
      simpl in Hpost.
    + destruct Hpost as [Hwalk Hmin]. split_and!; [done| |].
      * intros _. exists path. split_and!; [done|done|].
        intros path' (k & -> & Hk)%walk_nsteps. by apply Hmin.
      * intros []. by eapply walk_reachable.
    + split_and!; [done|done|done].
Qed.
End shortest_path_theorems.

Section shortest_path_examples.

(** The directed graph [0 -> 1, 1 -> 2, 0 -> 3, 3 -> 4]. *)
Definition two_branches : list (nat * list nat) :=
  [(0, [1; 3]); (1, [2]); (2, []); (3, [4]); (4, [])].

Lemma two_branches_reach_0_4 : reachable two_branches 0 4.
Proof.
  apply (rtc_l _ _ 3); [|apply rtc_once]; unfold edge; vm_compute; set_solver.
Qed.

Lemma two_branches_no_way_back : ¬ reachable two_branches 4 0.
Proof.
  intros Hr.
  assert (0 = 4); [|done].
  apply (reachable_closed two_branches (λ x, x = 4) 4 0); [done| |done].
  intros x y -> Hxy. unfold edge in Hxy. vm_compute in Hxy. set_solver.
Qed.

Lemma bfs_path_finders_return_a_shortest_path_witness :
  (bfs.bfs_shortest_path two_branches 2 2 = Return (Some [2]))
  ∧ (reachable two_branches 0 4
     ∧ ∃ path, bfs.bfs_shortest_path two_branches 0 4 = Return (Some path)
         ∧ walk_from_to two_branches 0 4 path
         ∧ ∀ path', walk_from_to two_branches 0 4 path' →
                    length path ≤ length path')
  ∧ (¬ reachable two_branches 4 0
     ∧ bfs.bfs_shortest_path two_branches 4 0 = Return None).
Proof.
  destruct (bfs_path_finders_return_a_shortest_path two_branches 2 2)
    as (_ & H1 & _ & _).
  destruct (bfs_path_finders_return_a_shortest_path two_branches 0 4)
    as (_ & _ & H2 & _).
  destruct (bfs_path_finders_return_a_shortest_path two_branches 4 0)
    as (_ & _ & _ & H3).
  split_and!.
  - apply H1. reflexivity.
  - apply two_branches_reach_0_4.
  - apply H2, two_branches_reach_0_4.
  - apply two_branches_no_way_back.
  - apply H3, two_branches_no_way_back.
Defined.

(** The scenario of the text: the shortest path from [0] to [4]. *)
Example two_branches_path :
  bfs.bfs_shortest_path two_branches 0 4 = Return (Some [0; 3; 4]).
Proof. vm_compute. reflexivity. Qed.
End shortest_path_examples.

(** ** Dijkstra's algorithm: the heap and the relaxation of an edge *)

Section dijkstra_heap_facts.
Context `{Countable node}.
Import dijkstra.
Implicit Types (node_ltb : node → node → bool).
Implicit Types (e m : Z * node) (pq : list (Z * node)).

Lemma least_elem_of node_ltb e pq : least node_ltb e pq ∈ e :: pq.
Proof.
  revert e. induction pq as [|e' pq IH]; intros e; simpl; [left|].
  specialize (IH (if entry_ltb node_ltb e' e then e' else e)).
  destruct (entry_ltb node_ltb e' e); set_solver.
Qed.

Lemma least_le node_ltb e pq x : x ∈ e :: pq → ((least node_ltb e pq).1 ≤ x.1)%Z.
Proof.
  revert e x. induction pq as [|e' pq IH]; intros e x Hx; simpl.
  { apply list_elem_of_singleton in Hx as ->. lia. }
  set (e0 := if entry_ltb node_ltb e' e then e' else e).
  assert (He0 : (e0.1 ≤ e.1)%Z ∧ (e0.1 ≤ e'.1)%Z).
  { unfold e0, entry_ltb. destruct (decide (e'.1 < e.1)%Z) as [Hlt|Hlt].
    - rewrite (bool_decide_eq_true_2 _ Hlt). simpl. lia.
    - rewrite (bool_decide_eq_false_2 _ Hlt). simpl.
      destruct (decide (e'.1 = e.1)) as [Heq|Hneq].
      + rewrite (bool_decide_eq_true_2 _ Heq). simpl.
        destruct (node_ltb e'.2 e.2); lia.
      + rewrite (bool_decide_eq_false_2 _ Hneq). simpl. lia. }
  pose proof (IH e0 e0 ltac:(left)) as Hmin.
  apply elem_of_cons in Hx as [->|[->|Hx]%elem_of_cons]; [lia|lia|].
  apply IH. by right.
Qed.

Lemma take_out_perm m pq : m ∈ pq → pq ≡ₚ m :: take_out m pq.
Proof.
  induction pq as [|e pq IH]; [by intros ?%elem_of_nil|].
  intros Hm. simpl. destruct (decide (m = e)) as [->|Hne]; [done|].
  apply elem_of_cons in Hm as [->|Hm]; [done|].
  rewrite (IH Hm) at 1. apply Permutation_swap.
Qed.

Lemma heappop_None node_ltb pq : heappop node_ltb pq = None → pq = [].
Proof. by destruct pq. Qed.

Lemma heappop_Some node_ltb pq m pq' :
  heappop node_ltb pq = Some (m, pq') →
  pq ≡ₚ m :: pq' ∧ ∀ x, x ∈ pq → (m.1 ≤ x.1)%Z.
Proof.
  destruct pq as [|e pq]; [done|]. unfold heappop. intros [= <- <-]. split.
  - apply take_out_perm, least_elem_of.
  - intros x Hx. by apply least_le.
Qed.
End dijkstra_heap_facts.

Section dijkstra_relax_facts.
Context `{Countable node}.
Import dijkstra.
Implicit Types (visited : gset node) (n x y : node) (d c w : Z).
Implicit Types (dist : list (node * distance)) (prev : list (node * node)).
Implicit Types (pq : list (Z * node)) (l : list (node * Z)).

Definition distance_le (a b : distance) : Prop :=
  match a, b with
  | _, Infinity => True
  | Finite x, Finite y => (x ≤ y)%Z
  | Infinity, Finite _ => False
  end.

Lemma distance_le_refl a : distance_le a a.
Proof. destruct a; simpl; lia. Qed.

Lemma distance_le_trans (a b e : distance) :
  distance_le a b → distance_le b e → distance_le a e.
Proof. destruct a, b, e; simpl; try done; lia. Qed.

Lemma distance_ltb_true d old :
  distance_ltb d old = true → distance_le (Finite d) old ∧ old ≠ Finite d.
Proof.
  destruct old as [d'|]; simpl; [|done].
  intros Hlt%bool_decide_eq_true. split; [lia|]. intros [= ->]. lia.
Qed.

Lemma distance_ltb_false d old :
  distance_ltb d old = false → ∃ d', old = Finite d' ∧ (d' ≤ d)%Z.
Proof.
  destruct old as [d'|]; simpl; [|done].
  intros Hlt%bool_decide_eq_false. exists d'. split; [done|lia].
Qed.

(** What the relaxation of the edges [l] of the node [n], popped at
    distance [d], does to the state. *)
Record relax_post visited n d l
    (st st' : list (node * distance) * list (node * node) * list (Z * node))
    : Prop := {
  rp_keys : dict_keys st'.1.1 = dict_keys st.1.1;
  rp_visited : ∀ x, x ∈ visited → dict_get st'.1.1 x = dict_get st.1.1 x;
  rp_from : ∀ x dx, dict_get st'.1.1 x = Some dx →
    dict_get st.1.1 x = Some dx
    ∨ (x ∉ visited ∧ ∃ w, (x, w) ∈ l ∧ dx = Finite (d + w) ∧ ((d + w)%Z, x) ∈ st'.2);
  rp_le : ∀ x w, (x, w) ∈ l → x ∉ visited →
    ∃ c, dict_get st'.1.1 x = Some (Finite c) ∧ (c ≤ d + w)%Z;
  rp_mono : ∀ x dx, dict_get st.1.1 x = Some dx →
    ∃ dx', dict_get st'.1.1 x = Some dx' ∧ distance_le dx' dx;
  rp_pq_old : ∀ e, e ∈ st.2 → e ∈ st'.2;
  rp_pq_new : ∀ e, e ∈ st'.2 →
    e ∈ st.2 ∨ (e.2 ∉ visited ∧ ∃ w, (e.2, w) ∈ l ∧ e.1 = (d + w)%Z);
  rp_pq_len : length st'.2 ≤ length st.2 + length l;
  rp_prev_wf : dict_wf st.1.2 → dict_wf st'.1.2;
  rp_prev : ∀ x y, dict_get st'.1.2 x = Some y →
    dict_get st.1.2 x = Some y ∨ (y = n ∧ x ∉ visited)
}.

Lemma relax_post_nil visited n d st : relax_post visited n d [] st st.
Proof.
  split; try done; eauto.
  - intros x w ?%elem_of_nil. done.
  - intros x dx ?. exists dx. split; [done|apply distance_le_refl].
  - simpl. lia.
Qed.

Lemma relax_post_skip visited n d e l st st' :
  (e.1 ∈ visited
   ∨ ∃ d', dict_get st.1.1 e.1 = Some (Finite d') ∧ (d' ≤ d + e.2)%Z) →
  relax_post visited n d l st st' → relax_post visited n d (e :: l) st st'.
Proof.
  intros Hskip [Hk Hv Hf Hle Hm Hpo Hpn Hpl Hpw Hp]. split; try done.
  - intros x dx [?|(? & w & ? & ?)]%Hf; [by left|]. right. split; [done|].
    exists w. split; [by right|done].
  - intros x w [<-|Hin]%elem_of_cons Hx; [|by eauto]. simpl in *.
    destruct Hskip as [?|(d' & Hd' & Hdle)]; [done|].
    destruct (Hm x _ Hd') as ([c|] & Hc & Hcle); [|done].
    exists c. simpl in Hcle. split; [done|lia].
  - intros e' [?|(? & w & ? & ?)]%Hpn; [by left|]. right. split; [done|].
    exists w. split; [by right|done].
  - simpl. lia.
Qed.

Lemma relax_post_update visited n d x w old l dist prev pq st' :
  x ∉ visited → dict_get dist x = Some old → distance_ltb (d + w) old = true →
  relax_post visited n d l
    (dict_set dist x (Finite (d + w)), dict_set prev x n, ((d + w)%Z, x) :: pq) st' →
  relax_post visited n d ((x, w) :: l) (dist, prev, pq) st'.
Proof.
  intros Hx Hold [Hlt Hne]%distance_ltb_true
    [Hk Hv Hf Hle Hm Hpo Hpn Hpl Hpw Hp]. simpl in *.
  assert (Hxk : x ∈ dict_keys dist) by (apply dict_get_is_Some; eauto).
  split; simpl.
  - by rewrite Hk, dict_keys_set_in.
  - intros y Hy. rewrite Hv by done. apply dict_get_set_ne. by intros ->.
  - intros y dy [Hy|(? & w' & ? & ?)]%Hf.
    + rewrite dict_get_set in Hy. case_decide; simplify_eq.
      * right. split; [done|]. exists w. split_and!; [left|done|].
        apply Hpo. left.
      * by left.
    + right. split; [done|]. exists w'. split; [by right|done].
  - intros y w' [[= -> ->]|Hin]%elem_of_cons Hy; [|by eauto].
    destruct (Hm x (Finite (d + w))) as ([c|] & Hc & Hcle);
      [apply dict_get_set_eq| |done].
    exists c. split; [done|]. simpl in Hcle. lia.
  - intros y dy Hy. destruct (decide (y = x)) as [->|Hyx].
    + destruct (Hm x (Finite (d + w))) as (dx' & Hdx' & Hdle);
        [apply dict_get_set_eq|].
      exists dx'. split; [done|]. simplify_eq.
      by eapply distance_le_trans.
    + apply Hm. by rewrite dict_get_set_ne.
  - intros e He. apply Hpo. by right.
  - intros e [[->|He]%elem_of_cons|(? & w' & ? & ?)]%Hpn.
    + right. split; [done|]. exists w. split; [left|done].
    + by left.
    + right. split; [done|]. exists w'. split; [by right|done].
  - lia.
  - intros Hwf. by apply Hpw, dict_wf_set.
  - intros y z [Hy|?]%Hp; [|by right].
    rewrite dict_get_set in Hy. case_decide; simplify_eq; [by right|by left].
Qed.

Lemma relax_eq visited n d x w dist prev pq :
  relax visited n d (x, w) (dist, prev, pq) =
    if decide (x ∈ visited) then Return (dist, prev, pq)
    else
      old ← dict_lookup dist x;
      if distance_ltb (d + w) old then
        Return (dict_set dist x (Finite (d + w)), dict_set prev x n,
                heappush pq ((d + w)%Z, x))
      else Return (dist, prev, pq).
Proof. done. Qed.

Lemma relax_loop_spec visited n d l dist prev pq :
  (∀ x w, (x, w) ∈ l → x ∉ visited → x ∈ dict_keys dist) →
  ∃ st', for_each l (relax visited n d) (dist, prev, pq) = Return st'
    ∧ relax_post visited n d l (dist, prev, pq) st'.
Proof.
  revert dist prev pq. induction l as [|[x w] l IH]; intros dist prev pq Hkeys.
  { eexists. split; [done|apply relax_post_nil]. }
  rewrite for_each_cons, relax_eq.
  destruct (decide (x ∈ visited)) as [Hx|Hx].
  { rewrite bind_Return. destruct (IH dist prev pq) as (st' & -> & Hpost).
    { intros ????. eapply Hkeys; [by right|done]. }
    exists st'. split; [done|]. apply relax_post_skip; [by left|done]. }
  destruct (dict_get dist x) as [old|] eqn:Hold.
  2: { apply dict_get_None in Hold. destruct Hold. eapply Hkeys; [left|done]. }
  unfold dict_lookup. rewrite Hold. simpl.
  destruct (distance_ltb (d + w) old) eqn:Hlt.
  - destruct (IH (dict_set dist x (Finite (d + w))) (dict_set prev x n)
                 (heappush pq ((d + w)%Z, x))) as (st' & Hrun & Hpost).
    { intros y w' Hin Hy. rewrite dict_keys_set_in.
      - eapply Hkeys; [by right|done].
      - apply dict_get_is_Some. eauto. }
    exists st'. split; [exact Hrun|]. by eapply relax_post_update.
  - destruct (IH dist prev pq) as (st' & Hrun & Hpost).
    { intros ????. eapply Hkeys; [by right|done]. }
    exists st'. split; [exact Hrun|]. apply relax_post_skip; [|done].
    right. simpl. apply distance_ltb_false in Hlt as (d' & -> & ?). eauto.
Qed.
End dijkstra_relax_facts.

(** ** Dijkstra's algorithm: one iteration of the loop *)

Section dijkstra_step_facts.
Context `{Countable node}.
Import dijkstra.
Implicit Types (node_ltb : node → node → bool).
Implicit Types (graph : list (node * list (node * Z))) (visited : gset node).
Implicit Types (n x y s t : node) (d c w : Z).
Implicit Types (dist : list (node * distance)) (prev : list (node * node)).
Implicit Types (pq : list (Z * node)).

Lemma initial_distances_get graph s x :
  dict_get (initial_distances graph s) x =
    if decide (s = x) then Some (Finite 0)
    else if decide (x ∈ dict_keys graph) then Some Infinity else None.
Proof.
  unfold initial_distances. rewrite dict_get_set.
  destruct (decide (s = x)); [done|].
  generalize (dict_keys graph). intros ks.
  induction ks as [|k ks IH]; [done|]. rewrite fmap_cons. cbn [dict_get].
  destruct (decide (x = k)) as [->|Hne].
  - rewrite decide_True; [done|left].
  - rewrite IH. repeat case_decide; set_solver.
Qed.

Lemma initial_distances_keys graph s x :
  x ∈ dict_keys (initial_distances graph s) ↔ x = s ∨ x ∈ dict_keys graph.
Proof.
  rewrite <-dict_get_is_Some, initial_distances_get.
  destruct (decide (s = x)) as [->|Hne].
  { split; [by left|by eexists]. }
  destruct (decide (x ∈ dict_keys graph)) as [Hx|Hx].
  { split; [by right|by eexists]. }
  split; [by intros [? ?]|]. intros [->|?]; done.
Qed.

(** What the heap and the distances have to do with each other: the keys
    of [distances] never change, every heap entry is for a node whose
    recorded distance is at most the key of the entry, and every node that
    is not visited and has a finite distance has an entry with that
    distance. *)
Definition dijkstra_queue_inv graph s
    (st : list (node * distance) * list (node * node) * list (Z * node)
          * gset node) : Prop :=
  let '(dist, prev, pq, visited) := st in
  dict_keys dist = dict_keys (initial_distances graph s)
  ∧ (∀ e, e ∈ pq → ∃ dx, dict_get dist e.2 = Some (Finite dx) ∧ (dx ≤ e.1)%Z)
  ∧ (∀ x dx, x ∉ visited → dict_get dist x = Some (Finite dx) → (dx, x) ∈ pq).

Definition dijkstra_measure graph
    (st : list (node * distance) * list (node * node) * list (Z * node)
          * gset node) : nat :=
  length st.1.2 + unvisited_size graph st.2.

Lemma dijkstra_queue_inv_initial graph s :
  dijkstra_queue_inv graph s (initial_distances graph s, [], [(0%Z, s)], ∅).
Proof.
  split_and!; [done| |].
  - intros e ->%list_elem_of_singleton. exists 0%Z. simpl.
    rewrite initial_distances_get, decide_True by done. split; [done|lia].
  - intros x dx _. rewrite initial_distances_get.
    repeat case_decide; intros [= <-]. subst. left.
Qed.

(** The state after a node that was visited before has been popped. *)
Lemma dijkstra_queue_inv_skip graph s dist prev pq pq' visited d n :
  pq ≡ₚ (d, n) :: pq' → n ∈ visited →
  dijkstra_queue_inv graph s (dist, prev, pq, visited) →
  dijkstra_queue_inv graph s (dist, prev, pq', visited).
Proof.
  intros Hperm Hn (Hk & Hent & Hfin). split_and!; [done| |].
  - intros e He. apply Hent. rewrite Hperm. by right.
  - intros x dx Hx Hdx. specialize (Hfin x dx Hx Hdx).
    rewrite Hperm in Hfin. apply elem_of_cons in Hfin as [[= -> ->]|?]; done.
Qed.

(** The state after the edges of a newly visited node have been relaxed. *)
Lemma dijkstra_queue_inv_relax graph s dist prev pq pq' visited d n st' :
  pq ≡ₚ (d, n) :: pq' → n ∉ visited →
  dijkstra_queue_inv graph s (dist, prev, pq, visited) →
  relax_post ({[n]} ∪ visited) n d (graph_get graph n) (dist, prev, pq') st' →
  dijkstra_queue_inv graph s (st', {[n]} ∪ visited).
Proof.
  intros Hperm Hn (Hk & Hent & Hfin) [Hrk Hrv Hrf Hrle Hrm Hpo Hpn Hpl _ _].
  destruct st' as [[dist' prev'] pq'']. simpl in *. split_and!.
  - by rewrite Hrk.
  - intros e [He|(He & w & Hw & Hew)]%Hpn.
    + destruct (Hent e) as (dx & Hdx & Hle); [rewrite Hperm; by right|].
      destruct (Hrm _ _ Hdx) as ([c|] & Hc & Hcle); [|done].
      exists c. simpl in Hcle. split; [done|lia].
    + destruct (Hrle _ _ Hw He) as (c & Hc & Hcle). exists c. split; [done|lia].
  - intros x dx Hx [Hdx|(_ & w & Hw & [= ->] & Hin)]%Hrf; [|done].
    apply Hpo. assert (Hpq : (dx, x) ∈ pq) by (apply Hfin; [set_solver|done]).
    rewrite Hperm in Hpq. apply elem_of_cons in Hpq as [[= -> ->]|?]; [|done].
    set_solver.
Qed.

(** One iteration of the loop of [dijkstra_algorithm]. *)
Lemma dijkstra_algorithm_body_spec node_ltb graph s dist prev pq visited :
  neighbours_are_keys graph fst →
  dijkstra_queue_inv graph s (dist, prev, pq, visited) →
  (pq = []
   ∧ dijkstra_algorithm_body node_ltb graph (dist, prev, pq, visited)
     = Return (inr (dist, prev)))
  ∨ ∃ d n pq',
      heappop node_ltb pq = Some ((d, n), pq')
      ∧ pq ≡ₚ (d, n) :: pq' ∧ (∀ e, e ∈ pq → (d ≤ e.1)%Z)
      ∧ ((n ∈ visited
          ∧ dijkstra_algorithm_body node_ltb graph (dist, prev, pq, visited)
            = Return (inl (dist, prev, pq', visited)))
         ∨ (n ∉ visited
            ∧ ∃ st',
                dijkstra_algorithm_body node_ltb graph (dist, prev, pq, visited)
                = Return (inl (st', {[n]} ∪ visited))
                ∧ relax_post ({[n]} ∪ visited) n d (graph_get graph n)
                             (dist, prev, pq') st'
                ∧ for_each (graph_get graph n)
                    (relax ({[n]} ∪ visited) n d) (dist, prev, pq')
                  = Return st')).
Proof.
  intros Hclosed (Hk & Hent & Hfin). unfold dijkstra_algorithm_body.
  destruct (heappop node_ltb pq) as [[[d n] pq']|] eqn:Hpop.
  2: { left. by apply heappop_None in Hpop as ->. }
  right. exists d, n, pq'. apply heappop_Some in Hpop as Hpop'.
  destruct Hpop' as [Hperm Hmin]. split_and!; [done|done|done|].
  destruct (decide (n ∈ visited)) as [Hn|Hn]; [by left|right].
  split; [done|].
  destruct (relax_loop_spec ({[n]} ∪ visited) n d (graph_get graph n)
              dist prev pq') as (st' & Hrun & Hpost).
  { intros x w Hxw _. rewrite Hk. apply initial_distances_keys. right.
    apply (Hclosed n (x, w) Hxw). }
  exists st'. split_and!; [|done|done]. by rewrite Hrun.
Qed.

Lemma dijkstra_measure_skip graph dist prev pq pq' visited d n :
  pq ≡ₚ (d, n) :: pq' →
  dijkstra_measure graph (dist, prev, pq', visited)
  < dijkstra_measure graph (dist, prev, pq, visited).
Proof. intros Hperm. unfold dijkstra_measure. simpl. rewrite Hperm. simpl. lia. Qed.

Lemma dijkstra_measure_relax graph dist prev pq pq' visited d n st' :
  pq ≡ₚ (d, n) :: pq' → n ∉ visited →
  relax_post ({[n]} ∪ visited) n d (graph_get graph n) (dist, prev, pq') st' →
  dijkstra_measure graph (st', {[n]} ∪ visited)
  < dijkstra_measure graph (dist, prev, pq, visited).
Proof.
  intros Hperm Hn Hpost. pose proof (rp_pq_len _ _ _ _ _ _ Hpost) as Hlen.
  pose proof (unvisited_size_insert graph visited n Hn).
  unfold dijkstra_measure. simpl in *. rewrite Hperm. simpl. lia.
Qed.
End dijkstra_step_facts.

(** ** Dijkstra's algorithm: the distances are the shortest ones *)

Section dijkstra_distance_facts.
Context `{Countable node}.
Import dijkstra.
Implicit Types (node_ltb : node → node → bool).
Implicit Types (graph : list (node * list (node * Z))) (visited : gset node).
Implicit Types (n x y s t : node) (d c w : Z).
Implicit Types (dist : list (node * distance)) (prev : list (node * node)).
Implicit Types (pq : list (Z * node)).

(** Every finite distance is the weight of a walk; the distance of a
    visited node is the least one; an edge out of a visited node has been
    relaxed; the distance of the start is at most [0]. *)
Definition dijkstra_path_inv graph s dist visited : Prop :=
  (∀ x dx, dict_get dist x = Some (Finite dx) → wwalk graph s x dx)
  ∧ (∀ x, x ∈ visited →
       ∃ dx, dict_get dist x = Some (Finite dx)
         ∧ ∀ c, wwalk graph s x c → (dx ≤ c)%Z)
  ∧ (∀ y x w, y ∈ visited → (x, w) ∈ graph_get graph y →
       ∃ dx dy, dict_get dist x = Some (Finite dx)
         ∧ dict_get dist y = Some (Finite dy) ∧ (dx ≤ dy + w)%Z)
  ∧ (∃ d0, dict_get dist s = Some (Finite d0) ∧ (d0 ≤ 0)%Z).

(** A walk ends in a visited node, or passes a node that is not visited
    and has a recorded distance of at most the weight of the walk. *)
Lemma dijkstra_frontier graph s dist visited x c :
  nonnegative_weights graph →
  dijkstra_path_inv graph s dist visited →
  wwalk graph s x c →
  x ∈ visited
  ∨ ∃ u du, u ∉ visited ∧ dict_get dist u = Some (Finite du) ∧ (du ≤ c)%Z.
Proof.
  intros Hpos (Hwalk & Hvis & Hedge & d0 & Hd0 & Hd0le).
  induction 1 as [|x y c w Hxc IH Hxy].
  - destruct (decide (s ∈ visited)); [by left|right]. by exists s, d0.
  - pose proof (Hpos _ _ _ Hxy) as Hw.
    destruct IH as [Hx|(u & du & Hu & Hdu & Hle)].
    + destruct (decide (y ∈ visited)) as [Hy|Hy]; [by left|right].
      destruct (Hedge x y w Hx Hxy) as (dy & dx & Hdy & Hdx & Hle).
      destruct (Hvis x Hx) as (dx' & Hdx' & Hmin). simplify_eq.
      specialize (Hmin c Hxc). exists y, dy. split_and!; [done|done|lia].
    + right. exists u, du. split_and!; [done|done|lia].
Qed.

Lemma dijkstra_path_inv_initial graph s :
  dijkstra_path_inv graph s (initial_distances graph s) ∅.
Proof.
  split_and!.
  - intros x dx. rewrite initial_distances_get.
    repeat case_decide; intros [= <-]. subst. constructor.
  - set_solver.
  - set_solver.
  - exists 0%Z. rewrite initial_distances_get, decide_True by done. done.
Qed.

Lemma dijkstra_path_inv_relax graph s dist prev pq pq' visited d n st' :
  nonnegative_weights graph →
  pq ≡ₚ (d, n) :: pq' → (∀ e, e ∈ pq → (d ≤ e.1)%Z) → n ∉ visited →
  dijkstra_queue_inv graph s (dist, prev, pq, visited) →
  dijkstra_path_inv graph s dist visited →
  relax_post ({[n]} ∪ visited) n d (graph_get graph n) (dist, prev, pq') st' →
  dijkstra_path_inv graph s st'.1.1 ({[n]} ∪ visited).
Proof.
  intros Hpos Hperm Hleast Hn (Hk & Hent & Hfin) Hinv
    [Hrk Hrv Hrf Hrle Hrm Hpo Hpn Hpl _ _].
  pose proof Hinv as (Hwalk & Hvis & Hedge & d0 & Hd0 & Hd0le).
  destruct st' as [[dist' prev'] pq'']. simpl in *.
  (* the popped entry carries the recorded distance of [n] ... *)
  assert (Hdn : dict_get dist n = Some (Finite d)).
  { destruct (Hent (d, n)) as (dn & Hdn & Hle); [rewrite Hperm; left|].
    simpl in *. specialize (Hleast _ (Hfin n dn Hn Hdn)). simpl in Hleast.
    by assert (dn = d) as -> by lia. }
  (* ... which is the least weight of a walk to [n] *)
  assert (Hmin : ∀ c, wwalk graph s n c → (d ≤ c)%Z).
  { intros c Hc.
    destruct (dijkstra_frontier graph s dist visited n c Hpos Hinv Hc)
      as [?|(u & du & Hu & Hdu & Hle)]; [done|].
    specialize (Hleast _ (Hfin u du Hu Hdu)). simpl in Hleast. lia. }
  assert (Hdn' : dict_get dist' n = Some (Finite d)).
  { rewrite (Hrv n) by set_solver. done. }
  split_and!.
  - intros x dx [Hdx|(_ & w & Hw & [= ->] & _)]%Hrf; [by apply Hwalk|].
    econstructor; [by apply Hwalk|done].
  - intros x [->%elem_of_singleton|Hx]%elem_of_union; [by exists d|].
    rewrite (Hrv x) by set_solver. by apply Hvis.
  - intros y x w Hy Hyx.
    assert (Hdy : ∃ dy, dict_get dist' y = Some (Finite dy)
                        ∧ wwalk graph s y dy).
    { apply elem_of_union in Hy as [->%elem_of_singleton|Hy].
      - exists d. split; [done|]. by apply Hwalk.
      - destruct (Hvis y Hy) as (dy & Hdy & _). exists dy.
        rewrite (Hrv y) by set_solver. split; [done|]. by apply Hwalk. }
    destruct Hdy as (dy & Hdy & Hwy).
    assert (Hwx : wwalk graph s x (dy + w)) by by econstructor.
    destruct (decide (x ∈ {[n]} ∪ visited)) as [Hx|Hx].
    + apply elem_of_union in Hx as [->%elem_of_singleton|Hx].
      * exists d, dy. split_and!; [done|done|by apply Hmin].
      * destruct (Hvis x Hx) as (dx & Hdx & Hminx). exists dx, dy.
        rewrite (Hrv x) by set_solver. split_and!; [done|done|by apply Hminx].
    + apply elem_of_union in Hy as [->%elem_of_singleton|Hy].
      * destruct (Hrle x w Hyx Hx) as (cx & Hcx & Hle).
        assert (dy = d) as -> by congruence. by exists cx, d.
      * destruct (Hedge y x w Hy Hyx) as (dx & dy' & Hdx & Hdy' & Hle).
        assert (dy' = dy) as ->
          by (rewrite (Hrv y) in Hdy by set_solver; congruence).
        destruct (Hrm _ _ Hdx) as ([cx|] & Hcx & Hcle); [|done].
        exists cx, dy. simpl in Hcle. split_and!; [done|done|lia].
  - destruct (Hrm _ _ Hd0) as ([c0|] & Hc0 & Hcle); [|done].
    exists c0. simpl in Hcle. split; [done|lia].
Qed.

Definition dijkstra_inv graph s
    (st : list (node * distance) * list (node * node) * list (Z * node)
          * gset node) : Prop :=
  dijkstra_queue_inv graph s st ∧ dijkstra_path_inv graph s st.1.1.1 st.2.

Definition dijkstra_post graph s
    (r : list (node * distance) * list (node * node)) : Prop :=
  dict_keys r.1 = dict_keys (initial_distances graph s)
  ∧ (∀ t d, dict_get r.1 t = Some (Finite d) → shortest_distance graph s t d)
  ∧ (∀ t c, wwalk graph s t c → ∃ d, dict_get r.1 t = Some (Finite d)).

Lemma dijkstra_algorithm_spec node_ltb graph s :
  neighbours_are_keys graph fst → nonnegative_weights graph →
  ∃ r, dijkstra_algorithm node_ltb graph s = Return r ∧ dijkstra_post graph s r.
Proof.
  intros Hclosed Hpos. unfold dijkstra_algorithm.
  apply (while_loop_rule (dijkstra_inv graph s) (dijkstra_post graph s)
           (dijkstra_measure graph)).
  - intros [[[dist prev] pq] visited] [Hq Hp].
    destruct (dijkstra_algorithm_body_spec node_ltb graph s dist prev pq visited
                Hclosed Hq)
      as [[-> ->]|(d & n & pq' & _ & Hperm & Hleast
                   & [[Hn ->]|(Hn & st' & -> & Hpost & _)])].
    + (* the heap is empty *)
      destruct Hq as (Hk & _ & Hfin). simpl in Hp.
      pose proof Hp as (Hwalk & Hvis & _).
      assert (Hall : ∀ t c, wwalk graph s t c → t ∈ visited).
      { intros t c Hc.
        destruct (dijkstra_frontier graph s dist visited t c Hpos Hp Hc)
          as [?|(u & du & Hu & Hdu & _)]; [done|].
        by apply Hfin, elem_of_nil in Hdu. }
      split_and!; [done| |]; simpl.
      * intros t d Hd. pose proof (Hwalk _ _ Hd) as Hw. split; [done|].
        destruct (Hvis t (Hall _ _ Hw)) as (d' & Hd' & Hmin). by simplify_eq.
      * intros t c Hc. destruct (Hvis t (Hall _ _ Hc)) as (d & Hd & _). eauto.
    + split; [|by eapply dijkstra_measure_skip].
      split; [by eapply dijkstra_queue_inv_skip|done].
    + split; [|by eapply dijkstra_measure_relax].
      split; [by eapply dijkstra_queue_inv_relax|].
      by eapply dijkstra_path_inv_relax.
  - split; [apply dijkstra_queue_inv_initial|apply dijkstra_path_inv_initial].
  - unfold dijkstra_measure. simpl. rewrite unvisited_size_empty. lia.
Qed.
End dijkstra_distance_facts.

(** ** Dijkstra's algorithm: the chain of [previous] *)

Section reconstruct_path_facts.
Context `{Countable node}.
Import dijkstra.
Implicit Types (prev : list (node * node)) (visited : gset node).
Implicit Types (n x y s t : node).

(** Following [previous] goes down in some rank, so it ends. *)
Definition prev_ranked prev : Prop :=
  ∃ rank : node → nat, ∀ x y, dict_get prev x = Some y → rank y < rank x.

Lemma reconstruct_path_returns prev s t :
  dict_wf prev → prev_ranked prev →
  ∃ r, reconstruct_path prev s t = Return r.
Proof.
  intros Hwf [rank Hrank]. unfold reconstruct_path.
  destruct (negb (dict_mem prev t) && negb (bool_decide (t = s))); [by eexists|].
  destruct (while_loop_rule
    (λ '(path, current),
       match current with
       | None => path ≠ []
       | Some c => NoDup path
                   ∧ ∀ x, x ∈ path → x ∈ dict_keys prev ∧ rank c < rank x
       end)
    (λ path, path ≠ [])
    (λ '(path, current),
       match current with
       | None => 0
       | Some _ => 1 + length prev - length path
       end)
    (reconstruct_path_body prev) (2 + length prev) ([], Some t))
    as (path & -> & Hpath).
  - intros [path [c|]]; simpl; [|done]. intros [Hnd Hin].
    assert (Hc : c ∉ path).
    { intros Hc. destruct (Hin c Hc). lia. }
    assert (Hlen : length path ≤ length prev).
    { unfold dict_wf, dict_keys in *. rewrite <-(length_fmap fst prev).
      apply submseteq_length, NoDup_submseteq; [done|]. intros x Hx.
      by apply Hin. }
    destruct (dict_get prev c) as [c'|] eqn:Hc'.
    + assert (Hck : c ∈ dict_keys prev) by (apply dict_get_is_Some; eauto).
      assert (Hnd' : NoDup (path ++ [c])).
      { apply NoDup_app. split_and!; [done| |apply NoDup_singleton].
        intros x Hx ->%list_elem_of_singleton. done. }
      assert (Hin' : ∀ x, x ∈ path ++ [c] →
                          x ∈ dict_keys prev ∧ rank c' < rank x).
      { pose proof (Hrank _ _ Hc').
        intros x [Hx| ->%list_elem_of_singleton]%elem_of_app; [|done].
        destruct (Hin x Hx). split; [done|lia]. }
      split; [done|].
      assert (length (path ++ [c]) ≤ length prev).
      { unfold dict_wf, dict_keys in *. rewrite <-(length_fmap fst prev).
        apply submseteq_length, NoDup_submseteq; [done|]. intros x Hx.
        by apply Hin'. }
      rewrite length_app in *. simpl in *. lia.
    + split; [|lia]. by destruct path.
  - split; [constructor|]. by intros x ?%elem_of_nil.
  - simpl. lia.
  - simpl. destruct (reverse path) as [|first rest] eqn:Hrev.
    + apply (f_equal length) in Hrev. rewrite length_reverse in Hrev.
      by destruct path.
    + case_decide; by eexists.
Qed.

(** The invariant that gives the rank: a node points to a node visited
    before it. *)
Definition dijkstra_prev_inv prev visited : Prop :=
  dict_wf prev
  ∧ ∃ rank : node → nat,
      (∀ x, x ∈ visited → rank x < size visited)
      ∧ (∀ x, x ∉ visited → rank x = size visited)
      ∧ (∀ x y, dict_get prev x = Some y → y ∈ visited ∧ rank y < rank x).

Lemma dijkstra_prev_inv_ranked prev visited :
  dijkstra_prev_inv prev visited → dict_wf prev ∧ prev_ranked prev.
Proof.
  intros (Hwf & rank & _ & _ & Hprev). split; [done|]. exists rank.
  intros x y Hxy. by apply Hprev.
Qed.

Lemma dijkstra_prev_inv_initial : dijkstra_prev_inv [] ∅.
Proof.
  split; [apply NoDup_nil_2|]. exists (λ _, 0). split_and!; [set_solver|done|done].
Qed.

Lemma dijkstra_prev_inv_relax visited n d l st st' :
  n ∉ visited →
  dijkstra_prev_inv st.1.2 visited →
  relax_post ({[n]} ∪ visited) n d l st st' →
  dijkstra_prev_inv st'.1.2 ({[n]} ∪ visited).
Proof.
  intros Hn (Hwf & rank & Hlt & Heq & Hprev) Hpost.
  pose proof (rp_prev_wf _ _ _ _ _ _ Hpost Hwf) as Hwf'.
  pose proof (rp_prev _ _ _ _ _ _ Hpost) as Hprev'.
  split; [done|].
  exists (λ x, if decide (x ∈ {[n]} ∪ visited) then rank x else S (size visited)).
  assert (Hsize : size ({[n]} ∪ visited) = S (size visited)).
  { rewrite size_union by set_solver. by rewrite size_singleton. }
  rewrite Hsize. split_and!.
  - intros x Hx. rewrite decide_True by done.
    apply elem_of_union in Hx as [->%elem_of_singleton|Hx].
    + rewrite Heq by done. lia.
    + specialize (Hlt x Hx). lia.
  - intros x Hx. by rewrite decide_False.
  - intros x y [Hxy|[Hyn Hx]]%Hprev'; [|subst y].
    + destruct (Hprev x y Hxy) as [Hy Hrk]. split; [set_solver|].
      rewrite (decide_True (P := y ∈ _)) by set_solver.
      case_decide; [done|]. specialize (Hlt y Hy). lia.
    + split; [set_solver|]. rewrite decide_True by set_solver.
      rewrite decide_False by done. rewrite Heq by done. lia.
Qed.
End reconstruct_path_facts.

(** ** Dijkstra's algorithm: stopping at the target *)

Section dijkstra_single_target_facts.
Context `{Countable node}.
Import dijkstra.
Implicit Types (node_ltb : node → node → bool).
Implicit Types (graph : list (node * list (node * Z))) (visited : gset node).
Implicit Types (n x y s t target : node) (d c w : Z).

(** Once a node is visited, the loop of [dijkstra_algorithm] leaves its
    distance alone. *)
Lemma dijkstra_algorithm_keeps_visited node_ltb graph s target (d0 : distance)
    fuel st :
  neighbours_are_keys graph fst →
  dijkstra_queue_inv graph s st →
  target ∈ st.2 → dict_get st.1.1.1 target = Some d0 →
  dijkstra_measure graph st < fuel →
  ∃ r, while_loop fuel (dijkstra_algorithm_body node_ltb graph) st = Return r
    ∧ dict_get r.1 target = Some d0.
Proof.
  intros Hclosed Hq Ht Hd0 Hfuel.
  apply (while_loop_rule
    (λ st, dijkstra_queue_inv graph s st
           ∧ target ∈ st.2 ∧ dict_get st.1.1.1 target = Some d0)
    (λ r, dict_get r.1 target = Some d0)
    (dijkstra_measure graph)); [|done|done].
  clear st Hq Ht Hd0 Hfuel.
  intros [[[dist prev] pq] visited] (Hq & Ht & Hd0). simpl in Ht, Hd0.
  destruct (dijkstra_algorithm_body_spec node_ltb graph s dist prev pq visited
              Hclosed Hq)
    as [[-> ->]|(d & n & pq' & _ & Hperm & Hleast
                 & [[Hn ->]|(Hn & st' & -> & Hpost & _)])].
  - done.
  - split; [|by eapply dijkstra_measure_skip].
    split_and!; [by eapply dijkstra_queue_inv_skip|done|done].
  - split; [|by eapply dijkstra_measure_relax].
    split_and!; [by eapply dijkstra_queue_inv_relax|set_solver|].
    simpl. rewrite (rp_visited _ _ _ _ _ _ Hpost) by set_solver. done.
Qed.

Lemma dijkstra_single_target_sim node_ltb graph s target fuel st :
  neighbours_are_keys graph fst →
  dijkstra_queue_inv graph s st → dijkstra_prev_inv st.1.1.2 st.2 →
  target ∉ st.2 → target ∈ dict_keys st.1.1.1 →
  dijkstra_measure graph st < fuel →
  ∃ r dt path,
    while_loop fuel (dijkstra_algorithm_body node_ltb graph) st = Return r
    ∧ while_loop fuel (dijkstra_single_target_body node_ltb graph s target) st
      = Return (dt, path)
    ∧ dict_get r.1 target = Some dt.
Proof.
  intros Hclosed. revert st.
  induction fuel as [|fuel IH]; intros st Hq Hp Ht Hk Hfuel; [lia|].
  destruct st as [[[dist prev] pq] visited]. simpl in Hp, Ht, Hk.
  cbn [while_loop].
  destruct (dijkstra_algorithm_body_spec node_ltb graph s dist prev pq visited
              Hclosed Hq)
    as [[-> ->]|(d & n & pq' & Hpop & Hperm & Hleast
                 & [[Hn ->]|(Hn & st' & -> & Hpost & Hrun)])].
  - (* the heap is empty: the target has no finite distance *)
    exists (dist, prev), Infinity, None. split_and!; [done|done|]. simpl.
    apply dict_get_is_Some in Hk as [[dx|] Hdx]; [|done].
    destruct Hq as (_ & _ & Hfin). by apply Hfin, elem_of_nil in Hdx.
  - (* a stale entry *)
    assert (Hbody : dijkstra_single_target_body node_ltb graph s target
                      (dist, prev, pq, visited)
                    = Return (inl (dist, prev, pq', visited))).
    { unfold dijkstra_single_target_body. rewrite Hpop.
      by rewrite decide_True. }
    rewrite Hbody. apply IH; simpl; try done.
    + by eapply dijkstra_queue_inv_skip.
    + pose proof (dijkstra_measure_skip graph dist prev pq pq' visited d n Hperm).
      lia.
  - pose proof (dijkstra_measure_relax graph dist prev pq pq' visited d n st'
                  Hperm Hn Hpost) as Hm.
    pose proof (dijkstra_queue_inv_relax graph s dist prev pq pq' visited d n st'
                  Hperm Hn Hq Hpost) as Hq'.
    destruct (decide (n = target)) as [->|Hnt].
    + (* the target is popped *)
      destruct (dijkstra_prev_inv_ranked _ _ Hp) as [Hwf Hranked].
      destruct (reconstruct_path_returns prev s target Hwf Hranked)
        as (path & Hpath).
      apply dict_get_is_Some in Hk as [dt Hdt].
      assert (Hbody : dijkstra_single_target_body node_ltb graph s target
                        (dist, prev, pq, visited)
                      = Return (inr (dt, path))).
      { unfold dijkstra_single_target_body. rewrite Hpop.
        rewrite decide_False by done. rewrite decide_True by done.
        rewrite Hpath. simpl. unfold dict_lookup. by rewrite Hdt. }
      rewrite Hbody.
      destruct (dijkstra_algorithm_keeps_visited node_ltb graph s target dt fuel
                  (st', {[target]} ∪ visited)) as (r & Hr & Hrt);
        [done|done|set_solver| |lia|].
      { simpl. rewrite (rp_visited _ _ _ _ _ _ Hpost) by set_solver. done. }
      by exists r, dt, path.
    + assert (Hbody : dijkstra_single_target_body node_ltb graph s target
                        (dist, prev, pq, visited)
                      = Return (inl (st', {[n]} ∪ visited))).
      { unfold dijkstra_single_target_body. rewrite Hpop.
        rewrite !decide_False by done. by rewrite Hrun. }
      rewrite Hbody. apply IH; simpl; try done.
      * apply (dijkstra_prev_inv_relax visited n d (graph_get graph n)
                 (dist, prev, pq') st' Hn Hp Hpost).
      * set_solver.
      * rewrite (rp_keys _ _ _ _ _ _ Hpost). done.
      * lia.
Qed.
End dijkstra_single_target_facts.

(** ** Checking the hypotheses on a given graph *)

Section graph_checks.
Context `{Countable node} {A : Type}.
Implicit Types (graph : list (node * list A)).

Lemma graph_get_elem_of_entry graph x a :
  a ∈ graph_get graph x → ∃ l, (x, l) ∈ graph ∧ a ∈ l.
Proof.
  unfold graph_get. destruct (dict_get graph x) as [l|] eqn:Hl.
  - intros Ha. exists l. split; [by apply dict_get_elem_of|done].
  - by intros ?%elem_of_nil.
Qed.

Lemma neighbours_are_keys_check graph (nb : A → node) :
  Forall (λ entry, Forall (λ a, nb a ∈ dict_keys graph) entry.2) graph →
  neighbours_are_keys graph nb.
Proof.
  rewrite Forall_forall. intros Hall x a (l & Hl & Ha)%graph_get_elem_of_entry.
  specialize (Hall _ Hl). rewrite Forall_forall in Hall. by apply Hall.
Qed.

Lemma all_edges_check graph (P : A → Prop) :
  Forall (λ entry, Forall P entry.2) graph →
  ∀ x a, a ∈ graph_get graph x → P a.
Proof.
  rewrite Forall_forall. intros Hall x a (l & Hl & Ha)%graph_get_elem_of_entry.
  specialize (Hall _ Hl). rewrite Forall_forall in Hall. by apply Hall.
Qed.
End graph_checks.

Section dijkstra_theorems.
Context `{Countable node}.
Import dijkstra.
Implicit Types (node_ltb : node → node → bool).
Implicit Types (graph : list (node * list (node * Z))).
Implicit Types (s t target : node).

(** [dijkstra_algorithm] on a graph whose neighbours are all keys and
    whose weights are not negative: it returns; the distances have an entry
    for the start and for every key; a finite entry is the least weight of
    a walk from the start, and the entry is [inf] exactly for the nodes
    that no walk reaches. *)
Theorem dijkstra_algorithm_shortest_distances node_ltb graph s :
  neighbours_are_keys graph fst → nonnegative_weights graph →
  ∃ distances previous,
    dijkstra_algorithm node_ltb graph s = Return (distances, previous)
    ∧ (∀ t, t ∈ dict_keys distances ↔ t = s ∨ t ∈ dict_keys graph)
    ∧ (∀ t d, dict_get distances t = Some (Finite d)
              ↔ shortest_distance graph s t d)
    ∧ (∀ t, dict_get distances t = Some Infinity
            ↔ (t = s ∨ t ∈ dict_keys graph) ∧ ¬ ∃ c, wwalk graph s t c).
Proof.
  intros Hclosed Hpos.
  destruct (dijkstra_algorithm_spec node_ltb graph s Hclosed Hpos)
    as ([distances previous] & Hrun & Hk & Hfin & Hreach). simpl in *.
  exists distances, previous.
  assert (Hkeys : ∀ t, t ∈ dict_keys distances ↔ t = s ∨ t ∈ dict_keys graph).
  { intros t. rewrite Hk. apply initial_distances_keys. }
  split_and!; [done|done| |].
  - intros t d. split; [apply Hfin|]. intros [Hw Hmin].
    destruct (Hreach t d Hw) as (d' & Hd'). rewrite Hd'.
    destruct (Hfin t d' Hd') as [Hw' Hmin'].
    specialize (Hmin d' Hw'). specialize (Hmin' d Hw).
    by assert (d' = d) as -> by lia.
  - intros t. split.
    + intros Ht. split; [apply Hkeys, dict_get_is_Some; eauto|].
      intros (c & Hc). destruct (Hreach t c Hc) as (d & Hd). congruence.
    + intros [Ht Hno]. apply Hkeys, dict_get_is_Some in Ht as [[d|] Hd]; [|done].
      destruct Hno. exists d. by apply Hfin.
Qed.

(** Stopping at the target gives the distance that the run over all nodes
    records for it, whatever the weights are, on a graph whose neighbours
    are all keys and for a target that is a key or the start. *)
Theorem dijkstra_single_target_agrees node_ltb graph s target :
  neighbours_are_keys graph fst →
  target = s ∨ target ∈ dict_keys graph →
  ∃ distances previous d path,
    dijkstra_algorithm node_ltb graph s = Return (distances, previous)
    ∧ dijkstra_single_target node_ltb graph s target = Return (d, path)
    ∧ dict_get distances target = Some d.
Proof.
  intros Hclosed Ht.
  destruct (dijkstra_single_target_sim node_ltb graph s target
              (3 + graph_size graph)
              (initial_distances graph s, [], [(0%Z, s)], ∅))
    as ([distances previous] & d & path & Hall & Hone & Hd).
  - done.
  - apply dijkstra_queue_inv_initial.
  - apply dijkstra_prev_inv_initial.
  - set_solver.
  - by apply initial_distances_keys.
  - unfold dijkstra_measure. simpl. rewrite unvisited_size_empty. lia.
  - by exists distances, previous, d, path.
Qed.

(** The distance returned by [dijkstra_single_target], under the same
    conditions and for weights that are not negative, is the least weight
    of a walk when there is one and [inf] otherwise. *)
Theorem dijkstra_single_target_shortest node_ltb graph s target :
  neighbours_are_keys graph fst → nonnegative_weights graph →
  target = s ∨ target ∈ dict_keys graph →
  ∃ d path,
    dijkstra_single_target node_ltb graph s target = Return (d, path)
    ∧ match d with
      | Finite c => shortest_distance graph s target c
      | Infinity => ¬ ∃ c, wwalk graph s target c
      end.
Proof.
  intros Hclosed Hpos Ht.
  destruct (dijkstra_single_target_agrees node_ltb graph s target Hclosed Ht)
    as (distances & previous & d & path & Hall & Hone & Hd).
  destruct (dijkstra_algorithm_shortest_distances node_ltb graph s Hclosed Hpos)
    as (distances' & previous' & Hall' & _ & Hfin & Hinf).
  rewrite Hall in Hall'. injection Hall' as <- <-.
  exists d, path. split; [done|]. destruct d as [c|].
  - by apply Hfin.
  - by apply Hinf.
Qed.
Lemma relax_loop_raises visited n (d : Z) (l : list (node * Z))
    (dist : list (node * distance)) (prev : list (node * node))
    (pq : list (Z * node)) :
  (∃ x w, (x, w) ∈ l ∧ x ∉ visited ∧ x ∉ dict_keys dist) →
  for_each l (relax visited n d) (dist, prev, pq) = Raise KeyError.
Proof.
  revert dist prev pq. induction l as [|[y v] l IH]; intros dist prev pq.
  { intros (x & w & ?%elem_of_nil & _). done. }
  intros (x & w & Hin & Hx & Hk). rewrite for_each_cons, relax_eq.
  destruct (decide (y ∈ visited)) as [Hy|Hy].
  { rewrite bind_Return. apply IH. exists x, w.
    apply elem_of_cons in Hin as [[= -> ->]|Hin]; done. }
  unfold dict_lookup. destruct (dict_get dist y) as [old|] eqn:Hold; [|done].
  assert (Hyk : y ∈ dict_keys dist) by (apply dict_get_is_Some; eauto).
  simpl. destruct (distance_ltb (d + v) old).
  - apply IH. exists x, w. rewrite dict_keys_set_in by done.
    apply elem_of_cons in Hin as [[= -> ->]|Hin]; done.
  - apply IH. exists x, w.
    apply elem_of_cons in Hin as [[= -> ->]|Hin]; done.
Qed.

(** A neighbour of the start that has no adjacency list of its own (and
    is not the start) has no entry in [distances]: both functions raise
    [KeyError] when they relax the edges of the start. *)
Theorem dijkstra_raises_on_neighbour_without_key node_ltb graph s target :
  (∃ x w, (x, w) ∈ graph_get graph s ∧ x ≠ s ∧ x ∉ dict_keys graph) →
  dijkstra_algorithm node_ltb graph s = Raise KeyError
  ∧ (target ≠ s → dijkstra_single_target node_ltb graph s target = Raise KeyError).
Proof.
  intros (x & w & Hin & Hxs & Hxk).
  assert (Hraise : for_each (graph_get graph s) (relax ({[s]} ∪ ∅) s 0)
                     (initial_distances graph s, [], []) = Raise KeyError).
  { apply relax_loop_raises. exists x, w. split_and!; [done|set_solver|].
    rewrite initial_distances_keys. intros [?|?]; done. }
  split.
  - assert (Hbody : dijkstra_algorithm_body node_ltb graph
                      (initial_distances graph s, [], [(0%Z, s)], ∅)
                    = Raise KeyError).
    { unfold dijkstra_algorithm_body. cbn [heappop least take_out].
      rewrite (decide_True (P := (0%Z, s) = (0%Z, s))) by done.
      rewrite (decide_False (P := s ∈ ∅)) by set_solver.
      by rewrite Hraise. }
    unfold dijkstra_algorithm.
    change (3 + graph_size graph) with (S (2 + graph_size graph)).
    cbn [while_loop]. by rewrite Hbody.
  - intros Hts.
    assert (Hbody : dijkstra_single_target_body node_ltb graph s target
                      (initial_distances graph s, [], [(0%Z, s)], ∅)
                    = Raise KeyError).
    { unfold dijkstra_single_target_body. cbn [heappop least take_out].
      rewrite (decide_True (P := (0%Z, s) = (0%Z, s))) by done.
      rewrite (decide_False (P := s ∈ ∅)) by set_solver.
      rewrite (decide_False (P := s = target)) by done. by rewrite Hraise. }
    unfold dijkstra_single_target.
    change (3 + graph_size graph) with (S (2 + graph_size graph)).
    cbn [while_loop]. by rewrite Hbody.
Qed.
End dijkstra_theorems.

Section dijkstra_examples.
Import dijkstra.

(** The graph [A -> B (4), A -> C (2), B -> C (1), B -> D (5), C -> D (8),
    C -> E (10), D -> E (2)] of the source, with [1] to [5] for [A] to [E]. *)
Definition simple_weighted : list (nat * list (nat * Z)) :=
  [(1, [(2, 4%Z); (3, 2%Z)]); (2, [(3, 1%Z); (4, 5%Z)]);
   (3, [(4, 8%Z); (5, 10%Z)]); (4, [(5, 2%Z)]); (5, [])].

Lemma simple_weighted_closed : neighbours_are_keys simple_weighted fst.
Proof. apply neighbours_are_keys_check. compute_done. Qed.

Lemma simple_weighted_nonnegative : nonnegative_weights simple_weighted.
Proof.
  intros x y w Hin.
  by apply (all_edges_check simple_weighted (λ a, 0 ≤ a.2)%Z ltac:(compute_done)
              x (y, w)).
Qed.

Lemma dijkstra_algorithm_shortest_distances_witness :
  neighbours_are_keys simple_weighted fst
  ∧ nonnegative_weights simple_weighted
  ∧ ∃ distances previous,
      dijkstra_algorithm Nat.ltb simple_weighted 1 = Return (distances, previous)
      ∧ (∀ t, t ∈ dict_keys distances ↔ t = 1 ∨ t ∈ dict_keys simple_weighted)
      ∧ (∀ t d, dict_get distances t = Some (Finite d)
                ↔ shortest_distance simple_weighted 1 t d)
      ∧ (∀ t, dict_get distances t = Some Infinity
              ↔ (t = 1 ∨ t ∈ dict_keys simple_weighted)
                ∧ ¬ ∃ c, wwalk simple_weighted 1 t c).
Proof.
  split; [apply simple_weighted_closed|].
  split; [apply simple_weighted_nonnegative|].
  exact (dijkstra_algorithm_shortest_distances Nat.ltb simple_weighted 1
           simple_weighted_closed simple_weighted_nonnegative).
Defined.

Lemma dijkstra_single_target_agrees_witness :
  neighbours_are_keys simple_weighted fst
  ∧ (5 = 1 ∨ 5 ∈ dict_keys simple_weighted)
  ∧ ∃ distances previous d path,
      dijkstra_algorithm Nat.ltb simple_weighted 1 = Return (distances, previous)
      ∧ dijkstra_single_target Nat.ltb simple_weighted 1 5 = Return (d, path)
      ∧ dict_get distances 5 = Some d.
Proof.
  assert (Hk : 5 = 1 ∨ 5 ∈ dict_keys simple_weighted)
    by (right; vm_compute; set_solver).
  split; [apply simple_weighted_closed|]. split; [exact Hk|].
  exact (dijkstra_single_target_agrees Nat.ltb simple_weighted 1 5
           simple_weighted_closed Hk).
Defined.

Lemma dijkstra_single_target_shortest_witness :
  neighbours_are_keys simple_weighted fst
  ∧ nonnegative_weights simple_weighted
  ∧ (5 = 1 ∨ 5 ∈ dict_keys simple_weighted)
  ∧ ∃ d path,
      dijkstra_single_target Nat.ltb simple_weighted 1 5 = Return (d, path)
      ∧ match d with
        | Finite c => shortest_distance simple_weighted 1 5 c
        | Infinity => ¬ ∃ c, wwalk simple_weighted 1 5 c
        end.
Proof.
  assert (Hk : 5 = 1 ∨ 5 ∈ dict_keys simple_weighted)
    by (right; vm_compute; set_solver).
  split; [apply simple_weighted_closed|].
  split; [apply simple_weighted_nonnegative|]. split; [exact Hk|].
  exact (dijkstra_single_target_shortest Nat.ltb simple_weighted 1 5
           simple_weighted_closed simple_weighted_nonnegative Hk).
Defined.

(** What the source prints for this graph. *)
Example simple_weighted_distances :
  dijkstra_algorithm Nat.ltb simple_weighted 1
  = Return ([(1, Finite 0); (2, Finite 4); (3, Finite 2); (4, Finite 9);
             (5, Finite 11)],
            [(2, 1); (3, 1); (4, 2); (5, 4)]).
Proof. vm_compute. reflexivity. Qed.

Example simple_weighted_single_target :
  dijkstra_single_target Nat.ltb simple_weighted 1 4
  = Return (Finite 9, Some [1; 2; 4]).
Proof. vm_compute. reflexivity. Qed.

(** [1 -> 2 -> 3] where [3] has no adjacency list. *)
Definition dangling_weighted : list (nat * list (nat * Z)) :=
  [(1, [(2, 1%Z)]); (2, [(3, 1%Z)])].

Lemma dijkstra_raises_on_neighbour_without_key_witness :
  (∃ x w, (x, w) ∈ graph_get dangling_weighted 2 ∧ x ≠ 2
          ∧ x ∉ dict_keys dangling_weighted)
  ∧ dijkstra_algorithm Nat.ltb dangling_weighted 2 = Raise KeyError
  ∧ (1 ≠ 2 → dijkstra_single_target Nat.ltb dangling_weighted 2 1 = Raise KeyError).
Proof.
  assert (Hbad : ∃ x w, (x, w) ∈ graph_get dangling_weighted 2 ∧ x ≠ 2
                        ∧ x ∉ dict_keys dangling_weighted).
  { exists 3, 1%Z. split_and!; [vm_compute; set_solver|done|].
    vm_compute. set_solver. }
  split; [exact Hbad|].
  exact (dijkstra_raises_on_neighbour_without_key Nat.ltb dangling_weighted 2 1
           Hbad).
Defined.
End dijkstra_examples.

(** ** Breadth-first distances *)

Section bfs_all_shortest_paths_facts.
Context `{Countable node}.
Import bfs.
Implicit Types (graph : list (node * list node)).
Implicit Types (dist : list (node * Z)) (queue : list node).
Implicit Types (x y s t n : node).

Lemma bfs_all_shortest_paths_visit_fold (U : gset node) (cd : Z) l dist queue :
  (∀ x, x ∈ l → x ∈ U) →
  ∃ dist' new,
    foldl (λ st neighbor, bfs_all_shortest_paths_visit cd neighbor st)
          (dist, queue) l = (dist', queue ++ new)
    ∧ (∀ x, x ∈ dict_keys dist' ↔ x ∈ dict_keys dist ∨ x ∈ l)
    ∧ (∀ x, x ∈ dict_keys dist → dict_get dist' x = dict_get dist x)
    ∧ (∀ x, x ∈ l → x ∉ dict_keys dist → dict_get dist' x = Some (cd + 1)%Z)
    ∧ (∀ x, x ∈ new ↔ x ∈ l ∧ x ∉ dict_keys dist)
    ∧ length (queue ++ new) + size (U ∖ list_to_set (dict_keys dist'))
      = length queue + size (U ∖ list_to_set (dict_keys dist)).
Proof.
  revert dist queue. induction l as [|y l IH]; intros dist queue HU.
  - exists dist, []. rewrite app_nil_r. split_and!; try done; set_solver.
  - cbn [foldl]. unfold bfs_all_shortest_paths_visit at 2.
    destruct (dict_mem dist y) eqn:Hy.
    + apply dict_mem_true in Hy.
      destruct (IH dist queue) as (dist' & new & -> & Hk & Hsame & Hnew & Hq & Hm);
        [set_solver|].
      exists dist', new. split_and!; [done| |done| | |done].
      * intros x. rewrite Hk. set_solver.
      * intros x [->|Hx]%elem_of_cons Hxk; [done|auto].
      * intros x. rewrite Hq. set_solver.
    + apply dict_mem_false in Hy.
      destruct (IH (dict_set dist y (cd + 1)%Z) (queue ++ [y]))
        as (dist' & new & Hrun & Hk & Hsame & Hnew & Hq & Hm); [set_solver|].
      exists dist', (y :: new). rewrite <-app_assoc in Hrun, Hm.
      split_and!; [done| | | | |].
      * intros x. rewrite Hk, dict_elem_of_keys_set. set_solver.
      * intros x Hx. rewrite Hsame by (apply dict_elem_of_keys_set; auto).
        apply dict_get_set_ne. by intros ->.
      * intros x [->|Hx]%elem_of_cons Hxk.
        -- rewrite Hsame by (apply dict_elem_of_keys_set; auto).
           apply dict_get_set_eq.
        -- destruct (decide (x = y)) as [->|Hne].
           ++ rewrite Hsame by (apply dict_elem_of_keys_set; auto).
              apply dict_get_set_eq.
           ++ apply Hnew; [done|]. rewrite dict_elem_of_keys_set. naive_solver.
      * intros x. rewrite elem_of_cons, Hq, dict_elem_of_keys_set.
        destruct (decide (x = y)) as [->|Hne]; [set_solver|]. set_solver.
      * simpl in *. rewrite Hm, length_app. simpl.
        rewrite dict_keys_set_notin, list_to_set_app_L by done. simpl.
        rewrite (size_difference_insert U (list_to_set (dict_keys dist)) y);
          [|set_solver|set_solver].
        assert (list_to_set (dict_keys dist) ∪ ({[y]} ∪ ∅)
                = ({[y]} ∪ list_to_set (dict_keys dist) : gset node)) as ->
          by set_solver.
        lia.
Qed.

Definition bfs_all_shortest_paths_inv graph s
    (st : list (node * Z) * list node) : Prop :=
  let '(dist, queue) := st in
  ∃ d q1 q2,
    queue = q1 ++ q2
    ∧ (∀ x, x ∈ q1 → dict_get dist x = Some (Z.of_nat d))
    ∧ (∀ x, x ∈ q2 → dict_get dist x = Some (Z.of_nat (S d)))
    ∧ (∀ x dx, dict_get dist x = Some dx →
         ∃ k, dx = Z.of_nat k ∧ edge_distance graph s x k)
    ∧ (∀ x k, nsteps (edge graph) k s x → k ≤ d → x ∈ dict_keys dist)
    ∧ (∀ y x, y ∈ dict_keys dist → y ∉ queue → edge graph y x →
         x ∈ dict_keys dist)
    ∧ (q1 = [] → q2 = []).

Definition bfs_all_shortest_paths_post graph s (dist : list (node * Z)) : Prop :=
  (∀ t, t ∈ dict_keys dist ↔ reachable graph s t)
  ∧ (∀ t dx, dict_get dist t = Some dx →
       ∃ k, dx = Z.of_nat k ∧ edge_distance graph s t k).

Lemma bfs_all_shortest_paths_spec graph s :
  ∃ dist, bfs_all_shortest_paths graph s = Return dist
    ∧ bfs_all_shortest_paths_post graph s dist.
Proof.
  set (U := {[s]} ∪ graph_nodes graph).
  apply (while_loop_rule (bfs_all_shortest_paths_inv graph s)
           (bfs_all_shortest_paths_post graph s)
           (λ st, length st.2 + size (U ∖ list_to_set (dict_keys st.1)))).
  - intros [dist queue]
      (d & q1 & q2 & Hq & Hl1 & Hl2 & Hval & Hnear & Hdone & Hnorm).
    unfold bfs_all_shortest_paths_body. destruct queue as [|n rest].
    { (* the queue is empty *)
      split; [|done]. intros t. split.
      - intros [dx Hdx]%dict_get_is_Some.
        destruct (Hval t dx Hdx) as (k & _ & Hk & _). by eapply rtc_nsteps_2.
      - apply (reachable_closed graph (λ x, x ∈ dict_keys dist)).
        + apply (Hnear s 0); [constructor|lia].
        + intros x y Hx Hxy. eapply Hdone; [done|apply not_elem_of_nil|done]. }
    destruct q1 as [|n' q1'].
    { rewrite (Hnorm eq_refl) in Hq. done. }
    injection Hq as <- ->.
    pose proof (Hl1 n ltac:(left)) as Hdn. unfold dict_lookup. rewrite Hdn.
    simpl.
    destruct (Hval n _ Hdn) as (kn & Hkn & Hnsteps & _).
    assert (kn = d) as -> by lia.
    destruct (bfs_all_shortest_paths_visit_fold U (Z.of_nat d)
                (graph_get graph n) dist (q1' ++ q2))
      as (dist' & new & -> & Hk & Hsame & Hnew & Hin & Hm).
    { intros x Hx. apply elem_of_union_r. by eapply edge_graph_nodes. }
    simpl. split; [|lia].
    assert (Hval' : ∀ x dx, dict_get dist' x = Some dx →
                            ∃ k, dx = Z.of_nat k ∧ edge_distance graph s x k).
    { intros x dx Hdx. destruct (decide (x ∈ dict_keys dist)) as [Hx|Hx].
      - rewrite Hsame in Hdx by done. eauto.
      - assert (Hxl : x ∈ graph_get graph n).
        { assert (x ∈ dict_keys dist') as [?|?]%Hk by
            (apply dict_get_is_Some; eauto); done. }
        rewrite Hnew in Hdx by done. injection Hdx as <-.
        exists (S d). split; [lia|]. split; [by eapply nsteps_r|].
        intros k' Hk'. destruct (decide (k' ≤ d)); [|lia].
        destruct Hx. by eapply Hnear. }
    assert (Hdone' : ∀ y x, y ∈ dict_keys dist' → y ∉ (q1' ++ q2) ++ new →
                            edge graph y x → x ∈ dict_keys dist').
    { intros y x Hy Hyq Hyx. apply not_elem_of_app in Hyq as [Hyq Hynew].
      destruct (decide (y = n)) as [->|Hyn]; [apply Hk; by right|].
      apply Hk. left. apply Hk in Hy as [Hy|Hy].
      - eapply Hdone; [done| |done]. by apply not_elem_of_cons.
      - destruct (decide (y ∈ dict_keys dist)) as [Hyk|Hyk].
        + eapply Hdone; [done| |done]. by apply not_elem_of_cons.
        + destruct Hynew. by apply Hin. }
    assert (Hnewd : ∀ x, x ∈ new → dict_get dist' x = Some (Z.of_nat (S d))).
    { intros x [? ?]%Hin. rewrite Hnew by done. f_equal. lia. }
    assert (Hold : ∀ x dx, dict_get dist x = Some dx → dict_get dist' x = Some dx).
    { intros x dx Hdx. rewrite Hsame; [done|]. apply dict_get_is_Some. eauto. }
    destruct q1' as [|n' q1''].
    + exists (S d), (q2 ++ new), []. rewrite app_nil_r.
      split_and!; [done| |set_solver|done| |done|done].
      * intros x [?|?]%elem_of_app; auto.
      * intros x k Hxk Hkd. destruct (decide (k ≤ d)) as [?|?].
        { apply Hk. left. by eapply Hnear. }
        assert (k = S d) as -> by lia.
        apply nsteps_inv_r in Hxk as (y & Hy & Hyx).
        destruct (decide (y = n)) as [->|Hyn]; [apply Hk; by right|].
        apply Hk. left. eapply (Hdone y); [by eapply Hnear| |done].
        apply not_elem_of_cons. split; [done|]. intros Hy2.
        destruct (Hval y _ (Hl2 y Hy2)) as (k & Hkeq & _ & Hmin).
        specialize (Hmin d Hy). lia.
    + exists d, (n' :: q1''), (q2 ++ new).
      split_and!; [by rewrite <-app_assoc| | |done| |done|done].
      * intros x Hx. apply Hold, Hl1. by right.
      * intros x [?|?]%elem_of_app; auto.
      * intros x k Hxk Hkd. apply Hk. left. by eapply Hnear.
  - exists 0, [s], []. split_and!; try done.
    + intros x ->%list_elem_of_singleton. simpl. by rewrite decide_True.
    + set_solver.
    + intros x dx. simpl. case_decide; [|done]. intros [= <-]. subst.
      exists 0. split; [done|]. split; [constructor|lia].
    + intros x k Hk Hk0. assert (k = 0) as -> by lia. inv Hk. simpl. left.
  - simpl. assert (size (U ∖ ({[s]} ∪ ∅)) ≤ size (graph_nodes graph)); [|lia].
    apply subseteq_size. set_solver.
Qed.
End bfs_all_shortest_paths_facts.

Section bfs_distance_theorems.
Context `{Countable node}.
Implicit Types (s t x y : node).

(** [bfs_all_shortest_paths] returns a dictionary whose keys are exactly
    the nodes reachable from the start, and whose value for a node is the
    least number of edges of a walk from the start to it. *)
Theorem bfs_all_shortest_paths_distances (graph : list (node * list node)) s :
  ∃ distances,
    bfs.bfs_all_shortest_paths graph s = Return distances
    ∧ (∀ t, t ∈ dict_keys distances ↔ reachable graph s t)
    ∧ (∀ t k, dict_get distances t = Some (Z.of_nat k)
              ↔ edge_distance graph s t k)
    ∧ (∀ t d, dict_get distances t = Some d → (0 ≤ d)%Z).
Proof.
  destruct (bfs_all_shortest_paths_spec graph s) as (dist & Hrun & Hkeys & Hval).
  exists dist. split_and!; [done|done| |].
  - intros t k. split.
    + intros (k' & Hk' & Hd)%Hval. by assert (k' = k) as -> by lia.
    + intros [Hk Hmin].
      assert (t ∈ dict_keys dist) as [d Hd]%dict_get_is_Some
        by (apply Hkeys; by eapply rtc_nsteps_2).
      destruct (Hval t d Hd) as (k' & -> & Hk' & Hmin').
      specialize (Hmin k' Hk'). specialize (Hmin' k Hk).
      by assert (k' = k) as -> by lia.
  - intros t d (k & -> & _)%Hval. lia.
Qed.

Lemma graph_get_unweighted (graph : list (node * list (node * Z))) x :
  graph_get (unweighted graph) x = (graph_get graph x).*1.
Proof.
  unfold graph_get, unweighted. induction graph as [|[k l] graph IH]; [done|].
  rewrite fmap_cons. cbn [dict_get fst snd]. by case_decide.
Qed.

Lemma edge_unweighted (graph : list (node * list (node * Z))) x y :
  edge (unweighted graph) x y ↔ ∃ w, (y, w) ∈ graph_get graph x.
Proof.
  unfold edge. rewrite graph_get_unweighted, list_elem_of_fmap. split.
  - intros ([y' w] & -> & Hin). by exists w.
  - intros (w & Hin). by exists (y, w).
Qed.

Lemma wwalk_nsteps (graph : list (node * list (node * Z))) s t c :
  unit_weights graph → wwalk graph s t c →
  ∃ k, c = Z.of_nat k ∧ nsteps (edge (unweighted graph)) k s t.
Proof.
  intros Hunit. induction 1 as [|x y c w _ (k & -> & Hk) Hxy].
  - exists 0. split; [done|constructor].
  - exists (S k). rewrite (Hunit _ _ _ Hxy). split; [lia|].
    eapply nsteps_r; [done|]. apply edge_unweighted. eauto.
Qed.

Lemma nsteps_wwalk (graph : list (node * list (node * Z))) s t k :
  unit_weights graph → nsteps (edge (unweighted graph)) k s t →
  wwalk graph s t (Z.of_nat k).
Proof.
  intros Hunit. revert t. induction k as [|k IH]; intros t Hk.
  - inv Hk. constructor.
  - apply nsteps_inv_r in Hk as (y & Hy & (w & Hw)%edge_unweighted).
    replace (Z.of_nat (S k)) with (Z.of_nat k + w)%Z
      by (rewrite (Hunit _ _ _ Hw); lia).
    econstructor; [by apply IH|done].
Qed.

Lemma unit_shortest_distance (graph : list (node * list (node * Z))) s t k :
  unit_weights graph →
  edge_distance (unweighted graph) s t k
  ↔ shortest_distance graph s t (Z.of_nat k).
Proof.
  intros Hunit. split.
  - intros [Hk Hmin]. split; [by apply nsteps_wwalk|].
    intros c (k' & -> & Hk')%wwalk_nsteps; [|done].
    specialize (Hmin k' Hk'). lia.
  - intros [Hw Hmin].
    apply wwalk_nsteps in Hw as (k' & Hkk' & Hk'); [|done].
    assert (k' = k) as -> by lia. split; [done|].
    intros k' Hk''. apply nsteps_wwalk in Hk''; [|done].
    specialize (Hmin _ Hk''). lia.
Qed.

(** With every weight equal to [1], on a graph whose neighbours are all
    keys, the finite distances of [dijkstra_algorithm] are the distances of
    [bfs_all_shortest_paths] on the graph without its weights. *)
Theorem dijkstra_unit_weights_is_bfs (node_ltb : node → node → bool)
    (graph : list (node * list (node * Z))) s :
  neighbours_are_keys graph fst → unit_weights graph →
  ∃ distances previous bfs_distances,
    dijkstra.dijkstra_algorithm node_ltb graph s = Return (distances, previous)
    ∧ bfs.bfs_all_shortest_paths (unweighted graph) s = Return bfs_distances
    ∧ ∀ t d, dict_get bfs_distances t = Some d
             ↔ dict_get distances t = Some (dijkstra.Finite d).
Proof.
  intros Hclosed Hunit.
  assert (Hpos : nonnegative_weights graph).
  { intros x y w Hw. rewrite (Hunit _ _ _ Hw). lia. }
  destruct (dijkstra_algorithm_shortest_distances node_ltb graph s Hclosed Hpos)
    as (distances & previous & Hrun & _ & Hfin & _).
  destruct (bfs_all_shortest_paths_distances (unweighted graph) s)
    as (bfs_distances & Hbfs & Hkeys & Hval & Hnn).
  exists distances, previous, bfs_distances. split_and!; [done|done|].
  intros t d. split.
  - intros Hd. pose proof (Hnn _ _ Hd).
    rewrite <-(Z2Nat.id d) in Hd |- * by done.
    by apply Hfin, unit_shortest_distance, Hval.
  - intros Hd. apply Hfin in Hd as Hsd.
    destruct Hsd as [Hw _]. pose proof Hw as (k & -> & Hk)%wwalk_nsteps; [|done].
    by apply Hval, unit_shortest_distance, Hfin.
Qed.
End bfs_distance_theorems.

Section bfs_distance_examples.

(** The graph [1 -> 2, 1 -> 3, 2 -> 4, 3 -> 4, 4 -> 5], every weight [1]. *)
Definition unit_diamond : list (nat * list (nat * Z)) :=
  [(1, [(2, 1%Z); (3, 1%Z)]); (2, [(4, 1%Z)]); (3, [(4, 1%Z)]);
   (4, [(5, 1%Z)]); (5, [])].

Lemma unit_diamond_closed : neighbours_are_keys unit_diamond fst.
Proof. apply neighbours_are_keys_check. compute_done. Qed.

Lemma unit_diamond_unit : unit_weights unit_diamond.
Proof.
  intros x y w Hin.
  by apply (all_edges_check unit_diamond (λ a, a.2 = 1%Z) ltac:(compute_done)
              x (y, w)).
Qed.

Lemma dijkstra_unit_weights_is_bfs_witness :
  neighbours_are_keys unit_diamond fst
  ∧ unit_weights unit_diamond
  ∧ ∃ distances previous bfs_distances,
      dijkstra.dijkstra_algorithm Nat.ltb unit_diamond 1
        = Return (distances, previous)
      ∧ bfs.bfs_all_shortest_paths (unweighted unit_diamond) 1
        = Return bfs_distances
      ∧ ∀ t d, dict_get bfs_distances t = Some d
               ↔ dict_get distances t = Some (dijkstra.Finite d).
Proof.
  split; [apply unit_diamond_closed|]. split; [apply unit_diamond_unit|].
  exact (dijkstra_unit_weights_is_bfs Nat.ltb unit_diamond 1
           unit_diamond_closed unit_diamond_unit).
Defined.
End bfs_distance_examples.

(** ** Topological sort: counting the incoming edges *)

Section defaultdict_facts.
Context {K : Type} `{EqDecision K}.
Implicit Types (d : list (K * Z)) (k : K).

Lemma defaultdict_get_add d k n k' :
  defaultdict_get (defaultdict_add d k n) k' =
    if decide (k = k') then (defaultdict_get d k + n)%Z else defaultdict_get d k'.
Proof.
  unfold defaultdict_add. unfold defaultdict_get at 1.
  rewrite dict_get_set. by case_decide.
Qed.

Lemma defaultdict_keys_add d k n k' :
  k' ∈ dict_keys (defaultdict_add d k n) ↔ k' = k ∨ k' ∈ dict_keys d.
Proof. apply dict_elem_of_keys_set. Qed.

Lemma defaultdict_wf_add d k n : dict_wf d → dict_wf (defaultdict_add d k n).
Proof. apply dict_wf_set. Qed.

Lemma defaultdict_get_elem_of d k n :
  dict_wf d → (k, n) ∈ d → defaultdict_get d k = n.
Proof. intros Hwf Hin. unfold defaultdict_get. by rewrite (dict_elem_of_get d k n). Qed.

(** The keys whose count is zero, read from the items or by key. *)
Lemma defaultdict_zero_items d :
  dict_wf d →
  (filter (λ item, item.2 = 0%Z) d).*1
    = filter (λ k, defaultdict_get d k = 0%Z) (dict_keys d).
Proof.
  intros Hwf.
  assert (∀ d0, (∀ k n, (k, n) ∈ d0 → defaultdict_get d k = n) →
    (filter (λ item, item.2 = 0%Z) d0).*1
      = filter (λ k, defaultdict_get d k = 0%Z) (dict_keys d0)) as Hgen.
  { unfold dict_keys. intros d0.
    induction d0 as [|[k n] d0 IH]; intros Hget; [done|].
    rewrite fmap_cons, !filter_cons. cbn [fst snd].
    rewrite (Hget k n) by left.
    rewrite <-IH by (intros; apply Hget; by right).
    by case_decide. }
  apply Hgen. intros. by apply defaultdict_get_elem_of.
Qed.
End defaultdict_facts.

Section in_degree_facts.
Context `{Countable node}.
Implicit Types (graph : list (node * list node)) (d : list (node * Z)).
Implicit Types (us l r : list node) (u v x c : node).

(** Number of edges from the nodes of [us] to [v], with repetitions. *)
Fixpoint incoming graph us v : nat :=
  match us with
  | [] => 0
  | u :: us => count_occ_of v (graph_get graph u) + incoming graph us v
  end.

(** Number of edges to [v] from the keys that are not in [r]. *)
Definition pending graph r v : nat :=
  incoming graph (filter (λ u, u ∉ r) (dict_keys graph)) v.

Lemma dict_lookup_key {V} (dict : list (node * V)) u :
  u ∈ dict_keys dict → ∃ a, dict_get dict u = Some a ∧ dict_lookup dict u = Return a.
Proof.
  intros [a Ha]%dict_get_is_Some. exists a. split; [done|].
  by apply dict_lookup_Return.
Qed.

Lemma graph_lookup_key graph u :
  u ∈ dict_keys graph → dict_lookup graph u = Return (graph_get graph u).
Proof.
  intros (a & Ha & ->)%dict_lookup_key. unfold graph_get. by rewrite Ha.
Qed.

Lemma graph_lookup_not_key graph u :
  u ∉ dict_keys graph → dict_lookup graph u = Raise KeyError.
Proof. intros Hu%dict_get_None. unfold dict_lookup. by rewrite Hu. Qed.

Lemma elem_of_graph_nodes_edge graph x :
  dict_wf graph →
  x ∈ graph_nodes graph ↔ x ∈ dict_keys graph ∨ ∃ u, edge graph u x.
Proof.
  intros Hwf. rewrite elem_of_graph_nodes. apply or_iff_compat_l. split.
  - intros (k & l & Hkl & Hx). exists k. unfold edge, graph_get.
    by rewrite (dict_elem_of_get graph k l).
  - intros [u Hu]. pose proof (edge_graph_nodes _ _ _ Hu) as Hn.
    apply elem_of_graph_nodes in Hn as [Hk|?]; [|done].
    unfold edge, graph_get in Hu.
    destruct (dict_get graph u) as [l|] eqn:Hl; [|by apply elem_of_nil in Hu].
    exists u, l. split; [by apply dict_get_elem_of|done].
Qed.

(** [for node in graph: in_degree[node] = 0] *)
Lemma zero_in_degree_spec us d :
  let d' := foldl (λ in_degree node, dict_set in_degree node 0%Z) d us in
  dict_wf d → (∀ v, defaultdict_get d v = 0%Z) →
  dict_wf d' ∧ (∀ v, defaultdict_get d' v = 0%Z) ∧
  (∀ v, v ∈ dict_keys d' ↔ v ∈ dict_keys d ∨ v ∈ us).
Proof.
  revert d. induction us as [|u us IH]; intros d; cbn [foldl].
  - intros Hwf Hz. split_and!; [done..|]. intros v. rewrite elem_of_nil. tauto.
  - intros Hwf Hz. destruct (IH (dict_set d u 0%Z)) as (Hwf' & Hz' & Hk').
    + by apply dict_wf_set.
    + intros v. unfold defaultdict_get. rewrite dict_get_set.
      case_decide; [done|]. apply Hz.
    + split_and!; [done..|]. intros v.
      rewrite Hk', dict_elem_of_keys_set, elem_of_cons. tauto.
Qed.

(** [for neighbor in neighbors: in_degree[neighbor] += 1] *)
Lemma count_row_spec l d :
  let d' := foldl (λ in_degree neighbor, defaultdict_add in_degree neighbor 1) d l in
  (dict_wf d → dict_wf d') ∧
  (∀ v, defaultdict_get d' v = (defaultdict_get d v + Z.of_nat (count_occ_of v l))%Z) ∧
  (∀ v, v ∈ dict_keys d' ↔ v ∈ dict_keys d ∨ v ∈ l).
Proof.
  revert d. induction l as [|x l IH]; intros d; cbn [foldl].
  - split_and!; [done| |].
    + intros v. rewrite count_occ_of_nil. lia.
    + intros v. rewrite elem_of_nil. tauto.
  - destruct (IH (defaultdict_add d x 1)) as (Hwf' & Hz' & Hk').
    split_and!.
    + intros Hwf. by apply Hwf', defaultdict_wf_add.
    + intros v. rewrite Hz', defaultdict_get_add, count_occ_of_cons.
      repeat case_decide; subst; try done; lia.
    + intros v. rewrite Hk', defaultdict_keys_add, elem_of_cons. tauto.
Qed.

(** The two loops that count the incoming edges of every node. *)
Lemma count_in_degree_spec graph us d :
  let d' := foldl (λ in_degree node,
                     foldl (λ in_degree neighbor, defaultdict_add in_degree neighbor 1)
                           in_degree (graph_get graph node)) d us in
  (dict_wf d → dict_wf d') ∧
  (∀ v, defaultdict_get d' v = (defaultdict_get d v + Z.of_nat (incoming graph us v))%Z) ∧
  (∀ v, v ∈ dict_keys d' ↔
        v ∈ dict_keys d ∨ ∃ u, u ∈ us ∧ v ∈ graph_get graph u).
Proof.
  revert d. induction us as [|u us IH]; intros d; cbn [foldl incoming].
  - split_and!; [done| |].
    + intros v. lia.
    + intros v. setoid_rewrite elem_of_nil. naive_solver.
  - pose proof (count_row_spec (graph_get graph u) d) as (Hwf1 & Hz1 & Hk1).
    cbn zeta in Hwf1, Hz1, Hk1.
    match goal with |- context [foldl _ (foldl ?f d ?l) us] =>
      set (d1 := foldl f d l) in * end.
    destruct (IH d1) as (Hwf' & Hz' & Hk'). split_and!.
    + auto.
    + intros v. rewrite Hz', Hz1. lia.
    + intros v. rewrite Hk', Hk1. setoid_rewrite elem_of_cons. naive_solver.
Qed.

(** In [topological_sort_simple] the rows are read with [graph[node]]; no
    lookup fails, since [node] runs over the keys. *)
Lemma count_in_degree_for_each graph us d :
  (∀ u, u ∈ us → u ∈ dict_keys graph) →
  for_each us (λ node in_degree,
      neighbors ← dict_lookup graph node;
      Return (foldl (λ in_degree neighbor, defaultdict_add in_degree neighbor 1)
                    in_degree neighbors)) d
  = Return (foldl (λ in_degree node,
                     foldl (λ in_degree neighbor, defaultdict_add in_degree neighbor 1)
                           in_degree (graph_get graph node)) d us).
Proof.
  revert d. induction us as [|u us IH]; intros d Hus; [done|].
  rewrite for_each_cons, graph_lookup_key by (apply Hus; left).
  rewrite !bind_Return. cbn [foldl]. apply IH. intros; apply Hus. by right.
Qed.

Lemma pending_nil graph v : pending graph [] v = incoming graph (dict_keys graph) v.
Proof.
  unfold pending. f_equal. induction (dict_keys graph) as [|u us IH]; [done|].
  rewrite filter_cons, decide_True by apply not_elem_of_nil. by rewrite IH.
Qed.

Lemma incoming_0 graph us v :
  incoming graph us v = 0 ↔ ∀ u, u ∈ us → ¬ edge graph u v.
Proof.
  unfold edge. induction us as [|u us IH]; cbn [incoming].
  - split; [|done]. intros _ u Hu. by apply elem_of_nil in Hu.
  - rewrite Nat.eq_add_0, IH, count_occ_of_0. setoid_rewrite elem_of_cons.
    naive_solver.
Qed.

(** Nothing is pending for [v] exactly when every node with an edge to [v]
    is in [r]. *)
Lemma pending_0 graph r v :
  pending graph r v = 0 ↔ ∀ u, edge graph u v → u ∈ r.
Proof.
  unfold pending. rewrite incoming_0. setoid_rewrite list_elem_of_filter. split.
  - intros Hp u Hu. destruct (decide (u ∈ r)) as [|Hn]; [done|].
    destruct (Hp u); [|done]. split; [done|]. by eapply edge_key.
  - intros Hp u [Hn _] Hu. auto.
Qed.

Lemma incoming_filter_snoc graph us r c v :
  NoDup us → c ∉ r →
  incoming graph (filter (λ u, u ∉ r) us) v
    = incoming graph (filter (λ u, u ∉ r ++ [c]) us) v
      + (if decide (c ∈ us) then count_occ_of v (graph_get graph c) else 0).
Proof.
  intros Hnd Hc. induction Hnd as [|u us Hu Hnd IH].
  - by rewrite decide_False by apply not_elem_of_nil.
  - rewrite !filter_cons. destruct (decide (u = c)) as [->|Hne].
    + rewrite decide_True by done.
      rewrite (decide_False (P := c ∉ r ++ [c])) by set_solver.
      rewrite (decide_True (P := c ∈ c :: us)) by left.
      cbn [incoming]. rewrite IH, decide_False by done. lia.
    + assert (u ∉ r ++ [c] ↔ u ∉ r) as Hiff by set_solver.
      assert (c ∈ u :: us ↔ c ∈ us) as Hiff' by set_solver.
      destruct (decide (u ∉ r)).
      * rewrite decide_True by (by apply Hiff). cbn [incoming]. rewrite IH.
        repeat case_decide; try lia; tauto.
      * rewrite decide_False by (by rewrite Hiff). rewrite IH.
        repeat case_decide; try lia; tauto.
Qed.

(** Taking [c] into [r] releases the edges that leave [c]. *)
Lemma pending_snoc graph r c v :
  dict_wf graph → c ∉ r →
  pending graph r v
    = pending graph (r ++ [c]) v + count_occ_of v (graph_get graph c).
Proof.
  intros Hwf Hc. unfold pending.
  rewrite (incoming_filter_snoc graph _ r c v) by done. f_equal.
  case_decide as Hk; [done|]. apply dict_get_None in Hk.
  unfold graph_get. by rewrite Hk.
Qed.
End in_degree_facts.

(** ** Topological sort: the main loop *)

Section kahn_facts.
Context `{Countable node}.
Implicit Types (graph : list (node * list node)) (d : list (node * Z)).
Implicit Types (us l r queue new : list node) (u v x c : node).
Import topological_sort.

(** The loop over the neighbours of the node taken off the queue. *)
Lemma release_spec l queue d :
  (∀ v, (Z.of_nat (count_occ_of v l) ≤ defaultdict_get d v)%Z) →
  ∃ new d', foldl release (queue, d) l = (queue ++ new, d') ∧
    NoDup new ∧
    (∀ v, v ∈ new ↔ v ∈ l ∧ defaultdict_get d v = Z.of_nat (count_occ_of v l)) ∧
    (∀ v, defaultdict_get d' v
          = (defaultdict_get d v - Z.of_nat (count_occ_of v l))%Z).
Proof.
  revert queue d. induction l as [|x l IH]; intros queue d Hle.
  - exists [], d. rewrite app_nil_r. split_and!; [done|constructor| |].
    + intros v. rewrite elem_of_nil. tauto.
    + intros v. rewrite count_occ_of_nil. lia.
  - cbn [foldl release].
    set (d1 := defaultdict_add d x (-1)).
    assert (∀ v, defaultdict_get d1 v
              = if decide (x = v) then (defaultdict_get d x - 1)%Z
                else defaultdict_get d v) as Hd1.
    { intros v. unfold d1. rewrite defaultdict_get_add. by case_decide. }
    assert (∀ v, count_occ_of v (x :: l)
              = (if decide (x = v) then 1 else 0) + count_occ_of v l) as Hc.
    { intros v. apply count_occ_of_cons. }
    assert (∀ v, (Z.of_nat (count_occ_of v l) ≤ defaultdict_get d1 v)%Z) as Hle1.
    { intros v. specialize (Hle v). rewrite Hc in Hle. rewrite Hd1.
      case_decide; subst; lia. }
    assert (∀ v, v ∈ l ↔ count_occ_of v l ≠ 0) as Hin.
    { intros v. rewrite count_occ_of_0. split; [auto|apply dec_stable]. }
    destruct (decide (defaultdict_get d1 x = 0%Z)) as [Hx|Hx].
    + destruct (IH (queue ++ [x]) d1 Hle1) as (new & d' & -> & Hnd & Hnew & Hd').
      exists (x :: new), d'. rewrite <-app_assoc. split_and!; [done| | |].
      * constructor; [|done]. rewrite Hnew, Hin.
        pose proof (Hle1 x). rewrite Hx in *. lia.
      * intros v. rewrite elem_of_cons, Hnew, elem_of_cons, !Hin, Hc, Hd1.
        pose proof (Hle1 x) as Hlx. rewrite Hd1, decide_True in Hx by done.
        rewrite Hd1, decide_True in Hlx by done.
        destruct (decide (x = v)) as [->|Hne]; [|naive_solver lia].
        split; [|auto]. intros _. split; [auto|lia].
      * intros v. rewrite Hd', Hd1, Hc. case_decide; subst; lia.
    + destruct (IH queue d1 Hle1) as (new & d' & -> & Hnd & Hnew & Hd').
      exists new, d'. split_and!; [done..| |].
      * intros v. rewrite Hnew, elem_of_cons, !Hin, Hc, Hd1.
        rewrite Hd1, decide_True in Hx by done.
        destruct (decide (x = v)) as [->|Hne]; [|naive_solver lia].
        split; [intros [? ?]; split; [auto|lia]|].
        intros [_ Heq]. split; lia.
      * intros v. rewrite Hd', Hd1, Hc. case_decide; subst; lia.
Qed.

(** One iteration of Kahn's loop, with the neighbours read by
    [graph.get(current, [])]; the list of the nodes taken so far is kept. *)
Definition kahn_body graph (s : list node * list node * list (node * Z))
    : result (list node * list node * list (node * Z) + list node) :=
  let '(queue, r, d) := s in
  match queue with
  | [] => Return (inr r)
  | current :: queue =>
      let '(queue, d) := foldl release (queue, d) (graph_get graph current) in
      Return (inl (queue, r ++ [current], d))
  end.

(** The invariant of the loop: no node is taken twice, the counters are the
    numbers of pending edges, the nodes taken or waiting are those with
    nothing pending, and the nodes taken come after their predecessors. *)
Record kahn_inv graph (s : list node * list node * list (node * Z)) : Prop := {
  kahn_NoDup : NoDup (s.1.2 ++ s.1.1);
  kahn_pending : ∀ v, defaultdict_get s.2 v = Z.of_nat (pending graph s.1.2 v);
  kahn_ready : ∀ v,
    v ∈ s.1.2 ++ s.1.1 ↔ v ∈ graph_nodes graph ∧ pending graph s.1.2 v = 0;
  kahn_order : topological_order graph s.1.2
}.

Lemma topological_order_snoc graph r c :
  topological_order graph r → c ∉ r →
  (∀ v, v ∈ r ++ [c] → ∀ u, edge graph u v → u ∈ r) →
  topological_order graph (r ++ [c]).
Proof.
  intros Hord Hc Hpred i j u v Hi Hj Huv.
  assert (u ∈ r) as Hu.
  { eapply Hpred; [|done]. by eapply list_elem_of_lookup_2. }
  assert (i < length r) as Hil.
  { apply lookup_lt_Some in Hi as Hlt. rewrite length_app in Hlt. simpl in Hlt.
    destruct (decide (i = length r)) as [->|]; [|lia].
    rewrite list_lookup_middle in Hi by done. congruence. }
  rewrite lookup_app_l in Hi by done.
  destruct (decide (j < length r)) as [Hjl|Hjl].
  - rewrite lookup_app_l in Hj by done. by eapply Hord.
  - lia.
Qed.

Lemma kahn_body_spec graph s :
  dict_wf graph → kahn_inv graph s →
  match kahn_body graph s with
  | Return (inl s') =>
      kahn_inv graph s' ∧ length s'.1.2 = S (length s.1.2) ∧ s.1.1 ≠ []
  | Return (inr r) =>
      NoDup r ∧ topological_order graph r ∧
      ∀ v, v ∈ r ↔ v ∈ graph_nodes graph ∧ pending graph r v = 0
  | _ => False
  end.
Proof.
  intros Hwf. destruct s as [[queue r] d]. intros [Hnd Hpend Hready Hord].
  cbn [fst snd] in *. destruct queue as [|c queue]; cbn [kahn_body].
  - rewrite app_nil_r in *. done.
  - apply NoDup_app in Hnd as (Hr & Hdisj & Hq).
    apply NoDup_cons in Hq as [Hcq Hq].
    assert (c ∉ r) as Hcr by (intros ?; eapply Hdisj; [done|left]).
    pose proof (λ v, pending_snoc graph r c v Hwf Hcr) as Hsnoc.
    destruct (release_spec (graph_get graph c) queue d)
      as (new & d' & -> & Hnew & Hin & Hd').
    { intros v. rewrite Hpend, Hsnoc. lia. }
    assert (∀ v, v ∈ new ↔
      v ∈ graph_get graph c ∧ pending graph (r ++ [c]) v = 0) as Hin'.
    { intros v. rewrite Hin, Hpend, Hsnoc. split; intros [? ?]; split; [done|lia|done|lia]. }
    assert (∀ v, v ∈ graph_get graph c → pending graph r v ≠ 0) as Hpos.
    { intros v Hv. rewrite Hsnoc.
      assert (count_occ_of v (graph_get graph c) ≠ 0); [|lia].
      by rewrite count_occ_of_0; auto. }
    assert (∀ v, v ∈ r ++ c :: queue ↔ v ∈ (r ++ [c]) ++ queue) as Hre.
    { intros v. by rewrite <-app_assoc. }
    split_and!; [constructor; cbn [fst snd]| |done].
    + rewrite <-app_assoc. cbn [app]. apply NoDup_app. split_and!; [done| |].
      * intros v Hv. rewrite !elem_of_cons, elem_of_app.
        intros [->|[Hvq|Hvn]]; [done|by eapply Hdisj; [|right]|].
        apply Hin' in Hvn as [Hvn _]. apply Hpos in Hvn.
        apply Hvn, Hready. set_solver.
      * constructor.
        { rewrite elem_of_app. intros [?|Hvn]; [done|].
          apply Hin' in Hvn as [Hvn _]. apply Hpos in Hvn.
          apply Hvn, Hready. set_solver. }
        apply NoDup_app. split_and!; [done| |done].
        intros v Hvq Hvn. apply Hin' in Hvn as [Hvn _]. apply Hpos in Hvn.
        apply Hvn, Hready. set_solver.
    + intros v. rewrite Hd', Hpend, Hsnoc. lia.
    + intros v. rewrite app_assoc, elem_of_app, <-Hre, Hready, Hin'.
      specialize (Hsnoc v). split.
      * intros [[? ?]|[Hv ?]]; split; [done|lia| |done].
        by eapply edge_graph_nodes.
      * intros [Hv Hp]. destruct (decide (pending graph r v = 0)); [by left|].
        right. split; [|done]. apply dec_stable. intros Hn%count_occ_of_0. lia.
    + apply topological_order_snoc; [done..|].
      intros v Hv. apply pending_0, Hready. set_solver.
    + cbn [fst snd]. by rewrite length_app, Nat.add_1_r.
Qed.

Lemma kahn_inv_length graph s :
  kahn_inv graph s → length s.1.2 + length s.1.1 ≤ size (graph_nodes graph).
Proof.
  intros [Hnd _ Hready _]. rewrite <-length_app.
  rewrite <-(size_list_to_set (C := gset node)) by done.
  apply subseteq_size. intros v Hv%elem_of_list_to_set. by apply Hready.
Qed.

(** The loop returns, and lists once each node whose predecessors are all
    listed, after them. *)
Lemma kahn_loop_spec graph s :
  dict_wf graph → kahn_inv graph s →
  ∃ r, while_loop (1 + size (graph_nodes graph)) (kahn_body graph) s = Return r ∧
    NoDup r ∧ topological_order graph r ∧
    ∀ v, v ∈ r ↔ v ∈ graph_nodes graph ∧ pending graph r v = 0.
Proof.
  intros Hwf Hs.
  apply (while_loop_rule
    (λ s, kahn_inv graph s)
    (λ r, NoDup r ∧ topological_order graph r ∧
          ∀ v, v ∈ r ↔ v ∈ graph_nodes graph ∧ pending graph r v = 0)
    (λ s, size (graph_nodes graph) - length s.1.2)); [|done|lia].
  clear s Hs. intros s Hs. pose proof (kahn_body_spec graph s Hwf Hs) as Hb.
  destruct (kahn_body graph s) as [[s'|r]| |]; [|done..].
  destruct Hb as (Hs' & Hlen & Hne). split; [done|].
  apply kahn_inv_length in Hs. destruct (s.1.1); [done|]. simpl in Hs. lia.
Qed.
End kahn_facts.

(** ** Topological sort: the two functions built on the loop *)

Section kahn_functions_facts.
Context `{Countable node}.
Implicit Types (graph : list (node * list node)) (d : list (node * Z)).
Implicit Types (us l r queue order : list node) (u v x c : node).
Import topological_sort cycle_detection.

(** The state in which both functions enter the loop. *)
Lemma kahn_init graph :
  let d0 :=
    foldl (λ in_degree node, dict_set in_degree node 0%Z) [] (dict_keys graph) in
  let d1 :=
    foldl (λ in_degree node,
             foldl (λ in_degree neighbor, defaultdict_add in_degree neighbor 1)
                   in_degree (graph_get graph node)) d0 (dict_keys graph) in
  dict_wf graph →
  dict_wf d1 ∧
  kahn_inv graph
    (filter (λ node, defaultdict_get d1 node = 0%Z) (dict_keys d1), [], d1).
Proof.
  intros d0 d1 Hwf.
  destruct (zero_in_degree_spec (dict_keys graph) []) as (Hwf0 & Hz0 & Hk0);
    [constructor|done|]. fold d0 in Hwf0, Hz0, Hk0.
  destruct (count_in_degree_spec graph (dict_keys graph) d0) as (Hwf1 & Hz1 & Hk1).
  fold d1 in Hwf1, Hz1, Hk1. specialize (Hwf1 Hwf0).
  assert (∀ v, defaultdict_get d1 v = Z.of_nat (pending graph [] v)) as Hp.
  { intros v. rewrite Hz1, Hz0, pending_nil. lia. }
  split; [done|]. constructor; cbn [fst snd app].
  - by apply NoDup_filter.
  - done.
  - intros v. rewrite list_elem_of_filter, Hp, Hk1, Hk0.
    rewrite elem_of_graph_nodes_edge by done. unfold edge.
    assert (v ∉ dict_keys (V:=Z) []) by apply not_elem_of_nil.
    split; intros [Ha Hb].
    + split; [|lia].
      destruct Hb as [[?|?]|(u & _ & Hu)]; [done|by left|right; by exists u].
    + split; [lia|]. destruct Ha as [?|[u Hu]]; [by left; right|]. right.
      exists u. split; [by eapply edge_key|done].
  - intros i j u v Hi. by rewrite lookup_nil in Hi.
Qed.

(** [detect_cycle_using_topology] runs the same loop and counts the nodes
    instead of listing them. *)
Lemma detect_cycle_loop_sim graph fuel queue r d :
  while_loop fuel (detect_cycle_using_topology_body graph) (queue, length r, d)
  = r' ← while_loop fuel (kahn_body graph) (queue, r, d); Return (length r').
Proof.
  revert queue r d. induction fuel as [|fuel IH]; intros queue r d; [done|].
  cbn [while_loop detect_cycle_using_topology_body kahn_body].
  destruct queue as [|c queue]; [done|].
  destruct (foldl release (queue, d) (graph_get graph c)) as [queue' d'].
  rewrite <-IH. by rewrite length_app.
Qed.

Lemma kahn_loop_incl graph fuel queue r d r' :
  while_loop fuel (kahn_body graph) (queue, r, d) = Return r' →
  ∀ x, x ∈ r → x ∈ r'.
Proof.
  revert queue r d. induction fuel as [|fuel IH]; intros queue r d; [done|].
  cbn [while_loop kahn_body]. destruct queue as [|c queue].
  - by intros [= ->].
  - destruct (foldl release (queue, d) (graph_get graph c)) as [queue' d'].
    intros Hrun x Hx. eapply IH; [done|]. set_solver.
Qed.

(** [topological_sort_simple] reads the neighbours with [graph[current]]:
    the same loop as long as the nodes taken are keys. *)
Lemma topological_sort_loop_sim graph fuel queue r d r' :
  while_loop fuel (kahn_body graph) (queue, r, d) = Return r' →
  (∀ x, x ∈ r' → x ∈ dict_keys graph) →
  while_loop fuel (topological_sort_simple_body graph) (queue, r, d) = Return r'.
Proof.
  revert queue r d. induction fuel as [|fuel IH]; intros queue r d; [done|].
  cbn [while_loop kahn_body topological_sort_simple_body].
  destruct queue as [|c queue]; [done|].
  destruct (foldl release (queue, d) (graph_get graph c)) as [queue' d'] eqn:Hrel.
  intros Hrun Hkeys. rewrite graph_lookup_key, bind_Return, Hrel; [by apply IH|].
  eapply Hkeys, kahn_loop_incl; [done|]. set_solver.
Qed.

(** ... and a [KeyError] at the first node taken that is not a key. *)
Lemma topological_sort_loop_raises graph fuel queue r d r' x :
  while_loop fuel (kahn_body graph) (queue, r, d) = Return r' →
  x ∈ r' → x ∉ r → x ∉ dict_keys graph →
  while_loop fuel (topological_sort_simple_body graph) (queue, r, d)
  = Raise KeyError.
Proof.
  revert queue r d. induction fuel as [|fuel IH]; intros queue r d; [done|].
  cbn [while_loop kahn_body topological_sort_simple_body].
  destruct queue as [|c queue]; [by intros [= ->]|].
  destruct (foldl release (queue, d) (graph_get graph c)) as [queue' d'] eqn:Hrel.
  intros Hrun Hx Hxr Hxk. destruct (decide (c ∈ dict_keys graph)) as [Hc|Hc].
  - rewrite graph_lookup_key, bind_Return, Hrel by done.
    apply IH; [done..| |done]. set_solver.
  - by rewrite graph_lookup_not_key.
Qed.

(** *** Graphs without cycles *)

Lemma tc_flip_edge graph u v : tc (flip (edge graph)) u v → tc (edge graph) v u.
Proof.
  induction 1 as [x y Hxy|x y z Hxy _ IH]; [by apply tc_once|].
  eapply tc_r; [exact IH|exact Hxy].
Qed.

Lemma tc_edge_key graph u v : tc (edge graph) u v → u ∈ dict_keys graph.
Proof. destruct 1; by eapply edge_key. Qed.

(** Without cycles, the relation "has an edge to" is well founded. *)
Lemma acyclic_Acc graph v : acyclic graph → Acc (edge graph) v.
Proof.
  intros Hac.
  apply (tc_finite_sn (R := flip (edge graph)) v).
  - intros x Hx%tc_flip_edge. by apply (Hac x).
  - exists (dict_keys graph). intros x Hx%tc_flip_edge. by eapply tc_edge_key.
Qed.

(** Along a topological order that lists every end of an edge once, a path
    only goes forward. *)
Lemma topological_order_tc graph order u v :
  topological_order graph order → NoDup order →
  (∀ x y, edge graph x y → x ∈ order ∧ y ∈ order) →
  tc (edge graph) u v →
  ∃ i j, order !! i = Some u ∧ order !! j = Some v ∧ i < j.
Proof.
  intros Hord Hnd Hin. induction 1 as [x y Hxy|x y z Hxy _ IH].
  - destruct (Hin x y Hxy) as [[i Hi]%list_elem_of_lookup_1 [j Hj]%list_elem_of_lookup_1].
    exists i, j. split_and!; [done..|]. by eapply Hord.
  - destruct IH as (i' & j & Hi' & Hj & Hlt).
    destruct (Hin x y Hxy) as [[i Hi]%list_elem_of_lookup_1 _].
    exists i, j. split_and!; [done..|].
    assert (i < i'); [by eapply Hord|lia].
Qed.

Lemma topological_order_acyclic graph order :
  topological_order graph order → NoDup order →
  (∀ x y, edge graph x y → x ∈ order ∧ y ∈ order) →
  acyclic graph.
Proof.
  intros Hord Hnd Hin v Hv.
  destruct (topological_order_tc graph order v v) as (i & j & Hi & Hj & Hlt);
    [done..|].
  assert (i = j) by (by eapply NoDup_lookup). lia.
Qed.

(** What the loop lists when there is no cycle: every node. *)
Lemma kahn_complete graph r :
  acyclic graph →
  (∀ v, v ∈ r ↔ v ∈ graph_nodes graph ∧ pending graph r v = 0) →
  ∀ v, v ∈ graph_nodes graph → v ∈ r.
Proof.
  intros Hac Hr v. induction (acyclic_Acc graph v Hac) as [v _ IH].
  intros Hv. apply Hr. split; [done|]. apply pending_0. intros u Hu.
  apply IH; [done|]. apply elem_of_graph_nodes. left. by eapply edge_key.
Qed.

Lemma closed_graph_nodes graph v :
  dict_wf graph → neighbours_are_keys graph id →
  v ∈ graph_nodes graph ↔ v ∈ dict_keys graph.
Proof.
  intros Hwf Hcl. rewrite elem_of_graph_nodes_edge by done. split; [|by left].
  intros [?|[u Hu]]; [done|]. apply (Hcl u v Hu).
Qed.

Lemma NoDup_all_length (l k : list node) :
  NoDup l → NoDup k → (∀ x, x ∈ l → x ∈ k) →
  length l = length k ↔ ∀ x, x ∈ k → x ∈ l.
Proof.
  intros Hl Hk Hlk. split.
  - intros Hlen x Hx.
    assert (l ≡ₚ k) as Hp; [|by rewrite Hp].
    apply submseteq_length_Permutation; [by apply NoDup_submseteq|lia].
  - intros Hkl. apply Permutation_length, NoDup_Permutation; [done..|].
    intros x. split; auto.
Qed.

(** Both functions run the loop from the same state, and the loop returns. *)
Lemma kahn_run graph :
  dict_wf graph →
  ∃ queue d r,
    while_loop (1 + size (graph_nodes graph)) (kahn_body graph) (queue, [], d)
      = Return r
    ∧ NoDup r ∧ topological_order graph r
    ∧ (∀ v, v ∈ r ↔ v ∈ graph_nodes graph ∧ pending graph r v = 0)
    ∧ topological_sort_simple graph
      = (result ← while_loop (1 + size (graph_nodes graph))
                    (topological_sort_simple_body graph) (queue, [], d);
         if decide (length result = length graph) then Return (Some result)
         else Return None)
    ∧ detect_cycle_using_topology graph
      = Return (negb (bool_decide (length r = length graph))).
Proof.
  intros Hwf. destruct (kahn_init graph Hwf) as [Hwf1 Hinv].
  destruct (kahn_loop_spec graph _ Hwf Hinv) as (r & Hrun & Hnd & Hord & Hr).
  eexists _, _, r. split_and!; [exact Hrun|done..| |].
  - unfold topological_sort_simple.
    rewrite count_in_degree_for_each by done. rewrite bind_Return.
    by rewrite defaultdict_zero_items.
  - unfold detect_cycle_using_topology.
    rewrite (detect_cycle_loop_sim graph _ _ []), Hrun. done.
Qed.
End kahn_functions_facts.

Section kahn_theorems.
Context `{Countable node}.
Implicit Types (graph : list (node * list node)) (order : list node).
Implicit Types (u v : node).
Import topological_sort cycle_detection.

(** X7. [topological_sort_simple] on a graph whose neighbours are all keys:
    it returns; the result is a list exactly when the graph has no cycle
    ([None] otherwise); the list holds every key once, and every edge goes
    forward in it. *)
Theorem topological_sort_simple_sorts graph :
  dict_wf graph → neighbours_are_keys graph id →
  ∃ res, topological_sort_simple graph = Return res ∧
    (is_Some res ↔ acyclic graph) ∧
    ∀ order, res = Some order →
      order ≡ₚ dict_keys graph ∧ topological_order graph order.
Proof.
  intros Hwf Hcl.
  destruct (kahn_run graph Hwf) as (queue & d & r & Hrun & Hnd & Hord & Hr & -> & _).
  assert (∀ x, x ∈ r → x ∈ dict_keys graph) as Hrk.
  { intros x Hx. apply closed_graph_nodes; [done..|]. by apply Hr. }
  rewrite (topological_sort_loop_sim graph _ _ _ _ r Hrun Hrk), bind_Return.
  pose proof (NoDup_all_length r (dict_keys graph) Hnd Hwf Hrk) as Hlen.
  unfold dict_keys in Hlen at 1. rewrite length_fmap in Hlen.
  destruct (decide (length r = length graph)) as [Heq|Hne].
  - exists (Some r). split; [done|]. split.
    + split; [intros _|by eexists].
      apply (topological_order_acyclic graph r); [done..|].
      intros x y Hxy. split; apply Hlen; [done| |done|].
      * by eapply edge_key.
      * apply (Hcl x y Hxy).
    + intros order [= <-]. split; [|done].
      apply NoDup_Permutation; [done..|]. intros x. split; [auto|by apply Hlen].
  - exists None. split; [done|]. split; [|done]. split; [by intros [? ?]|].
    intros Hac. destruct Hne. apply Hlen. intros x Hx.
    apply (kahn_complete graph r Hac Hr). by apply closed_graph_nodes.
Qed.

(** X8. [topological_sort_simple] on a graph without cycles in which some
    neighbour has no entry of its own: the lookup [graph[current]] raises
    [KeyError] once that neighbour is taken off the queue. *)
Theorem topological_sort_simple_raises_without_entry graph u v :
  dict_wf graph → acyclic graph →
  edge graph u v → v ∉ dict_keys graph →
  topological_sort_simple graph = Raise KeyError.
Proof.
  intros Hwf Hac Huv Hv.
  destruct (kahn_run graph Hwf) as (queue & d & r & Hrun & Hnd & Hord & Hr & -> & _).
  rewrite (topological_sort_loop_raises graph _ _ _ _ r v Hrun); [done| |by apply not_elem_of_nil|done].
  apply (kahn_complete graph r Hac Hr). by eapply edge_graph_nodes.
Qed.

(** X9. [detect_cycle_using_topology] on a graph whose neighbours are all
    keys: it returns, and the answer is [False] exactly when the graph has
    no cycle. *)
Theorem detect_cycle_using_topology_detects graph :
  dict_wf graph → neighbours_are_keys graph id →
  ∃ has_cycle, detect_cycle_using_topology graph = Return has_cycle ∧
    (has_cycle = false ↔ acyclic graph).
Proof.
  intros Hwf Hcl.
  destruct (kahn_run graph Hwf) as (queue & d & r & Hrun & Hnd & Hord & Hr & _ & ->).
  eexists. split; [done|].
  assert (∀ x, x ∈ r → x ∈ dict_keys graph) as Hrk.
  { intros x Hx. apply closed_graph_nodes; [done..|]. by apply Hr. }
  pose proof (NoDup_all_length r (dict_keys graph) Hnd Hwf Hrk) as Hlen.
  unfold dict_keys in Hlen at 1. rewrite length_fmap in Hlen.
  rewrite negb_false_iff, bool_decide_eq_true, Hlen. split.
  - intros Hall. apply (topological_order_acyclic graph r); [done..|].
    intros x y Hxy. split; apply Hall; [by eapply edge_key|apply (Hcl x y Hxy)].
  - intros Hac x Hx. apply (kahn_complete graph r Hac Hr).
    by apply closed_graph_nodes.
Qed.

(** X10. [detect_cycle_using_topology] on a graph without cycles in which
    some neighbour has no entry of its own: that neighbour is counted as
    processed, the count exceeds [len(graph)], and the answer is [True]
    although there is no cycle. *)
Theorem detect_cycle_using_topology_false_alarm graph u v :
  dict_wf graph → acyclic graph →
  edge graph u v → v ∉ dict_keys graph →
  detect_cycle_using_topology graph = Return true.
Proof.
  intros Hwf Hac Huv Hv.
  destruct (kahn_run graph Hwf) as (queue & d & r & Hrun & Hnd & Hord & Hr & _ & ->).
  f_equal. apply negb_true_iff, bool_decide_eq_false. intros Heq.
  pose proof (kahn_complete graph r Hac Hr) as Hall.
  assert (∀ x, x ∈ dict_keys graph → x ∈ r) as Hkr.
  { intros x Hx. apply Hall, elem_of_graph_nodes. by left. }
  pose proof (NoDup_all_length (dict_keys graph) r Hwf Hnd Hkr) as Hlen.
  unfold dict_keys in Hlen at 1. rewrite length_fmap in Hlen.
  apply Hv, Hlen; [done|]. apply Hall. by eapply edge_graph_nodes.
Qed.
End kahn_theorems.

Section kahn_examples.
Import topological_sort cycle_detection.

Lemma acyclic_rank `{Countable node} (graph : list (node * list node))
    (rank : node → nat) :
  Forall (λ entry, Forall (λ v, rank entry.1 < rank v) entry.2) graph →
  acyclic graph.
Proof.
  rewrite Forall_forall. intros Hall.
  assert (∀ u v, edge graph u v → rank u < rank v) as Hrank.
  { intros u v (l & Hl & Hv)%graph_get_elem_of_entry.
    specialize (Hall _ Hl). rewrite Forall_forall in Hall. by apply Hall. }
  assert (∀ x y, tc (edge graph) x y → rank x < rank y) as Htc.
  { induction 1 as [x y Hxy|x y z Hxy _ IH]; [by apply Hrank|].
    specialize (Hrank x y Hxy). lia. }
  intros v Hv. specialize (Htc v v Hv). lia.
Qed.

(** Getting dressed: [1] underwear, [2] trousers, [3] socks, [4] shoes. *)
Definition dressing : list (nat * list nat) :=
  [(1, [2]); (2, [4]); (3, [4]); (4, [])].

(** The same with the entry of the shoes left out. *)
Definition dressing_open : list (nat * list nat) :=
  [(1, [2]); (2, [4]); (3, [4])].

Lemma dressing_wf : dict_wf dressing.
Proof. unfold dict_wf. compute_done. Qed.

Lemma dressing_closed : neighbours_are_keys dressing id.
Proof. apply neighbours_are_keys_check. compute_done. Qed.

Lemma dressing_open_wf : dict_wf dressing_open.
Proof. unfold dict_wf. compute_done. Qed.

Lemma dressing_open_acyclic : acyclic dressing_open.
Proof. apply (acyclic_rank dressing_open id). compute_done. Qed.

Lemma dressing_open_edge : edge dressing_open 2 4.
Proof. vm_compute. set_solver. Qed.

Lemma dressing_open_key : 4 ∉ dict_keys dressing_open.
Proof. vm_compute. set_solver. Qed.

Lemma topological_sort_simple_sorts_witness :
  dict_wf dressing ∧ neighbours_are_keys dressing id ∧
  ∃ res, topological_sort_simple dressing = Return res ∧
    (is_Some res ↔ acyclic dressing) ∧
    ∀ order, res = Some order →
      order ≡ₚ dict_keys dressing ∧ topological_order dressing order.
Proof.
  split; [apply dressing_wf|]. split; [apply dressing_closed|].
  exact (topological_sort_simple_sorts dressing dressing_wf dressing_closed).
Defined.
Lemma topological_sort_simple_raises_without_entry_witness :
  dict_wf dressing_open ∧ acyclic dressing_open ∧
  edge dressing_open 2 4 ∧ 4 ∉ dict_keys dressing_open ∧
  topological_sort_simple dressing_open = Raise KeyError.
Proof.
  split; [apply dressing_open_wf|]. split; [apply dressing_open_acyclic|].
  split; [apply dressing_open_edge|]. split; [apply dressing_open_key|].
  exact (topological_sort_simple_raises_without_entry dressing_open 2 4
           dressing_open_wf dressing_open_acyclic dressing_open_edge
           dressing_open_key).
Defined.

Lemma detect_cycle_using_topology_detects_witness :
  dict_wf dressing ∧ neighbours_are_keys dressing id ∧
  ∃ has_cycle, detect_cycle_using_topology dressing = Return has_cycle ∧
    (has_cycle = false ↔ acyclic dressing).
Proof.
  split; [apply dressing_wf|]. split; [apply dressing_closed|].
  exact (detect_cycle_using_topology_detects dressing dressing_wf dressing_closed).
Defined.

Lemma detect_cycle_using_topology_false_alarm_witness :
  dict_wf dressing_open ∧ acyclic dressing_open ∧
  edge dressing_open 2 4 ∧ 4 ∉ dict_keys dressing_open ∧
  detect_cycle_using_topology dressing_open = Return true.
Proof.
  split; [apply dressing_open_wf|]. split; [apply dressing_open_acyclic|].
  split; [apply dressing_open_edge|]. split; [apply dressing_open_key|].
  exact (detect_cycle_using_topology_false_alarm dressing_open 2 4
           dressing_open_wf dressing_open_acyclic dressing_open_edge
           dressing_open_key).
Defined.

(** What the two functions give on these graphs, and on a cycle. *)
Example dressing_order :
  topological_sort_simple dressing = Return (Some [1; 3; 2; 4]).
Proof. vm_compute. reflexivity. Qed.

Example cycle_has_no_order :
  topological_sort_simple [(1, [2]); (2, [3]); (3, [1])] = Return None
  ∧ detect_cycle_using_topology [(1, [2]); (2, [3]); (3, [1])] = Return true.
Proof. split; vm_compute; reflexivity. Qed.

(** A cycle goes unnoticed when a neighbour without an entry makes up for
    the node that is never processed. *)
Example cycle_missed :
  detect_cycle_using_topology [(1, [1]); (2, [3])] = Return false.
Proof. vm_compute. reflexivity. Qed.
End kahn_examples.

(** ** Union-Find: parent pointers *)

Lemma filter_all {A} (P : A → Prop) `{∀ x, Decision (P x)} (l : list A) :
  Forall P l → filter P l = l.
Proof.
  induction 1 as [|x l Hx _ IH]; [done|].
  by rewrite filter_cons_True, IH.
Qed.

Lemma filter_remove_one {A} (P Q : A → Prop)
    `{∀ x, Decision (P x)} `{∀ x, Decision (Q x)} (l : list A) a :
  NoDup l → a ∈ l → P a → ¬ Q a → (∀ x, x ≠ a → Q x ↔ P x) →
  length (filter P l) = S (length (filter Q l)).
Proof.
  intros Hnd Ha HPa HQa HPQ.
  assert (∀ k : list A, a ∉ k → filter P k = filter Q k) as Hsame.
  { intros k. induction k as [|x k IH]; [done|].
    rewrite not_elem_of_cons. intros [Hne Hk]. rewrite !filter_cons, IH by done.
    destruct (decide (P x)), (decide (Q x)); try done; exfalso; naive_solver. }
  induction Hnd as [|x l Hx Hnd IH]; [by apply elem_of_nil in Ha|].
  rewrite !filter_cons. apply elem_of_cons in Ha as [<-|Ha].
  - rewrite decide_True, decide_False by done. simpl. by rewrite Hsame.
  - assert (x ≠ a) as Hne by congruence. specialize (IH Ha).
    destruct (decide (P x)), (decide (Q x)); simpl; try lia; exfalso; naive_solver.
Qed.

Section root_path_facts.
Context `{Countable node}.
Implicit Types (parent : list (node * node)) (x y r a b : node).
Implicit Types (path : list node).

Lemma root_path_key parent x path r :
  root_path parent x path r → x ∈ dict_keys parent.
Proof. destruct 1; apply dict_get_is_Some; by eexists. Qed.

Lemma root_path_is_root parent x path r :
  root_path parent x path r → dict_get parent r = Some r.
Proof. induction 1; auto. Qed.

Lemma root_path_det parent x path r path' r' :
  root_path parent x path r → root_path parent x path' r' →
  path = path' ∧ r = r'.
Proof.
  intros Hp. revert path' r'.
  induction Hp as [x Hx|x p path r Hx Hne Hp IH]; intros path' r' Hp'.
  - destruct Hp' as [x Hx'|x p' path' r' Hx' Hne' Hp']; [done|congruence].
  - destruct Hp' as [x Hx'|x p' path' r' Hx' Hne' Hp']; [congruence|].
    assert (p' = p) as -> by congruence.
    destruct (IH _ _ Hp') as [-> ->]. done.
Qed.

Lemma root_of_det parent x r r' :
  root_of parent x r → root_of parent x r' → r = r'.
Proof. intros [path Hp] [path' Hp']. by destruct (root_path_det _ _ _ _ _ _ Hp Hp'). Qed.

Lemma root_of_root parent r : dict_get parent r = Some r → root_of parent r r.
Proof. intros Hr. exists []. by constructor. Qed.

Lemma root_of_is_root parent x r : root_of parent x r → dict_get parent r = Some r.
Proof. intros [path Hp]. by eapply root_path_is_root. Qed.

Lemma root_of_key parent x r : root_of parent x r → x ∈ dict_keys parent.
Proof. intros [path Hp]. by eapply root_path_key. Qed.

Lemma root_of_step parent x p r :
  dict_get parent x = Some p → p ≠ x → root_of parent p r → root_of parent x r.
Proof. intros Hx Hne [path Hp]. exists (x :: path). by econstructor. Qed.

(** The nodes of a path have paths of their own, which are its suffixes. *)
Lemma root_path_suffix parent x path r y :
  root_path parent x path r → y ∈ path →
  ∃ path', root_path parent y path' r ∧ length path' ≤ length path.
Proof.
  induction 1 as [x Hx|x p path r Hx Hne Hp IH]; [by intros ?%elem_of_nil|].
  intros [->|Hy]%elem_of_cons.
  - exists (x :: path). split; [by econstructor|done].
  - destruct (IH Hy) as (path' & Hp' & Hlen). exists path'. split; [done|].
    simpl. lia.
Qed.

Lemma root_path_not_root parent x path r y :
  root_path parent x path r → y ∈ path → dict_get parent y ≠ Some y.
Proof.
  induction 1 as [x Hx|x p path r Hx Hne Hp IH]; [by intros ?%elem_of_nil|].
  intros [->|Hy]%elem_of_cons; [congruence|auto].
Qed.

Lemma root_path_NoDup parent x path r :
  root_path parent x path r → NoDup (r :: path).
Proof.
  intros Hp. apply NoDup_cons. split.
  - intros Hr. eapply root_path_not_root; [done..|].
    by eapply root_path_is_root.
  - induction Hp as [x Hx|x p path r Hx Hne Hp IH]; [constructor|].
    apply NoDup_cons. split; [|done]. intros Hin.
    destruct (root_path_suffix _ _ _ _ _ Hp Hin) as (path' & Hp' & Hlen).
    assert (root_path parent x (x :: path) r) as Hp'' by (by econstructor).
    destruct (root_path_det _ _ _ _ _ _ Hp' Hp'') as [-> _]. simpl in Hlen. lia.
Qed.

Lemma root_path_keys parent x path r y :
  root_path parent x path r → y ∈ r :: path → y ∈ dict_keys parent.
Proof.
  intros Hp [->|Hy]%elem_of_cons.
  - apply dict_get_is_Some. rewrite (root_path_is_root _ _ _ _ Hp). by eexists.
  - destruct (root_path_suffix _ _ _ _ _ Hp Hy) as (path' & Hp' & _).
    by eapply root_path_key.
Qed.

(** A path is shorter than the dictionary. *)
Lemma root_path_length parent x path r :
  root_path parent x path r → length path < length parent.
Proof.
  intros Hp.
  assert (length (r :: path) ≤ length (dict_keys parent)) as Hlen.
  { apply submseteq_length, NoDup_submseteq; [by eapply root_path_NoDup|].
    intros y Hy. by eapply root_path_keys. }
  unfold dict_keys in Hlen. rewrite length_fmap in Hlen. simpl in Hlen. lia.
Qed.

(** Path compression: pointing [x] at its root keeps every root. *)
Lemma compress_root_of parent x r y ry :
  root_of parent x r →
  root_of (dict_set parent x r) y ry ↔ root_of parent y ry.
Proof.
  intros Hxr. pose proof (root_of_is_root _ _ _ Hxr) as Hr. split.
  - intros [path Hp].
    induction Hp as [y Hy|y p path ry Hy Hne Hp IH].
    + rewrite dict_get_set in Hy. case_decide; simplify_eq.
      * by apply root_of_root.
      * by apply root_of_root.
    + rewrite dict_get_set in Hy. case_decide; simplify_eq.
      * assert (ry = p) as ->; [|done].
        eapply root_of_det; [exact IH|by apply root_of_root].
      * by eapply root_of_step.
  - intros [path Hp].
    induction Hp as [y Hy|y p path ry Hy Hne Hp IH].
    + apply root_of_root. rewrite dict_get_set. case_decide; [|done].
      subst y. f_equal. eapply root_of_det; [exact Hxr|by apply root_of_root].
    + destruct (decide (x = y)) as [->|Hxy].
      * assert (ry = r) as ->.
        { eapply root_of_det; [|exact Hxr]. eapply root_of_step; [done..|].
          by eexists. }
        destruct (decide (r = y)) as [->|Hry]; [congruence|].
        eapply (root_of_step _ y r); [by rewrite dict_get_set_eq|done|].
        apply root_of_root. by rewrite dict_get_set_ne.
      * eapply (root_of_step _ y p); [by rewrite dict_get_set_ne|done..].
Qed.

(** Linking the root [a] below another root [b] moves the set of [a] to
    [b] and leaves the other sets alone. *)
Lemma link_root_of parent a b y ry :
  dict_get parent a = Some a → dict_get parent b = Some b → a ≠ b →
  root_of (dict_set parent a b) y ry ↔
    (root_of parent y ry ∧ ry ≠ a) ∨ (root_of parent y a ∧ ry = b).
Proof.
  intros Ha Hb Hab. split.
  - intros [path Hp].
    induction Hp as [y Hy|y p path ry Hy Hne Hp IH].
    + rewrite dict_get_set in Hy. case_decide; simplify_eq.
      left. split; [by apply root_of_root|done].
    + rewrite dict_get_set in Hy. case_decide; simplify_eq.
      * right. split; [by apply root_of_root|].
        destruct IH as [[Hpr _]|[_ ->]]; [|done].
        eapply root_of_det; [exact Hpr|by apply root_of_root].
      * destruct IH as [[Hpr ?]|[Hpa ->]].
        -- left. split; [by eapply root_of_step|done].
        -- right. split; [by eapply root_of_step|done].
  - assert (root_of (dict_set parent a b) b b) as Hbb.
    { apply root_of_root. by rewrite dict_get_set_ne. }
    assert (root_of (dict_set parent a b) a b) as Hab'.
    { eapply (root_of_step _ a b); [by rewrite dict_get_set_eq|done..]. }
    assert (∀ r, root_of parent y r →
              root_of (dict_set parent a b) y (if decide (r = a) then b else r))
      as Hgen.
    { intros r [path Hp].
      induction Hp as [y Hy|y p path r Hy Hne Hp IH].
      - case_decide; subst; [done|]. apply root_of_root.
        by rewrite dict_get_set_ne.
      - assert (y ≠ a) as Hya by congruence.
        eapply (root_of_step _ y p); [by rewrite dict_get_set_ne|done..]. }
    intros [[Hy Hne]|[Hy ->]].
    + specialize (Hgen _ Hy). by rewrite decide_False in Hgen.
    + specialize (Hgen _ Hy). by rewrite decide_True in Hgen.
Qed.

Lemma roots_elem_of parent r :
  r ∈ roots parent ↔ dict_get parent r = Some r.
Proof.
  unfold roots. rewrite list_elem_of_filter. split; [tauto|].
  intros Hr. split; [done|]. apply dict_get_is_Some. by eexists.
Qed.

Lemma roots_ext parent parent' :
  dict_keys parent' = dict_keys parent →
  (∀ y, dict_get parent' y = Some y ↔ dict_get parent y = Some y) →
  roots parent' = roots parent.
Proof. intros Hk Hr. unfold roots. rewrite Hk. by apply list_filter_iff. Qed.

End root_path_facts.

(** ** Union-Find: [find] and [union] *)

Section union_find_facts.
Context `{Countable node}.
Import connected_components.
Implicit Types (self : UnionFind (node:=node)) (x y r a b c d : node).
Implicit Types (path : list node).

Lemma root_of_fixed (parent : list (node * node)) y :
  dict_get parent y = Some y ↔ root_of parent y y.
Proof. split; [apply root_of_root|apply root_of_is_root]. Qed.

Lemma find_from_spec fuel self x path r :
  root_path (parent self) x path r → length path < fuel →
  ∃ parent',
    find_from fuel self x
      = Return (mkUnionFind parent' (rank self) (components self), r)
    ∧ dict_keys parent' = dict_keys (parent self)
    ∧ (∀ y ry, root_of parent' y ry ↔ root_of (parent self) y ry)
    ∧ dict_get parent' x = Some r.
Proof.
  intros Hp. revert fuel.
  induction Hp as [x Hx|x p path r Hx Hne Hp IH]; intros fuel Hfuel.
  - destruct fuel as [|fuel]; [simpl in Hfuel; lia|]. exists (parent self).
    assert (dict_lookup (parent self) x = Return x) as Hlk
      by (by apply dict_lookup_Return).
    cbn [find_from]. rewrite Hlk, bind_Return. cbn beta.
    rewrite decide_False by (by intros ?). rewrite bind_Return, Hlk, bind_Return.
    by destruct self.
  - destruct fuel as [|fuel]; [simpl in Hfuel; lia|].
    destruct (IH fuel) as (parent1 & Hrun & Hkeys & Hroots & Hget);
      [simpl in Hfuel; lia|].
    exists (dict_set parent1 x r).
    assert (dict_lookup (parent self) x = Return p) as Hlk
      by (by apply dict_lookup_Return).
    cbn [find_from]. rewrite Hlk, bind_Return. cbn beta.
    rewrite decide_True by done. rewrite bind_Return, Hrun, !bind_Return.
    cbn [parent rank components]. unfold dict_lookup.
    rewrite dict_get_set_eq, bind_Return.
    assert (root_of parent1 x r) as Hxr.
    { apply Hroots. eapply root_of_step; [done..|]. by eexists. }
    split_and!; [done| | |done].
    + rewrite dict_keys_set_in; [done|]. rewrite Hkeys.
      apply dict_get_is_Some. by eexists.
    + intros y ry. by rewrite compress_root_of, Hroots.
Qed.

Lemma uf_inv_ext self parent' :
  uf_inv self →
  dict_keys parent' = dict_keys (parent self) →
  (∀ y ry, root_of parent' y ry ↔ root_of (parent self) y ry) →
  uf_inv (mkUnionFind parent' (rank self) (components self)).
Proof.
  intros [Hwf Hrk Hrooted Hcount] Hkeys Hroots.
  constructor; cbn [parent rank components].
  - unfold dict_wf. by rewrite Hkeys.
  - intros y. by rewrite Hkeys.
  - intros y. rewrite Hkeys. intros [r Hr]%Hrooted. exists r. by apply Hroots.
  - rewrite Hcount. do 2 f_equal. symmetry. apply roots_ext; [done|].
    intros y. by rewrite !root_of_fixed, Hroots.
Qed.

(** [find] on a member: the root comes back, the node now points at it,
    and no node changes its root. *)
Lemma find_spec self x :
  uf_inv self → x ∈ dict_keys (parent self) →
  ∃ parent' r,
    find self x = Return (mkUnionFind parent' (rank self) (components self), r)
    ∧ root_of (parent self) x r
    ∧ dict_get parent' x = Some r
    ∧ dict_keys parent' = dict_keys (parent self)
    ∧ (∀ y ry, root_of parent' y ry ↔ root_of (parent self) y ry)
    ∧ uf_inv (mkUnionFind parent' (rank self) (components self)).
Proof.
  intros Hinv Hx. destruct (uf_rooted _ Hinv x Hx) as (r & path & Hp).
  destruct (find_from_spec (1 + length (parent self)) self x path r Hp)
    as (parent' & Hrun & Hkeys & Hroots & Hget).
  { apply root_path_length in Hp. lia. }
  exists parent', r. split_and!; [done|by eexists|done..|].
  by apply uf_inv_ext.
Qed.

(** What linking one root below another does to the structure. *)
Lemma link_spec self a b rank' :
  uf_inv self →
  dict_get (parent self) a = Some a → dict_get (parent self) b = Some b →
  a ≠ b →
  (∀ x, x ∈ dict_keys rank' ↔ x ∈ dict_keys (rank self)) →
  uf_inv (mkUnionFind (dict_set (parent self) a b) rank' (components self - 1)).
Proof.
  intros [Hwf Hrk Hrooted Hcount] Ha Hb Hab Hrank'.
  assert (a ∈ dict_keys (parent self)) as Hak
    by (apply dict_get_is_Some; by eexists).
  constructor; cbn [parent rank components].
  - by apply dict_wf_set.
  - intros y. by rewrite Hrank', Hrk, dict_keys_set_in.
  - intros y. rewrite dict_keys_set_in by done. intros [r Hr]%Hrooted.
    exists (if decide (r = a) then b else r). apply link_root_of; [done..|].
    case_decide; subst; [by right|by left].
  - rewrite Hcount. unfold roots. rewrite dict_keys_set_in by done.
    rewrite (filter_remove_one
               (λ x, dict_get (parent self) x = Some x)
               (λ x, dict_get (dict_set (parent self) a b) x = Some x)
               (dict_keys (parent self)) a); [lia|done..| |].
    + rewrite dict_get_set_eq. congruence.
    + intros z Hz. by rewrite dict_get_set_ne.
Qed.

Lemma link_same_set (parent : list (node * node)) a b c d :
  dict_get parent a = Some a → dict_get parent b = Some b → a ≠ b →
  (∃ r, root_of (dict_set parent a b) c r ∧ root_of (dict_set parent a b) d r)
  ↔ (∃ r, root_of parent c r ∧ root_of parent d r)
    ∨ (root_of parent c a ∧ root_of parent d b)
    ∨ (root_of parent c b ∧ root_of parent d a).
Proof.
  intros Ha Hb Hab. setoid_rewrite link_root_of; [|done..]. split.
  - intros (r & [[Hc Hca]|[Hc ->]] & [[Hd Hda]|[Hd Hdb]]); subst; eauto.
  - intros [(r & Hc & Hd)|[[Hc Hd]|[Hc Hd]]].
    + destruct (decide (r = a)) as [->|Hne].
      * exists b. split; by right.
      * exists r. split; by left.
    + exists b. split; [by right|left; split; [done|congruence]].
    + exists b. split; [left; split; [done|congruence]|by right].
Qed.


Lemma dict_get_diagonal {V} (f : node → V) (l : list node) x :
  dict_get ((λ n, (n, f n)) <$> l) x = if decide (x ∈ l) then Some (f x) else None.
Proof.
  induction l as [|y l IH]; [done|]. rewrite fmap_cons. cbn [dict_get].
  rewrite IH. destruct (decide (x = y)) as [->|Hne].
  - by rewrite decide_True by left.
  - destruct (decide (x ∈ l)).
    + by rewrite decide_True by (by right).
    + by rewrite decide_False by (rewrite elem_of_cons; tauto).
Qed.

Lemma dict_keys_diagonal {V} (f : node → V) (l : list node) :
  dict_keys ((λ n, (n, f n)) <$> l) = l.
Proof.
  unfold dict_keys. rewrite <-list_fmap_compose.
  rewrite <-(list_fmap_id l) at 2. by apply list_fmap_ext.
Qed.

Lemma uf_init_inv (nodes : gset node) : uf_inv (init nodes).
Proof.
  unfold init. constructor; cbn [parent rank components].
  - unfold dict_wf. rewrite dict_keys_diagonal. apply NoDup_elements.
  - intros x. by rewrite !dict_keys_diagonal.
  - intros x. rewrite dict_keys_diagonal. intros Hx. exists x.
    apply root_of_root. by rewrite dict_get_diagonal, decide_True.
  - unfold roots. rewrite dict_keys_diagonal. f_equal. unfold size, set_size.
    simpl. f_equal. symmetry. apply filter_all.
    apply Forall_forall. intros x Hx. by rewrite dict_get_diagonal, decide_True.
Qed.

Lemma union_same_spec self x y :
  uf_inv self → same_set self x y →
  ∃ self', union self x y = Return (self', false) ∧
    rank self' = rank self ∧ components self' = components self ∧
    (∀ a r, root_of (parent self') a r ↔ root_of (parent self) a r) ∧
    uf_inv self'.
Proof.
  intros Hinv (r & Hx & Hy).
  destruct (find_spec self x Hinv (root_of_key _ _ _ Hx))
    as (parent1 & r1 & Hrun1 & Hr1 & _ & Hkeys1 & Hroots1 & Hinv1).
  set (self1 := mkUnionFind parent1 (rank self) (components self)) in *.
  destruct (find_spec self1 y Hinv1)
    as (parent2 & r2 & Hrun2 & Hr2 & _ & Hkeys2 & Hroots2 & Hinv2).
  { cbn [parent self1]. rewrite Hkeys1. by eapply root_of_key. }
  cbn [parent rank components self1] in *.
  assert (r1 = r) as -> by (by eapply root_of_det).
  assert (r2 = r) as -> by (eapply root_of_det; [exact Hr2|by apply Hroots1]).
  eexists. unfold union. rewrite Hrun1, bind_Return. cbn beta iota.
  rewrite Hrun2, bind_Return. cbn beta iota.
  rewrite decide_False by (by intros ?). split_and!; [done..| |done].
  cbn [parent]. intros a ra. by rewrite Hroots2, Hroots1.
Qed.

Lemma union_different_spec self x y :
  uf_inv self →
  x ∈ dict_keys (parent self) → y ∈ dict_keys (parent self) →
  ¬ same_set self x y →
  ∃ self', union self x y = Return (self', true) ∧
    components self' = (components self - 1)%Z ∧
    (∀ a b, same_set self' a b ↔
       same_set self a b
       ∨ (same_set self a x ∧ same_set self y b)
       ∨ (same_set self a y ∧ same_set self x b)) ∧
    uf_inv self'.
Proof.
  intros Hinv Hx Hy Hxy.
  destruct (find_spec self x Hinv Hx)
    as (parent1 & r1 & Hrun1 & Hr1 & _ & Hkeys1 & Hroots1 & Hinv1).
  set (self1 := mkUnionFind parent1 (rank self) (components self)) in *.
  destruct (find_spec self1 y Hinv1)
    as (parent2 & r2 & Hrun2 & Hr2 & _ & Hkeys2 & Hroots2 & Hinv2).
  { cbn [parent self1]. by rewrite Hkeys1. }
  cbn [parent rank components self1] in *.
  pose (self2 := mkUnionFind parent2 (rank self) (components self)).
  assert (∀ a r, root_of parent2 a r ↔ root_of (parent self) a r) as Hroots.
  { intros a r. by rewrite Hroots2, Hroots1. }
  apply Hroots1 in Hr2.
  assert (r1 ≠ r2) as Hne.
  { intros ->. apply Hxy. by exists r2. }
  assert (dict_get parent2 r1 = Some r1) as Hroot1.
  { apply root_of_fixed, Hroots, root_of_fixed. by eapply root_of_is_root. }
  assert (dict_get parent2 r2 = Some r2) as Hroot2.
  { apply root_of_fixed, Hroots, root_of_fixed. by eapply root_of_is_root. }
  assert (∀ r, dict_get parent2 r = Some r →
            ∃ k, dict_lookup (rank self) r = Return k) as Hrank.
  { intros r Hr. assert (r ∈ dict_keys (rank self)) as Hk.
    { apply (uf_rank_keys _ Hinv2). cbn [parent].
      apply dict_get_is_Some. by eexists. }
    apply dict_get_is_Some in Hk as [k Hk]. exists k.
    by apply dict_lookup_Return. }
  destruct (Hrank r1 Hroot1) as [k1 Hk1]. destruct (Hrank r2 Hroot2) as [k2 Hk2].
  assert (∀ a, same_set self a x ↔ root_of parent2 a r1) as Hsx.
  { intros a. rewrite Hroots. split.
    - intros (r & Ha & Hxr). by rewrite (root_of_det _ _ _ _ Hr1 Hxr).
    - intros Ha. by exists r1. }
  assert (∀ a, same_set self a y ↔ root_of parent2 a r2) as Hsy.
  { intros a. rewrite Hroots. split.
    - intros (r & Ha & Hyr). by rewrite (root_of_det _ _ _ _ Hr2 Hyr).
    - intros Ha. by exists r2. }
  assert (∀ a b, same_set self a b ↔ same_set self b a) as Hsym.
  { intros a b. unfold same_set. naive_solver. }
  assert (∀ a b, same_set self a b ↔ ∃ r, root_of parent2 a r ∧ root_of parent2 b r)
    as Hsame.
  { intros a b. unfold same_set. by setoid_rewrite Hroots. }
  unfold union. rewrite Hrun1, bind_Return. cbn beta iota.
  rewrite Hrun2, bind_Return. cbn beta iota.
  rewrite decide_True by done. cbn [parent rank components].
  rewrite Hk1, bind_Return, Hk2, bind_Return.
  cbn beta. eexists. split; [done|].
  destruct (k1 <? k2)%Z; [|destruct (k1 >? k2)%Z]; cbn [parent rank components].
  - split; [done|]. split.
    + intros a b. unfold same_set at 1. cbn [parent].
      rewrite (link_same_set parent2 r1 r2) by done.
      rewrite <-Hsame, <-!Hsx, <-!Hsy, (Hsym y b), (Hsym x b). tauto.
    + by apply (link_spec self2 r1 r2 (rank self) Hinv2).
  - split; [done|]. split.
    + intros a b. unfold same_set at 1. cbn [parent].
      rewrite (link_same_set parent2 r2 r1) by done.
      rewrite <-Hsame, <-!Hsx, <-!Hsy, (Hsym y b), (Hsym x b). tauto.
    + by apply (link_spec self2 r2 r1 (rank self) Hinv2).
  - split; [done|]. split.
    + intros a b. unfold same_set at 1. cbn [parent].
      rewrite (link_same_set parent2 r2 r1) by done.
      rewrite <-Hsame, <-!Hsx, <-!Hsy, (Hsym y b), (Hsym x b). tauto.
    + apply (link_spec self2 r2 r1 _ Hinv2); [done..|]. intros z.
      rewrite dict_elem_of_keys_set. cbn [rank self2]. split; [|auto].
      intros [->|?]; [|done]. apply dict_get_is_Some.
      apply dict_lookup_Return in Hk1. by eexists.
Qed.

End union_find_facts.

Section union_find_theorems.
Context `{Countable node}.
Import connected_components.
Implicit Types (self : UnionFind (node:=node)) (x y r a b : node).

(** X11. [find] on a node of a well-formed structure returns the root of
    the node; afterwards the node points directly at that root (path
    compression), while the ranks, the number of components and the root of
    every node are as before. *)
Theorem find_returns_the_root self x :
  uf_inv self → x ∈ dict_keys (parent self) →
  ∃ self' r, find self x = Return (self', r) ∧
    root_of (parent self) x r ∧
    dict_get (parent self') x = Some r ∧
    rank self' = rank self ∧ components self' = components self ∧
    (∀ y ry, root_of (parent self') y ry ↔ root_of (parent self) y ry) ∧
    uf_inv self'.
Proof.
  intros Hinv Hx.
  destruct (find_spec self x Hinv Hx)
    as (parent' & r & Hrun & Hr & Hget & Hkeys & Hroots & Hinv').
  eexists _, r. by split_and!.
Qed.

(** X12. [union] of two nodes that are in the same set returns [False];
    the ranks, the number of components and the root of every node are as
    before. *)
Theorem union_within_a_set self x y :
  uf_inv self → same_set self x y →
  ∃ self', union self x y = Return (self', false) ∧
    rank self' = rank self ∧ components self' = components self ∧
    (∀ a r, root_of (parent self') a r ↔ root_of (parent self) a r) ∧
    uf_inv self'.
Proof. apply union_same_spec. Qed.

(** X13. [union] of two nodes that are in different sets returns [True],
    takes one off the number of components, and merges the two sets: two
    nodes are in the same set afterwards exactly when they were before or
    one was with the first node and the other with the second. *)
Theorem union_of_two_sets self x y :
  uf_inv self →
  x ∈ dict_keys (parent self) → y ∈ dict_keys (parent self) →
  ¬ same_set self x y →
  ∃ self', union self x y = Return (self', true) ∧
    components self' = (components self - 1)%Z ∧
    (∀ a b, same_set self' a b ↔
       same_set self a b
       ∨ (same_set self a x ∧ same_set self y b)
       ∨ (same_set self a y ∧ same_set self x b)) ∧
    uf_inv self'.
Proof. apply union_different_spec. Qed.

End union_find_theorems.

Section union_find_examples.
Import connected_components.

(** Three nodes in one set, as a chain [1 -> 2 -> 3]. *)
Definition chain : UnionFind (node:=nat) :=
  mkUnionFind [(1, 2); (2, 3); (3, 3)] [(1, 0%Z); (2, 0%Z); (3, 1%Z)] 1.

Lemma chain_root x : x ∈ dict_keys (parent chain) → root_of (parent chain) x 3.
Proof.
  assert (root_of (parent chain) 3 3) as H3 by (by apply root_of_root).
  assert (root_of (parent chain) 2 3) as H2 by (by eapply (root_of_step _ 2 3)).
  assert (root_of (parent chain) 1 3) as H1 by (by eapply (root_of_step _ 1 2)).
  cbn. rewrite !elem_of_cons, elem_of_nil. intros [->|[->|[->|[]]]]; done.
Qed.

Lemma chain_inv : uf_inv chain.
Proof.
  constructor.
  - unfold dict_wf. compute_done.
  - done.
  - intros x Hx. exists 3. by apply chain_root.
  - done.
Qed.

Lemma chain_key_1 : 1 ∈ dict_keys (parent chain).
Proof. cbn. set_solver. Qed.

Lemma chain_same_set : same_set chain 1 2.
Proof. exists 3. split; apply chain_root; cbn; set_solver. Qed.

(** Three nodes, each on its own. *)
Definition singletons : UnionFind (node:=nat) := init {[1; 2; 3]}.

Lemma singletons_key x : x ∈ [1; 2; 3] → x ∈ dict_keys (parent singletons).
Proof.
  intros Hx. unfold singletons, init. cbn [parent].
  rewrite (dict_keys_diagonal (λ n, n)). apply elem_of_elements.
  rewrite !elem_of_cons, elem_of_nil in Hx. set_solver.
Qed.

Lemma singletons_different : ¬ same_set singletons 1 2.
Proof.
  intros (r & H1 & H2).
  assert (∀ x, x ∈ [1; 2; 3] → root_of (parent singletons) x x) as Hroot.
  { intros x Hx. apply root_of_root. unfold singletons, init. cbn [parent].
    rewrite (dict_get_diagonal (λ n, n)), decide_True; [done|].
    apply elem_of_elements. rewrite !elem_of_cons, elem_of_nil in Hx.
    set_solver. }
  assert (r = 1) by (eapply root_of_det; [exact H1|apply Hroot; set_solver]).
  assert (r = 2) by (eapply root_of_det; [exact H2|apply Hroot; set_solver]).
  congruence.
Qed.

Lemma find_returns_the_root_witness :
  uf_inv chain ∧ 1 ∈ dict_keys (parent chain) ∧
  ∃ self' r, find chain 1 = Return (self', r) ∧
    root_of (parent chain) 1 r ∧
    dict_get (parent self') 1 = Some r ∧
    rank self' = rank chain ∧ components self' = components chain ∧
    (∀ y ry, root_of (parent self') y ry ↔ root_of (parent chain) y ry) ∧
    uf_inv self'.
Proof.
  split; [apply chain_inv|]. split; [apply chain_key_1|].
  exact (find_returns_the_root chain 1 chain_inv chain_key_1).
Defined.

Lemma union_within_a_set_witness :
  uf_inv chain ∧ same_set chain 1 2 ∧
  ∃ self', union chain 1 2 = Return (self', false) ∧
    rank self' = rank chain ∧ components self' = components chain ∧
    (∀ a r, root_of (parent self') a r ↔ root_of (parent chain) a r) ∧
    uf_inv self'.
Proof.
  split; [apply chain_inv|]. split; [apply chain_same_set|].
  exact (union_within_a_set chain 1 2 chain_inv chain_same_set).
Defined.

Lemma union_of_two_sets_witness :
  uf_inv singletons ∧
  1 ∈ dict_keys (parent singletons) ∧ 2 ∈ dict_keys (parent singletons) ∧
  ¬ same_set singletons 1 2 ∧
  ∃ self', union singletons 1 2 = Return (self', true) ∧
    components self' = (components singletons - 1)%Z ∧
    (∀ a b, same_set self' a b ↔
       same_set singletons a b
       ∨ (same_set singletons a 1 ∧ same_set singletons 2 b)
       ∨ (same_set singletons a 2 ∧ same_set singletons 1 b)) ∧
    uf_inv self'.
Proof.
  assert (H1 : 1 ∈ dict_keys (parent singletons)) by (apply singletons_key; set_solver).
  assert (H2 : 2 ∈ dict_keys (parent singletons)) by (apply singletons_key; set_solver).
  split; [apply uf_init_inv|]. split; [exact H1|]. split; [exact H2|].
  split; [apply singletons_different|].
  exact (union_of_two_sets singletons 1 2 (uf_init_inv _) H1 H2 singletons_different).
Defined.


(** [union] of two nodes of one set returns [False], yet the path
    compression of its [find] calls rewrites the parent dictionary: after
    [union(2, 1)], [union(4, 3)] and [union(2, 4)] the parent of [3] is [4],
    and [union(3, 1)] makes it [2]. *)
Example union_within_a_set_compresses :
  ∃ before after,
    (let s0 := init ({[1; 2; 3; 4]} : gset nat) in
     '(s1, _) ← union s0 2 1;
     '(s2, _) ← union s1 4 3;
     '(s3, _) ← union s2 2 4;
     '(s4, merged) ← union s3 3 1;
     Return (s3, s4, merged)) = Return (before, after, false)
    ∧ dict_get (parent before) 3 = Some 4
    ∧ dict_get (parent after) 3 = Some 2.
Proof. eexists _, _. split; [vm_compute; reflexivity|]. split; reflexivity. Qed.
End union_find_examples.

(** ** Connected components by depth-first search *)

Section runtime_sorted_facts.
Context {A : Type}.

Lemma sorted_Permutation (ltb : A → A → bool) (l : list A) : sorted ltb l ≡ₚ l.
Proof. apply merge_sort_Permutation. Qed.

Lemma elem_of_sorted (ltb : A → A → bool) (l : list A) x : x ∈ sorted ltb l ↔ x ∈ l.
Proof. by rewrite sorted_Permutation. Qed.

Lemma NoDup_sorted (ltb : A → A → bool) (l : list A) : NoDup (sorted ltb l) ↔ NoDup l.
Proof. by rewrite sorted_Permutation. Qed.
End runtime_sorted_facts.

Section connected_facts.
Context `{Countable node}.
Implicit Types (graph : list (node * list node)) (x y u v : node).

Lemma connected_sym graph x y : connected graph x y → connected graph y x.
Proof.
  induction 1 as [x|x y z Hxy _ IH]; [apply rtc_refl|].
  eapply rtc_r; [exact IH|]. by apply sc_symmetric.
Qed.

Lemma connected_trans graph x y z :
  connected graph x y → connected graph y z → connected graph x z.
Proof. unfold connected. intros. by etrans. Qed.

Lemma reachable_connected graph x y : reachable graph x y → connected graph x y.
Proof. apply rtc_subrel. intros a b Hab. by left. Qed.

Lemma symmetric_connected graph x y :
  symmetric_graph graph → connected graph x y ↔ reachable graph x y.
Proof.
  intros Hsym. split; [|apply reachable_connected].
  induction 1 as [x|x y z [Hxy|Hyx] _ IH]; [apply rtc_refl|..].
  - by eapply rtc_l.
  - eapply rtc_l; [|exact IH]. by apply Hsym.
Qed.

Lemma connected_graph_nodes graph x y :
  dict_wf graph → connected graph x y → x ∈ graph_nodes graph → y ∈ graph_nodes graph.
Proof.
  intros Hwf. induction 1 as [x|x y z [Hxy|Hyx] _ IH]; [done|..]; intros Hx; apply IH.
  - by eapply edge_graph_nodes.
  - apply elem_of_graph_nodes. left. by eapply edge_key.
Qed.
End connected_facts.

Section dfs_component_facts.
Context `{Countable node}.
Import connected_components.
Implicit Types (graph : list (node * list node)) (visited : gset node).
Implicit Types (x y s t n : node) (comp new : list node).

Lemma dfs_component_spec graph (U : gset node) fuel :
  (∀ x y, edge graph x y → y ∈ U) →
  ∀ n visited comp,
    n ∈ U → n ∉ visited → size (U ∖ visited) ≤ fuel →
    ∃ visited' new,
      dfs_component fuel graph n (visited, comp) = Return (visited', comp ++ new)
      ∧ dfs_call_post graph n visited visited'
      ∧ NoDup new ∧ (∀ x, x ∈ new ↔ x ∈ visited' ∧ x ∉ visited).
Proof.
  intros HU. induction fuel as [|fuel IH]; intros n visited comp Hn Hnv Hsize.
  { assert (size (U ∖ visited) ≠ 0); [|lia].
    apply size_non_empty_iff. set_solver. }
  cbn [dfs_component].
  set (body := λ neighbor (st : gset node * list node),
         if decide (neighbor ∈ st.1) then Return st
         else dfs_component fuel graph neighbor st).
  assert (Hloop : ∀ l v1 c1,
    {[n]} ∪ visited ⊆ v1 → (∀ x, x ∈ l → edge graph n x) →
    ∃ v2 new, for_each l body (v1, c1) = Return (v2, c1 ++ new)
      ∧ v1 ⊆ v2 ∧ (∀ x, x ∈ l → x ∈ v2)
      ∧ (∀ x, x ∈ v2 → x ∈ v1 ∨ reachable graph n x)
      ∧ (∀ x y, x ∈ v2 → x ∉ v1 → edge graph x y → y ∈ v2)
      ∧ NoDup new ∧ (∀ x, x ∈ new ↔ x ∈ v2 ∧ x ∉ v1)).
  { induction l as [|nb l IHl]; intros v1 c1 Hv1 Hl.
    { exists v1, []. rewrite app_nil_r.
      split_and!; [done|done|set_solver|auto|done|constructor|set_solver]. }
    rewrite for_each_cons. destruct (decide (nb ∈ v1)) as [Hnb|Hnb].
    - assert (body nb (v1, c1) = Return (v1, c1)) as ->
        by (unfold body; cbn [fst]; by rewrite decide_True).
      rewrite bind_Return.
      destruct (IHl v1 c1) as (v2 & new & -> & Hsub & Hin & Hre & Hcl & Hnd & Hnew);
        [done|set_solver|].
      exists v2, new. split_and!; [done|done| |done|done|done|done].
      intros x [->|?]%elem_of_cons; auto.
    - assert (body nb (v1, c1) = dfs_component fuel graph nb (v1, c1)) as ->
        by (unfold body; cbn [fst]; by rewrite decide_False).
      destruct (IH nb v1 c1)
        as (v1' & new1 & -> & (Hsub1 & Hnb1 & Hre1 & Hcl1) & Hnd1 & Hnew1).
      { eapply HU, Hl. left. }
      { done. }
      { rewrite (size_difference_insert U visited n) in Hsize by done.
        assert (size (U ∖ v1) ≤ size (U ∖ ({[n]} ∪ visited))); [|lia].
        apply subseteq_size. set_solver. }
      rewrite bind_Return.
      destruct (IHl v1' (c1 ++ new1))
        as (v2 & new2 & -> & Hsub & Hin & Hre & Hcl & Hnd2 & Hnew2);
        [set_solver|set_solver|].
      exists v2, (new1 ++ new2). rewrite app_assoc.
      split_and!; [done|set_solver| | | | |].
      + intros x [->|?]%elem_of_cons; auto.
      + intros x [Hx|?]%Hre; [|by right].
        apply Hre1 in Hx as [?|Hx]; [by left|]. right.
        eapply rtc_l; [|exact Hx]. apply Hl. left.
      + intros x y Hx Hxv1 Hxy. destruct (decide (x ∈ v1')); eauto.
      + apply NoDup_app. split_and!; [done| |done].
        intros x [Hx1 _]%Hnew1 [_ Hx2]%Hnew2. done.
      + intros x. rewrite elem_of_app, Hnew1, Hnew2.
        destruct (decide (x ∈ v1')); set_solver. }
  destruct (Hloop (graph_get graph n) ({[n]} ∪ visited) (comp ++ [n]))
    as (v2 & new & -> & Hsub & Hin & Hre & Hcl & Hnd & Hnew); [done|done|].
  exists v2, (n :: new). rewrite <-app_assoc. split; [done|]. split; [split_and!|split].
  - set_solver.
  - set_solver.
  - intros x [[->%elem_of_singleton|?]%elem_of_union|?]%Hre; auto.
    right. apply rtc_refl.
  - intros x y Hx Hxv Hxy. destruct (decide (x = n)) as [->|Hne]; [by apply Hin|].
    eapply Hcl; [done| |done]. set_solver.
  - apply NoDup_cons. split; [|done]. rewrite Hnew. set_solver.
  - intros x. rewrite elem_of_cons, Hnew. destruct (decide (x = n)); set_solver.
Qed.
End dfs_component_facts.

(** ** Connected components: the loop over the keys *)

Section sweep_facts.
Context `{Countable node}.
Implicit Types (graph : list (node * list node)) (visited : gset node).
Implicit Types (x y s t n : node) (c : list node) (comps : list (list node)).

(** What the loop over the keys has after some of them. *)
Record sweep_inv graph (done : list node) visited comps : Prop := {
  sweep_closed : ∀ x y, x ∈ visited → edge graph x y → y ∈ visited;
  sweep_visited : ∀ x, x ∈ visited ↔ ∃ c, c ∈ comps ∧ x ∈ c;
  sweep_class : ∀ c x y, c ∈ comps → x ∈ c → (y ∈ c ↔ reachable graph x y);
  sweep_NoDup : ∀ c, c ∈ comps → NoDup c;
  sweep_nonempty : ∀ c, c ∈ comps → c ≠ [];
  sweep_apart : ∀ i j c c' x,
    comps !! i = Some c → comps !! j = Some c' → x ∈ c → x ∈ c' → i = j;
  sweep_done : ∀ x, x ∈ done → x ∈ visited;
  sweep_nodes : ∀ x, x ∈ visited → x ∈ graph_nodes graph
}.

Lemma reachable_sym graph x y :
  symmetric_graph graph → reachable graph x y → reachable graph y x.
Proof.
  intros Hsym. induction 1 as [x|x y z Hxy _ IH]; [apply rtc_refl|].
  eapply rtc_r; [exact IH|]. by apply Hsym.
Qed.

Lemma reachable_graph_nodes graph x y :
  reachable graph x y → x ∈ graph_nodes graph → y ∈ graph_nodes graph.
Proof.
  intros Hxy Hx. apply (reachable_closed graph (λ y, y ∈ graph_nodes graph) x y);
    [done| |done].
  intros a b _ Hab. by eapply edge_graph_nodes.
Qed.

(** One more component: what the search from an unvisited key adds. *)
Lemma sweep_inv_step graph done visited comps n visited' c :
  symmetric_graph graph →
  sweep_inv graph done visited comps →
  n ∈ dict_keys graph → n ∉ visited →
  dfs_call_post graph n visited visited' →
  NoDup c → (∀ x, x ∈ c ↔ x ∈ visited' ∧ x ∉ visited) →
  sweep_inv graph (done ++ [n]) visited' (comps ++ [c]).
Proof.
  intros Hsym [Hclosed Hvis Hclass Hnd Hne Hapart Hdone Hnodes] Hn Hnv
    (Hsub & Hnv' & Hre & Hcl) Hc Hcin.
  assert (∀ x, reachable graph n x → x ∉ visited) as HA.
  { intros x Hx Hxv. apply Hnv.
    apply (reachable_closed graph (λ y, y ∈ visited) x n); [done..|].
    by apply reachable_sym. }
  assert (∀ x, reachable graph n x → x ∈ visited') as HB.
  { intros x Hx.
    apply (reachable_closed graph (λ y, reachable graph n y ∧ y ∈ visited') n x);
      [split; [apply rtc_refl|done]| |done].
    intros a b [Ha Hav] Hab. split; [by eapply reachable_step|].
    eapply Hcl; [done|by apply HA|done]. }
  assert (∀ x, x ∈ c ↔ reachable graph n x) as Hc'.
  { intros x. rewrite Hcin. split; [|by auto].
    intros [Hx Hxv]. by destruct (Hre x Hx). }
  constructor.
  - intros x y Hx Hxy. destruct (decide (x ∈ visited)) as [Hxv|Hxv].
    + apply Hsub. by eapply Hclosed.
    + by eapply Hcl.
  - intros x. setoid_rewrite elem_of_app. setoid_rewrite list_elem_of_singleton.
    split.
    + intros Hx. destruct (decide (x ∈ visited)) as [Hxv|Hxv].
      * apply Hvis in Hxv as (c0 & Hc0 & Hx0). exists c0. auto.
      * exists c. split; [by right|]. by apply Hcin.
    + intros (c0 & [Hc0| ->] & Hx).
      * apply Hsub, Hvis. by exists c0.
      * by apply Hcin in Hx as [? _].
  - intros c0 x y [Hc0| ->%list_elem_of_singleton]%elem_of_app Hx.
    + by apply Hclass.
    + rewrite !Hc' in *. apply (reachable_sym _ _ _ Hsym) in Hx as Hxn.
      unfold reachable in *. split.
      * intros Hy. by etrans.
      * intros Hxy. by etrans.
  - intros c0 [Hc0| ->%list_elem_of_singleton]%elem_of_app; auto.
  - intros c0 [Hc0| ->%list_elem_of_singleton]%elem_of_app; [auto|].
    intros ->. assert (n ∈ @nil node) as Hin by (apply Hc'; apply rtc_refl).
    by apply elem_of_nil in Hin.
  - intros i j c1 c2 x Hi Hj Hx1 Hx2.
    apply lookup_app_Some in Hi as [Hi|[Hil Hi]];
      apply lookup_app_Some in Hj as [Hj|[Hjl Hj]].
    + by eapply Hapart.
    + apply list_lookup_singleton_Some in Hj as [_ <-].
      apply Hcin in Hx2 as [_ []]. apply Hvis. exists c1.
      split; [by eapply list_elem_of_lookup_2|done].
    + apply list_lookup_singleton_Some in Hi as [_ <-].
      apply Hcin in Hx1 as [_ []]. apply Hvis. exists c2.
      split; [by eapply list_elem_of_lookup_2|done].
    + apply list_lookup_singleton_Some in Hi as [Hi _].
      apply list_lookup_singleton_Some in Hj as [Hj _]. lia.
  - intros x [Hx| ->%list_elem_of_singleton]%elem_of_app; [|done].
    by apply Hsub, Hdone.
  - intros x Hx. destruct (Hre x Hx) as [Hxv|Hxr]; [by apply Hnodes|].
    eapply reachable_graph_nodes; [done|]. apply elem_of_graph_nodes. by left.
Qed.

Lemma sweep_inv_skip graph done visited comps n :
  sweep_inv graph done visited comps → n ∈ visited →
  sweep_inv graph (done ++ [n]) visited comps.
Proof.
  intros [Hclosed Hvis Hclass Hnd Hne Hapart Hdone Hnodes] Hn.
  constructor; [done..| |done].
  intros x [Hx| ->%list_elem_of_singleton]%elem_of_app; auto.
Qed.

Lemma sweep_inv_init graph : sweep_inv graph [] ∅ [].
Proof.
  constructor; set_solver.
Qed.

Lemma sweep_inv_components graph visited comps :
  dict_wf graph → symmetric_graph graph →
  sweep_inv graph (dict_keys graph) visited comps →
  components_of graph comps.
Proof.
  intros Hwf Hsym [Hclosed Hvis Hclass Hnd Hne Hapart Hdone Hnodes]. constructor.
  - intros c x Hc Hx. apply Hnodes, Hvis. by exists c.
  - intros c x y Hc Hx. rewrite symmetric_connected by done. by apply Hclass.
  - done.
  - done.
  - intros x Hx. apply Hvis.
    apply elem_of_graph_nodes_edge in Hx as [Hx|[u Hu]]; [by apply Hdone| |done].
    eapply Hclosed; [|done]. apply Hdone. by eapply edge_key.
  - done.
Qed.

(** The loop over the keys, for any search that meets the contract of
    [dfs_component]. *)
Lemma sweep_spec graph
    (explore : node → gset node → result (gset node * list node)) :
  dict_wf graph → symmetric_graph graph →
  (∀ n visited, n ∈ dict_keys graph → n ∉ visited →
     (∀ x, x ∈ visited → x ∈ graph_nodes graph) →
     ∃ visited' c, explore n visited = Return (visited', c)
       ∧ dfs_call_post graph n visited visited'
       ∧ NoDup c ∧ (∀ x, x ∈ c ↔ x ∈ visited' ∧ x ∉ visited)) →
  ∃ visited comps,
    for_each (dict_keys graph)
      (λ n '(visited, components),
         if decide (n ∈ visited) then Return (visited, components)
         else
           '(visited, component) ← explore n visited;
           Return (visited, components ++ [component]))
      (∅, []) = Return (visited, comps)
    ∧ components_of graph comps.
Proof.
  intros Hwf Hsym Hexplore.
  set (body := λ n '(visited, components),
         if decide (n ∈ visited) then Return (visited, components)
         else
           '(visited, component) ← explore n visited;
           Return (visited, components ++ [component])).
  assert (∀ todo done visited comps,
    done ++ todo = dict_keys graph → sweep_inv graph done visited comps →
    ∃ visited' comps',
      for_each todo body (visited, comps) = Return (visited', comps')
      ∧ sweep_inv graph (dict_keys graph) visited' comps') as Hloop.
  { induction todo as [|n todo IH]; intros done visited comps Hkeys Hinv.
    - rewrite app_nil_r in Hkeys. subst done. by exists visited, comps.
    - rewrite for_each_cons. cbn [body].
      assert ((done ++ [n]) ++ todo = dict_keys graph) as Hkeys'
        by (by rewrite <-app_assoc).
      destruct (decide (n ∈ visited)) as [Hn|Hn].
      + rewrite bind_Return. apply (IH (done ++ [n])); [done|].
        by apply sweep_inv_skip.
      + assert (n ∈ dict_keys graph) as Hnk.
        { rewrite <-Hkeys. set_solver. }
        destruct (Hexplore n visited Hnk Hn (sweep_nodes _ _ _ _ Hinv))
          as (visited' & c & -> & Hpost & Hc & Hcin).
        rewrite !bind_Return. apply (IH (done ++ [n])); [done|].
        by eapply sweep_inv_step. }
  destruct (Hloop (dict_keys graph) [] ∅ []) as (visited & comps & Hrun & Hinv);
    [done|apply sweep_inv_init|].
  exists visited, comps. split; [done|]. by eapply sweep_inv_components.
Qed.
End sweep_facts.

Lemma for_each_ext {A S} (l : list A) (f g : A → S → result S) s :
  (∀ x s, f x s = g x s) → for_each l f s = for_each l g s.
Proof.
  intros Hfg. revert s. induction l as [|x l IH]; intros s; [done|].
  rewrite !for_each_cons, Hfg. destruct (g x s); [apply IH|done..].
Qed.

Section find_connected_components_facts.
Context `{Countable node}.
Import connected_components.
Implicit Types (node_ltb : node → node → bool).
Implicit Types (graph : list (node * list node)) (visited : gset node).
Implicit Types (x y s t n : node) (c : list node) (comps : list (list node)).

Lemma find_connected_components_dfs_spec node_ltb graph :
  dict_wf graph → symmetric_graph graph →
  ∃ comps, find_connected_components_dfs node_ltb graph = Return comps
    ∧ components_of graph comps.
Proof.
  intros Hwf Hsym.
  destruct (sweep_spec graph
    (λ n visited,
       '(visited, current_component) ←
         dfs_component (2 + size (graph_nodes graph)) graph n (visited, []);
       Return (visited, sorted node_ltb current_component)) Hwf Hsym)
    as (visited & comps & Hrun & Hcomps).
  - intros n visited Hn Hnv Hsub.
    destruct (dfs_component_spec graph (graph_nodes graph)
                (2 + size (graph_nodes graph))) with (n := n) (visited := visited)
                (comp := @nil node)
      as (visited' & new & -> & Hpost & Hnd & Hnew).
    + intros x y Hxy. by eapply edge_graph_nodes.
    + apply elem_of_graph_nodes. by left.
    + done.
    + assert (size (graph_nodes graph ∖ visited) ≤ size (graph_nodes graph)); [|lia].
      apply subseteq_size. set_solver.
    + rewrite bind_Return. cbn [app]. eexists _, _. split; [done|].
      split; [done|]. split; [by apply NoDup_sorted|].
      intros x. by rewrite elem_of_sorted.
  - exists comps. split; [|done]. unfold find_connected_components_dfs.
    erewrite for_each_ext; [rewrite Hrun; done|].
    intros n [v cs]. destruct (decide (n ∈ v)); [done|].
    by destruct (dfs_component _ graph n (v, [])) as [[v' c']| |].
Qed.

(** The loop over the neighbours in [bfs_component]. *)
Lemma bfs_component_visit_fold (U : gset node) l visited queue :
  (∀ x, x ∈ l → x ∈ U) →
  ∃ visited' added,
    foldl (λ st neighbor, bfs_component_visit neighbor st) (visited, queue) l
      = (visited', queue ++ added)
    ∧ (∀ x, x ∈ visited' ↔ x ∈ visited ∨ x ∈ l)
    ∧ NoDup added
    ∧ (∀ x, x ∈ added ↔ x ∈ l ∧ x ∉ visited)
    ∧ length added + size (U ∖ visited') = size (U ∖ visited).
Proof.
  revert visited queue. induction l as [|n l IH]; intros visited queue HU.
  - exists visited, []. rewrite app_nil_r.
    split_and!; [done|set_solver|constructor|set_solver|done].
  - cbn [foldl]. unfold bfs_component_visit at 2.
    destruct (decide (n ∈ visited)) as [Hn|Hn].
    + destruct (IH visited queue) as (v' & added & -> & Hv & Hnd & Hadd & Hm);
        [set_solver|].
      exists v', added. split_and!; [done| |done| |done].
      * intros x. rewrite Hv. set_solver.
      * intros x. rewrite Hadd. set_solver.
    + destruct (IH ({[n]} ∪ visited) (queue ++ [n]))
        as (v' & added & -> & Hv & Hnd & Hadd & Hm); [set_solver|].
      exists v', (n :: added). rewrite <-app_assoc. split_and!; [done| | | |].
      * intros x. rewrite Hv. set_solver.
      * apply NoDup_cons. split; [|done]. rewrite Hadd. set_solver.
      * intros x. rewrite elem_of_cons, Hadd, elem_of_cons.
        destruct (decide (x = n)); set_solver.
      * cbn [length]. rewrite (size_difference_insert U visited n); [lia|set_solver|done].
Qed.

(** The invariant of the loop of [bfs_component], started from [s] with the
    set [visited0] of the nodes seen before. *)
Record bfs_component_inv graph s (visited0 : gset node)
    (st : gset node * list node * list node) : Prop := {
  bfs_component_start : s ∈ st.1.1;
  bfs_component_mono : visited0 ⊆ st.1.1;
  bfs_component_reach : ∀ x, x ∈ st.1.1 → x ∈ visited0 ∨ reachable graph s x;
  bfs_component_NoDup : NoDup (st.2 ++ st.1.2);
  bfs_component_new : ∀ x, x ∈ st.2 ++ st.1.2 ↔ x ∈ st.1.1 ∧ x ∉ visited0;
  bfs_component_closed : ∀ x y, x ∈ st.2 → edge graph x y → y ∈ st.1.1
}.

Lemma bfs_component_spec node_ltb graph s visited0 :
  s ∉ visited0 →
  ∃ visited' c, bfs_component node_ltb graph s visited0 = Return (visited', c)
    ∧ dfs_call_post graph s visited0 visited'
    ∧ NoDup c ∧ (∀ x, x ∈ c ↔ x ∈ visited' ∧ x ∉ visited0).
Proof.
  intros Hs. set (U := {[s]} ∪ graph_nodes graph).
  destruct (while_loop_rule (bfs_component_inv graph s visited0)
    (λ r, dfs_call_post graph s visited0 r.1
          ∧ NoDup r.2 ∧ (∀ x, x ∈ r.2 ↔ x ∈ r.1 ∧ x ∉ visited0))
    (λ st, length st.1.2 + size (U ∖ st.1.1))
    (bfs_component_body node_ltb graph) (2 + size (graph_nodes graph))
    ({[s]} ∪ visited0, [s], [])) as ([visited' c] & Hrun & Hpost).
  - intros [[visited queue] component] [Hst Hmono Hreach Hnd Hnew Hcl].
    cbn [fst snd] in *. destruct queue as [|n queue]; cbn [bfs_component_body].
    + rewrite app_nil_r in *. cbn [fst snd]. split; [split_and!|split].
      * done.
      * done.
      * done.
      * intros x y Hx Hxv Hxy. eapply Hcl; [|done]. by apply Hnew.
      * by apply NoDup_sorted.
      * intros x. by rewrite elem_of_sorted.
    + destruct (bfs_component_visit_fold U (graph_get graph n) visited queue)
        as (v' & added & -> & Hv & Hadd_nd & Hadd & Hm).
      { intros x Hx. apply elem_of_union_r. by eapply edge_graph_nodes. }
      cbn [fst snd]. split; [|rewrite length_app; cbn [length]; lia].
      assert (n ∈ visited ∧ n ∉ visited0) as [Hnv Hn0].
      { apply Hnew. set_solver. }
      constructor; cbn [fst snd].
      * apply Hv. auto.
      * intros x Hx. apply Hv. auto.
      * intros x [Hx|Hx]%Hv; [auto|]. right.
        destruct (Hreach n Hnv) as [?|Hn]; [done|]. by eapply reachable_step.
      * replace ((component ++ [n]) ++ queue ++ added)
          with ((component ++ n :: queue) ++ added)
          by (by rewrite <-!app_assoc).
        apply NoDup_app. split_and!; [done| |done].
        intros x Hx [_ Hxa]%Hadd. by apply Hxa, Hnew.
      * intros x.
        replace ((component ++ [n]) ++ queue ++ added)
          with ((component ++ n :: queue) ++ added)
          by (by rewrite <-!app_assoc).
        rewrite elem_of_app, Hnew, Hadd, Hv. split.
        -- intros [[? ?]|[Hx Hxv]]; [auto|]. split; [auto|].
           intros Hx0. apply Hxv. by apply Hmono.
        -- intros [[?|Hx] Hx0]; [auto|].
           destruct (decide (x ∈ visited)); auto.
      * intros x y [Hx|Hx]%elem_of_app Hxy.
        -- apply Hv. left. eauto.
        -- apply list_elem_of_singleton in Hx as ->. apply Hv. by right.
  - constructor; cbn [fst snd app].
    + set_solver.
    + set_solver.
    + intros x [->%elem_of_singleton|?]%elem_of_union; [right; apply rtc_refl|by left].
    + apply NoDup_singleton.
    + intros x. rewrite list_elem_of_singleton. set_solver.
    + intros x y Hx. by apply elem_of_nil in Hx.
  - cbn [fst snd length].
    assert (size (U ∖ ({[s]} ∪ visited0)) ≤ size (graph_nodes graph)); [|lia].
    apply subseteq_size. set_solver.
  - exists visited', c. by split.
Qed.

Lemma find_connected_components_bfs_spec node_ltb graph :
  dict_wf graph → symmetric_graph graph →
  ∃ comps, find_connected_components_bfs node_ltb graph = Return comps
    ∧ components_of graph comps.
Proof.
  intros Hwf Hsym.
  destruct (sweep_spec graph (bfs_component node_ltb graph) Hwf Hsym)
    as (visited & comps & Hrun & Hcomps).
  - intros n visited Hn Hnv _. by apply bfs_component_spec.
  - exists comps. split; [|done]. unfold find_connected_components_bfs.
    by rewrite Hrun.
Qed.
End find_connected_components_facts.

(** ** Connected components by Union-Find *)

Section union_find_components_facts.
Context `{Countable node}.
Import connected_components.
Implicit Types (node_ltb : node → node → bool).
Implicit Types (graph : list (node * list node)).
Implicit Types (self uf : UnionFind (node:=node)) (E : relation node).
Implicit Types (x y z a b r n : node) (c : list node).

Lemma same_set_sym self a b : same_set self a b → same_set self b a.
Proof. intros (r & ? & ?). by exists r. Qed.

Lemma same_set_trans self a b z :
  same_set self a b → same_set self b z → same_set self a z.
Proof.
  intros (r & Ha & Hb) (r' & Hb' & Hc). exists r. split; [done|].
  by rewrite (root_of_det _ _ _ _ Hb Hb').
Qed.

Lemma same_set_refl self a :
  uf_inv self → a ∈ dict_keys (parent self) → same_set self a a.
Proof. intros Hinv Ha. destruct (uf_rooted _ Hinv a Ha) as [r Hr]. by exists r. Qed.

Lemma same_set_key self a b : same_set self a b → a ∈ dict_keys (parent self).
Proof. intros (r & Ha & _). by eapply root_of_key. Qed.

(** [union] in one statement: it returns, and merges the sets of its
    arguments. *)
Lemma union_spec self x y :
  uf_inv self → x ∈ dict_keys (parent self) → y ∈ dict_keys (parent self) →
  ∃ self' (ok : bool), union self x y = Return (self', ok) ∧ uf_inv self' ∧
    ∀ a b, same_set self' a b ↔
      same_set self a b
      ∨ (same_set self a x ∧ same_set self y b)
      ∨ (same_set self a y ∧ same_set self x b).
Proof.
  intros Hinv Hx Hy.
  destruct (uf_rooted _ Hinv x Hx) as [rx Hrx].
  destruct (uf_rooted _ Hinv y Hy) as [ry Hry].
  destruct (decide (rx = ry)) as [->|Hne].
  - assert (same_set self x y) as Hxy by (by exists ry).
    destruct (union_same_spec self x y Hinv Hxy) as (self' & Hrun & _ & _ & Hroots & Hinv').
    exists self', false. split_and!; [done..|]. intros a b.
    assert (same_set self' a b ↔ same_set self a b) as ->.
    { unfold same_set. by setoid_rewrite Hroots. }
    split; [auto|]. intros [?|[[Ha Hb]|[Ha Hb]]]; [done|..].
    + eapply same_set_trans; [exact Ha|]. by eapply same_set_trans.
    + eapply same_set_trans; [exact Ha|].
      eapply same_set_trans; [|exact Hb]. by apply same_set_sym.
  - destruct (union_different_spec self x y Hinv Hx Hy)
      as (self' & Hrun & _ & Hsame & Hinv').
    { intros (r & Hxr & Hyr). apply Hne.
      by rewrite (root_of_det _ _ _ _ Hrx Hxr), (root_of_det _ _ _ _ Hry Hyr). }
    by exists self', true.
Qed.

(** The sets of the structure are the classes of the nodes of [N] under
    the edges [E] processed so far. *)
Record uf_conn_inv (N : gset node) E uf : Prop := {
  uf_conn_wf : uf_inv uf;
  uf_conn_edges : ∀ a b, E a b → a ∈ N ∧ b ∈ N;
  uf_conn_same : ∀ a b, same_set uf a b ↔ a ∈ N ∧ b ∈ N ∧ rtc (sc E) a b
}.

Lemma uf_conn_inv_key N E uf a : uf_conn_inv N E uf → a ∈ N → a ∈ dict_keys (parent uf).
Proof.
  intros [_ _ Hsame] Ha. eapply same_set_key. apply (Hsame a a).
  split_and!; [done..|apply rtc_refl].
Qed.

Lemma uf_conn_inv_ext N E E' uf :
  uf_conn_inv N E uf → (∀ a b, E a b ↔ E' a b) → uf_conn_inv N E' uf.
Proof.
  intros [Hwf Hedges Hsame] HE. constructor; [done| |].
  - intros a b ?%HE. auto.
  - intros a b. rewrite Hsame.
    assert (rtc (sc E) a b ↔ rtc (sc E') a b) as ->; [|done].
    split; apply rtc_subrel; intros ?? [?|?]; [left|right|left|right]; by apply HE.
Qed.

Lemma uf_conn_inv_union N E uf x y :
  uf_conn_inv N E uf → x ∈ N → y ∈ N →
  ∃ uf' (ok : bool), union uf x y = Return (uf', ok) ∧
    uf_conn_inv N (λ a b, E a b ∨ (a = x ∧ b = y)) uf'.
Proof.
  intros Hinv Hx Hy. pose proof Hinv as [Hwf Hedges Hsame].
  destruct (union_spec uf x y Hwf) as (uf' & ok & Hrun & Hwf' & Hsame');
    [by eapply uf_conn_inv_key..|].
  exists uf', ok. split; [done|].
  assert (∀ a b, rtc (sc E) a b → rtc (sc (λ a b, E a b ∨ a = x ∧ b = y)) a b)
    as Hmono.
  { intros a b. apply rtc_subrel. intros ?? [?|?]; [left|right]; by left. }
  assert (rtc (sc (λ a b, E a b ∨ a = x ∧ b = y)) x y) as Hxy.
  { apply rtc_once. left. by right. }
  assert (∀ a, a ∈ N → same_set uf a a) as Hrefl.
  { intros a Ha. apply Hsame. split_and!; [done..|apply rtc_refl]. }
  constructor; [done| |].
  - intros a b [?|[-> ->]]; auto.
  - intros a b. rewrite Hsame'. split.
    + intros [Hab|[[Ha Hb]|[Ha Hb]]].
      * apply Hsame in Hab as (? & ? & ?). auto.
      * apply Hsame in Ha as (? & _ & Ha). apply Hsame in Hb as (_ & ? & Hb).
        split_and!; [done..|]. etrans; [by apply Hmono|]. etrans; [exact Hxy|].
        by apply Hmono.
      * apply Hsame in Ha as (? & _ & Ha). apply Hsame in Hb as (_ & ? & Hb).
        split_and!; [done..|]. etrans; [by apply Hmono|].
        etrans; [|by apply Hmono]. apply rtc_once. right. by right.
    + intros (Ha & Hb & Hab). apply Hsame'. revert Ha Hb.
      induction Hab as [a|a z b Hac Hcb IH]; intros Ha Hb.
      * apply Hsame'. left. by apply Hrefl.
      * assert (z ∈ N) as Hc.
        { destruct Hac as [[Hac|[_ ->]]|[Hac|[-> _]]]; [|done| |done];
            by apply Hedges in Hac as [? ?]. }
        eapply same_set_trans; [|by apply IH].
        apply Hsame'.
        destruct Hac as [[Hac|[-> ->]]|[Hac|[-> ->]]].
        -- left. apply Hsame. split_and!; [done..|]. apply rtc_once. by left.
        -- right. left. auto.
        -- left. apply Hsame. split_and!; [done..|]. apply rtc_once. by right.
        -- right. right. auto.
Qed.

(** The loop over the neighbours of one node. *)
Lemma uf_conn_inv_row N E n l uf :
  uf_conn_inv N E uf → n ∈ N → (∀ v, v ∈ l → v ∈ N) →
  ∃ uf',
    for_each l (λ neighbor uf, '(uf, _) ← union uf n neighbor; Return uf) uf
      = Return uf'
    ∧ uf_conn_inv N (λ a b, E a b ∨ (a = n ∧ b ∈ l)) uf'.
Proof.
  intros Hinv Hn. revert E uf Hinv. induction l as [|v l IH]; intros E uf Hinv Hl.
  - exists uf. split; [done|]. eapply uf_conn_inv_ext; [done|].
    intros a b. rewrite elem_of_nil. tauto.
  - destruct (uf_conn_inv_union N E uf n v Hinv) as (uf1 & ok & Hrun & Hinv1);
      [done|apply Hl; left|].
    destruct (IH _ uf1 Hinv1) as (uf' & Hrun' & Hinv'); [intros; apply Hl; by right|].
    exists uf'. rewrite for_each_cons, Hrun, !bind_Return. split; [done|].
    eapply uf_conn_inv_ext; [done|]. intros a b. rewrite elem_of_cons. cbn beta.
    naive_solver.
Qed.

(** The loop over the items of the graph. *)
Lemma uf_conn_inv_rows N E (g : list (node * list node)) uf :
  uf_conn_inv N E uf →
  (∀ n l v, (n, l) ∈ g → n ∈ N ∧ (v ∈ l → v ∈ N)) →
  ∃ uf',
    for_each g
      (λ '(n, neighbors) uf,
         for_each neighbors
           (λ neighbor uf, '(uf, _) ← union uf n neighbor; Return uf) uf) uf
      = Return uf'
    ∧ uf_conn_inv N (λ a b, E a b ∨ ∃ l, (a, l) ∈ g ∧ b ∈ l) uf'.
Proof.
  revert E uf. induction g as [|[n l] g IH]; intros E uf Hinv Hg.
  - exists uf. split; [done|]. eapply uf_conn_inv_ext; [done|].
    intros a b. setoid_rewrite elem_of_nil. naive_solver.
  - destruct (uf_conn_inv_row N E n l uf Hinv) as (uf1 & Hrun & Hinv1).
    { destruct (Hg n l n) as [? _]; [left|done]. }
    { intros v Hv. destruct (Hg n l v) as [_ Hv']; [left|auto]. }
    destruct (IH _ uf1 Hinv1) as (uf' & Hrun' & Hinv').
    { intros n' l' v Hin. apply Hg. by right. }
    exists uf'. rewrite for_each_cons, Hrun, bind_Return. split; [done|].
    eapply uf_conn_inv_ext; [done|]. intros a b. cbn beta.
    setoid_rewrite elem_of_cons. split.
    + intros [[?|[-> ?]]|(l' & ? & ?)]; [by left|right; exists l; auto|].
      right. exists l'. auto.
    + intros [?|(l' & [[= -> ->]|?] & ?)]; [by left; left|by left; right|].
      right. by exists l'.
Qed.

Lemma uf_init_conn (N : gset node) : uf_conn_inv N (λ _ _, False) (init N).
Proof.
  assert (∀ a, a ∈ N → root_of (parent (init N)) a a) as Hroot.
  { intros a Ha. apply root_of_root. unfold init. cbn [parent].
    rewrite (dict_get_diagonal (λ n, n)), decide_True; [done|].
    by apply elem_of_elements. }
  assert (∀ a r, root_of (parent (init N)) a r → a ∈ N ∧ r = a) as Hkey.
  { intros a r Ha. assert (a ∈ N) as HaN.
    { apply root_of_key in Ha. unfold init in Ha. cbn [parent] in Ha.
      rewrite (dict_keys_diagonal (λ n, n)) in Ha. by apply elem_of_elements. }
    split; [done|]. eapply root_of_det; [done|]. by apply Hroot. }
  constructor; [apply uf_init_inv|done|].
  intros a b. split.
  - intros (r & [Ha ->]%Hkey & [Hb Heq]%Hkey). subst. split_and!; [done..|].
    apply rtc_refl.
  - intros (Ha & Hb & Hab).
    assert (a = b) as ->.
    { induction Hab as [|? ? ? [[]|[]]]; done. }
    exists b. auto.
Qed.

(** What the grouping loop has after the nodes of [done]: in
    [component_map], each root met so far has the list of the nodes of
    [done] below it. *)
Record group_inv (parent1 : list (node * node)) (done : list node) uf
    (component_map : list (node * list node)) : Prop := {
  group_uf : uf_inv uf;
  group_roots : ∀ y r, root_of (parent uf) y r ↔ root_of parent1 y r;
  group_wf : dict_wf component_map;
  group_lists : ∀ r c, dict_get component_map r = Some c →
    c ≠ [] ∧ NoDup c ∧ ∀ x, x ∈ c ↔ x ∈ done ∧ root_of parent1 x r;
  group_all : ∀ x, x ∈ done →
    ∃ r, root_of parent1 x r ∧ r ∈ dict_keys component_map
}.

Lemma group_by_root_spec parent1 done uf component_map n :
  group_inv parent1 done uf component_map →
  n ∈ dict_keys (parent uf) → n ∉ done →
  ∃ uf' component_map',
    group_by_root n (uf, component_map) = Return (uf', component_map')
    ∧ group_inv parent1 (done ++ [n]) uf' component_map'.
Proof.
  intros [Hinv Hroots Hwf Hlists Hall] Hn Hnd.
  destruct (find_spec uf n Hinv Hn)
    as (parent' & r & Hrun & Hr & _ & Hkeys & Hroots' & Hinv').
  apply Hroots in Hr.
  set (c0 := default [] (dict_get component_map r)).
  set (cm := if dict_mem component_map r then component_map
             else dict_set component_map r []).
  assert (dict_get cm r = Some c0 ∧ dict_wf cm
          ∧ ∀ r', r' ≠ r → dict_get cm r' = dict_get component_map r')
    as (Hcm & Hcmwf & Hcmne).
  { unfold cm, c0. destruct (dict_mem component_map r) eqn:Hmem.
    - apply dict_mem_true, dict_get_is_Some in Hmem as [c ->]. done.
    - apply dict_mem_false, dict_get_None in Hmem. rewrite Hmem.
      split_and!; [apply dict_get_set_eq|by apply dict_wf_set|].
      intros r' ?. by apply dict_get_set_ne. }
  assert (∀ x, x ∈ c0 ↔ x ∈ done ∧ root_of parent1 x r) as Hc0.
  { intros x. unfold c0. destruct (dict_get component_map r) as [c|] eqn:Hc.
    - by apply Hlists.
    - cbn. rewrite elem_of_nil. split; [done|]. intros [Hx Hxr].
      destruct (Hall x Hx) as (r' & Hxr' & Hk).
      rewrite (root_of_det _ _ _ _ Hxr Hxr') in Hc.
      by apply dict_get_None in Hc. }
  assert (NoDup c0) as Hc0nd.
  { unfold c0. destruct (dict_get component_map r) as [c|] eqn:Hc; [|constructor].
    by apply Hlists in Hc as (_ & ? & _). }
  eexists _, (dict_set cm r (c0 ++ [n])).
  unfold group_by_root. rewrite Hrun, bind_Return. cbn beta iota. fold cm.
  assert (dict_lookup cm r = Return c0) as -> by (by apply dict_lookup_Return).
  rewrite bind_Return. split; [done|].
  constructor; cbn [parent].
  - done.
  - intros y ry. by rewrite Hroots', Hroots.
  - by apply dict_wf_set.
  - intros r' c. rewrite dict_get_set. destruct (decide (r = r')) as [<-|Hne].
    + intros [= <-]. split_and!.
      * by destruct c0.
      * apply NoDup_app. split_and!; [done| |apply NoDup_singleton].
        intros x [Hx _]%Hc0 ->%list_elem_of_singleton. done.
      * intros x. rewrite !elem_of_app, Hc0, list_elem_of_singleton.
        split; [intros [[? ?]| ->]; auto|]. intros [[?| ->] ?]; auto.
    + rewrite Hcmne by done. intros Hc.
      destruct (Hlists r' c Hc) as (? & ? & Hin). split_and!; [done..|].
      intros x. rewrite Hin, elem_of_app, list_elem_of_singleton.
      split; [intros [? ?]; auto|]. intros [[?| ->] Hx]; [done|].
      destruct Hne. by eapply root_of_det.
  - intros x [Hx| ->%list_elem_of_singleton]%elem_of_app.
    + destruct (Hall x Hx) as (r' & Hxr' & Hk). exists r'. split; [done|].
      apply dict_elem_of_keys_set. right.
      apply dict_get_is_Some. destruct (decide (r' = r)) as [->|Hne].
      * rewrite Hcm. by eexists.
      * rewrite Hcmne by done. by apply dict_get_is_Some.
    + exists r. split; [done|]. apply dict_elem_of_keys_set. by left.
Qed.

Lemma group_loop_spec parent1 todo done uf component_map :
  group_inv parent1 done uf component_map →
  NoDup (done ++ todo) → (∀ x, x ∈ todo → ∃ r, root_of parent1 x r) →
  ∃ uf' component_map',
    for_each todo group_by_root (uf, component_map)
      = Return (uf', component_map')
    ∧ group_inv parent1 (done ++ todo) uf' component_map'.
Proof.
  revert done uf component_map.
  induction todo as [|n todo IH]; intros done uf component_map Hinv Hnd Hroot.
  - rewrite app_nil_r. by exists uf, component_map.
  - destruct (group_by_root_spec parent1 done uf component_map n Hinv)
      as (uf1 & cm1 & Hrun & Hinv1).
    + destruct (Hroot n) as [r Hr]; [left|].
      eapply root_of_key, (group_roots _ _ _ _ Hinv). exact Hr.
    + apply NoDup_app in Hnd as (_ & Hnd & _). intros Hn. eapply Hnd; [done|left].
    + destruct (IH (done ++ [n]) uf1 cm1 Hinv1) as (uf' & cm' & Hrun' & Hinv').
      * by rewrite <-app_assoc.
      * intros x Hx. apply Hroot. by right.
      * exists uf', cm'. rewrite for_each_cons, Hrun, bind_Return.
        split; [done|]. by rewrite <-app_assoc in Hinv'.
Qed.

Lemma graph_entry_nodes graph n l v :
  (n, l) ∈ graph → n ∈ graph_nodes graph ∧ (v ∈ l → v ∈ graph_nodes graph).
Proof.
  intros Hin. rewrite !elem_of_graph_nodes. split.
  - left. apply list_elem_of_fmap. by exists (n, l).
  - intros Hv. right. by exists n, l.
Qed.

Lemma union_find_components_spec node_ltb graph :
  dict_wf graph →
  ∃ comps, union_find_components node_ltb graph = Return comps
    ∧ components_of graph comps.
Proof.
  intros Hwf. set (N := graph_nodes graph).
  destruct (uf_conn_inv_rows N (λ _ _, False) graph (init N) (uf_init_conn N))
    as (uf1 & Hrun1 & [Hinv1 _ Hsame1]).
  { intros n l v. apply graph_entry_nodes. }
  assert (∀ a b, same_set uf1 a b ↔ a ∈ N ∧ b ∈ N ∧ connected graph a b) as Hsame.
  { intros a b. rewrite Hsame1.
    assert (rtc (sc (λ a b, False ∨ ∃ l, (a, l) ∈ graph ∧ b ∈ l)) a b
            ↔ connected graph a b) as ->; [|done].
    assert (∀ a b, (False ∨ ∃ l, (a, l) ∈ graph ∧ b ∈ l) ↔ edge graph a b) as HE.
    { intros x y. unfold edge, graph_get. split.
      - intros [[]|(l & Hl & Hy)]. by rewrite (dict_elem_of_get graph x l).
      - intros Hy. right. destruct (dict_get graph x) as [l|] eqn:Hl;
          [|by apply elem_of_nil in Hy].
        exists l. split; [by apply dict_get_elem_of|done]. }
    split; apply rtc_subrel; intros ?? [?|?]; [left|right|left|right]; by apply HE. }
  assert (∀ x, x ∈ N → ∃ r, root_of (parent uf1) x r) as Hroot.
  { intros x Hx. destruct (Hsame x x) as [_ (r & Hr & _)]; [|by exists r].
    split_and!; [done..|apply rtc_refl]. }
  destruct (group_loop_spec (parent uf1) (elements N) [] uf1 [])
    as (uf2 & cm & Hrun2 & [_ _ Hcmwf Hlists Hall]).
  { constructor; [done|done|constructor| |].
    - intros r c Hc. done.
    - intros x Hx. by apply elem_of_nil in Hx. }
  { apply NoDup_elements. }
  { intros x Hx%elem_of_elements. by apply Hroot. }
  cbn [app] in *.
  exists (sorted node_ltb <$> dict_values cm). split.
  { unfold union_find_components. fold N. by rewrite Hrun1, bind_Return, Hrun2. }
  assert (∀ c, c ∈ sorted node_ltb <$> dict_values cm ↔
            ∃ r c0, dict_get cm r = Some c0 ∧ c = sorted node_ltb c0) as Hcomp.
  { intros c. rewrite list_elem_of_fmap. unfold dict_values.
    setoid_rewrite list_elem_of_fmap. split.
    - intros (c0 & -> & [r c0'] & -> & Hin). exists r, c0'.
      split; [by apply dict_elem_of_get|done].
    - intros (r & c0 & Hget & ->). exists c0. split; [done|].
      exists (r, c0). split; [done|]. by apply dict_get_elem_of. }
  constructor.
  - intros c x (r & c0 & Hget & ->)%Hcomp Hx%elem_of_sorted.
    apply (Hlists r c0 Hget) in Hx as [Hx%elem_of_elements _]. done.
  - intros c x y (r & c0 & Hget & ->)%Hcomp Hx%elem_of_sorted.
    destruct (Hlists r c0 Hget) as (_ & _ & Hin). rewrite elem_of_sorted, Hin.
    apply Hin in Hx as [Hx%elem_of_elements Hxr].
    rewrite elem_of_elements. split.
    + intros [Hy Hyr]. apply Hsame. by exists r.
    + intros Hxy.
      assert (same_set uf1 x y) as (r' & Hxr' & Hyr').
      { apply Hsame. split_and!; [done| |done].
        by eapply connected_graph_nodes. }
      rewrite (root_of_det _ _ _ _ Hxr Hxr'). split; [|done].
      by eapply connected_graph_nodes.
  - intros c (r & c0 & Hget & ->)%Hcomp. apply NoDup_sorted.
    by destruct (Hlists r c0 Hget) as (_ & ? & _).
  - intros c (r & c0 & Hget & ->)%Hcomp Hnil.
    destruct (Hlists r c0 Hget) as (Hne & _ & _). apply Hne.
    apply Permutation_nil_r. rewrite <-Hnil. by rewrite sorted_Permutation.
  - intros x Hx. destruct (Hall x) as (r & Hxr & [c0 Hget]%dict_get_is_Some).
    { by apply elem_of_elements. }
    exists (sorted node_ltb c0). split; [apply Hcomp; by exists r, c0|].
    apply elem_of_sorted, (Hlists r c0 Hget). split; [|done].
    by apply elem_of_elements.
  - intros i j c c' x Hi Hj Hx Hx'.
    apply list_lookup_fmap_Some in Hi as (c0 & -> & Hi).
    apply list_lookup_fmap_Some in Hj as (c0' & -> & Hj).
    unfold dict_values in Hi, Hj.
    apply list_lookup_fmap_Some in Hi as ([r c1] & -> & Hi).
    apply list_lookup_fmap_Some in Hj as ([r' c1'] & -> & Hj).
    cbn [snd] in *.
    apply elem_of_sorted in Hx, Hx'.
    pose proof (dict_elem_of_get cm r c1 Hcmwf (list_elem_of_lookup_2 _ _ _ Hi)) as Hg.
    pose proof (dict_elem_of_get cm r' c1' Hcmwf (list_elem_of_lookup_2 _ _ _ Hj)) as Hg'.
    apply (Hlists r c1 Hg) in Hx as [_ Hxr].
    apply (Hlists r' c1' Hg') in Hx' as [_ Hxr'].
    assert (r = r') as <- by (by eapply root_of_det).
    eapply (NoDup_lookup (dict_keys cm)); [exact Hcmwf|..]; unfold dict_keys.
    + by rewrite list_lookup_fmap, Hi.
    + by rewrite list_lookup_fmap, Hj.
Qed.
End union_find_components_facts.

Section components_facts.
Context `{Countable node}.
Implicit Types (graph : list (node * list node)).
Implicit Types (x y : node) (c : list node) (comps : list (list node)).

Lemma elem_of_component_sets comps (X : gset node) :
  X ∈ component_sets comps ↔ ∃ c, c ∈ comps ∧ X = list_to_set c.
Proof.
  unfold component_sets. rewrite elem_of_list_to_set, list_elem_of_fmap.
  naive_solver.
Qed.

Lemma components_of_subset graph comps comps' :
  components_of graph comps → components_of graph comps' →
  component_sets comps ⊆ component_sets comps'.
Proof.
  intros Hc Hc' X (c & Hin & ->)%elem_of_component_sets.
  apply elem_of_component_sets.
  assert (∃ x, x ∈ c) as [x Hx].
  { destruct c as [|x l]; [by destruct (components_nonempty _ _ Hc [])|].
    exists x. left. }
  destruct (components_cover _ _ Hc' x) as (c' & Hin' & Hx').
  { by eapply (components_nodes _ _ Hc). }
  exists c'. split; [done|]. apply set_eq. intros y.
  rewrite !elem_of_list_to_set.
  by rewrite (components_class _ _ Hc c x y), (components_class _ _ Hc' c' x y).
Qed.

Lemma components_of_length graph comps :
  components_of graph comps → length comps = size (component_sets comps).
Proof.
  intros Hc. unfold component_sets. rewrite size_list_to_set, length_fmap; [done|].
  apply NoDup_alt. intros i j X Hi Hj.
  apply list_lookup_fmap_Some in Hi as (c & -> & Hi).
  apply list_lookup_fmap_Some in Hj as (c' & Heq & Hj).
  assert (∃ x, x ∈ c) as [x Hx].
  { destruct c as [|x l]; [|exists x; left].
    destruct (components_nonempty _ _ Hc []); [|done].
    by eapply list_elem_of_lookup_2. }
  eapply (components_apart _ _ Hc i j c c' x); [done..|].
  apply (elem_of_list_to_set (C := gset node)). rewrite <-Heq.
  by apply elem_of_list_to_set.
Qed.

(** Two lists of the components of a graph hold the same sets, and as many. *)
Lemma components_of_unique graph comps comps' :
  components_of graph comps → components_of graph comps' →
  component_sets comps = component_sets comps' ∧ length comps = length comps'.
Proof.
  intros Hc Hc'.
  assert (component_sets comps = component_sets comps') as Heq.
  { apply set_eq. intros X.
    split; [by apply (components_of_subset graph comps comps')
           |by apply (components_of_subset graph comps' comps)]. }
  split; [done|].
  by rewrite (components_of_length graph comps), (components_of_length graph comps'), Heq.
Qed.

Lemma symmetric_graph_check graph :
  Forall (λ entry, Forall (λ v, entry.1 ∈ graph_get graph v) entry.2) graph →
  symmetric_graph graph.
Proof.
  rewrite Forall_forall. intros Hall u v (l & Hl & Hv)%graph_get_elem_of_entry.
  specialize (Hall _ Hl). rewrite Forall_forall in Hall. by apply Hall.
Qed.
End components_facts.

Section components_theorems.
Context `{Countable node}.
Import connected_components.
Implicit Types (node_ltb : node → node → bool).
Implicit Types (graph : list (node * list node)).

(** X15. [find_connected_components_dfs] on a graph that lists every edge
    in both directions returns the connected components: non-empty lists
    without repetition, one for each class of connected nodes, that
    together hold every node of the graph. *)
Theorem find_connected_components_dfs_finds_the_components node_ltb graph :
  dict_wf graph → symmetric_graph graph →
  ∃ components,
    find_connected_components_dfs node_ltb graph = Return components
    ∧ components_of graph components.
Proof. apply find_connected_components_dfs_spec. Qed.

(** X16. [find_connected_components_bfs] returns the connected components
    under the same condition. *)
Theorem find_connected_components_bfs_finds_the_components node_ltb graph :
  dict_wf graph → symmetric_graph graph →
  ∃ components,
    find_connected_components_bfs node_ltb graph = Return components
    ∧ components_of graph components.
Proof. apply find_connected_components_bfs_spec. Qed.

(** X17. [union_find_components] returns the connected components of any
    adjacency dictionary, whether or not the edges are listed in both
    directions: the nodes of a list are those linked by edges taken in
    either direction. *)
Theorem union_find_components_finds_the_components node_ltb graph :
  dict_wf graph →
  ∃ components,
    union_find_components node_ltb graph = Return components
    ∧ components_of graph components.
Proof. apply union_find_components_spec. Qed.

(** X18. On a graph that lists every edge in both directions, the three
    component finders return the same components, as sets of sets, and the
    same number of them. *)
Theorem component_finders_agree node_ltb graph :
  dict_wf graph → symmetric_graph graph →
  ∃ by_dfs by_bfs by_union_find,
    find_connected_components_dfs node_ltb graph = Return by_dfs
    ∧ find_connected_components_bfs node_ltb graph = Return by_bfs
    ∧ union_find_components node_ltb graph = Return by_union_find
    ∧ component_sets by_dfs = component_sets by_union_find
    ∧ component_sets by_bfs = component_sets by_union_find
    ∧ length by_dfs = length by_union_find
    ∧ length by_bfs = length by_union_find.
Proof.
  intros Hwf Hsym.
  destruct (find_connected_components_dfs_spec node_ltb graph Hwf Hsym)
    as (by_dfs & Hdfs & Hc1).
  destruct (find_connected_components_bfs_spec node_ltb graph Hwf Hsym)
    as (by_bfs & Hbfs & Hc2).
  destruct (union_find_components_spec node_ltb graph Hwf) as (by_uf & Huf & Hc3).
  destruct (components_of_unique graph by_dfs by_uf Hc1 Hc3) as [? ?].
  destruct (components_of_unique graph by_bfs by_uf Hc2 Hc3) as [? ?].
  exists by_dfs, by_bfs, by_uf. by split_and!.
Qed.
End components_theorems.

Section components_examples.
Import connected_components.

(** Two friends and a loner. *)
Definition islands : list (nat * list nat) :=
  [(1, [2]); (2, [1]); (3, [])].

Lemma islands_wf : dict_wf islands.
Proof. unfold dict_wf. compute_done. Qed.

Lemma islands_symmetric : symmetric_graph islands.
Proof. apply symmetric_graph_check. compute_done. Qed.

Lemma find_connected_components_dfs_finds_the_components_witness :
  dict_wf islands ∧ symmetric_graph islands ∧
  ∃ components,
    find_connected_components_dfs Nat.ltb islands = Return components
    ∧ components_of islands components.
Proof.
  split; [apply islands_wf|]. split; [apply islands_symmetric|].
  exact (find_connected_components_dfs_finds_the_components Nat.ltb islands
           islands_wf islands_symmetric).
Defined.

Lemma find_connected_components_bfs_finds_the_components_witness :
  dict_wf islands ∧ symmetric_graph islands ∧
  ∃ components,
    find_connected_components_bfs Nat.ltb islands = Return components
    ∧ components_of islands components.
Proof.
  split; [apply islands_wf|]. split; [apply islands_symmetric|].
  exact (find_connected_components_bfs_finds_the_components Nat.ltb islands
           islands_wf islands_symmetric).
Defined.

Lemma union_find_components_finds_the_components_witness :
  dict_wf islands ∧
  ∃ components,
    union_find_components Nat.ltb islands = Return components
    ∧ components_of islands components.
Proof.
  split; [apply islands_wf|].
  exact (union_find_components_finds_the_components Nat.ltb islands islands_wf).
Defined.

Lemma component_finders_agree_witness :
  dict_wf islands ∧ symmetric_graph islands ∧
  ∃ by_dfs by_bfs by_union_find,
    find_connected_components_dfs Nat.ltb islands = Return by_dfs
    ∧ find_connected_components_bfs Nat.ltb islands = Return by_bfs
    ∧ union_find_components Nat.ltb islands = Return by_union_find
    ∧ component_sets by_dfs = component_sets by_union_find
    ∧ component_sets by_bfs = component_sets by_union_find
    ∧ length by_dfs = length by_union_find
    ∧ length by_bfs = length by_union_find.
Proof.
  split; [apply islands_wf|]. split; [apply islands_symmetric|].
  exact (component_finders_agree Nat.ltb islands islands_wf islands_symmetric).
Defined.

Example islands_components :
  find_connected_components_dfs Nat.ltb islands = Return [[1; 2]; [3]]
  ∧ find_connected_components_bfs Nat.ltb islands = Return [[1; 2]; [3]].
Proof. split; vm_compute; reflexivity. Qed.

(** With an edge listed in one direction only, the search from the keys
    splits what Union-Find keeps together. *)
Example one_way_edge_components :
  find_connected_components_dfs Nat.ltb [(1, []); (2, [1])] = Return [[1]; [2]]
  ∧ union_find_components Nat.ltb [(1, []); (2, [1])] = Return [[1; 2]].
Proof. split; vm_compute; reflexivity. Qed.
End components_examples.

(** ** The [Graph] class: removing edges, and the invariant seen from outside *)

Section graph_class_more_facts.
Context `{Countable node}.
Import graph_class.
Implicit Types (g : Graph (node:=node)) (u v x z n : node).

(** In an undirected graph a loop is listed twice at most. *)
Definition loops_twice g : Prop :=
  directed g = false → ∀ u, cnt (adjacency_list g) u u ≤ 2.

Lemma built_loops_twice g : built g → loops_twice g.
Proof.
  unfold loops_twice.
  induction 1 as [d|g n _ IH|g u v g' b Hb IH Hop|g u v g' b Hb IH Hop
                  |g n g' b Hb IH Hop]; intros Hd w.
  - cbn. lia.
  - rewrite add_node_directed in Hd. unfold cnt. rewrite add_node_get.
    by apply IH.
  - destruct (add_edge_spec g u v) as (g1 & Hrun & Hdir & _ & _ & _ & _ & Hget).
    rewrite Hop in Hrun. injection Hrun as -> _. rewrite Hdir in Hd.
    specialize (IH Hd). unfold cnt. rewrite Hget.
    destruct (has_edge g u v) eqn:He; [apply IH|].
    apply has_edge_false in He. unfold with_edge. rewrite Hd. cbn [negb andb].
    rewrite count_occ_of_app. pose proof (IH w) as IHw. unfold cnt in IHw.
    destruct (decide (w = u)) as [->|Hwu].
    + rewrite count_occ_of_app, count_occ_of_cons, count_occ_of_nil.
      case_bool_decide as Huv.
      * subst v. apply count_occ_of_0 in He.
        rewrite count_occ_of_cons, count_occ_of_nil, !decide_True by done. lia.
      * rewrite decide_False by congruence. rewrite count_occ_of_nil. lia.
    + case_bool_decide as Hwv; [|rewrite count_occ_of_nil; lia].
      rewrite count_occ_of_cons, count_occ_of_nil, decide_False by congruence.
      lia.
  - destruct (remove_edge_spec g u v) as (g1 & Hrun & Hdir & _ & Hcnt).
    rewrite Hop in Hrun. injection Hrun as -> _. rewrite Hdir in Hd.
    specialize (IH Hd w). specialize (Hcnt w w). lia.
  - destruct (remove_node_spec g n (inv_wf _ (built_inv _ Hb)))
      as (g1 & Hrun & Hdir & Hsame & Hrem).
    rewrite Hop in Hrun. injection Hrun as -> _. rewrite Hdir in Hd.
    specialize (IH Hd w).
    destruct (dict_mem (adjacency_list g) n) eqn:Hmem; [|by rewrite Hsame].
    destruct (Hrem eq_refl) as [_ Hcnt]. specialize (Hcnt w w).
    destruct (decide (w = n)); lia.
Qed.

Lemma has_edge_cnt g u v : has_edge g u v = true ↔ cnt (adjacency_list g) u v ≠ 0.
Proof. by rewrite has_edge_true, cnt_pos. Qed.

Lemma has_edge_eq g g' u v x z :
  (cnt (adjacency_list g') x z ≠ 0 ↔ cnt (adjacency_list g) u v ≠ 0) →
  has_edge g' x z = has_edge g u v.
Proof.
  rewrite <-!has_edge_cnt. destruct (has_edge g' x z), (has_edge g u v); naive_solver.
Qed.

(** [remove_edge] on a graph built through the interface. *)
Lemma remove_edge_built g u v :
  built g →
  ∃ g', remove_edge g u v = Return (g', has_edge g u v) ∧
    dict_keys (adjacency_list g') = dict_keys (adjacency_list g) ∧
    directed g' = directed g ∧
    has_edge g' u v = false ∧
    (directed g = false → has_edge g' v u = false) ∧
    (∀ x z, (x, z) ≠ (u, v) → directed g = true ∨ (x, z) ≠ (v, u) →
       has_edge g' x z = has_edge g x z) ∧
    (has_edge g u v = false → g' = g).
Proof.
  intros Hb. pose proof (built_inv g Hb) as Hinv.
  pose proof (built_loops_twice g Hb) as Hloops.
  apply graph_inv_cnt in Hinv as (Hwf & Hcl & Honce & Hdir & Hsym).
  destruct (remove_edge_spec g u v) as (g' & Hrun & Hd & Hkeys & Hcnt).
  exists g'. split; [done|]. split; [done|]. split; [done|].
  assert (∀ x z, has_edge g' x z = false ↔ cnt (adjacency_list g') x z = 0) as Hf.
  { intros x z. rewrite <-not_true_iff_false, has_edge_cnt. lia. }
  destruct (has_edge g u v) eqn:He.
  - apply has_edge_cnt in He.
    assert (directed g = false → u ≠ v → cnt (adjacency_list g) v u = 1) as Hvu.
    { intros Hu Hne. specialize (Hsym Hu u v He).
      specialize (Honce v u (not_eq_sym Hne)). lia. }
    split_and!.
    + apply Hf. specialize (Hcnt u v).
      rewrite decide_True in Hcnt by done.
      destruct (decide (u = v)) as [->|Hne].
      * destruct (directed g) eqn:Hg.
        -- specialize (Hdir eq_refl v v). lia.
        -- specialize (Hloops Hg v). case_decide; [lia|].
           assert (cnt (adjacency_list g) v v ≤ 1) by (apply dec_stable; naive_solver lia).
           lia.
      * specialize (Honce u v Hne). lia.
    + intros Hu. apply Hf. specialize (Hcnt v u).
      destruct (decide (u = v)) as [->|Hne].
      * specialize (Hloops Hu v). rewrite decide_True in Hcnt by done.
        case_decide; [lia|].
        assert (cnt (adjacency_list g) v v ≤ 1) by (apply dec_stable; naive_solver lia).
        lia.
      * specialize (Hvu Hu Hne). rewrite decide_False in Hcnt by naive_solver.
        rewrite decide_True in Hcnt; [lia|]. split_and!; [done..|lia|done|done].
    + intros x z Hxz Hzx. apply has_edge_eq. specialize (Hcnt x z).
      rewrite decide_False in Hcnt by naive_solver.
      rewrite decide_False in Hcnt; [by rewrite Hcnt, !Nat.add_0_r|].
      intros (_ & Hu & _ & -> & ->). destruct Hzx; congruence.
    + done.
  - split_and!.
    + apply Hf. specialize (Hcnt u v). apply not_true_iff_false in He.
      rewrite has_edge_cnt in He. lia.
    + intros Hu. apply Hf. specialize (Hcnt v u).
      apply not_true_iff_false in He. rewrite has_edge_cnt in He.
      assert (cnt (adjacency_list g) v u = 0); [|lia].
      apply dec_stable. intros Hvu. apply He. by apply Hsym.
    + intros x z _ _. apply has_edge_eq. specialize (Hcnt x z).
      rewrite !decide_False in Hcnt by naive_solver. by rewrite Hcnt, !Nat.add_0_r.
    + intros _. unfold remove_edge in Hrun. rewrite He in Hrun. congruence.
Qed.

Lemma count_occ_of_fmap_pair (k u : node) (v : node) (l : list node) :
  count_occ_of (u, v) (pair k <$> l) = if decide (k = u) then count_occ_of v l else 0.
Proof.
  induction l as [|y l IH]; [by case_decide|].
  rewrite fmap_cons, !count_occ_of_cons, IH.
  repeat case_decide; simplify_eq; done.
Qed.

(** The pair [(u, v)] is in [get_edges()] as often as [v] is in the list
    of [u]. *)
Lemma get_edges_count g u v :
  dict_wf (adjacency_list g) →
  count_occ_of (u, v) (get_edges g) = cnt (adjacency_list g) u v.
Proof.
  rewrite get_edges_eq. unfold cnt, graph_get, dict_wf, dict_keys.
  induction (adjacency_list g) as [|[k l] adj IH]; [done|].
  rewrite fmap_cons, NoDup_cons. intros [Hk Hnd]. cbn [dict_get].
  rewrite bind_cons, count_occ_of_app, count_occ_of_fmap_pair, IH by done.
  destruct (decide (k = u)) as [->|Hne].
  - rewrite decide_True by done.
    assert (dict_get adj u = None) as -> by (by apply dict_get_None).
    cbn [default id]. rewrite count_occ_of_nil. unfold id. lia.
  - rewrite !decide_False by congruence. done.
Qed.
End graph_class_more_facts.

Section graph_class_more_theorems.
Context `{Countable node}.
Import graph_class.
Implicit Types (g : Graph (node:=node)) (u v x z n : node).

(** X19. [remove_edge] on a graph built through the interface returns
    whether the edge was there; afterwards the edge is gone (in an
    undirected graph, in both directions), every other edge and every node
    is kept, and a graph without the edge is returned unchanged. *)
Theorem remove_edge_removes_the_edge g u v :
  built g →
  ∃ g', remove_edge g u v = Return (g', has_edge g u v) ∧
    dict_keys (adjacency_list g') = dict_keys (adjacency_list g) ∧
    directed g' = directed g ∧
    has_edge g' u v = false ∧
    (directed g = false → has_edge g' v u = false) ∧
    (∀ x z, (x, z) ≠ (u, v) → directed g = true ∨ (x, z) ≠ (v, u) →
       has_edge g' x z = has_edge g x z) ∧
    (has_edge g u v = false → g' = g).
Proof. apply remove_edge_built. Qed.

(** X20. What every graph built through the interface satisfies: the nodes
    of [get_nodes()] are the keys of the adjacency list (each neighbour has
    an entry of its own), an undirected graph has each edge in both
    directions, and [get_edges()] lists no edge twice, except the loops of
    an undirected graph. *)
Theorem built_graph_is_consistent g :
  built g →
  (∀ x, x ∈ get_nodes g ↔ x ∈ dict_keys (adjacency_list g))
  ∧ (∀ u v, has_edge g u v = true → v ∈ dict_keys (adjacency_list g))
  ∧ (directed g = false → ∀ u v, has_edge g u v = has_edge g v u)
  ∧ (∀ u v, directed g = true ∨ u ≠ v →
       count_occ_of (u, v) (get_edges g) ≤ 1).
Proof.
  intros Hb. pose proof (built_inv g Hb) as Hinv.
  pose proof Hinv as (Hwf & Hcl & Honce & Hdir & Hsym)%graph_inv_cnt.
  split_and!.
  - intros x. by apply get_nodes_keys.
  - intros u v Huv%has_edge_cnt. by eapply Hcl.
  - intros Hu u v. apply has_edge_eq. split; by apply Hsym.
  - intros u v Huv. rewrite get_edges_count by done.
    destruct Huv as [Hd|Hne]; [by apply Hdir|by apply Honce].
Qed.

(** X21. Adding an edge that is not there and removing it again gives back
    the edges of the graph; the two ends stay as nodes. *)
Theorem add_edge_remove_edge g u v :
  built g → has_edge g u v = false →
  ∃ g1 g2, add_edge g u v = Return (g1, true) ∧
    remove_edge g1 u v = Return (g2, true) ∧
    (∀ x z, has_edge g2 x z = has_edge g x z) ∧
    (∀ k, k ∈ dict_keys (adjacency_list g2)
          ↔ k = u ∨ k = v ∨ k ∈ dict_keys (adjacency_list g)).
Proof.
  intros Hb He.
  destruct (add_edge_spec g u v) as (g1 & Hadd & Hd1 & Hkeys1 & _ & _ & _ & Hget1).
  rewrite He in Hadd, Hget1. cbn [negb] in Hadd.
  assert (built g1) as Hb1 by (by eapply built_add_edge).
  assert (∀ x z, has_edge g1 x z = true ↔
            has_edge g x z = true ∨ (x = u ∧ z = v)
            ∨ (directed g = false ∧ x = v ∧ z = u)) as Hg1.
  { intros x z. rewrite !has_edge_true, Hget1. unfold with_edge.
    rewrite elem_of_app. destruct (directed g); cbn [negb andb].
    - rewrite elem_of_nil. case_decide; subst.
      + rewrite elem_of_app, list_elem_of_singleton. naive_solver.
      + naive_solver.
    - case_bool_decide; subst; rewrite ?list_elem_of_singleton, ?elem_of_nil;
        (case_decide; subst;
          [rewrite elem_of_app, list_elem_of_singleton|]); naive_solver. }
  destruct (remove_edge_built g1 u v Hb1)
    as (g2 & Hrem & Hkeys2 & Hd2 & Huv & Hvu & Hother & _).
  assert (has_edge g1 u v = true) as He1 by (apply Hg1; auto).
  rewrite He1 in Hrem. exists g1, g2. split_and!; [done..| |].
  - intros x z. destruct (decide ((x, z) = (u, v))) as [[= -> ->]|Hne1].
    { by rewrite Huv, He. }
    rewrite Hd1 in Hvu, Hother.
    destruct (directed g) eqn:Hd.
    + rewrite Hother by auto. apply has_edge_eq. rewrite <-!has_edge_cnt, Hg1.
      naive_solver.
    + destruct (decide ((x, z) = (v, u))) as [[= -> ->]|Hne2].
      * rewrite Hvu by done. symmetry. apply not_true_iff_false.
        intros Hvu'. apply not_true_iff_false in He. apply He.
        pose proof (built_inv g Hb) as Hinv.
        apply has_edge_true, (inv_sym _ Hinv Hd), has_edge_true, Hvu'.
      * rewrite Hother by auto. apply has_edge_eq. rewrite <-!has_edge_cnt, Hg1.
        naive_solver.
  - intros k. by rewrite Hkeys2, Hkeys1.
Qed.
End graph_class_more_theorems.

(** ** The [Graph] class: traversals *)

Section graph_class_traversal_facts.
Context `{Countable node}.
Import graph_class.
Implicit Types (g : Graph (node:=node)) (visited : gset node).
Implicit Types (x y s t n : node) (new : list node).


Lemma dfs_from_spec g (U : gset node) fuel :
  (∀ x y, edge (adjacency_list g) x y → y ∈ U) →
  ∀ n visited,
    n ∈ U → size (U ∖ visited) < fuel →
    ∃ visited' new,
      dfs_from fuel g n visited = Return (visited', new)
      ∧ dfs_call_post (adjacency_list g) n visited visited'
      ∧ NoDup new ∧ (∀ x, x ∈ new ↔ x ∈ visited' ∧ x ∉ visited)
      ∧ (n ∉ visited → head new = Some n).
Proof.
  intros HU. induction fuel as [|fuel IH]; intros n visited Hn Hsize; [lia|].
  cbn [dfs_from]. destruct (decide (n ∈ visited)) as [Hnv|Hnv].
  { exists visited, []. split; [done|]. split; [split_and!|split_and!].
    - done.
    - done.
    - auto.
    - done.
    - constructor.
    - intros x. rewrite elem_of_nil. tauto.
    - done. }
  set (body := λ neighbor '(visited, result),
         '(visited, found) ← dfs_from fuel g neighbor visited;
         Return (visited, result ++ found)).
  assert (Hloop : ∀ l v1 r1,
    {[n]} ∪ visited ⊆ v1 → (∀ x, x ∈ l → edge (adjacency_list g) n x) →
    ∃ v2 new, for_each l body (v1, r1) = Return (v2, r1 ++ new)
      ∧ v1 ⊆ v2 ∧ (∀ x, x ∈ l → x ∈ v2)
      ∧ (∀ x, x ∈ v2 → x ∈ v1 ∨ reachable (adjacency_list g) n x)
      ∧ (∀ x y, x ∈ v2 → x ∉ v1 → edge (adjacency_list g) x y → y ∈ v2)
      ∧ NoDup new ∧ (∀ x, x ∈ new ↔ x ∈ v2 ∧ x ∉ v1)).
  { induction l as [|nb l IHl]; intros v1 r1 Hv1 Hl.
    { exists v1, []. rewrite app_nil_r.
      split_and!; [done|done|set_solver|auto|done|constructor|set_solver]. }
    rewrite for_each_cons. cbn [body].
    destruct (IH nb v1)
      as (v1' & new1 & -> & (Hsub1 & Hnb1 & Hre1 & Hcl1) & Hnd1 & Hnew1 & _).
    { eapply HU, Hl. left. }
    { rewrite (size_difference_insert U visited n) in Hsize by done.
      assert (size (U ∖ v1) ≤ size (U ∖ ({[n]} ∪ visited))); [|lia].
      apply subseteq_size. set_solver. }
    rewrite !bind_Return.
    destruct (IHl v1' (r1 ++ new1))
      as (v2 & new2 & -> & Hsub & Hin & Hre & Hcl & Hnd2 & Hnew2);
      [set_solver|set_solver|].
    exists v2, (new1 ++ new2). rewrite app_assoc.
    split_and!; [done|set_solver| | | | |].
    + intros x [->|?]%elem_of_cons; auto.
    + intros x [Hx|?]%Hre; [|by right].
      apply Hre1 in Hx as [?|Hx]; [by left|]. right.
      eapply rtc_l; [|exact Hx]. apply Hl. left.
    + intros x y Hx Hxv1 Hxy. destruct (decide (x ∈ v1')); eauto.
    + apply NoDup_app. split_and!; [done| |done].
      intros x [Hx1 _]%Hnew1 [_ Hx2]%Hnew2. done.
    + intros x. rewrite elem_of_app, Hnew1, Hnew2.
      destruct (decide (x ∈ v1')); set_solver. }
  destruct (Hloop (get_neighbors g n) ({[n]} ∪ visited) [n])
    as (v2 & new & -> & Hsub & Hin & Hre & Hcl & Hnd & Hnew); [done|done|].
  exists v2, (n :: new). split; [done|]. split; [split_and!|split_and!].
  - set_solver.
  - set_solver.
  - intros x [[->%elem_of_singleton|?]%elem_of_union|?]%Hre; auto.
    right. apply rtc_refl.
  - intros x y Hx Hxv Hxy. destruct (decide (x = n)) as [->|Hne]; [by apply Hin|].
    eapply Hcl; [done| |done]. set_solver.
  - apply NoDup_cons. split; [|done]. rewrite Hnew. set_solver.
  - intros x. rewrite elem_of_cons, Hnew. destruct (decide (x = n)); set_solver.
  - done.
Qed.

Lemma dfs_spec g s :
  ∃ order, dfs g s = Return order
    ∧ NoDup order ∧ head order = Some s
    ∧ ∀ x, x ∈ order ↔ reachable (adjacency_list g) s x.
Proof.
  destruct (dfs_from_spec g ({[s]} ∪ graph_nodes (adjacency_list g))
              (2 + size (graph_nodes (adjacency_list g)))) with (n := s)
              (visited := ∅ : gset node)
    as (visited & order & Hrun & (_ & Hs & Hre & Hcl) & Hnd & Hnew & Hhead).
  - intros x y Hxy. apply elem_of_union_r. by eapply edge_graph_nodes.
  - set_solver.
  - rewrite difference_empty_L, size_union_alt, size_singleton.
    assert (size (graph_nodes (adjacency_list g) ∖ {[s]})
            ≤ size (graph_nodes (adjacency_list g))); [|lia].
    apply subseteq_size. set_solver.
  - exists order. unfold dfs. rewrite Hrun, bind_Return.
    split_and!; [done|done|by apply Hhead|].
    intros x. rewrite Hnew. split.
    + intros [[?%elem_of_empty|?]%Hre _]; done.
    + intros Hx. split; [|set_solver].
      apply (reachable_closed (adjacency_list g) (λ x, x ∈ visited) s x); [done| |done].
      intros a b Ha Hab. eapply Hcl; [done|set_solver|done].
Qed.


(** The loop over the neighbours in [bfs]. *)
Lemma bfs_visit_fold (U : gset node) l visited queue :
  (∀ x, x ∈ l → x ∈ U) →
  ∃ visited' added,
    foldl (λ st neighbor, bfs_visit neighbor st) (visited, queue) l
      = (visited', queue ++ added)
    ∧ (∀ x, x ∈ visited' ↔ x ∈ visited ∨ x ∈ l)
    ∧ NoDup added
    ∧ (∀ x, x ∈ added ↔ x ∈ l ∧ x ∉ visited)
    ∧ length added + size (U ∖ visited') = size (U ∖ visited).
Proof. apply (bfs_component_visit_fold U l visited queue). Qed.

Record bfs_inv g s (st : gset node * list node * list node) : Prop := {
  bfs_inv_start : s ∈ st.1.1;
  bfs_inv_reach : ∀ x, x ∈ st.1.1 → reachable (adjacency_list g) s x;
  bfs_inv_NoDup : NoDup (st.2 ++ st.1.2);
  bfs_inv_seen : ∀ x, x ∈ st.2 ++ st.1.2 ↔ x ∈ st.1.1;
  bfs_inv_closed : ∀ x y, x ∈ st.2 → edge (adjacency_list g) x y → y ∈ st.1.1;
  bfs_inv_head : head (st.2 ++ st.1.2) = Some s
}.

Lemma bfs_spec g s :
  ∃ order, bfs g s = Return order
    ∧ NoDup order ∧ head order = Some s
    ∧ ∀ x, x ∈ order ↔ reachable (adjacency_list g) s x.
Proof.
  set (U := {[s]} ∪ graph_nodes (adjacency_list g)).
  destruct (while_loop_rule (bfs_inv g s)
    (λ order, NoDup order ∧ head order = Some s
              ∧ ∀ x, x ∈ order ↔ reachable (adjacency_list g) s x)
    (λ st, length st.1.2 + size (U ∖ st.1.1))
    (bfs_body g) (2 + size (graph_nodes (adjacency_list g)))
    ({[s]}, [s], [])) as (order & Hrun & Hpost).
  - intros [[visited queue] order] [Hst Hreach Hnd Hseen Hcl Hhead].
    cbn [fst snd] in *. destruct queue as [|n queue]; cbn [bfs_body].
    + rewrite app_nil_r in *. split_and!; [done..|].
      intros x. split; [intros Hx; by apply Hreach, Hseen|].
      apply (reachable_closed (adjacency_list g) (λ x, x ∈ order)); [by apply Hseen|].
      intros a b Ha Hab. apply Hseen. by eapply Hcl.
    + destruct (bfs_visit_fold U (get_neighbors g n) visited queue)
        as (v' & added & -> & Hv & Hadd_nd & Hadd & Hm).
      { intros x Hx. apply elem_of_union_r. by eapply edge_graph_nodes. }
      cbn [fst snd]. split; [|rewrite length_app; cbn [length]; lia].
      assert (n ∈ visited) as Hnv by (apply Hseen; set_solver).
      assert ((order ++ [n]) ++ queue ++ added = (order ++ n :: queue) ++ added)
        as Heq by (by rewrite <-!app_assoc).
      constructor; cbn [fst snd]; rewrite ?Heq.
      * apply Hv. auto.
      * intros x [Hx|Hx]%Hv; [auto|]. eapply reachable_step; [|exact Hx]. auto.
      * apply NoDup_app. split_and!; [done| |done].
        intros x Hx [_ Hxa]%Hadd. by apply Hxa, Hseen.
      * intros x. rewrite elem_of_app, Hseen, Hadd, Hv.
        destruct (decide (x ∈ visited)); naive_solver.
      * intros x y [Hx|Hx]%elem_of_app Hxy.
        -- apply Hv. left. eauto.
        -- apply list_elem_of_singleton in Hx as ->. apply Hv. by right.
      * destruct (order ++ n :: queue) eqn:Hl; [by destruct order|done].
  - constructor; cbn [fst snd app].
    + set_solver.
    + intros x ->%elem_of_singleton. apply rtc_refl.
    + apply NoDup_singleton.
    + intros x. rewrite list_elem_of_singleton. set_solver.
    + intros x y Hx. by apply elem_of_nil in Hx.
    + done.
  - cbn [fst snd length].
    assert (size (U ∖ {[s]}) ≤ size (graph_nodes (adjacency_list g))); [|lia].
    apply subseteq_size. set_solver.
  - by exists order.
Qed.

End graph_class_traversal_facts.

Section graph_class_traversal_theorems.
Context `{Countable node}.
Import graph_class.
Implicit Types (g : Graph (node:=node)) (x y s : node).

(** X22. The methods [dfs] and [bfs] of the class return, for every graph
    and start node, a list that begins with the start node and holds each
    node reachable from it exactly once. *)
Theorem dfs_and_bfs_list_the_reachable_nodes_once g s :
  ∃ by_dfs by_bfs,
    dfs g s = Return by_dfs ∧ bfs g s = Return by_bfs
    ∧ NoDup by_dfs ∧ NoDup by_bfs
    ∧ head by_dfs = Some s ∧ head by_bfs = Some s
    ∧ (∀ x, x ∈ by_dfs ↔ reachable (adjacency_list g) s x)
    ∧ (∀ x, x ∈ by_bfs ↔ reachable (adjacency_list g) s x).
Proof.
  destruct (dfs_spec g s) as (by_dfs & ? & ? & ? & ?).
  destruct (bfs_spec g s) as (by_bfs & ? & ? & ? & ?).
  exists by_dfs, by_bfs. by split_and!.
Qed.

End graph_class_traversal_theorems.

Section graph_class_more_examples.
Import graph_class.

Lemma remove_edge_removes_the_edge_witness :
  built triangle ∧
  ∃ g', remove_edge triangle 1 2 = Return (g', has_edge triangle 1 2) ∧
    dict_keys (adjacency_list g') = dict_keys (adjacency_list triangle) ∧
    directed g' = directed triangle ∧
    has_edge g' 1 2 = false ∧
    (directed triangle = false → has_edge g' 2 1 = false) ∧
    (∀ x z, (x, z) ≠ (1, 2) → directed triangle = true ∨ (x, z) ≠ (2, 1) →
       has_edge g' x z = has_edge triangle x z) ∧
    (has_edge triangle 1 2 = false → g' = triangle).
Proof.
  split; [apply triangle_built|].
  exact (remove_edge_removes_the_edge triangle 1 2 triangle_built).
Defined.

Lemma built_graph_is_consistent_witness :
  built triangle ∧
  (∀ x, x ∈ get_nodes triangle ↔ x ∈ dict_keys (adjacency_list triangle))
  ∧ (∀ u v, has_edge triangle u v = true → v ∈ dict_keys (adjacency_list triangle))
  ∧ (directed triangle = false → ∀ u v, has_edge triangle u v = has_edge triangle v u)
  ∧ (∀ u v, directed triangle = true ∨ u ≠ v →
       count_occ_of (u, v) (get_edges triangle) ≤ 1).
Proof.
  split; [apply triangle_built|].
  exact (built_graph_is_consistent triangle triangle_built).
Defined.

Lemma triangle_no_edge : has_edge triangle 2 1 = false.
Proof. reflexivity. Qed.

Lemma add_edge_remove_edge_witness :
  built triangle ∧ has_edge triangle 2 1 = false ∧
  ∃ g1 g2, add_edge triangle 2 1 = Return (g1, true) ∧
    remove_edge g1 2 1 = Return (g2, true) ∧
    (∀ x z, has_edge g2 x z = has_edge triangle x z) ∧
    (∀ k, k ∈ dict_keys (adjacency_list g2)
          ↔ k = 2 ∨ k = 1 ∨ k ∈ dict_keys (adjacency_list triangle)).
Proof.
  split; [apply triangle_built|]. split; [apply triangle_no_edge|].
  exact (add_edge_remove_edge triangle 2 1 triangle_built triangle_no_edge).
Defined.

(** The undirected graph [A - B, B - C] with [1] to [3] for [A] to [C], and
    a loop at [3]: removing the loop takes both entries of the list. *)
Example remove_undirected_loop :
  ∃ g1 g2 g3 g4,
    add_edge (init false) 1 2 = Return (g1, true)
    ∧ add_edge g1 2 3 = Return (g2, true)
    ∧ add_edge g2 3 3 = Return (g3, true)
    ∧ adjacency_list g3 = [(1, [2]); (2, [1; 3]); (3, [2; 3; 3])]
    ∧ remove_edge g3 3 3 = Return (g4, true)
    ∧ adjacency_list g4 = [(1, [2]); (2, [1; 3]); (3, [2])].
Proof. eexists _, _, _, _. by split_and!. Qed.

Example triangle_traversals :
  dfs triangle 1 = Return [1; 2; 3] ∧ bfs triangle 1 = Return [1; 2; 3]
  ∧ is_connected triangle = Return true.
Proof. split_and!; vm_compute; reflexivity. Qed.
End graph_class_more_examples.

(** ** Depth-first search for paths *)

Section dfs_paths_facts.
Context `{Countable node}.
Import path_finding dfs_recursive.
Implicit Types (graph : list (node * list node)) (A : gset node).
Implicit Types (x y s t n : node) (path w p : list node).

(** [t] can be reached from [s] without entering [A]. *)
Definition reach_avoiding graph A s t : Prop :=
  rtc (λ x y, edge graph x y ∧ y ∉ A) s t.

Lemma reach_avoiding_empty graph s t :
  reach_avoiding graph ∅ s t ↔ reachable graph s t.
Proof.
  split; apply rtc_subrel.
  - by intros x y [? _].
  - intros x y ?. split; [done|set_solver].
Qed.

(** A path that leaves [s] for good starts with an edge out of [s] and goes
    on without [s]. *)
Lemma reach_avoiding_step graph A s t :
  reach_avoiding graph A s t → s ≠ t →
  ∃ nb, edge graph s nb ∧ nb ∉ {[s]} ∪ A
        ∧ reach_avoiding graph ({[s]} ∪ A) nb t.
Proof.
  intros Hst Hne.
  assert (∀ x, reach_avoiding graph A x t →
    (x ≠ s ∧ reach_avoiding graph ({[s]} ∪ A) x t)
    ∨ ∃ nb, edge graph s nb ∧ nb ∉ {[s]} ∪ A
            ∧ reach_avoiding graph ({[s]} ∪ A) nb t) as Hgen.
  { intros x Hx. induction Hx as [x|x y z [Hxy Hy] _ IH].
    - left. split; [done|apply rtc_refl].
    - destruct (IH Hst Hne) as [[Hys Hyz]|?]; [|by right].
      destruct (decide (x = s)) as [->|Hxs].
      + right. exists y. split_and!; [done|set_solver|done].
      + left. split; [done|]. eapply rtc_l; [|exact Hyz]. split; [done|set_solver]. }
  destruct (Hgen s Hst) as [[? _]|?]; done.
Qed.

Lemma walk_cons graph s nb t w :
  edge graph s nb → walk_from_to graph nb t w → walk_from_to graph s t (s :: w).
Proof.
  intros Hedge (Hw & Hhead & Hlast). destruct w as [|x w]; [done|].
  injection Hhead as ->. split_and!; [by split|done|done].
Qed.

Lemma walk_uncons graph s t w :
  walk_from_to graph s t w → s ≠ t →
  ∃ nb w', w = s :: w' ∧ edge graph s nb ∧ walk_from_to graph nb t w'.
Proof.
  intros (Hw & Hhead & Hlast) Hne. destruct w as [|x w]; [done|].
  injection Hhead as ->. destruct w as [|nb w]; [by injection Hlast|].
  destruct Hw as [Hedge Hw]. exists nb, (nb :: w). by split_and!.
Qed.

Lemma walk_head graph s t w : walk_from_to graph s t w → ∃ w', w = s :: w'.
Proof.
  intros (_ & Hhead & _). destruct w as [|x w]; [done|].
  injection Hhead as ->. by eexists.
Qed.

Lemma walk_last_elem_of graph s t w : walk_from_to graph s t w → t ∈ w.
Proof.
  intros (_ & _ & Hlast). apply last_Some in Hlast as [l ->]. set_solver.
Qed.

(** A walk from a node to itself that repeats no node is the node alone. *)
Lemma simple_cycle_singleton graph s w :
  walk_from_to graph s s w → NoDup w → w = [s].
Proof.
  intros Hw Hnd. destruct (walk_head _ _ _ _ Hw) as [w' ->].
  destruct w' as [|x w']; [done|]. exfalso.
  destruct Hw as (_ & _ & Hlast). apply NoDup_cons in Hnd as [Hs _].
  apply Hs. change (last (s :: x :: w')) with (last (x :: w')) in Hlast.
  apply last_Some in Hlast as [l ->]. set_solver.
Qed.

Lemma size_avoid (U : gset node) path s :
  s ∈ U → s ∉ path →
  size (U ∖ list_to_set path) = S (size (U ∖ list_to_set (path ++ [s]))).
Proof.
  intros HU Hs.
  rewrite (size_difference_insert U (list_to_set path) s); [|done|set_solver].
  do 2 f_equal. apply set_eq. intros x.
  rewrite !elem_of_difference, elem_of_union, !elem_of_list_to_set, elem_of_app.
  set_solver.
Qed.

Lemma dfs_find_any_path_from_spec graph (U : gset node) t fuel :
  (∀ x y, edge graph x y → y ∈ U) →
  ∀ s path,
    s ∈ U → s ∉ path → NoDup path → size (U ∖ list_to_set path) ≤ fuel →
    ∃ r, dfs_find_any_path_from fuel graph s t path = Return r ∧
      match r with
      | Some p => ∃ w, p = path ++ w ∧ walk_from_to graph s t w ∧ NoDup p
      | None => ¬ reach_avoiding graph (list_to_set path) s t
      end.
Proof.
  intros HU. induction fuel as [|fuel IH]; intros s path Hs Hsp Hnd Hsize.
  { assert (size (U ∖ list_to_set (C := gset node) path) ≠ 0); [|lia].
    apply size_non_empty_iff. set_solver. }
  cbn [dfs_find_any_path_from]. destruct (decide (s = t)) as [->|Hne].
  { eexists. split; [done|]. exists [t]. split_and!; [done|apply walk_singleton|].
    apply NoDup_app. split_and!; [done| |apply NoDup_singleton].
    intros x Hx ->%list_elem_of_singleton. done. }
  set (path' := path ++ [s]).
  assert (NoDup path') as Hnd'.
  { apply NoDup_app. split_and!; [done| |apply NoDup_singleton].
    intros x Hx ->%list_elem_of_singleton. done. }
  set (good := λ p, ∃ nb w', p = path' ++ w' ∧ edge graph s nb
                      ∧ walk_from_to graph nb t w' ∧ NoDup p).
  set (body := λ neighbor (found : option (list node)),
         match found with
         | Some new_path => Return (Some new_path)
         | None =>
             if negb (list_mem neighbor path') then
               new_path ← dfs_find_any_path_from fuel graph neighbor t path';
               Return (found_path new_path)
             else Return None
         end).
  assert (Hloop : ∀ l found,
    (∀ x, x ∈ l → edge graph s x) →
    match found with Some p => good p | None => True end →
    ∃ r, for_each l body found = Return r ∧
      match r with
      | Some p => good p
      | None => found = None ∧ ∀ nb, nb ∈ l → nb ∉ path' →
                  ¬ reach_avoiding graph (list_to_set path') nb t
      end).
  { induction l as [|nb l IHl]; intros found Hl Hfound.
    { exists found. split; [done|]. destruct found; [done|].
      split; [done|]. intros nb Hnb. by apply elem_of_nil in Hnb. }
    rewrite for_each_cons. destruct found as [p|].
    { cbn [body]. rewrite bind_Return.
      destruct (IHl (Some p)) as (r & -> & Hr); [set_solver|done|].
      exists r. split; [done|]. destruct r; [done|]. by destruct Hr. }
    cbn [body]. destruct (list_mem nb path') eqn:Hmem; cbn [negb].
    - apply list_mem_true in Hmem. rewrite bind_Return.
      destruct (IHl None) as (r & -> & Hr); [set_solver|done|].
      exists r. split; [done|]. destruct r; [done|]. split; [done|].
      intros x [->|Hx]%elem_of_cons; [done|]. by apply Hr.
    - apply list_mem_false in Hmem.
      destruct (IH nb path') as (r1 & -> & Hr1).
      { eapply HU, Hl. left. }
      { done. }
      { done. }
      { rewrite (size_avoid U path s) in Hsize by done. fold path' in Hsize. lia. }
      rewrite !bind_Return. destruct r1 as [p|].
      + destruct Hr1 as (w' & -> & Hw' & Hndp).
        assert (found_path (Some (path' ++ w')) = Some (path' ++ w')) as ->.
        { unfold path'. by destruct path. }
        destruct (IHl (Some (path' ++ w'))) as (r & -> & Hr); [set_solver| |].
        { exists nb, w'. split_and!; [done|apply Hl; left|done|done]. }
        exists r. split; [done|]. destruct r; [done|]. by destruct Hr.
      + cbn [found_path].
        destruct (IHl None) as (r & -> & Hr); [set_solver|done|].
        exists r. split; [done|]. destruct r; [done|]. split; [done|].
        intros x [->|Hx]%elem_of_cons; [done|]. by apply Hr. }
  destruct (Hloop (graph_get graph s) None) as (r & -> & Hr); [done|done|].
  exists r. split; [done|]. destruct r as [p|].
  - destruct Hr as (nb & w' & -> & Hedge & Hw' & Hndp). exists (s :: w').
    unfold path' in *. rewrite <-app_assoc in *.
    split_and!; [done|by eapply walk_cons|done].
  - destruct Hr as [_ Hr]. intros Hreach.
    destruct (reach_avoiding_step graph _ s t Hreach Hne) as (nb & Hedge & Hnb & Hnbt).
    apply (Hr nb Hedge).
    + unfold path'. set_solver.
    + assert (list_to_set path' = {[s]} ∪ list_to_set (C := gset node) path) as ->; [|done].
      unfold path'. set_solver.
Qed.

Lemma dfs_find_any_path_spec graph s t :
  ∃ r, dfs_find_any_path graph s t = Return r ∧
    match r with
    | Some p => simple_path graph s t p
    | None => ¬ reachable graph s t
    end.
Proof.
  destruct (dfs_find_any_path_from_spec graph ({[s]} ∪ graph_nodes graph) t
              (2 + size (graph_nodes graph))) with (s := s) (path := @nil node)
    as (r & Hrun & Hr).
  - intros x y Hxy. apply elem_of_union_r. by eapply edge_graph_nodes.
  - set_solver.
  - apply not_elem_of_nil.
  - constructor.
  - cbn [list_to_set]. rewrite difference_empty_L, size_union_alt, size_singleton.
    assert (size (graph_nodes graph ∖ {[s]}) ≤ size (graph_nodes graph)); [|lia].
    apply subseteq_size. set_solver.
  - exists r. split; [done|]. destruct r as [p|].
    + destruct Hr as (w & -> & Hw & Hnd). done.
    + by rewrite <-reach_avoiding_empty.
Qed.

(** [dfs_find_path] of [dfs_recursive.py] is the same function. *)
Lemma dfs_find_path_from_eq fuel graph s t path :
  dfs_find_path_from fuel graph s t path = dfs_find_any_path_from fuel graph s t path.
Proof.
  revert s path. induction fuel as [|fuel IH]; intros s path; [done|].
  cbn [dfs_find_path_from dfs_find_any_path_from].
  destruct (decide (s = t)); [done|]. apply for_each_ext.
  intros nb [p|]; [done|]. destruct (list_mem nb (path ++ [s])); [done|].
  cbn [negb]. by rewrite IH.
Qed.

Lemma dfs_find_all_paths_from_spec graph (U : gset node) t fuel :
  (∀ x y, edge graph x y → y ∈ U) →
  ∀ s path acc,
    s ∈ U → s ∉ path → NoDup path → size (U ∖ list_to_set path) ≤ fuel →
    ∃ new, dfs_find_all_paths_from fuel graph s t path acc = Return (acc ++ new) ∧
      ∀ p, p ∈ new ↔ ∃ w, p = path ++ w ∧ walk_from_to graph s t w ∧ NoDup p.
Proof.
  intros HU. induction fuel as [|fuel IH]; intros s path acc Hs Hsp Hnd Hsize.
  { assert (size (U ∖ list_to_set (C := gset node) path) ≠ 0); [|lia].
    apply size_non_empty_iff. set_solver. }
  cbn [dfs_find_all_paths_from].
  assert (NoDup (path ++ [s])) as Hnd'.
  { apply NoDup_app. split_and!; [done| |apply NoDup_singleton].
    intros x Hx ->%list_elem_of_singleton. done. }
  destruct (decide (s = t)) as [->|Hne].
  { exists [path ++ [t]]. split; [done|]. intros p. rewrite list_elem_of_singleton.
    split.
    - intros ->. exists [t]. split_and!; [done|apply walk_singleton|done].
    - intros (w & -> & Hw & Hndp). do 2 f_equal.
      eapply simple_cycle_singleton; [done|].
      by apply NoDup_app in Hndp as (_ & _ & ?). }
  set (path' := path ++ [s]) in *.
  set (body := λ neighbor (all_paths : list (list node)),
         if negb (list_mem neighbor path') then
           dfs_find_all_paths_from fuel graph neighbor t path' all_paths
         else Return all_paths).
  assert (Hloop : ∀ l acc,
    (∀ x, x ∈ l → edge graph s x) →
    ∃ new, for_each l body acc = Return (acc ++ new) ∧
      ∀ p, p ∈ new ↔ ∃ nb w', nb ∈ l ∧ nb ∉ path' ∧ p = path' ++ w'
                      ∧ walk_from_to graph nb t w' ∧ NoDup p).
  { induction l as [|nb l IHl]; intros acc' Hl.
    { exists []. rewrite app_nil_r. split; [done|]. intros p.
      rewrite elem_of_nil. split; [done|]. intros (nb & _ & ?%elem_of_nil & _). done. }
    rewrite for_each_cons.
    destruct (list_mem nb path') eqn:Hmem.
    - assert (body nb acc' = Return acc') as ->
        by (unfold body; by rewrite Hmem).
      apply list_mem_true in Hmem. rewrite bind_Return.
      destruct (IHl acc') as (new & -> & Hnew); [set_solver|].
      exists new. split; [done|]. intros p. rewrite Hnew.
      setoid_rewrite elem_of_cons. naive_solver.
    - assert (body nb acc'
              = dfs_find_all_paths_from fuel graph nb t path' acc') as ->
        by (unfold body; by rewrite Hmem).
      apply list_mem_false in Hmem.
      destruct (IH nb path' acc') as (new1 & -> & Hnew1).
      { eapply HU, Hl. left. }
      { done. }
      { done. }
      { rewrite (size_avoid U path s) in Hsize by done. fold path' in Hsize. lia. }
      rewrite bind_Return.
      destruct (IHl (acc' ++ new1)) as (new2 & -> & Hnew2); [set_solver|].
      exists (new1 ++ new2). rewrite app_assoc. split; [done|]. intros p.
      rewrite elem_of_app, Hnew1, Hnew2. setoid_rewrite elem_of_cons. split.
      + intros [(w' & -> & Hw' & Hndp)|(nb' & w' & ? & ? & ? & ? & ?)].
        * exists nb, w'. auto.
        * exists nb', w'. auto.
      + intros (nb' & w' & [->|Hin] & Hnb' & -> & Hw' & Hndp).
        * left. by exists w'.
        * right. by exists nb', w'. }
  destruct (Hloop (graph_get graph s) acc) as (new & -> & Hnew); [done|].
  exists new. split; [done|]. intros p. rewrite Hnew. split.
  - intros (nb & w' & Hnb & Hnbp & -> & Hw' & Hndp). exists (s :: w').
    unfold path' in *. rewrite <-app_assoc in *.
    split_and!; [done|by eapply walk_cons|done].
  - intros (w & -> & Hw & Hndp).
    destruct (walk_uncons _ _ _ _ Hw Hne) as (nb & w' & -> & Hedge & Hw').
    exists nb, w'. unfold path'. rewrite <-app_assoc. split_and!; [done| |done..].
    replace (path ++ s :: w') with ((path ++ [s]) ++ w') in Hndp
      by (by rewrite <-app_assoc).
    apply NoDup_app in Hndp as (_ & Hdisj & _). intros Hin.
    apply (Hdisj nb Hin). destruct (walk_head _ _ _ _ Hw') as [w'' ->]. left.
Qed.

Lemma dfs_find_all_paths_spec graph s t :
  ∃ paths, dfs_find_all_paths graph s t = Return paths ∧
    ∀ p, p ∈ paths ↔ simple_path graph s t p.
Proof.
  destruct (dfs_find_all_paths_from_spec graph ({[s]} ∪ graph_nodes graph) t
              (2 + size (graph_nodes graph))) with (s := s) (path := @nil node)
              (acc := @nil (list node))
    as (paths & Hrun & Hpaths).
  - intros x y Hxy. apply elem_of_union_r. by eapply edge_graph_nodes.
  - set_solver.
  - apply not_elem_of_nil.
  - constructor.
  - cbn [list_to_set]. rewrite difference_empty_L, size_union_alt, size_singleton.
    assert (size (graph_nodes graph ∖ {[s]}) ≤ size (graph_nodes graph)); [|lia].
    apply subseteq_size. set_solver.
  - exists paths. split; [done|]. intros p. rewrite Hpaths. unfold simple_path.
    naive_solver.
Qed.

(** [dfs_with_path] is the search of [find_connected_components_dfs]. *)
Lemma dfs_with_path_from_eq fuel graph n st :
  dfs_with_path_from fuel graph n st
  = connected_components.dfs_component fuel graph n st.
Proof.
  revert n st. induction fuel as [|fuel IH]; intros n [visited path]; [done|].
  cbn [dfs_with_path_from connected_components.dfs_component].
  apply for_each_ext. intros x v. by rewrite IH.
Qed.

Lemma dfs_component_extends graph fuel n st r :
  connected_components.dfs_component fuel graph n st = Return r →
  ∃ new, r.2 = st.2 ++ n :: new.
Proof.
  revert n st r. induction fuel as [|fuel IH]; intros n [visited path] r; [done|].
  cbn [connected_components.dfs_component].
  assert (∀ l st r,
    for_each l (λ neighbor st,
        if decide (neighbor ∈ st.1) then Return st
        else connected_components.dfs_component fuel graph neighbor st) st = Return r →
    ∃ new, r.2 = st.2 ++ new) as Hloop.
  { induction l as [|nb l IHl]; intros st r'.
    - intros [= <-]. exists []. by rewrite app_nil_r.
    - rewrite for_each_cons. destruct (decide (nb ∈ st.1)).
      + rewrite bind_Return. apply IHl.
      + destruct (connected_components.dfs_component fuel graph nb st)
          as [st'| |] eqn:Hcall; [|done..].
        rewrite bind_Return. intros (new & ->)%IHl.
        destruct (IH _ _ _ Hcall) as (new' & ->). eexists.
        by rewrite <-app_assoc. }
  intros (new & ->)%Hloop. cbn [snd]. exists new. by rewrite <-app_assoc.
Qed.

Lemma dfs_with_path_spec graph n :
  ∃ visited path, dfs_with_path graph n = Return (visited, path) ∧
    NoDup path ∧ head path = Some n ∧
    (∀ x, x ∈ path ↔ x ∈ visited) ∧
    (∀ x, x ∈ visited ↔ reachable graph n x).
Proof.
  unfold dfs_with_path. rewrite dfs_with_path_from_eq.
  destruct (dfs_component_spec graph ({[n]} ∪ graph_nodes graph)
              (2 + size (graph_nodes graph))) with (n := n)
              (visited := ∅ : gset node) (comp := @nil node)
    as (visited & path & Hrun & (_ & Hn & Hre & Hcl) & Hnd & Hpath).
  - intros x y Hxy. apply elem_of_union_r. by eapply edge_graph_nodes.
  - set_solver.
  - set_solver.
  - rewrite difference_empty_L, size_union_alt, size_singleton.
    assert (size (graph_nodes graph ∖ {[n]}) ≤ size (graph_nodes graph)); [|lia].
    apply subseteq_size. set_solver.
  - exists visited, path. cbn [app] in Hrun. split_and!; [done|done| | |].
    + destruct (dfs_component_extends _ _ _ _ _ Hrun) as (new & Heq).
      cbn in Heq. by rewrite Heq.
    + intros x. rewrite Hpath. set_solver.
    + intros x. split.
      * intros [?%elem_of_empty|?]%Hre; done.
      * apply (reachable_closed graph (λ x, x ∈ visited)); [done|].
        intros a b Ha Hab. eapply Hcl; [done|set_solver|done].
Qed.
End dfs_paths_facts.

Section dfs_paths_theorems.
Context `{Countable node}.
Import path_finding dfs_recursive.
Implicit Types (graph : list (node * list node)) (s t n : node).

(** X24. [dfs_with_path] returns the set of the nodes reachable from the
    start and a list that begins with the start and holds each of them
    once. *)
Theorem dfs_with_path_lists_the_reachable_nodes graph n :
  ∃ visited path, dfs_with_path graph n = Return (visited, path) ∧
    NoDup path ∧ head path = Some n ∧
    (∀ x, x ∈ path ↔ x ∈ visited) ∧
    (∀ x, x ∈ visited ↔ reachable graph n x).
Proof. apply dfs_with_path_spec. Qed.

(** X25. [dfs_find_any_path] (and [dfs_find_path], the same function in
    [dfs_recursive.py]) returns a path from the start to the target that
    follows edges and repeats no node when the target can be reached, and
    [None] when it cannot. *)
Theorem dfs_path_finders_find_a_simple_path graph s t :
  ∃ r, dfs_find_any_path graph s t = Return r
    ∧ dfs_find_path graph s t = Return r
    ∧ match r with
      | Some path => simple_path graph s t path
      | None => ¬ reachable graph s t
      end.
Proof.
  destruct (dfs_find_any_path_spec graph s t) as (r & Hrun & Hr).
  exists r. split; [done|]. split; [|done].
  unfold dfs_find_path. by rewrite dfs_find_path_from_eq.
Qed.

(** X26. [dfs_find_all_paths] returns the list of the paths from the start
    to the target that follow edges and repeat no node: each such path is
    in the list, and nothing else. *)
Theorem dfs_find_all_paths_lists_the_simple_paths graph s t :
  ∃ paths, dfs_find_all_paths graph s t = Return paths ∧
    ∀ path, path ∈ paths ↔ simple_path graph s t path.
Proof. apply dfs_find_all_paths_spec. Qed.
End dfs_paths_theorems.

Section dfs_paths_examples.
Import path_finding dfs_recursive.

(** On the graph [1 -> 2, 1 -> 3, 2 -> 4, 3 -> 4, 4 -> 1]. *)
Example dfs_paths_on_a_diamond :
  let diamond := [(1, [2; 3]); (2, [4]); (3, [4]); (4, [1])] in
  dfs_find_any_path diamond 1 4 = Return (Some [1; 2; 4])
  ∧ dfs_find_all_paths diamond 1 4 = Return [[1; 2; 4]; [1; 3; 4]]
  ∧ dfs_find_any_path diamond 1 5 = Return None
  ∧ dfs_with_path diamond 1 = Return ({[1; 2; 3; 4]}, [1; 2; 4; 3]).
Proof. split_and!; vm_compute; reflexivity. Qed.
End dfs_paths_examples.

(** ** Dijkstra's algorithm: the paths *)

Section dijkstra_path_facts.
Context `{Countable node}.
Import dijkstra.
Implicit Types (node_ltb : node → node → bool).
Implicit Types (graph : list (node * list (node * Z))) (visited : gset node).
Implicit Types (n x y s t target : node) (d c w : Z).
Implicit Types (dist : list (node * distance)) (prev : list (node * node)).

(** How [previous] and [distances] go together: the distance of a node is
    that of its predecessor plus the weight of an edge between them, and a
    node with a distance and no predecessor is the start, at distance 0. *)
Record link_inv graph s dist prev : Prop := {
  link_edge : ∀ x y, dict_get prev x = Some y →
    ∃ w dy, (x, w) ∈ graph_get graph y
      ∧ dict_get dist y = Some (Finite dy)
      ∧ dict_get dist x = Some (Finite (dy + w));
  link_start : ∀ x dx, dict_get dist x = Some (Finite dx) →
    (x = s ∧ dx = 0%Z) ∨ x ∈ dict_keys prev
}.

(** The relaxation changes the distance and the predecessor of a node
    together. *)
Lemma relax_loop_link visited n d (l : list (node * Z)) dist prev
    (pq : list (Z * node)) st' :
  for_each l (relax visited n d) (dist, prev, pq) = Return st' →
  ∀ x, (dict_get st'.1.1 x = dict_get dist x
        ∧ dict_get st'.1.2 x = dict_get prev x)
       ∨ (x ∉ visited ∧ dict_get st'.1.2 x = Some n
          ∧ ∃ w, (x, w) ∈ l ∧ dict_get st'.1.1 x = Some (Finite (d + w))).
Proof.
  revert dist prev pq. induction l as [|[x0 w0] l IH]; intros dist prev pq.
  { intros [= <-] x. by left. }
  rewrite for_each_cons, relax_eq.
  assert (∀ dist1 prev1 pq1,
    for_each l (relax visited n d) (dist1, prev1, pq1) = Return st' →
    (∀ x, x ≠ x0 → dict_get dist1 x = dict_get dist x
                   ∧ dict_get prev1 x = dict_get prev x) →
    ((dict_get dist1 x0 = dict_get dist x0 ∧ dict_get prev1 x0 = dict_get prev x0)
     ∨ (x0 ∉ visited ∧ dict_get dist1 x0 = Some (Finite (d + w0))
        ∧ dict_get prev1 x0 = Some n)) →
    ∀ x, (dict_get st'.1.1 x = dict_get dist x
          ∧ dict_get st'.1.2 x = dict_get prev x)
         ∨ (x ∉ visited ∧ dict_get st'.1.2 x = Some n
            ∧ ∃ w, (x, w) ∈ (x0, w0) :: l
                   ∧ dict_get st'.1.1 x = Some (Finite (d + w)))) as Hnext.
  { intros dist1 prev1 pq1 Hrun Hother Hx0 x.
    destruct (IH _ _ _ Hrun x) as [[Hd Hp]|(Hx & Hp & w & Hw & Hd)].
    - destruct (decide (x = x0)) as [->|Hne].
      + destruct Hx0 as [[Hd0 Hp0]|(Hv & Hd0 & Hp0)].
        * left. by rewrite Hd, Hp.
        * right. split_and!; [done|by rewrite Hp|].
          exists w0. split; [left|by rewrite Hd].
      + left. destruct (Hother x Hne) as [Hd1 Hp1]. by rewrite Hd, Hp.
    - right. split_and!; [done..|]. exists w. split; [by right|done]. }
  destruct (decide (x0 ∈ visited)) as [Hv|Hv].
  { rewrite bind_Return. intros Hrun. by eapply Hnext; [done| |left]. }
  destruct (dict_lookup dist x0) as [old| |] eqn:Hold; [|done..].
  rewrite bind_Return. destruct (distance_ltb (d + w0) old).
  - rewrite bind_Return. intros Hrun. eapply Hnext; [done| |].
    + intros x Hne. by rewrite !dict_get_set_ne.
    + right. by rewrite !dict_get_set_eq.
  - rewrite bind_Return. intros Hrun. by eapply Hnext; [done| |left].
Qed.

Lemma link_inv_initial graph s : link_inv graph s (initial_distances graph s) [].
Proof.
  constructor; [done|]. intros x dx. rewrite initial_distances_get.
  repeat case_decide; intros [= <-]. by left.
Qed.

(** The entry taken off the heap for a node that is not visited carries the
    distance recorded for the node. *)
Lemma dijkstra_popped_distance graph s dist prev pq pq' visited d n :
  pq ≡ₚ (d, n) :: pq' → (∀ e, e ∈ pq → (d ≤ e.1)%Z) → n ∉ visited →
  dijkstra_queue_inv graph s (dist, prev, pq, visited) →
  dict_get dist n = Some (Finite d).
Proof.
  intros Hperm Hleast Hn (_ & Hent & Hfin).
  destruct (Hent (d, n)) as (dn & Hdn & Hle); [rewrite Hperm; left|].
  cbn [fst snd] in *. specialize (Hleast _ (Hfin n dn Hn Hdn)).
  cbn [fst] in Hleast. rewrite Hdn. do 2 f_equal. lia.
Qed.

Lemma link_inv_relax graph s dist prev pq pq' visited d n st' :
  pq ≡ₚ (d, n) :: pq' → (∀ e, e ∈ pq → (d ≤ e.1)%Z) → n ∉ visited →
  dijkstra_queue_inv graph s (dist, prev, pq, visited) →
  dijkstra_prev_inv prev visited →
  link_inv graph s dist prev →
  relax_post ({[n]} ∪ visited) n d (graph_get graph n) (dist, prev, pq') st' →
  for_each (graph_get graph n) (relax ({[n]} ∪ visited) n d) (dist, prev, pq')
    = Return st' →
  link_inv graph s st'.1.1 st'.1.2.
Proof.
  intros Hperm Hleast Hn Hq (_ & rank & _ & _ & Hprev) [Hedge Hstart] Hpost Hrun.
  pose proof (dijkstra_popped_distance _ _ _ _ _ _ _ _ _ Hperm Hleast Hn Hq) as Hdn.
  pose proof (relax_loop_link _ _ _ _ _ _ _ _ Hrun) as Hlink.
  pose proof (rp_visited _ _ _ _ _ _ Hpost) as Hvis. cbn [fst snd] in Hvis.
  constructor.
  - intros x y Hxy. destruct (Hlink x) as [[Hd Hp]|(Hx & Hp & w & Hw & Hd)].
    + rewrite Hp in Hxy. destruct (Hedge x y Hxy) as (w & dy & Hw & Hdy & Hdx).
      exists w, dy. split; [done|]. rewrite Hd. split; [|done].
      rewrite Hvis; [done|]. destruct (Hprev x y Hxy). set_solver.
    + rewrite Hp in Hxy. injection Hxy as <-. exists w, d.
      split_and!; [done| |done]. rewrite Hvis by set_solver. done.
  - intros x dx Hdx. destruct (Hlink x) as [[Hd Hp]|(Hx & Hp & _)].
    + rewrite Hd in Hdx. destruct (Hstart x dx Hdx) as [?|Hk]; [by left|right].
      apply dict_get_is_Some. rewrite Hp. by apply dict_get_is_Some.
    + right. apply dict_get_is_Some. by rewrite Hp.
Qed.

(** [reconstruct_path] follows the chain of predecessors back to the
    start: the path has the weight recorded as the distance. *)
Lemma reconstruct_path_spec graph s dist prev t dt :
  dict_wf prev → prev_ranked prev → link_inv graph s dist prev →
  dict_get dist t = Some (Finite dt) →
  ∃ p, reconstruct_path prev s t = Return (Some p)
    ∧ head p = Some s ∧ last p = Some t ∧ wpath graph p dt.
Proof.
  intros Hwf [rank Hrank] [Hedge Hstart] Ht. unfold reconstruct_path.
  assert (negb (dict_mem prev t) && negb (bool_decide (t = s)) = false) as ->.
  { destruct (Hstart t dt Ht) as [[-> _]|Hk].
    - rewrite bool_decide_eq_true_2 by done. by rewrite andb_false_r.
    - apply dict_mem_true in Hk. by rewrite Hk. }
  destruct (while_loop_rule
    (λ '(path, current),
       match current with
       | None => head (reverse path) = Some s ∧ last (reverse path) = Some t
                 ∧ wpath graph (reverse path) dt
       | Some c => NoDup path
                   ∧ (∀ x, x ∈ path → x ∈ dict_keys prev ∧ rank c < rank x)
                   ∧ ∃ dc, dict_get dist c = Some (Finite dc)
                       ∧ last (c :: reverse path) = Some t
                       ∧ wpath graph (c :: reverse path) (dt - dc)
       end)
    (λ path, head (reverse path) = Some s ∧ last (reverse path) = Some t
             ∧ wpath graph (reverse path) dt)
    (λ '(path, current),
       match current with
       | None => 0
       | Some _ => 1 + length prev - length path
       end)
    (reconstruct_path_body prev) (2 + length prev) ([], Some t))
    as (path & -> & Hhead & Hlast & Hpath).
  - intros [path [c|]]; simpl; [|done].
    intros (Hnd & Hin & dc & Hdc & Hlast & Hw).
    assert (Hc : c ∉ path).
    { intros Hc. destruct (Hin c Hc). lia. }
    assert (Hlen : length path ≤ length prev).
    { unfold dict_wf, dict_keys in *. rewrite <-(length_fmap fst prev).
      apply submseteq_length, NoDup_submseteq; [done|]. intros x Hx.
      by apply Hin. }
    rewrite reverse_snoc.
    destruct (dict_get prev c) as [c'|] eqn:Hc'.
    + assert (Hck : c ∈ dict_keys prev) by (apply dict_get_is_Some; eauto).
      assert (Hnd' : NoDup (path ++ [c])).
      { apply NoDup_app. split_and!; [done| |apply NoDup_singleton].
        intros x Hx ->%list_elem_of_singleton. done. }
      assert (Hin' : ∀ x, x ∈ path ++ [c] →
                          x ∈ dict_keys prev ∧ rank c' < rank x).
      { pose proof (Hrank _ _ Hc').
        intros x [Hx| ->%list_elem_of_singleton]%elem_of_app; [|done].
        destruct (Hin x Hx). split; [done|lia]. }
      destruct (Hedge c c' Hc') as (w & dc' & Hw' & Hdc' & Hdc'').
      assert (dc = (dc' + w)%Z) as -> by congruence.
      split.
      * split_and!; [done..|]. exists dc'. split_and!; [done|done|].
        replace (dt - dc')%Z with (w + (dt - (dc' + w)))%Z by lia.
        by constructor.
      * assert (length (path ++ [c]) ≤ length prev).
        { unfold dict_wf, dict_keys in *. rewrite <-(length_fmap fst prev).
          apply submseteq_length, NoDup_submseteq; [done|]. intros x Hx.
          by apply Hin'. }
        rewrite length_app in *. simpl in *. lia.
    + split; [|lia].
      destruct (Hstart c dc Hdc) as [[-> ->]|Hk].
      * split_and!; [done|done|]. by rewrite Z.sub_0_r in Hw.
      * by apply dict_get_None in Hc'.
  - split; [constructor|]. split; [by intros x ?%elem_of_nil|].
    exists dt. cbn. split_and!; [done|done|]. rewrite Z.sub_diag. constructor.
  - simpl. lia.
  - simpl. destruct (reverse path) as [|first rest] eqn:Hrev; [done|].
    injection Hhead as ->. rewrite decide_True by done. by eexists.
Qed.

Lemma reconstruct_path_none graph s dist prev t d0 :
  link_inv graph s dist prev →
  dict_get dist s = Some (Finite d0) → dict_get dist t = Some Infinity →
  reconstruct_path prev s t = Return None.
Proof.
  intros [Hedge _] Hs Ht. unfold reconstruct_path.
  assert (dict_mem prev t = false) as ->.
  { apply dict_mem_false. intros [y Hy]%dict_get_is_Some.
    destruct (Hedge t y Hy) as (w & dy & _ & _ & Hdt). congruence. }
  rewrite bool_decide_eq_false_2; [done|]. intros ->. congruence.
Qed.

(** The invariant of the two loops, as far as the paths are concerned. *)
Definition dijkstra_chain_inv graph s
    (st : list (node * distance) * list (node * node) * list (Z * node)
          * gset node) : Prop :=
  dijkstra_queue_inv graph s st
  ∧ dijkstra_prev_inv st.1.1.2 st.2
  ∧ link_inv graph s st.1.1.1 st.1.1.2
  ∧ ∃ d0, dict_get st.1.1.1 s = Some (Finite d0).

Lemma dijkstra_chain_inv_initial graph s :
  dijkstra_chain_inv graph s (initial_distances graph s, [], [(0%Z, s)], ∅).
Proof.
  split_and!.
  - apply dijkstra_queue_inv_initial.
  - apply dijkstra_prev_inv_initial.
  - apply link_inv_initial.
  - exists 0%Z. cbn [fst snd]. by rewrite initial_distances_get, decide_True.
Qed.

Lemma dijkstra_chain_inv_skip graph s dist prev pq pq' visited d n :
  pq ≡ₚ (d, n) :: pq' → n ∈ visited →
  dijkstra_chain_inv graph s (dist, prev, pq, visited) →
  dijkstra_chain_inv graph s (dist, prev, pq', visited).
Proof.
  intros Hperm Hn (Hq & Hp & Hl & Hs). split_and!; [|done..].
  by eapply dijkstra_queue_inv_skip.
Qed.

Lemma dijkstra_chain_inv_relax graph s dist prev pq pq' visited d n st' :
  pq ≡ₚ (d, n) :: pq' → (∀ e, e ∈ pq → (d ≤ e.1)%Z) → n ∉ visited →
  dijkstra_chain_inv graph s (dist, prev, pq, visited) →
  relax_post ({[n]} ∪ visited) n d (graph_get graph n) (dist, prev, pq') st' →
  for_each (graph_get graph n) (relax ({[n]} ∪ visited) n d) (dist, prev, pq')
    = Return st' →
  dijkstra_chain_inv graph s (st', {[n]} ∪ visited).
Proof.
  intros Hperm Hleast Hn (Hq & Hp & Hl & d0 & Hs) Hpost Hrun.
  cbn [fst snd] in *. split_and!; cbn [fst snd].
  - by eapply dijkstra_queue_inv_relax.
  - apply (dijkstra_prev_inv_relax visited n d (graph_get graph n)
             (dist, prev, pq') st' Hn Hp Hpost).
  - by eapply link_inv_relax.
  - destruct (rp_mono _ _ _ _ _ _ Hpost s _ Hs) as ([d1|] & Hd1 & Hle); [|done].
    by exists d1.
Qed.

Lemma dijkstra_algorithm_chain node_ltb graph s :
  neighbours_are_keys graph fst →
  ∃ r, dijkstra_algorithm node_ltb graph s = Return r
    ∧ dict_wf r.2 ∧ prev_ranked r.2 ∧ link_inv graph s r.1 r.2
    ∧ ∃ d0, dict_get r.1 s = Some (Finite d0).
Proof.
  intros Hclosed. unfold dijkstra_algorithm.
  apply (while_loop_rule (dijkstra_chain_inv graph s)
           (λ r, dict_wf r.2 ∧ prev_ranked r.2 ∧ link_inv graph s r.1 r.2
                 ∧ ∃ d0, dict_get r.1 s = Some (Finite d0))
           (dijkstra_measure graph)).
  - intros [[[dist prev] pq] visited] Hinv. pose proof Hinv as (Hq & Hp & Hl & Hs).
    destruct (dijkstra_algorithm_body_spec node_ltb graph s dist prev pq visited
                Hclosed Hq)
      as [[-> ->]|(d & n & pq' & _ & Hperm & Hleast
                   & [[Hn ->]|(Hn & st' & -> & Hpost & Hrun)])].
    + cbn [fst snd] in *. destruct (dijkstra_prev_inv_ranked _ _ Hp). done.
    + split; [|by eapply dijkstra_measure_skip].
      by eapply dijkstra_chain_inv_skip.
    + split; [|by eapply dijkstra_measure_relax].
      by eapply dijkstra_chain_inv_relax.
  - apply dijkstra_chain_inv_initial.
  - unfold dijkstra_measure. simpl. rewrite unvisited_size_empty. lia.
Qed.

Lemma dijkstra_single_target_chain node_ltb graph s target :
  neighbours_are_keys graph fst →
  ∃ r, dijkstra_single_target node_ltb graph s target = Return r
    ∧ match r.1 with
      | Finite c => ∃ p, r.2 = Some p ∧ head p = Some s ∧ last p = Some target
                         ∧ wpath graph p c
      | Infinity => r.2 = None
      end.
Proof.
  intros Hclosed. unfold dijkstra_single_target.
  apply (while_loop_rule
           (λ st, dijkstra_chain_inv graph s st ∧ target ∉ st.2)
           (λ r, match r.1 with
                 | Finite c => ∃ p, r.2 = Some p ∧ head p = Some s
                                 ∧ last p = Some target ∧ wpath graph p c
                 | Infinity => r.2 = None
                 end)
           (dijkstra_measure graph)).
  - intros [[[dist prev] pq] visited] [Hinv Ht]. cbn [fst snd] in Ht.
    pose proof Hinv as (Hq & Hp & Hl & Hs). cbn [fst snd] in Hp, Hl, Hs.
    destruct (dijkstra_algorithm_body_spec node_ltb graph s dist prev pq visited
                Hclosed Hq)
      as [[-> _]|(d & n & pq' & Hpop & Hperm & Hleast
                   & [[Hn _]|(Hn & st' & _ & Hpost & Hrun)])].
    + done.
    + unfold dijkstra_single_target_body. rewrite Hpop, decide_True by done.
      split; [|by eapply dijkstra_measure_skip].
      split; [by eapply dijkstra_chain_inv_skip|done].
    + unfold dijkstra_single_target_body. rewrite Hpop, decide_False by done.
      destruct (decide (n = target)) as [->|Hnt].
      * pose proof (dijkstra_popped_distance _ _ _ _ _ _ _ _ _
                      Hperm Hleast Hn Hq) as Hdn.
        destruct (dijkstra_prev_inv_ranked _ _ Hp) as [Hwf Hranked].
        destruct (reconstruct_path_spec graph s dist prev target d
                    Hwf Hranked Hl Hdn) as (p & -> & Hhead & Hlast & Hw).
        rewrite bind_Return. unfold dict_lookup. rewrite Hdn, bind_Return.
        cbn [fst snd]. by exists p.
      * rewrite Hrun, bind_Return.
        split; [|by eapply dijkstra_measure_relax].
        split; [by eapply dijkstra_chain_inv_relax|]. cbn [snd]. set_solver.
  - split; [apply dijkstra_chain_inv_initial|set_solver].
  - unfold dijkstra_measure. simpl. rewrite unvisited_size_empty. lia.
Qed.
End dijkstra_path_facts.

Section dijkstra_path_theorems.
Context `{Countable node}.
Import dijkstra.
Implicit Types (node_ltb : node → node → bool).
Implicit Types (graph : list (node * list (node * Z))).
Implicit Types (s t target : node).

(** X27. [dijkstra_algorithm] on a graph whose neighbours are all keys
    returns distances and predecessors that fit together: for a node with
    a finite distance, [reconstruct_path] gives a path from the start to
    the node whose edges have that distance as their total weight, and for
    a node at distance [inf] it gives [None]. *)
Theorem dijkstra_paths_have_the_recorded_weight node_ltb graph s :
  neighbours_are_keys graph fst →
  ∃ distances previous,
    dijkstra_algorithm node_ltb graph s = Return (distances, previous)
    ∧ (∀ t d, dict_get distances t = Some (Finite d) →
         ∃ path, reconstruct_path previous s t = Return (Some path)
           ∧ head path = Some s ∧ last path = Some t ∧ wpath graph path d)
    ∧ (∀ t, dict_get distances t = Some Infinity →
         reconstruct_path previous s t = Return None).
Proof.
  intros Hclosed.
  destruct (dijkstra_algorithm_chain node_ltb graph s Hclosed)
    as ([distances previous] & Hrun & Hwf & Hranked & Hlink & d0 & Hs).
  cbn [fst snd] in *. exists distances, previous. split_and!; [done| |].
  - intros t d Ht. by eapply reconstruct_path_spec.
  - intros t Ht. by eapply reconstruct_path_none.
Qed.

(** X28. [dijkstra_single_target] on a graph whose neighbours are all keys
    returns a finite distance together with a path from the start to the
    target whose edges have that distance as their total weight, or [inf]
    together with [None]. *)
Theorem dijkstra_single_target_path_has_the_returned_weight
    node_ltb graph s target :
  neighbours_are_keys graph fst →
  ∃ d path,
    dijkstra_single_target node_ltb graph s target = Return (d, path)
    ∧ match d with
      | Finite c => ∃ p, path = Some p ∧ head p = Some s
                      ∧ last p = Some target ∧ wpath graph p c
      | Infinity => path = None
      end.
Proof.
  intros Hclosed.
  destruct (dijkstra_single_target_chain node_ltb graph s target Hclosed)
    as ([d path] & Hrun & Hr).
  by exists d, path.
Qed.
End dijkstra_path_theorems.

Section dijkstra_path_examples.
Import dijkstra.

Lemma dijkstra_paths_have_the_recorded_weight_witness :
  neighbours_are_keys simple_weighted fst ∧
  ∃ distances previous,
    dijkstra_algorithm Nat.ltb simple_weighted 1 = Return (distances, previous)
    ∧ (∀ t d, dict_get distances t = Some (Finite d) →
         ∃ path, reconstruct_path previous 1 t = Return (Some path)
           ∧ head path = Some 1 ∧ last path = Some t
           ∧ wpath simple_weighted path d)
    ∧ (∀ t, dict_get distances t = Some Infinity →
         reconstruct_path previous 1 t = Return None).
Proof.
  split; [apply simple_weighted_closed|].
  exact (dijkstra_paths_have_the_recorded_weight Nat.ltb simple_weighted 1
           simple_weighted_closed).
Defined.

Lemma dijkstra_single_target_path_has_the_returned_weight_witness :
  neighbours_are_keys simple_weighted fst ∧
  ∃ d path,
    dijkstra_single_target Nat.ltb simple_weighted 1 5 = Return (d, path)
    ∧ match d with
      | Finite c => ∃ p, path = Some p ∧ head p = Some 1
                      ∧ last p = Some 5 ∧ wpath simple_weighted p c
      | Infinity => path = None
      end.
Proof.
  split; [apply simple_weighted_closed|].
  exact (dijkstra_single_target_path_has_the_returned_weight Nat.ltb
           simple_weighted 1 5 simple_weighted_closed).
Defined.

(** On the graph of the source the cheapest way from [A] to [E] is
    [A -> B -> D -> E], of weight [11]. *)
Example simple_weighted_path :
  dijkstra_single_target Nat.ltb simple_weighted 1 5
  = Return (Finite 11, Some [1; 2; 4; 5]).
Proof. vm_compute. reflexivity. Qed.
End dijkstra_path_examples.

(** ** Topological sorting by depth-first search *)

Section dfs_order_facts.
Context `{Countable node}.
Import topological_sort.
Implicit Types (graph : list (node * list node)) (visited : gset node).
Implicit Types (x y u n g : node) (r new : list node).

(** The order in which the calls finish: the neighbours of a node are
    listed before the node. *)
Definition finished_after graph r : Prop :=
  ∀ i x y, r !! i = Some x → edge graph x y → ∃ j, j < i ∧ r !! j = Some y.

Lemma finished_after_snoc graph r n :
  finished_after graph r → (∀ y, edge graph n y → y ∈ r) →
  finished_after graph (r ++ [n]).
Proof.
  intros Hr Hn i x y Hi Hxy.
  destruct (decide (i < length r)) as [Hlt|Hge].
  - rewrite lookup_app_l in Hi by done.
    destruct (Hr i x y Hi Hxy) as (j & Hj & Hy). exists j. split; [done|].
    rewrite lookup_app_l by lia. done.
  - rewrite lookup_app_r in Hi by lia.
    apply list_lookup_singleton_Some in Hi as [Hi ->].
    pose proof (Hn y Hxy) as [j Hj]%list_elem_of_lookup.
    pose proof (lookup_lt_Some _ _ _ Hj). exists j. split; [lia|].
    by rewrite lookup_app_l.
Qed.

Lemma finished_after_reverse graph r :
  NoDup r → finished_after graph r → topological_order graph (reverse r).
Proof.
  intros Hnd Hr i j u v Hi Hj Huv.
  pose proof (lookup_lt_Some _ _ _ Hi) as Hli.
  pose proof (lookup_lt_Some _ _ _ Hj) as Hlj.
  rewrite length_reverse in Hli, Hlj.
  rewrite reverse_lookup in Hi by done. rewrite reverse_lookup in Hj by done.
  destruct (Hr _ u v Hi Huv) as (k & Hk & Hv).
  assert (k = length r - S j) by (by eapply NoDup_lookup). lia.
Qed.

Lemma topological_dfs_spec graph fuel :
  ∀ n visited r,
    n ∈ graph_nodes graph → n ∉ visited →
    size (graph_nodes graph ∖ visited) ≤ fuel →
    ∃ visited' new,
      dfs fuel graph n (visited, r) = Return (visited', r ++ new ++ [n])
      ∧ (∀ x, x ∈ visited' ↔ x ∈ visited ∨ x ∈ new ++ [n])
      ∧ NoDup (new ++ [n])
      ∧ (∀ x, x ∈ new → x ∉ visited ∧ ∃ u, edge graph u x)
      ∧ (∀ x y, x ∈ new ++ [n] → edge graph x y → y ∈ visited')
      ∧ (acyclic graph → (∀ x, x ∈ r → x ∈ visited) →
         (∀ g, g ∈ visited → g ∉ r → reachable graph g n) →
         finished_after graph r → finished_after graph (r ++ new ++ [n])).
Proof.
  induction fuel as [|fuel IH]; intros n visited r Hn Hnv Hsize.
  { assert (size (graph_nodes graph ∖ visited) ≠ 0); [|lia].
    apply size_non_empty_iff. set_solver. }
  cbn [dfs].
  set (body := λ neighbor (st : gset node * list node),
         if decide (neighbor ∈ st.1) then Return st
         else dfs fuel graph neighbor st).
  assert (Hloop : ∀ l v1 r1,
    {[n]} ∪ visited ⊆ v1 → (∀ x, x ∈ l → edge graph n x) →
    ∃ v2 new, for_each l body (v1, r1) = Return (v2, r1 ++ new)
      ∧ (∀ x, x ∈ v2 ↔ x ∈ v1 ∨ x ∈ new)
      ∧ NoDup new
      ∧ (∀ x, x ∈ new → x ∉ v1 ∧ ∃ u, edge graph u x)
      ∧ (∀ x y, x ∈ new → edge graph x y → y ∈ v2)
      ∧ (∀ x, x ∈ l → x ∈ v2)
      ∧ (acyclic graph → (∀ x, x ∈ r1 → x ∈ v1) → n ∉ r1 →
         (∀ g, g ∈ v1 → g ∉ r1 → reachable graph g n) →
         finished_after graph r1 →
         finished_after graph (r1 ++ new) ∧ ∀ x, x ∈ l → x ∈ r1 ++ new)).
  { induction l as [|nb l IHl]; intros v1 r1 Hv1 Hl.
    { exists v1, []. rewrite app_nil_r.
      split_and!; [done|set_solver|constructor|set_solver|set_solver|
                   set_solver|].
      intros _ _ _ _ Hr1. split; [done|set_solver]. }
    rewrite for_each_cons. destruct (decide (nb ∈ v1)) as [Hnb|Hnb].
    - assert (body nb (v1, r1) = Return (v1, r1)) as ->
        by (unfold body; cbn [fst]; by rewrite decide_True).
      rewrite bind_Return.
      destruct (IHl v1 r1) as (v2 & new & -> & Hv2 & Hnd & Hnew & Hcl & Hin & Hord);
        [done|set_solver|].
      exists v2, new. split_and!; [done..| |].
      + intros x [->|?]%elem_of_cons; [|by auto]. apply Hv2. by left.
      + intros Hac Hr1 Hnr Hgray Hfin.
        destruct (Hord Hac Hr1 Hnr Hgray Hfin) as [Hfin' Hl'].
        split; [done|]. intros x [->|?]%elem_of_cons; [|by auto].
        apply elem_of_app. left.
        destruct (decide (nb ∈ r1)) as [|Hx]; [done|]. exfalso.
        apply (Hac n). eapply tc_rtc_r; [|by apply Hgray].
        apply tc_once, Hl. left.
    - assert (body nb (v1, r1) = dfs fuel graph nb (v1, r1)) as ->
        by (unfold body; cbn [fst]; by rewrite decide_False).
      destruct (IH nb v1 r1)
        as (v1' & new1 & -> & Hv1' & Hnd1 & Hnew1 & Hcl1 & Hord1).
      { eapply edge_graph_nodes, Hl. left. }
      { done. }
      { rewrite (size_difference_insert (graph_nodes graph) visited n)
          in Hsize by done.
        assert (size (graph_nodes graph ∖ v1)
                ≤ size (graph_nodes graph ∖ ({[n]} ∪ visited))); [|lia].
        apply subseteq_size. set_solver. }
      rewrite bind_Return.
      destruct (IHl v1' (r1 ++ new1 ++ [nb]))
        as (v2 & new2 & -> & Hv2 & Hnd2 & Hnew2 & Hcl2 & Hin2 & Hord2).
      { intros x Hx. apply Hv1'. left. set_solver. }
      { set_solver. }
      exists v2, ((new1 ++ [nb]) ++ new2).
      replace (r1 ++ (new1 ++ [nb]) ++ new2)
        with ((r1 ++ new1 ++ [nb]) ++ new2) by (by rewrite <-!app_assoc).
      split_and!; [done| | | | | |].
      + intros x. rewrite Hv2, Hv1', (elem_of_app (new1 ++ [nb]) new2). tauto.
      + apply NoDup_app. split_and!; [done| |done].
        intros x Hx1 [Hx2 _]%Hnew2. apply Hx2, Hv1'. by right.
      + intros x [[Hx| ->%list_elem_of_singleton]%elem_of_app|Hx]%elem_of_app.
        * by apply Hnew1.
        * split; [done|]. exists n. apply Hl. left.
        * destruct (Hnew2 x Hx) as [Hx1 ?]. split; [|done].
          intros ?. apply Hx1, Hv1'. by left.
      + intros x y [Hx|Hx]%elem_of_app Hxy; [|by eapply Hcl2].
        apply Hv2. left. by eapply Hcl1.
      + intros x [->|?]%elem_of_cons; [|by auto].
        apply Hv2. left. apply Hv1'. right. set_solver.
      + intros Hac Hr1 Hnr Hgray Hfin.
        assert (finished_after graph (r1 ++ new1 ++ [nb])) as Hfin1.
        { apply Hord1; [done..| |done].
          intros g Hg Hgr. eapply reachable_step; [by apply Hgray|].
          apply Hl. left. }
        destruct (Hord2 Hac) as [Hfin2 Hl2]; [| | |done|].
        * intros x [?|?]%elem_of_app; apply Hv1'; [left; auto|by right].
        * intros [?|[Hn1| ->%list_elem_of_singleton]%elem_of_app]%elem_of_app;
            [done| |].
          -- destruct (Hnew1 n Hn1) as [Hn' _]. apply Hn', Hv1. set_solver.
          -- apply Hnb, Hv1. set_solver.
        * intros g Hg Hgr. apply Hgray.
          -- apply Hv1' in Hg as [?|?]; [done|]. exfalso. apply Hgr.
             apply elem_of_app. by right.
          -- intros ?. apply Hgr. apply elem_of_app. by left.
        * split; [done|]. intros x [->|?]%elem_of_cons; [|by auto].
          apply elem_of_app. left. set_solver. }
  destruct (Hloop (graph_get graph n) ({[n]} ∪ visited) r)
    as (v2 & new & -> & Hv2 & Hnd & Hnew & Hcl & Hin & Hord); [done|done|].
  rewrite bind_Return. exists v2, new. rewrite <-app_assoc.
  split_and!; [done| | | | |].
  - intros x. rewrite Hv2, elem_of_app. set_solver.
  - apply NoDup_app. split_and!; [done| |apply NoDup_singleton].
    intros x [Hx _]%Hnew ->%list_elem_of_singleton. set_solver.
  - intros x [Hx ?]%Hnew. split; [set_solver|done].
  - intros x y [Hx| ->%list_elem_of_singleton]%elem_of_app Hxy;
      [by eapply Hcl|by apply Hin].
  - intros Hac Hr Hgray Hfin. destruct (Hord Hac) as [Hfin' Hl'].
    + set_solver.
    + intros ?. apply Hnv. auto.
    + intros g [->%elem_of_singleton|Hg]%elem_of_union Hgr;
        [apply rtc_refl|by apply Hgray].
    + done.
    + rewrite app_assoc. apply finished_after_snoc; [done|].
      intros y Hy. by apply Hl'.
Qed.

Lemma simple_dfs_topological_sort_spec graph :
  ∃ order, simple_dfs_topological_sort graph = Return order ∧ NoDup order
    ∧ (∀ x, x ∈ order ↔ x ∈ dict_keys graph ∨ ∃ u, edge graph u x)
    ∧ (topological_order graph order ↔ acyclic graph).
Proof.
  unfold simple_dfs_topological_sort.
  set (body := λ k (st : gset node * list node),
         if decide (k ∈ st.1) then Return st
         else dfs (2 + size (graph_nodes graph)) graph k st).
  assert (Hloop : ∀ l v1 r1,
    (∀ x, x ∈ l → x ∈ dict_keys graph) →
    (∀ x, x ∈ v1 ↔ x ∈ r1) → NoDup r1 →
    (∀ x, x ∈ r1 → x ∈ dict_keys graph ∨ ∃ u, edge graph u x) →
    (∀ x y, x ∈ r1 → edge graph x y → y ∈ r1) →
    (acyclic graph → finished_after graph r1) →
    ∃ v2 r2, for_each l body (v1, r1) = Return (v2, r2)
      ∧ NoDup r2 ∧ (∀ x, x ∈ r1 → x ∈ r2) ∧ (∀ x, x ∈ l → x ∈ r2)
      ∧ (∀ x, x ∈ r2 → x ∈ dict_keys graph ∨ ∃ u, edge graph u x)
      ∧ (∀ x y, x ∈ r2 → edge graph x y → y ∈ r2)
      ∧ (acyclic graph → finished_after graph r2)).
  { induction l as [|k l IHl]; intros v1 r1 Hl Hv1 Hnd Hr1 Hcl Hfin.
    { exists v1, r1. split_and!; [done|done|done|set_solver|done..]. }
    rewrite for_each_cons. destruct (decide (k ∈ v1)) as [Hk|Hk].
    - assert (body k (v1, r1) = Return (v1, r1)) as ->
        by (unfold body; cbn [fst]; by rewrite decide_True).
      rewrite bind_Return.
      destruct (IHl v1 r1) as (v2 & r2 & -> & Hnd2 & Hsub & Hin & Hr2 & Hcl2 & Hfin2);
        [set_solver|done..|].
      exists v2, r2. split_and!; [done..| |done|done|done].
      intros x [->|?]%elem_of_cons; [|by auto]. by apply Hsub, Hv1.
    - assert (body k (v1, r1)
              = dfs (2 + size (graph_nodes graph)) graph k (v1, r1)) as ->
        by (unfold body; cbn [fst]; by rewrite decide_False).
      destruct (topological_dfs_spec graph (2 + size (graph_nodes graph)) k v1 r1)
        as (v1' & new & -> & Hv1' & Hnd1 & Hnew & Hcl1 & Hord).
      { apply elem_of_graph_nodes. left. apply Hl. left. }
      { done. }
      { assert (size (graph_nodes graph ∖ v1) ≤ size (graph_nodes graph));
          [|lia].
        apply subseteq_size. set_solver. }
      rewrite bind_Return.
      destruct (IHl v1' (r1 ++ new ++ [k]))
        as (v2 & r2 & -> & Hnd2 & Hsub & Hin & Hr2 & Hcl2 & Hfin2).
      { set_solver. }
      { intros x. rewrite Hv1', Hv1, (elem_of_app r1). tauto. }
      { apply NoDup_app. split_and!; [done| |done].
        intros x Hx1 [[Hx2 _]%Hnew| ->%list_elem_of_singleton]%elem_of_app;
          [by apply Hx2, Hv1|by apply Hk, Hv1]. }
      { intros x [?|[[_ ?]%Hnew| ->%list_elem_of_singleton]%elem_of_app]%elem_of_app;
          [auto|auto|]. left. apply Hl. left. }
      { intros x y [Hx|Hx]%elem_of_app Hxy.
        - apply elem_of_app. left. by eapply Hcl.
        - apply elem_of_app. rewrite <-Hv1, <-Hv1'. by eapply Hcl1. }
      { intros Hac. apply Hord; [done| | |by apply Hfin].
        - intros x. apply Hv1.
        - intros g Hg Hgr. by apply Hv1 in Hg. }
      exists v2, r2. split_and!; [done|done| | |done|done|done].
      + intros x Hx. apply Hsub, elem_of_app. by left.
      + intros x [->|?]%elem_of_cons; [|by auto].
        apply Hsub. rewrite !elem_of_app, list_elem_of_singleton. auto. }
  destruct (Hloop (dict_keys graph) ∅ [])
    as (v2 & r2 & -> & Hnd & _ & Hin & Hr2 & Hcl & Hfin).
  { done. }
  { set_solver. }
  { constructor. }
  { set_solver. }
  { set_solver. }
  { intros _ i x y Hi. done. }
  rewrite bind_Return. exists (reverse r2).
  assert (∀ x, x ∈ reverse r2 ↔ x ∈ dict_keys graph ∨ ∃ u, edge graph u x)
    as Hmem.
  { intros x. rewrite elem_of_reverse. split.
    - apply Hr2.
    - intros [?|[u Hu]]; [by apply Hin|].
      eapply Hcl; [|done]. apply Hin. by eapply edge_key. }
  split_and!; [done|by rewrite reverse_Permutation|done|].
  split.
  - intros Hord. eapply topological_order_acyclic; [done|by rewrite reverse_Permutation|].
    intros x y Hxy. rewrite !Hmem. split; [left; by eapply edge_key|eauto].
  - intros Hac. apply finished_after_reverse; auto.
Qed.
End dfs_order_facts.

Section dfs_order_theorems.
Context `{Countable node}.
Import topological_sort.
Implicit Types (graph : list (node * list node)).

(** X29. [simple_dfs_topological_sort] returns, on every graph, a list
    without repetition of the keys and of the nodes listed as neighbours
    (a neighbour needs no entry of its own).  The list is a topological
    order exactly when the graph has no cycle: the function does not notice
    a cycle and returns an order all the same. *)
Theorem simple_dfs_topological_sort_sorts graph :
  ∃ order, simple_dfs_topological_sort graph = Return order ∧ NoDup order
    ∧ (∀ x, x ∈ order ↔ x ∈ dict_keys graph ∨ ∃ u, edge graph u x)
    ∧ (topological_order graph order ↔ acyclic graph).
Proof. apply simple_dfs_topological_sort_spec. Qed.
End dfs_order_theorems.

Section dfs_order_examples.
Import topological_sort.

(** Getting dressed, with and without an entry for the shoes, and a cycle,
    which goes unnoticed. *)
Example dressing_dfs_order :
  simple_dfs_topological_sort dressing = Return [3; 1; 2; 4]
  ∧ simple_dfs_topological_sort dressing_open = Return [3; 1; 2; 4]
  ∧ simple_dfs_topological_sort [(1, [2]); (2, [3]); (3, [1])]
    = Return [1; 2; 3].
Proof. split_and!; vm_compute; reflexivity. Qed.
End dfs_order_examples.

(** ** Cycle detection with three colours *)

Lemma tc_first {A} (R : relation A) (a c : A) :
  tc R a c → ∃ b, R a b ∧ rtc R b c.
Proof.
  destruct 1 as [a c Hac|a b c Hab Hbc]; [exists c|exists b]; split; try done.
  by apply tc_rtc.
Qed.

Section three_colours_facts.
Context `{Countable node}.
Import cycle_detection.
Implicit Types (graph : list (node * list node)) (colors : list (node * Z)).
Implicit Types (x y u n g : node) (G B : gset node).

(** The colour of a node, given the nodes in progress and the nodes done. *)
Definition color_of G B x : Z :=
  if decide (x ∈ B) then BLACK else if decide (x ∈ G) then GRAY else WHITE.

(** [colors] has the keys of the graph, [G] in gray and [B] in black. *)
Definition colors_rep graph colors G B : Prop :=
  ∀ x, dict_get colors x
       = if decide (x ∈ dict_keys graph) then Some (color_of G B x) else None.

(** The nodes that are done: their neighbours are done, and none of them
    lies on a cycle. *)
Record black_inv graph B : Prop := {
  black_keys : ∀ x, x ∈ B → x ∈ dict_keys graph;
  black_closed : ∀ x y, x ∈ B → edge graph x y → y ∈ B;
  black_acyclic : ∀ x, x ∈ B → ¬ tc (edge graph) x x
}.

(** What a search gives: a cycle when it says so, a [KeyError] only for a
    neighbour without an entry, and [P] of the colours otherwise. *)
Definition search_outcome graph (P : list (node * Z) → Prop)
    (m : result (list (node * Z) * bool)) : Prop :=
  match m with
  | Return (colors, true) => ∃ v, tc (edge graph) v v
  | Return (colors, false) => P colors
  | Raise e => e = KeyError ∧ ∃ u v, edge graph u v ∧ v ∉ dict_keys graph
  | OutOfFuel => False
  end.

Lemma colors_initial (us : list node) colors x :
  dict_get (foldl (λ colors node, dict_set colors node WHITE) colors us) x
  = if decide (x ∈ us) then Some WHITE else dict_get colors x.
Proof.
  revert colors. induction us as [|u us IH]; intros colors; cbn [foldl].
  - by rewrite decide_False by apply not_elem_of_nil.
  - rewrite IH, dict_get_set. destruct (decide (x ∈ us)).
    + by rewrite decide_True by (by right).
    + destruct (decide (u = x)) as [->|].
      * by rewrite decide_True by (by left).
      * rewrite decide_False; [done|]. intros [->|?]%elem_of_cons; done.
Qed.

Lemma colors_rep_initial graph :
  colors_rep graph
    (foldl (λ colors node, dict_set colors node WHITE) [] (dict_keys graph)) ∅ ∅.
Proof.
  intros x. rewrite colors_initial. by case_decide.
Qed.

Lemma colors_rep_gray graph colors G B n :
  n ∈ dict_keys graph → n ∉ B →
  colors_rep graph colors G B →
  colors_rep graph (dict_set colors n GRAY) (G ∪ {[n]}) B.
Proof.
  intros Hn HnB Hrep x. rewrite dict_get_set, Hrep. unfold color_of.
  destruct (decide (n = x)) as [->|Hne].
  - rewrite decide_True by done. rewrite decide_False by done.
    by rewrite decide_True by set_solver.
  - case_decide; [|done]. do 2 f_equal.
    destruct (decide (x ∈ B)); [done|].
    destruct (decide (x ∈ G)).
    + by rewrite decide_True by set_solver.
    + by rewrite decide_False by set_solver.
Qed.

Lemma colors_rep_black graph colors G B n :
  n ∈ dict_keys graph → n ∉ G →
  colors_rep graph colors (G ∪ {[n]}) B →
  colors_rep graph (dict_set colors n BLACK) G (B ∪ {[n]}).
Proof.
  intros Hn HnG Hrep x. rewrite dict_get_set, Hrep. unfold color_of.
  destruct (decide (n = x)) as [->|Hne].
  - rewrite decide_True by done. by rewrite decide_True by set_solver.
  - case_decide; [|done]. do 2 f_equal.
    destruct (decide (x ∈ B)).
    + by rewrite decide_True by set_solver.
    + rewrite (decide_False (P := x ∈ B ∪ {[n]})) by set_solver.
      destruct (decide (x ∈ G)).
      * by rewrite decide_True by set_solver.
      * by rewrite decide_False by set_solver.
Qed.

Lemma black_inv_empty graph : black_inv graph ∅.
Proof. constructor; set_solver. Qed.

Lemma black_inv_finish graph B n :
  n ∈ dict_keys graph → n ∉ B →
  (∀ y, edge graph n y → y ∈ B) →
  black_inv graph B → black_inv graph (B ∪ {[n]}).
Proof.
  intros Hn HnB Hnb [Hk Hcl Hac]. constructor.
  - intros x [?| ->%elem_of_singleton]%elem_of_union; auto.
  - intros x y [?| ->%elem_of_singleton]%elem_of_union Hxy;
      apply elem_of_union; left; eauto.
  - intros x [?| ->%elem_of_singleton]%elem_of_union; [by apply Hac|].
    intros (y & Hny & Hyn)%tc_first. apply HnB.
    apply (reachable_closed graph (λ x, x ∈ B) y n); [by apply Hnb|done|done].
Qed.

(** Once a cycle is found, the rest of a loop hands the answer on. *)
Lemma for_each_found {A} (l : list A) colors
    (body : A → list (node * Z) * bool → result (list (node * Z) * bool)) :
  (∀ a colors, body a (colors, true) = Return (colors, true)) →
  for_each l body (colors, true) = Return (colors, true).
Proof.
  intros Hbody. induction l as [|a l IH]; [done|].
  by rewrite for_each_cons, Hbody, bind_Return.
Qed.

Lemma dfs_has_cycle_spec graph fuel :
  ∀ n colors G B,
    colors_rep graph colors G B → black_inv graph B → B ## G →
    n ∈ dict_keys graph → n ∉ G → n ∉ B →
    size (graph_nodes graph ∖ (G ∪ B)) ≤ fuel →
    (∀ g, g ∈ G → reachable graph g n) →
    search_outcome graph
      (λ colors', ∃ B', colors_rep graph colors' G B' ∧ black_inv graph B'
                        ∧ B' ## G ∧ B ⊆ B' ∧ n ∈ B')
      (dfs_has_cycle fuel graph n colors).
Proof.
  induction fuel as [|fuel IH]; intros n colors G B Hrep Hblack Hdisj Hn HnG HnB
    Hsize Hgray.
  { assert (size (graph_nodes graph ∖ (G ∪ B)) ≠ 0);
      [|lia].
    apply size_non_empty_iff. set_solver. }
  cbn [dfs_has_cycle].
  set (body := λ neighbor '(colors, found),
         if found : bool then Return (colors, true)
         else
           color ← dict_lookup colors neighbor;
           if decide (color = GRAY) then Return (colors, true)
           else if decide (color = WHITE)
           then dfs_has_cycle fuel graph neighbor colors
           else Return (colors, false)).
  assert (Hfound : ∀ l c, for_each l body (c, true) = Return (c, true)).
  { intros l c. by apply for_each_found. }
  assert (Hloop : ∀ l colors1 B1,
    (∀ x, x ∈ l → edge graph n x) →
    colors_rep graph colors1 (G ∪ {[n]}) B1 → black_inv graph B1 →
    B1 ## G ∪ {[n]} → B ⊆ B1 →
    search_outcome graph
      (λ colors2, ∃ B2, colors_rep graph colors2 (G ∪ {[n]}) B2
                        ∧ black_inv graph B2 ∧ B2 ## G ∪ {[n]} ∧ B1 ⊆ B2
                        ∧ ∀ x, x ∈ l → x ∈ B2)
      (for_each l body (colors1, false))).
  { induction l as [|nb l IHl]; intros colors1 B1 Hl Hrep1 Hblack1 Hdisj1 Hsub1.
    { simpl. exists B1. split_and!; [done..|]. by intros x ?%elem_of_nil. }
    rewrite for_each_cons.
    assert (body nb (colors1, false)
            = color ← dict_lookup colors1 nb;
              if decide (color = GRAY) then Return (colors1, true)
              else if decide (color = WHITE)
              then dfs_has_cycle fuel graph nb colors1
              else Return (colors1, false)) as -> by done.
    unfold dict_lookup. rewrite Hrep1.
    destruct (decide (nb ∈ dict_keys graph)) as [Hnbk|Hnbk]; cycle 1.
    { simpl. split; [done|]. exists n, nb. split; [|done]. apply Hl. left. }
    rewrite bind_Return. unfold color_of.
    destruct (decide (nb ∈ B1)) as [HnbB|HnbB].
    { rewrite decide_False by done. rewrite decide_False by done.
      rewrite bind_Return.
      specialize (IHl colors1 B1).
      destruct (for_each l body (colors1, false)) as [[c2 [|]]|e|]; simpl in *.
      - apply IHl; [set_solver|done..].
      - destruct IHl as (B2 & ? & ? & ? & ? & Hin); [set_solver|done..|].
        exists B2. split_and!; [done..|].
        intros x [->|?]%elem_of_cons; [set_solver|auto].
      - apply IHl; [set_solver|done..].
      - apply IHl; [set_solver|done..]. }
    destruct (decide (nb ∈ G ∪ {[n]})) as [HnbG|HnbG].
    { rewrite decide_True by done. rewrite bind_Return, Hfound. simpl.
      exists n. eapply tc_rtc_r; [apply tc_once, Hl; by left|].
      apply elem_of_union in HnbG as [?| ->%elem_of_singleton];
        [by apply Hgray|apply rtc_refl]. }
    rewrite decide_False by done. rewrite decide_True by done.
    assert (size (graph_nodes graph
                    ∖ (G ∪ {[n]} ∪ B1)) ≤ fuel) as Hsize1.
    { rewrite (size_difference_insert _ (G ∪ B) n) in Hsize by set_solver.
      assert (size (graph_nodes graph
                      ∖ (G ∪ {[n]} ∪ B1))
              ≤ size (graph_nodes graph
                        ∖ ({[n]} ∪ (G ∪ B)))); [|lia].
      apply subseteq_size. set_solver. }
    assert (∀ g, g ∈ G ∪ {[n]} → reachable graph g nb) as Hgray1.
    { intros g [?| ->%elem_of_singleton]%elem_of_union.
      - eapply reachable_step; [by apply Hgray|]. apply Hl. by left.
      - apply rtc_once, Hl. by left. }
    specialize (IH nb colors1 (G ∪ {[n]}) B1 Hrep1 Hblack1 Hdisj1 Hnbk HnbG HnbB
                  Hsize1 Hgray1).
    destruct (dfs_has_cycle fuel graph nb colors1) as [[c1' [|]]|e|];
      simpl in IH |- *; [by rewrite Hfound| |done..].
    destruct IH as (B1' & Hrep1' & Hblack1' & Hdisj1' & Hsub1' & HnbB').
    specialize (IHl c1' B1').
    destruct (for_each l body (c1', false)) as [[c2 [|]]|e|]; simpl in *.
    - apply IHl; [set_solver|done..|set_solver].
    - destruct IHl as (B2 & ? & ? & ? & ? & Hin);
        [set_solver|done..|set_solver|].
      exists B2. split_and!; [done..|set_solver|].
      intros x [->|?]%elem_of_cons; [set_solver|auto].
    - apply IHl; [set_solver|done..|set_solver].
    - apply IHl; [set_solver|done..|set_solver]. }
  specialize (Hloop (graph_get graph n) (dict_set colors n GRAY) B).
  destruct (for_each (graph_get graph n) body (dict_set colors n GRAY, false))
    as [[c2 [|]]|e|]; simpl in *.
  - apply Hloop; [done|by apply colors_rep_gray|done|set_solver|done].
  - destruct Hloop as (B2 & Hrep2 & Hblack2 & Hdisj2 & Hsub2 & Hin);
      [done|by apply colors_rep_gray|done|set_solver|done|].
    exists (B2 ∪ {[n]}). split_and!.
    + by apply colors_rep_black.
    + apply black_inv_finish; [done|set_solver|done|done].
    + set_solver.
    + set_solver.
    + set_solver.
  - apply Hloop; [done|by apply colors_rep_gray|done|set_solver|done].
  - apply Hloop; [done|by apply colors_rep_gray|done|set_solver|done].
Qed.
Lemma detect_cycle_directed_dfs_spec graph :
  match detect_cycle_directed_dfs graph with
  | Return true => ∃ v, tc (edge graph) v v
  | Return false => acyclic graph ∧ neighbours_are_keys graph id
  | Raise e => e = KeyError ∧ ∃ u v, edge graph u v ∧ v ∉ dict_keys graph
  | OutOfFuel => False
  end.
Proof.
  unfold detect_cycle_directed_dfs.
  set (body := λ k '(colors, found),
         if found : bool then Return (colors, true)
         else
           color ← dict_lookup colors k;
           if decide (color = WHITE)
           then dfs_has_cycle (2 + size (graph_nodes graph)) graph k colors
           else Return (colors, false)).
  assert (Hfound : ∀ l c, for_each l body (c, true) = Return (c, true)).
  { intros l c. by apply for_each_found. }
  assert (Hloop : ∀ l colors1 B1,
    (∀ x, x ∈ l → x ∈ dict_keys graph) →
    colors_rep graph colors1 ∅ B1 → black_inv graph B1 →
    search_outcome graph
      (λ colors2, ∃ B2, black_inv graph B2 ∧ B1 ⊆ B2 ∧ ∀ x, x ∈ l → x ∈ B2)
      (for_each l body (colors1, false))).
  { induction l as [|k l IHl]; intros colors1 B1 Hl Hrep1 Hblack1.
    { simpl. exists B1. split_and!; [done..|]. by intros x ?%elem_of_nil. }
    rewrite for_each_cons.
    assert (body k (colors1, false)
            = color ← dict_lookup colors1 k;
              if decide (color = WHITE)
              then dfs_has_cycle (2 + size (graph_nodes graph)) graph k colors1
              else Return (colors1, false)) as -> by done.
    assert (k ∈ dict_keys graph) as Hk by (apply Hl; by left).
    unfold dict_lookup. rewrite Hrep1, decide_True, bind_Return by done.
    unfold color_of. destruct (decide (k ∈ B1)) as [HkB|HkB].
    { rewrite decide_False by done. rewrite bind_Return.
      specialize (IHl colors1 B1).
      destruct (for_each l body (colors1, false)) as [[c2 [|]]|e|]; simpl in *.
      - apply IHl; [set_solver|done..].
      - destruct IHl as (B2 & ? & ? & Hin); [set_solver|done..|].
        exists B2. split_and!; [done..|].
        intros x [->|?]%elem_of_cons; [set_solver|auto].
      - apply IHl; [set_solver|done..].
      - apply IHl; [set_solver|done..]. }
    destruct (decide (k ∈ (∅ : gset node))) as [?%elem_of_empty|_]; [done|].
    rewrite decide_True by done.
    assert (Hcall : search_outcome graph
              (λ colors', ∃ B', colors_rep graph colors' ∅ B'
                 ∧ black_inv graph B' ∧ B' ## ∅ ∧ B1 ⊆ B' ∧ k ∈ B')
              (dfs_has_cycle (2 + size (graph_nodes graph)) graph k colors1)).
    { apply dfs_has_cycle_spec;
        [done|done|set_solver|done|set_solver|done| |set_solver].
      assert (size (graph_nodes graph ∖ (∅ ∪ B1)) ≤ size (graph_nodes graph));
        [|lia].
      apply subseteq_size. set_solver. }
    destruct (dfs_has_cycle (2 + size (graph_nodes graph)) graph k colors1)
      as [[c1' [|]]|e|]; simpl in Hcall |- *; [by rewrite Hfound| |done..].
    destruct Hcall as (B1' & Hrep1' & Hblack1' & _ & Hsub1' & HkB').
    specialize (IHl c1' B1').
    destruct (for_each l body (c1', false)) as [[c2 [|]]|e|]; simpl in *.
    - apply IHl; [set_solver|done..].
    - destruct IHl as (B2 & ? & ? & Hin); [set_solver|done..|].
      exists B2. split_and!; [done|set_solver|].
      intros x [->|?]%elem_of_cons; [set_solver|auto].
    - apply IHl; [set_solver|done..].
    - apply IHl; [set_solver|done..]. }
  specialize (Hloop (dict_keys graph) _ ∅ (λ x Hx, Hx) (colors_rep_initial graph)
                (black_inv_empty graph)).
  destruct (for_each (dict_keys graph) body _) as [[c2 [|]]|e|]; simpl in *;
    [done| |done..].
  destruct Hloop as (B2 & [Hk Hcl Hac] & _ & Hin). split.
  - intros v Hv. apply (Hac v); [|done]. apply Hin.
    destruct (tc_first _ _ _ Hv) as (y & Hvy & _). by eapply edge_key.
  - intros x a Hxa. apply Hk. eapply Hcl; [|exact Hxa].
    apply Hin. by eapply edge_key.
Qed.
End three_colours_facts.

Section three_colours_theorems.
Context `{Countable node}.
Import cycle_detection.
Implicit Types (graph : list (node * list node)).

(** X30. What [detect_cycle_directed_dfs] gives, on every graph: [True]
    only when some node reaches itself, [False] only when the graph has no
    cycle and every neighbour is a key, and no other error than the
    [KeyError] of a neighbour without an entry.  So on a graph whose
    neighbours are all keys it returns whether the graph has a cycle. *)
Theorem detect_cycle_directed_dfs_detects graph :
  match detect_cycle_directed_dfs graph with
  | Return true => ∃ v, tc (edge graph) v v
  | Return false => acyclic graph ∧ neighbours_are_keys graph id
  | Raise e => e = KeyError ∧ ∃ u v, edge graph u v ∧ v ∉ dict_keys graph
  | OutOfFuel => False
  end.
Proof. apply detect_cycle_directed_dfs_spec. Qed.
End three_colours_theorems.

Section three_colours_examples.
Import cycle_detection.

(** Getting dressed has no cycle; without the entry of the shoes the lookup
    of their colour fails; a cycle is found, also when it is met before a
    neighbour without an entry. *)
Example three_colours_on_small_graphs :
  detect_cycle_directed_dfs dressing = Return false
  ∧ detect_cycle_directed_dfs dressing_open = Raise KeyError
  ∧ detect_cycle_directed_dfs [(1, [2]); (2, [3]); (3, [1])] = Return true
  ∧ detect_cycle_directed_dfs [(1, [1; 2])] = Return true
  ∧ detect_cycle_directed_dfs [(1, [2; 1])] = Raise KeyError.
Proof. split_and!; vm_compute; reflexivity. Qed.
End three_colours_examples.
